(** * GOST2-128 in CBC mode with a SHA-256 trailer: a shallow embedding

    The development follows [gost2-128-cbc.c] top to bottom: the key hash
    ([init_gost_keyhash], [hashing], [end_gost_keyhash], [create_keys]), the
    block cipher ([kboxinit], [f], [gostcrypt], [gostdecrypt]), SHA-256, the
    padding helpers, the two CBC stream functions and [main]; the password
    prompt and the file-name helpers come after these, in [Cli].

    Conventions.
    - A C [unsigned char], [uint32_t] or [word64] is a [Z] in the range of
      its type; every operation that can leave the range in C is followed
      here by the reduction the C type performs ([mod 2^8], [2^32], [2^64]).
    - A C array is a [list Z]; [idx a i] reads [a[i]] and [<[i:=v]> a]
      writes it.
    - A [FILE*] opened for reading is the list of its bytes together with a
      read position; a [FILE*] opened for writing is the list of the bytes
      written so far.  Reads and writes on such in-memory files do not fail,
      so the [fwrite]/[fseek] failure branches of the C code are not part of
      the model; every other branch is. *)

From Stdlib Require Import ZArith Lia Bool.
From stdpp Require Import prelude.

Local Open Scope Z_scope.

(** ** Machine arithmetic *)

Module Word.

Definition byte_ok (b : Z) : Prop := 0 <= b < 256.
Definition bytes_ok (l : list Z) : Prop := Forall byte_ok l.
Definition word64_ok (x : Z) : Prop := 0 <= x < 2 ^ 64.

(** [a[i]] for a C array [a] and an [int]/[size_t] index [i]. *)
Definition idx (a : list Z) (i : Z) : Z := nth (Z.to_nat i) a 0.

(** [word64] addition and left shift: unsigned wrap-around. *)
Definition add64 (a b : Z) : Z := (a + b) mod 2 ^ 64.
Definition shl64 (x n : Z) : Z := Z.shiftl x n mod 2 ^ 64.

(** [uint32_t] addition, left shift and complement. *)
Definition add32 (a b : Z) : Z := (a + b) mod 2 ^ 32.
Definition shl32 (x n : Z) : Z := Z.shiftl x n mod 2 ^ 32.
Definition not32 (x : Z) : Z := 2 ^ 32 - 1 - x.

(** Conversion to [unsigned char]. *)
Definition to_uchar (x : Z) : Z := x mod 256.

End Word.
Import Word.

(** ** GOST2-128 block cipher *)

Module Gost.

Definition k1 : list Z := [0x4;0xA;0x9;0x2;0xD;0x8;0x0;0xE;0x6;0xB;0x1;0xC;0x7;0xF;0x5;0x3].
Definition k2 : list Z := [0xE;0xB;0x4;0xC;0x6;0xD;0xF;0xA;0x2;0x3;0x8;0x1;0x0;0x7;0x5;0x9].
Definition k3 : list Z := [0x5;0x8;0x1;0xD;0xA;0x3;0x4;0x2;0xE;0xF;0xC;0x7;0x6;0x0;0x9;0xB].
Definition k4 : list Z := [0x7;0xD;0xA;0x1;0x0;0x8;0x9;0xF;0xE;0x4;0x6;0xC;0xB;0x2;0x5;0x3].
Definition k5 : list Z := [0x6;0xC;0x7;0x1;0x5;0xF;0xD;0x8;0x4;0xA;0x9;0xE;0x0;0x3;0xB;0x2].
Definition k6 : list Z := [0x4;0xB;0xA;0x0;0x7;0x2;0x1;0xD;0x3;0x6;0x8;0x5;0x9;0xC;0xF;0xE].
Definition k7 : list Z := [0xD;0xB;0x4;0x1;0x3;0xF;0x5;0x9;0x0;0xA;0xE;0x7;0x6;0x8;0x2;0xC].
Definition k8 : list Z := [0x1;0xF;0xD;0x0;0x5;0x7;0xA;0x4;0x9;0x2;0x3;0xE;0x6;0xB;0x8;0xC].

Definition k9  : list Z := [0xC;0x4;0x6;0x2;0xA;0x5;0xB;0x9;0xE;0x8;0xD;0x7;0x0;0x3;0xF;0x1].
Definition k10 : list Z := [0x6;0x8;0x2;0x3;0x9;0xA;0x5;0xC;0x1;0xE;0x4;0x7;0xB;0xD;0x0;0xF].
Definition k11 : list Z := [0xB;0x3;0x5;0x8;0x2;0xF;0xA;0xD;0xE;0x1;0x7;0x4;0xC;0x9;0x6;0x0].
Definition k12 : list Z := [0xC;0x8;0x2;0x1;0xD;0x4;0xF;0x6;0x7;0x0;0xA;0x5;0x3;0xE;0x9;0xB].
Definition k13 : list Z := [0x7;0xF;0x5;0xA;0x8;0x1;0x6;0xD;0x0;0x9;0x3;0xE;0xB;0x4;0x2;0xC].
Definition k14 : list Z := [0x5;0xD;0xF;0x6;0x9;0x2;0xC;0xA;0xB;0x7;0x8;0x1;0x4;0x3;0xE;0x0].
Definition k15 : list Z := [0x8;0xE;0x2;0x5;0x6;0x9;0x1;0xC;0xF;0x4;0xB;0x0;0xD;0xA;0x3;0x7].
Definition k16 : list Z := [0x1;0x7;0xE;0xD;0x0;0x5;0x8;0x3;0x4;0xF;0xA;0x6;0x9;0xC;0xB;0x2].

(** The eight byte tables, global arrays in the C file. *)
Record kboxes : Type := {
  k175 : list Z; k153 : list Z; k131 : list Z; k109 : list Z;
  k87 : list Z; k65 : list Z; k43 : list Z; k21 : list Z
}.

(** One line of the body of [kboxinit]'s loop:
    [hi[i >> 4] << 4 | lo[i & 15]], stored in an [unsigned char]. *)
Definition kbox_entry (hi lo : list Z) (i : Z) : Z :=
  to_uchar (Z.lor (Z.shiftl (idx hi (Z.shiftr i 4)) 4) (idx lo (Z.land i 15))).

(** [kboxinit]: the loop [for (i = 0; i < 256; i++)] fills entry [i] of
    each of the eight tables. *)
Definition kboxinit : kboxes :=
  let fill hi lo := map (kbox_entry hi lo) (seqZ 0 256) in
  {| k175 := fill k16 k15; k153 := fill k14 k13;
     k131 := fill k12 k11; k109 := fill k10 k9;
     k87 := fill k8 k7; k65 := fill k6 k5;
     k43 := fill k4 k3; k21 := fill k2 k1 |}.

(** The tables as the cipher sees them: [main] calls [kboxinit] before the
    first block is processed and nothing writes them afterwards. *)
Definition K : kboxes := Eval vm_compute in kboxinit.

(** [f]: the round function. *)
Definition f (x : Z) : Z :=
  let y := Z.shiftr x 32 in
  let z := Z.land x 0xffffffff in
  let y :=
    Z.lor (Z.lor (Z.lor
      (shl64 (idx (k87 K) (Z.land (Z.shiftr y 24) 255)) 24)
      (shl64 (idx (k65 K) (Z.land (Z.shiftr y 16) 255)) 16))
      (shl64 (idx (k43 K) (Z.land (Z.shiftr y 8) 255)) 8))
      (idx (k21 K) (Z.land y 255)) in
  let z :=
    Z.lor (Z.lor (Z.lor
      (shl64 (idx (k175 K) (Z.land (Z.shiftr z 24) 255)) 24)
      (shl64 (idx (k153 K) (Z.land (Z.shiftr z 16) 255)) 16))
      (shl64 (idx (k131 K) (Z.land (Z.shiftr z 8) 255)) 8))
      (idx (k109 K) (Z.land z 255)) in
  let x := Z.lor (shl64 y 32) (Z.land z 0xffffffff) in
  Z.lor (shl64 x 11) (Z.shiftr x (64 - 11)).

(** The body of the loop of [gostcrypt], [i] iterations from key index
    [k] (the C counter [k++]). *)
Fixpoint crypt_rounds (i : nat) (k : Z) (key : list Z) (a b : Z) : Z * Z :=
  match i with
  | O => (a, b)
  | S i' =>
      let b := Z.lxor b (f (add64 a (idx key k))) in
      let a := Z.lxor a (f (add64 b (idx key (k + 1)))) in
      crypt_rounds i' (k + 2) key a b
  end.

(** [gostcrypt]: [in[0], in[1]] to [out[0], out[1]]. *)
Definition gostcrypt (inw : Z * Z) (key : list Z) : Z * Z :=
  let '(a, b) := crypt_rounds 32 0 key (fst inw) (snd inw) in (b, a).

(** The loop of [gostdecrypt]: the counter [k--] runs downwards. *)
Fixpoint decrypt_rounds (i : nat) (k : Z) (key : list Z) (a b : Z) : Z * Z :=
  match i with
  | O => (a, b)
  | S i' =>
      let b := Z.lxor b (f (add64 a (idx key k))) in
      let a := Z.lxor a (f (add64 b (idx key (k - 1)))) in
      decrypt_rounds i' (k - 2) key a b
  end.

Definition gostdecrypt (inw : Z * Z) (key : list Z) : Z * Z :=
  let '(a, b) := decrypt_rounds 32 63 key (fst inw) (snd inw) in (b, a).

End Gost.

(** ** The key hash and the key schedule *)

Module KeyHash.

Definition n1 : Z := 512.

(** The file-scope variables [x1], [x2], [h2[n1]] and [h1[n1*3]]. *)
Record state : Type := {
  x1 : Z;
  x2 : Z;
  h2 : list Z;
  h1 : list Z
}.

(** Static storage at program start: everything is zero. *)
Definition startup : state :=
  {| x1 := 0; x2 := 0;
     h2 := replicate (Z.to_nat n1) 0;
     h1 := replicate (Z.to_nat (n1 * 3)) 0 |}.

(** [init_gost_keyhash]: clears [x1], [x2], all of [h2] and the first
    [n1] bytes of [h1]; the other two thirds of [h1] are left as they
    are. *)
Definition init_gost_keyhash (st : state) : state :=
  {| x1 := 0; x2 := 0;
     h2 := replicate (Z.to_nat n1) 0;
     h1 := replicate (Z.to_nat n1) 0 ++ drop (Z.to_nat n1) (h1 st) |}.

Definition s4 : list Z :=
  [ 13;199;11;67;237;193;164;77;115;184;141;222;73;38;147;36;150;87;21;104;12;61;156;101;111;145;
    119;22;207;35;198;37;171;167;80;30;219;28;213;121;86;29;214;242;6;4;89;162;110;175;19;157;3;88;234;94;144;118;159;239;100;17;182;173;238;
    68;16;79;132;54;163;52;9;58;57;55;229;192;170;226;56;231;187;158;70;224;233;245;26;47;32;44;247;8;251;20;197;185;109;153;204;218;93;178;
    212;137;84;174;24;120;130;149;72;180;181;208;255;189;152;18;143;176;60;249;27;227;128;139;243;253;59;123;172;108;211;96;138;10;215;42;225;40;81;
    65;90;25;98;126;154;64;124;116;122;5;1;168;83;190;131;191;244;240;235;177;155;228;125;66;43;201;248;220;129;188;230;62;75;71;78;34;31;216;
    254;136;91;114;106;46;217;196;92;151;209;133;51;236;33;252;127;179;69;7;183;105;146;97;39;15;205;112;200;166;223;45;48;246;186;41;148;140;107;
    76;85;95;194;142;50;49;134;23;135;169;221;210;203;63;165;82;161;202;53;14;206;232;103;102;195;117;250;99;0;74;160;241;2;113 ].

(** The first argument of [hashing] is a pointer.  [end_gost_keyhash]
    passes once a local array and once the global [h2] itself, which
    [hashing] also writes; the two cases are kept apart. *)
Inductive source : Type :=
| Buffer (t1 : list Z)
| GlobalH2.

(** [t1[b4]] in the current state. *)
Definition read (t1 : source) (st : state) (b4 : Z) : Z :=
  match t1 with
  | Buffer l => idx l b4
  | GlobalH2 => idx (h2 st) b4
  end.

(** The body of the inner [for] loop of [hashing], [b5] already read. *)
Definition absorb_byte (b5 : Z) (st : state) : state :=
  let h1a := <[Z.to_nat (x2 st + n1) := b5]> (h1 st) in
  let h1b := <[Z.to_nat (x2 st + n1 * 2) := Z.lxor b5 (idx h1a (x2 st))]> h1a in
  let v := Z.lxor (idx (h2 st) (x2 st)) (idx s4 (Z.lxor b5 (x1 st))) in
  {| x1 := v; x2 := x2 st + 1;
     h2 := <[Z.to_nat (x2 st) := v]> (h2 st);
     h1 := h1b |}.

(** [for (; b6 && x2 < n1; b6--, x2++)]: returns the remaining count
    [b6], the read index [b4] and the state. *)
Fixpoint absorb (b6 : nat) (t1 : source) (b4 : Z) (st : state) : nat * Z * state :=
  match b6 with
  | O => (O, b4, st)
  | S b6' =>
      if x2 st <? n1
      then absorb b6' t1 (b4 + 1) (absorb_byte (read t1 st b4) st)
      else (b6, b4, st)
  end.

(** [for (b1 = 0; b1 < n1*3; b1++) b2 = h1[b1] ^= s4[b2];] *)
Fixpoint sweep (cnt : nat) (b1 : Z) (h : list Z) (b2 : Z) : list Z * Z :=
  match cnt with
  | O => (h, b2)
  | S cnt' =>
      let v := Z.lxor (idx h b1) (idx s4 b2) in
      sweep cnt' (b1 + 1) (<[Z.to_nat b1 := v]> h) v
  end.

(** [for (b3 = 0; b3 < n1+2; b3++) { sweep; b2 = (b2 + b3) % 256; }] *)
Fixpoint mix (cnt : nat) (b3 : Z) (h : list Z) (b2 : Z) : list Z :=
  match cnt with
  | O => h
  | S cnt' =>
      let '(h, b2) := sweep (Z.to_nat (n1 * 3)) 0 h b2 in
      mix cnt' (b3 + 1) h ((b2 + b3) mod 256)
  end.

(** The block guarded by [if (x2 == n1)]. *)
Definition compress (st : state) : state :=
  {| x1 := x1 st; x2 := 0; h2 := h2 st;
     h1 := mix (Z.to_nat (n1 + 2)) 0 (h1 st) 0 |}.

(** [while (b6) { ... }]: [None] when the fuel runs out. *)
Fixpoint hashing_loop (fuel : nat) (t1 : source) (b4 : Z) (b6 : nat) (st : state)
  : option state :=
  match fuel with
  | O => None
  | S fuel' =>
      match b6 with
      | O => Some st
      | S _ =>
          let '(b6, b4, st) := absorb b6 t1 b4 st in
          let st := if x2 st =? n1 then compress st else st in
          hashing_loop fuel' t1 b4 b6 st
      end
  end.

(** [hashing(t1, b6)].  Every turn of the outer loop in which [x2 < n1]
    consumes a byte, and a turn with [x2 = n1] is followed by one
    with [x2 = 0], so [2 * b6 + 2] turns are enough. *)
Definition hashing (t1 : source) (b6 : nat) (st : state) : option state :=
  hashing_loop (2 * b6 + 2) t1 0 b6 st.

(** [end_gost_keyhash]: the local array [h3] and the result [h4]. *)
Definition h3_of (st : state) : list Z :=
  let n4 := n1 - x2 st in
  replicate (Z.to_nat n4) (to_uchar n4).

Definition end_gost_keyhash (st : state) : option (list Z * state) :=
  let n4 := n1 - x2 st in
  st ← hashing (Buffer (h3_of st)) (Z.to_nat n4) st;
  st ← hashing GlobalH2 (Z.to_nat n1) st;
  Some (take (Z.to_nat n1) (h1 st), st).

(** The inner loop of [create_keys]:
    [key[i] = (key[i] << 8) + (h4[k++] & 0xff)], eight times. *)
Fixpoint key_word (z : nat) (h4 : list Z) (k : Z) (acc : Z) : Z :=
  match z with
  | O => acc
  | S z' => key_word z' h4 (k + 1) (add64 (shl64 acc 8) (Z.land (idx h4 k) 0xff))
  end.

Fixpoint create_keys_loop (i : nat) (h4 : list Z) (k : Z) : list Z :=
  match i with
  | O => []
  | S i' => key_word 8 h4 k 0 :: create_keys_loop i' h4 (k + 8)
  end.

Definition create_keys (h4 : list Z) : list Z := create_keys_loop 64 h4 0.

(** [strlen]: the bytes before the first NUL. *)
Fixpoint c_string (buf : list Z) : list Z :=
  match buf with
  | [] => []
  | c :: rest => if c =? 0 then [] else c :: c_string rest
  end.

(** [derive_gost_subkeys_from_password]; [password] is the content of the
    [char] buffer, read up to its terminating NUL.  Returns the subkeys
    and the hash state left behind in the globals. *)
Definition derive_gost_subkeys_from_password (password : list Z) (st : state)
  : option (list Z * state) :=
  let st := init_gost_keyhash st in
  let pw := c_string password in
  st ← hashing (Buffer pw) (length pw) st;
  '(h4, st) ← end_gost_keyhash st;
  Some (create_keys h4, st).

End KeyHash.

(** ** SHA-256 *)

Module Sha256.

Record sha256_ctx : Type := {
  state : list Z;     (* uint32_t state[8] *)
  bitlen : Z;         (* uint64_t *)
  data : list Z;      (* unsigned char data[64] *)
  datalen : Z         (* size_t *)
}.

Definition ROTRIGHT (a b : Z) : Z := Z.lor (Z.shiftr a b) (shl32 a (32 - b)).
Definition CH (x y z : Z) : Z := Z.lxor (Z.land x y) (Z.land (not32 x) z).
Definition MAJ (x y z : Z) : Z :=
  Z.lxor (Z.lxor (Z.land x y) (Z.land x z)) (Z.land y z).
Definition EP0 (x : Z) : Z :=
  Z.lxor (Z.lxor (ROTRIGHT x 2) (ROTRIGHT x 13)) (ROTRIGHT x 22).
Definition EP1 (x : Z) : Z :=
  Z.lxor (Z.lxor (ROTRIGHT x 6) (ROTRIGHT x 11)) (ROTRIGHT x 25).
Definition SIG0 (x : Z) : Z :=
  Z.lxor (Z.lxor (ROTRIGHT x 7) (ROTRIGHT x 18)) (Z.shiftr x 3).
Definition SIG1 (x : Z) : Z :=
  Z.lxor (Z.lxor (ROTRIGHT x 17) (ROTRIGHT x 19)) (Z.shiftr x 10).

Definition k256 : list Z :=
  [ 0x428a_2f98;0x7137_4491;0xb5c0_fbcf;0xe9b5_dba5;0x3956_c25b;0x59f1_11f1;0x923f_82a4;0xab1c_5ed5;
    0xd807_aa98;0x1283_5b01;0x2431_85be;0x550c_7dc3;0x72be_5d74;0x80de_b1fe;0x9bdc_06a7;0xc19b_f174;
    0xe49b_69c1;0xefbe_4786;0x0fc1_9dc6;0x240c_a1cc;0x2de9_2c6f;0x4a74_84aa;0x5cb0_a9dc;0x76f9_88da;
    0x983e_5152;0xa831_c66d;0xb003_27c8;0xbf59_7fc7;0xc6e0_0bf3;0xd5a7_9147;0x06ca_6351;0x1429_2967;
    0x27b7_0a85;0x2e1b_2138;0x4d2c_6dfc;0x5338_0d13;0x650a_7354;0x766a_0abb;0x81c2_c92e;0x9272_2c85;
    0xa2bf_e8a1;0xa81a_664b;0xc24b_8b70;0xc76c_51a3;0xd192_e819;0xd699_0624;0xf40e_3585;0x106a_a070;
    0x19a4_c116;0x1e37_6c08;0x2748_774c;0x34b0_bcb5;0x391c_0cb3;0x4ed8_aa4a;0x5b9c_ca4f;0x682e_6ff3;
    0x748f_82ee;0x78a5_636f;0x84c8_7814;0x8cc7_0208;0x90be_fffa;0xa450_6ceb;0xbef9_a3f7;0xc671_78f2 ].

(** First loop of [sha256_transform]: [m[i]] for [i < 16], appended to
    the part of [m] filled so far. *)
Fixpoint load_m (cnt : nat) (j : Z) (dat m : list Z) : list Z :=
  match cnt with
  | O => m
  | S cnt' =>
      let w := Z.lor (Z.lor (Z.lor
                 (shl32 (idx dat j) 24) (shl32 (idx dat (j + 1)) 16))
                 (shl32 (idx dat (j + 2)) 8)) (idx dat (j + 3)) in
      load_m cnt' (j + 4) dat (m ++ [w])
  end.

(** Second loop: [m[i]] for [16 <= i < 64]. *)
Fixpoint expand_m (cnt : nat) (i : Z) (m : list Z) : list Z :=
  match cnt with
  | O => m
  | S cnt' =>
      let w := add32 (add32 (add32 (SIG1 (idx m (i - 2))) (idx m (i - 7)))
                            (SIG0 (idx m (i - 15)))) (idx m (i - 16)) in
      expand_m cnt' (i + 1) (m ++ [w])
  end.

(** The working variables [a .. h]. *)
Definition regs : Type := (Z * Z * Z * Z * Z * Z * Z * Z)%type.

(** Third loop: the sixty-four rounds. *)
Fixpoint rounds (cnt : nat) (i : Z) (m : list Z) (v : regs) : regs :=
  match cnt with
  | O => v
  | S cnt' =>
      let '(a, b, c, d, e, f, g, h) := v in
      let t1 := add32 (add32 (add32 (add32 h (EP1 e)) (CH e f g)) (idx k256 i)) (idx m i) in
      let t2 := add32 (EP0 a) (MAJ a b c) in
      rounds cnt' (i + 1) m (add32 t1 t2, a, b, c, add32 d t1, e, f, g)
  end.

(** [sha256_transform]: the new [ctx->state]. *)
Definition sha256_transform (st : list Z) (dat : list Z) : list Z :=
  let m := expand_m 48 16 (load_m 16 0 dat []) in
  let '(a, b, c, d, e, f, g, h) :=
    rounds 64 0 m (idx st 0, idx st 1, idx st 2, idx st 3,
                   idx st 4, idx st 5, idx st 6, idx st 7) in
  [ add32 (idx st 0) a; add32 (idx st 1) b; add32 (idx st 2) c; add32 (idx st 3) d;
    add32 (idx st 4) e; add32 (idx st 5) f; add32 (idx st 6) g; add32 (idx st 7) h ].

(** [sha256_init] sets every field but [data]; the array comes from the
    caller's stack and every byte of it is written before it is read, so
    its initial content is taken to be zero. *)
Definition sha256_init : sha256_ctx :=
  {| state := [ 0x6a09_e667; 0xbb67_ae85; 0x3c6e_f372; 0xa54f_f53a;
                0x510e_527f; 0x9b05_688c; 0x1f83_d9ab; 0x5be0_cd19 ];
     bitlen := 0;
     data := replicate 64 0;
     datalen := 0 |}.

(** The body of the loop of [sha256_update]. *)
Definition update_byte (ctx : sha256_ctx) (b : Z) : sha256_ctx :=
  let dat := <[Z.to_nat (datalen ctx) := b]> (data ctx) in
  let n := datalen ctx + 1 in
  if n =? 64
  then {| state := sha256_transform (state ctx) dat;
          bitlen := add64 (bitlen ctx) 512;
          data := dat; datalen := 0 |}
  else {| state := state ctx; bitlen := bitlen ctx; data := dat; datalen := n |}.

(** [sha256_update(ctx, data, len)], the argument being the [len] bytes
    at [data]. *)
Definition sha256_update (ctx : sha256_ctx) (bytes : list Z) : sha256_ctx :=
  fold_left update_byte bytes ctx.

(** [while (i < lim) ctx->data[i++] = 0x00;] *)
Fixpoint zero_fill (cnt : nat) (i : Z) (dat : list Z) : list Z :=
  match cnt with
  | O => dat
  | S cnt' => zero_fill cnt' (i + 1) (<[Z.to_nat i := 0]> dat)
  end.

(** [for (j = 7; j >= 0; j--) ctx->data[i++] = (bitlen >> (j*8)) & 0xFF;] *)
Fixpoint store_len (cnt : nat) (i : Z) (bl : Z) (dat : list Z) : list Z :=
  match cnt with
  | O => dat
  | S j =>
      store_len j (i + 1) bl
        (<[Z.to_nat i := Z.land (Z.shiftr bl (Z.of_nat j * 8)) 0xFF]> dat)
  end.

Definition hash_bytes (w : Z) : list Z :=
  [ Z.land (Z.shiftr w 24) 0xFF; Z.land (Z.shiftr w 16) 0xFF;
    Z.land (Z.shiftr w 8) 0xFF; Z.land w 0xFF ].

(** [sha256_final]: the 32 bytes stored in [hash]. *)
Definition sha256_final (ctx : sha256_ctx) : list Z :=
  let i := datalen ctx in
  let bl := add64 (bitlen ctx) ((datalen ctx * 8) mod 2 ^ 64) in
  let dat := <[Z.to_nat i := 0x80]> (data ctx) in
  let i := i + 1 in
  let '(st, dat, i) :=
    if 56 <? i
    then let dat := zero_fill (Z.to_nat (64 - i)) i dat in
         (sha256_transform (state ctx) dat, dat, 0)
    else (state ctx, dat, i) in
  let dat := zero_fill (Z.to_nat (56 - i)) i dat in
  let dat := store_len 8 56 bl dat in
  let st := sha256_transform st dat in
  hash_bytes (idx st 0) ++ hash_bytes (idx st 1) ++ hash_bytes (idx st 2) ++
  hash_bytes (idx st 3) ++ hash_bytes (idx st 4) ++ hash_bytes (idx st 5) ++
  hash_bytes (idx st 6) ++ hash_bytes (idx st 7).

End Sha256.

(** ** Buffers, files and padding *)

Module Codec.
Import Gost Sha256.

Definition BLOCK_SIZE : Z := 16.
Definition READ_CHUNK : Z := 64 * 1024.

Abbreviation lenZ l := (Z.of_nat (length l)).
Definition takeZ (n : Z) (l : list Z) : list Z := take (Z.to_nat n) l.
Definition dropZ (n : Z) (l : list Z) : list Z := drop (Z.to_nat n) l.

(** [memcpy(buf + off, bs, len bs)] and the like: the bytes [bs] replace
    the content of [buf] from index [off] on. *)
Definition write_at (off : Z) (bs buf : list Z) : list Z :=
  takeZ off buf ++ bs ++ dropZ (off + lenZ bs) buf.

(** A stack array whose content C leaves unspecified; no byte of it is read
    before it has been written, and the model starts it at zero. *)
Definition fresh (size : Z) : list Z := replicate (Z.to_nat size) 0.

(** An input stream: the bytes of the file and the read position. *)
Record FILE : Type := { content : list Z; pos : Z }.

Definition fopen (bytes : list Z) : FILE := {| content := bytes; pos := 0 |}.

(** [fread(buf, 1, n, f)]: the bytes delivered and the stream after. *)
Definition fread (n : Z) (f : FILE) : list Z * FILE :=
  let got := takeZ n (dropZ (pos f) (content f)) in
  (got, {| content := content f; pos := pos f + lenZ got |}).

Definition fseek_set (f : FILE) (p : Z) : FILE := {| content := content f; pos := p |}.
(** [fseek(f, 0, SEEK_END)] followed by [ftell(f)]. *)
Definition ftell_end (f : FILE) : Z := lenZ (content f).

(** [be_bytes_to_words]: one of its two loops,
    [a = (a << 8) | in[i]] for [cnt] values of [i]. *)
Fixpoint be_load (cnt : nat) (i : Z) (inb : list Z) (a : Z) : Z :=
  match cnt with
  | O => a
  | S cnt' => be_load cnt' (i + 1) inb (Z.lor (shl64 a 8) (idx inb i))
  end.

Definition be_bytes_to_words (inb : list Z) : Z * Z :=
  (be_load 8 0 inb 0, be_load 8 8 inb 0).

(** [be_words_to_bytes]: [out[7-i] = (w >> (i*8)) & 0xFF] for
    [i = 7 .. 0]. *)
Fixpoint be_store (cnt : nat) (w : Z) : list Z :=
  match cnt with
  | O => []
  | S i => to_uchar (Z.land (Z.shiftr w (Z.of_nat i * 8)) 0xFF) :: be_store i w
  end.

Definition be_words_to_bytes (w : Z * Z) : list Z :=
  be_store 8 (fst w) ++ be_store 8 (snd w).

(** [pkcs7_pad(buf, used, cap)]: the buffer and the returned size. *)
Definition pkcs7_pad (buf : list Z) (used cap : Z) : list Z * Z :=
  let pad := BLOCK_SIZE - used mod BLOCK_SIZE in
  if cap <? used + pad then (buf, 0)
  else (write_at used (replicate (Z.to_nat pad) (to_uchar pad)) buf, used + pad).

(** The loop of [pkcs7_unpad]: [false] stands for [return 0]. *)
Fixpoint pad_scan (cnt : nat) (i : Z) (buf : list Z) (len pad : Z) : bool :=
  match cnt with
  | O => true
  | S cnt' =>
      if idx buf (len - 1 - i) =? pad
      then pad_scan cnt' (i + 1) buf len pad
      else false
  end.

(** [pkcs7_unpad(buf, &len)]: the returned flag and [*len] afterwards. *)
Definition pkcs7_unpad (buf : list Z) (len : Z) : bool * Z :=
  if (len =? 0) || negb (len mod BLOCK_SIZE =? 0) then (false, len)
  else
    let pad := idx buf (len - 1) in
    if (pad =? 0) || (BLOCK_SIZE <? pad) then (false, len)
    else if pad_scan (Z.to_nat pad) 0 buf len pad then (true, len - pad)
    else (false, len).

(** ** CBC encryption *)

(** Where a run stopped with [*err = 1].  The C code has one flag for all
    of them; the tag only records which [return] was taken. *)
Inductive failure : Type :=
| PadOverflow       (* pkcs7_pad returned 0 *)
| TooSmall          (* "Error: input too small." *)
| BadSize           (* "Error: invalid ciphertext size." *)
| ShortRead         (* fread delivered fewer bytes than asked *)
| ShortLastChunk    (* r < BLOCK_SIZE, "should not happen" *)
| BadPadding.       (* "Error: invalid padding." *)

Definition err_flag (e : option failure) : Z :=
  match e with Some _ => 1 | None => 0 end.

(** What a run of [cbc_encrypt_stream] did with its buffers, in order:
    [Batch n have]: a cipher loop ran over [inbuf[0 .. n)] while the buffer
    held [have] bytes of input; [Carry rem]: [rem] bytes were kept for the
    next read; [Tail t]: [t] bytes were handed to [pkcs7_pad]. *)
Inductive enc_event : Type :=
| Batch (n have : Z)
| Carry (rem : Z)
| Tail (t : Z).

(** [for (i = 0; i < BLOCK_SIZE; i++) buf[off+i] ^= prev[i];] *)
Fixpoint xor_loop (cnt : nat) (i : Z) (buf : list Z) (off : Z) (prev : list Z) : list Z :=
  match cnt with
  | O => buf
  | S cnt' =>
      xor_loop cnt' (i + 1)
        (<[Z.to_nat (off + i) := Z.lxor (idx buf (off + i)) (idx prev i)]> buf)
        off prev
  end.

(** Trip count of [for (off = 0; off < n; off += BLOCK_SIZE)]. *)
Definition trips (n : Z) : nat := Z.to_nat ((n + (BLOCK_SIZE - 1)) / BLOCK_SIZE).

(** The body of the three cipher loops of [cbc_encrypt_stream]. *)
Definition enc_block (key : list Z) (off : Z) (bufs : list Z * list Z * list Z)
  : list Z * list Z * list Z :=
  let '(inbuf, outbuf, prev) := bufs in
  let inbuf := xor_loop 16 0 inbuf off prev in
  let inw := be_bytes_to_words (dropZ off inbuf) in
  let outw := gostcrypt inw key in
  let outbuf := write_at off (be_words_to_bytes outw) outbuf in
  let prev := takeZ BLOCK_SIZE (dropZ off outbuf) in
  (inbuf, outbuf, prev).

Fixpoint enc_blocks (cnt : nat) (off : Z) (key : list Z)
    (bufs : list Z * list Z * list Z) : list Z * list Z * list Z :=
  match cnt with
  | O => bufs
  | S cnt' => enc_blocks cnt' (off + BLOCK_SIZE) key (enc_block key off bufs)
  end.

(** The local variables of [cbc_encrypt_stream] that live across reads,
    the output file and the event log. *)
Record enc_state : Type := {
  e_inbuf : list Z;     (* unsigned char inbuf[READ_CHUNK + BLOCK_SIZE] *)
  e_outbuf : list Z;    (* unsigned char outbuf[READ_CHUNK + BLOCK_SIZE] *)
  e_prev : list Z;      (* unsigned char prev[BLOCK_SIZE] *)
  e_hctx : sha256_ctx;
  e_fout : list Z;
  e_log : list enc_event
}.

Record enc_result : Type := {
  enc_err : option failure;
  enc_fout : list Z;        (* bytes written to fout *)
  enc_hash : list Z;        (* out_hash *)
  enc_log : list enc_event
}.

(** One cipher loop over [inbuf[0 .. n)], the [fwrite] and the
    [sha256_update] that follow it. *)
Definition enc_batch (key : list Z) (n have : Z) (s : enc_state) : enc_state :=
  let '(inbuf, outbuf, prev) :=
    enc_blocks (trips n) 0 key (e_inbuf s, e_outbuf s, e_prev s) in
  {| e_inbuf := inbuf; e_outbuf := outbuf; e_prev := prev;
     e_hctx := sha256_update (e_hctx s) (takeZ n outbuf);
     e_fout := e_fout s ++ takeZ n outbuf;
     e_log := e_log s ++ [Batch n have] |}.

(** [if (rem) memmove(inbuf, inbuf + full, rem);] *)
Definition keep_tail (full rem : Z) (s : enc_state) : enc_state :=
  {| e_inbuf := if rem =? 0 then e_inbuf s
                else write_at 0 (takeZ rem (dropZ full (e_inbuf s))) (e_inbuf s);
     e_outbuf := e_outbuf s; e_prev := e_prev s; e_hctx := e_hctx s;
     e_fout := e_fout s;
     e_log := e_log s ++ [Carry rem] |}.

Definition read_into (off : Z) (got : list Z) (s : enc_state) : enc_state :=
  {| e_inbuf := write_at off got (e_inbuf s);
     e_outbuf := e_outbuf s; e_prev := e_prev s; e_hctx := e_hctx s;
     e_fout := e_fout s; e_log := e_log s |}.

(** From "Final read" to the end of [cbc_encrypt_stream]. *)
Definition enc_final (key : list Z) (r : Z) (s : enc_state) : enc_result :=
  let tail := r in
  let log := e_log s ++ [Tail tail] in
  let '(inbuf, total) := pkcs7_pad (e_inbuf s) tail (READ_CHUNK + BLOCK_SIZE) in
  if total =? 0
  then {| enc_err := Some PadOverflow; enc_fout := e_fout s;
          enc_hash := []; enc_log := log |}
  else
    let s := enc_batch key total total
               {| e_inbuf := inbuf; e_outbuf := e_outbuf s; e_prev := e_prev s;
                  e_hctx := e_hctx s; e_fout := e_fout s; e_log := log |} in
    let out_hash := sha256_final (e_hctx s) in
    {| enc_err := None; enc_fout := e_fout s ++ takeZ 32 out_hash;
       enc_hash := out_hash; enc_log := e_log s |}.

(** [while ((r = fread(inbuf, 1, READ_CHUNK, fin)) == READ_CHUNK) { ... }]
    and what follows; [None] when the fuel runs out. *)
Fixpoint enc_loop (fuel : nat) (key : list Z) (fin : FILE) (s : enc_state)
  : option enc_result :=
  match fuel with
  | O => None
  | S fuel' =>
      let '(got, fin) := fread READ_CHUNK fin in
      let s := read_into 0 got s in
      let r := lenZ got in
      if r =? READ_CHUNK then
        let full := r / BLOCK_SIZE * BLOCK_SIZE in
        let rem := r - full in
        let s := keep_tail full rem (enc_batch key full r s) in
        if rem =? 0 then enc_loop fuel' key fin s
        else
          let '(got, fin) := fread (READ_CHUNK - rem) fin in
          let s := read_into rem got s in
          let r := rem + lenZ got in
          let full2 := r / BLOCK_SIZE * BLOCK_SIZE in
          let rem2 := r - full2 in
          let s := keep_tail full2 rem2 (enc_batch key full2 r s) in
          Some (enc_final key rem2 s)
      else Some (enc_final key r s)
  end.

(** [cbc_encrypt_stream(fin, fout, subkeys, iv, &err, out_hash)].  Every
    turn of the loop that does not leave it consumes [READ_CHUNK] bytes of
    the input, so one more turn than the input has bytes is enough. *)
Definition cbc_encrypt_stream (fin : FILE) (key iv : list Z) : option enc_result :=
  enc_loop (S (length (content fin))) key fin
    {| e_inbuf := fresh (READ_CHUNK + BLOCK_SIZE);
       e_outbuf := fresh (READ_CHUNK + BLOCK_SIZE);
       e_prev := takeZ BLOCK_SIZE iv;
       e_hctx := sha256_init;
       e_fout := takeZ BLOCK_SIZE iv;
       e_log := [] |}.

(** ** CBC decryption *)

(** The body of the cipher loop of [cbc_decrypt_stream]. *)
Definition dec_block (key : list Z) (off : Z) (inbuf : list Z)
    (bufs : list Z * list Z) : list Z * list Z :=
  let '(outbuf, prev) := bufs in
  let cpy := takeZ BLOCK_SIZE (dropZ off inbuf) in
  let inw := be_bytes_to_words (dropZ off inbuf) in
  let outw := gostdecrypt inw key in
  let outbuf := write_at off (be_words_to_bytes outw) outbuf in
  let outbuf := xor_loop 16 0 outbuf off prev in
  (outbuf, cpy).

Fixpoint dec_blocks (cnt : nat) (off : Z) (key inbuf : list Z)
    (bufs : list Z * list Z) : list Z * list Z :=
  match cnt with
  | O => bufs
  | S cnt' => dec_blocks cnt' (off + BLOCK_SIZE) key inbuf (dec_block key off inbuf bufs)
  end.

Record dec_state : Type := {
  d_inbuf : list Z;     (* unsigned char inbuf[READ_CHUNK] *)
  d_outbuf : list Z;    (* unsigned char outbuf[READ_CHUNK] *)
  d_prev : list Z;
  d_hctx : sha256_ctx;
  d_fout : list Z;
  d_reads : list Z      (* the value of r after each fread of the loop *)
}.

Record dec_result : Type := {
  dec_err : option failure;
  dec_fout : list Z;       (* bytes written to fout *)
  dec_auth_ok : Z;         (* *auth_ok *)
  dec_reads : list Z
}.

Definition dec_fail (e : failure) (fout reads : list Z) : dec_result :=
  {| dec_err := Some e; dec_fout := fout; dec_auth_ok := 0; dec_reads := reads |}.

(** [while (remaining > 0) { ... }] and the hash check after it. *)
Fixpoint dec_loop (fuel : nat) (key : list Z) (fin : FILE) (stored_hash : list Z)
    (remaining : Z) (s : dec_state) : option dec_result :=
  match fuel with
  | O => None
  | S fuel' =>
      if 0 <? remaining then
        let toread := if READ_CHUNK <? remaining then READ_CHUNK else remaining in
        let toread := if toread mod BLOCK_SIZE =? 0 then toread
                      else toread - toread mod BLOCK_SIZE in
        let '(got, fin) := fread toread fin in
        let inbuf := write_at 0 got (d_inbuf s) in
        let r := lenZ got in
        let reads := d_reads s ++ [r] in
        if negb (r =? toread) then Some (dec_fail ShortRead (d_fout s) reads)
        else
          let hctx := sha256_update (d_hctx s) (takeZ r inbuf) in
          let '(outbuf, prev) :=
            dec_blocks (trips r) 0 key inbuf (d_outbuf s, d_prev s) in
          let remaining := remaining - r in
          if 0 <? remaining then
            dec_loop fuel' key fin stored_hash remaining
              {| d_inbuf := inbuf; d_outbuf := outbuf; d_prev := prev;
                 d_hctx := hctx; d_fout := d_fout s ++ takeZ r outbuf;
                 d_reads := reads |}
          else if r <? BLOCK_SIZE then Some (dec_fail ShortLastChunk (d_fout s) reads)
          else
            let keep := r - BLOCK_SIZE in
            let fout := if keep =? 0 then d_fout s
                        else d_fout s ++ takeZ keep outbuf in
            let lastblk := takeZ BLOCK_SIZE (dropZ keep outbuf) in
            let '(ok, lastlen) := pkcs7_unpad lastblk BLOCK_SIZE in
            if negb ok then Some (dec_fail BadPadding fout reads)
            else
              let fout := if lastlen =? 0 then fout
                          else fout ++ takeZ lastlen lastblk in
              dec_loop fuel' key fin stored_hash remaining
                {| d_inbuf := inbuf; d_outbuf := outbuf; d_prev := prev;
                   d_hctx := hctx; d_fout := fout; d_reads := reads |}
      else
        let calc_hash := sha256_final (d_hctx s) in
        Some {| dec_err := None; dec_fout := d_fout s;
                dec_auth_ok :=
                  if bool_decide (takeZ 32 calc_hash = takeZ 32 stored_hash)
                  then 1 else 0;
                dec_reads := d_reads s |}
  end.

(** [cbc_decrypt_stream(fin, fout, subkeys, &err, &auth_ok)].  A turn of
    the loop that reads at least one byte lowers [remaining], so
    [remaining + 1] turns are enough whenever the loop ends at all. *)
Definition cbc_decrypt_stream (fin : FILE) (key : list Z) : option dec_result :=
  let fsz := ftell_end fin in
  if fsz <? BLOCK_SIZE + 32 then Some (dec_fail TooSmall [] [])
  else
    let payload := fsz - 32 in
    let fin := fseek_set fin 0 in
    let '(iv, fin) := fread BLOCK_SIZE fin in
    if negb (lenZ iv =? BLOCK_SIZE) then Some (dec_fail ShortRead [] [])
    else
      let fin := fseek_set fin payload in
      let '(stored_hash, fin) := fread 32 fin in
      if negb (lenZ stored_hash =? 32) then Some (dec_fail ShortRead [] [])
      else
        let fin := fseek_set fin BLOCK_SIZE in
        let remaining := payload - BLOCK_SIZE in
        if (remaining <=? 0) || negb (Z.rem remaining BLOCK_SIZE =? 0)
        then Some (dec_fail BadSize [] [])
        else
          dec_loop (S (Z.to_nat remaining)) key fin stored_hash remaining
            {| d_inbuf := fresh READ_CHUNK; d_outbuf := fresh READ_CHUNK;
               d_prev := iv; d_hctx := sha256_init; d_fout := [];
               d_reads := [] |}.

End Codec.

(** ** The program *)

Module Main.
Import Gost KeyHash Sha256 Codec.

Inductive mode : Type := ModeEncrypt | ModeDecrypt.

(** Everything [main] takes from its environment. *)
Record invocation : Type := {
  arg_mode : option mode;          (* [Some] when argc is 3 and argv[1] is "c" or "d" *)
  input_file : option (list Z);    (* the bytes of the input file, when it opens *)
  output_opens : bool;             (* the output file could be created *)
  typed : list Z;                  (* password[256] as prompt_password returns it *)
  iv_bytes : list Z                (* iv[16] as generate_iv leaves it *)
}.

(** What [main] leaves behind when it returns. *)
Record outcome : Type := {
  exit_code : Z;
  output_file : option (list Z);   (* [None]: never created, or removed *)
  auth_report : option Z;          (* the flag behind "Authentication OK" / "FAILED" *)
  password_mem : option (list Z);  (* password[256]; [None] before the prompt *)
  subkeys_mem : option (list Z)    (* subkeys[64]; [None] before the derivation *)
}.

Definition early_exit : outcome :=
  {| exit_code := 1; output_file := None; auth_report := None;
     password_mem := None; subkeys_mem := None |}.

(** [main], on the runs in which [prompt_password] returns; [None] only
    if one of the loops it runs does not end. *)
Definition main (inv : invocation) : option outcome :=
  match arg_mode inv with
  | None => Some early_exit
  | Some m =>
      match input_file inv with
      | None => Some early_exit
      | Some bytes =>
          if negb (output_opens inv) then Some early_exit
          else
            let fin := fopen bytes in
            let password := typed inv in
            '(subkeys, _) ← derive_gost_subkeys_from_password password KeyHash.startup;
            let password := replicate 256 0 in
            '(err, fout, auth) ←
              match m with
              | ModeEncrypt =>
                  r ← cbc_encrypt_stream fin subkeys (iv_bytes inv);
                  Some (err_flag (enc_err r), enc_fout r, None)
              | ModeDecrypt =>
                  r ← cbc_decrypt_stream fin subkeys;
                  Some (err_flag (dec_err r), dec_fout r,
                        if err_flag (dec_err r) =? 0 then Some (dec_auth_ok r) else None)
              end;
            Some
              (if err =? 0
               then {| exit_code := 0; output_file := Some fout; auth_report := auth;
                       password_mem := Some password; subkeys_mem := Some subkeys |}
               else {| exit_code := 2; output_file := None; auth_report := None;
                       password_mem := Some password; subkeys_mem := Some subkeys |})
      end
  end.

End Main.

(** ** The operations in the words of the specification

    Definitions in this module are not translated from the C code: they
    restate what the specification says, in arithmetic on bytes and lists,
    and are compared with the embedding above. *)

Module Spec.
Import Gost.

(** A 256-entry table of bytes. *)
Definition byte_table (t : list Z) : Prop := length t = 256%nat /\ bytes_ok t.

Definition byte_okb (v : Z) : bool := (0 <=? v) && (v <? 256).

(** The four bytes of a 32-bit value, most significant first. *)
Definition bytes32 (y : Z) : list Z :=
  [y / 2 ^ 24 mod 256; y / 2 ^ 16 mod 256; y / 2 ^ 8 mod 256; y mod 256].

(** The value of a byte string read as a big-endian number. *)
Definition join_bytes (bs : list Z) : Z := fold_left (fun a b => a * 256 + b) bs 0.

(** Rotation of a 64-bit value to the left. *)
Definition rotl64 (x n : Z) : Z := (x * 2 ^ n) mod 2 ^ 64 + x / 2 ^ (64 - n).

(** The round function: split, substitute byte by byte, reassemble,
    rotate by 11. *)
Definition round_function (x : Z) : Z :=
  let y := x / 2 ^ 32 in
  let z := x mod 2 ^ 32 in
  rotl64 (join_bytes
            (zip_with idx [k87 K; k65 K; k43 K; k21 K] (bytes32 y) ++
             zip_with idx [k175 K; k153 K; k131 K; k109 K] (bytes32 z))) 11.

(** Round [i] of the forward transform. *)
Definition enc_round (subkeys : list Z) (ab : Z * Z) (i : nat) : Z * Z :=
  let '(a, b) := ab in
  let b := Z.lxor b (round_function ((a + idx subkeys (2 * Z.of_nat i)) mod 2 ^ 64)) in
  let a := Z.lxor a (round_function ((b + idx subkeys (2 * Z.of_nat i + 1)) mod 2 ^ 64)) in
  (a, b).

Definition encrypt_block (a b : Z) (subkeys : list Z) : Z * Z :=
  let '(a, b) := fold_left (enc_round subkeys) (seq 0 32) (a, b) in (b, a).

(** Round [i] of the inverse transform: subkeys [63 - 2i] and
    [62 - 2i]. *)
Definition dec_round (subkeys : list Z) (ab : Z * Z) (i : nat) : Z * Z :=
  let '(a, b) := ab in
  let b := Z.lxor b (round_function ((a + idx subkeys (63 - 2 * Z.of_nat i)) mod 2 ^ 64)) in
  let a := Z.lxor a (round_function ((b + idx subkeys (62 - 2 * Z.of_nat i)) mod 2 ^ 64)) in
  (a, b).

Definition decrypt_block (a b : Z) (subkeys : list Z) : Z * Z :=
  let '(a, b) := fold_left (dec_round subkeys) (seq 0 32) (a, b) in (b, a).

(** *** Key derivation *)

Import KeyHash.

(** [update]: every byte goes through the per-byte step, and the
    compression pass runs when the 512-byte window is full. *)
Definition update_step (st : state) (b : Z) : state :=
  let st := absorb_byte b st in
  if x2 st =? n1 then compress st else st.

Definition update (bytes : list Z) (st : state) : state :=
  fold_left update_step bytes st.

(** The padding [finalize] feeds to [update] in the words of the
    specification: as many bytes as the window has room for, each equal to
    that number. *)
Definition padding_as_stated (st : state) : list Z :=
  replicate (Z.to_nat (n1 - x2 st)) (n1 - x2 st).

(** The same with each byte reduced to the range of a byte. *)
Definition padding (st : state) : list Z :=
  replicate (Z.to_nat (n1 - x2 st)) ((n1 - x2 st) mod 256).

(** [finalize]: pad, hash the checksum array, take the first 512 bytes of
    the work buffer. *)
Definition finalize (st : state) : list Z * state :=
  let st := update (padding st) st in
  let st := update (h2 st) st in
  (take (Z.to_nat n1) (h1 st), st).

(** [n] consecutive slices of [k] bytes. *)
Fixpoint slices (n k : nat) (l : list Z) : list (list Z) :=
  match n with
  | O => []
  | S n' => take k l :: slices n' k (drop k l)
  end.

Definition derive_subkeys (password : list Z) : list Z * state :=
  let '(digest, st) := finalize (update password (init_gost_keyhash startup)) in
  (map join_bytes (slices 64 8 digest), st).

(** The sweep of the compression pass as a left-to-right scan. *)
Fixpoint scan (h : list Z) (b2 : Z) : list Z * Z :=
  match h with
  | [] => ([], b2)
  | x :: t =>
      let v := Z.lxor x (idx s4 b2) in
      let '(t', b2') := scan t v in (v :: t', b2')
  end.

Fixpoint mix_scan (cnt : nat) (b3 : Z) (h : list Z) (b2 : Z) : list Z :=
  match cnt with
  | O => h
  | S cnt' =>
      let '(h, b2) := scan h b2 in
      mix_scan cnt' (b3 + 1) h ((b2 + b3) mod 256)
  end.

Definition compress_scan (st : state) : state :=
  {| x1 := x1 st; x2 := 0; h2 := h2 st;
     h1 := mix_scan (Z.to_nat (n1 + 2)) 0 (h1 st) 0 |}.

Definition update_step_scan (st : state) (b : Z) : state :=
  let st := absorb_byte b st in
  if x2 st =? n1 then compress_scan st else st.

Definition update_scan (bytes : list Z) (st : state) : state :=
  fold_left update_step_scan bytes st.

Definition derive_subkeys_scan (password : list Z) : list Z :=
  let st := update_scan password (init_gost_keyhash startup) in
  let st := update_scan (padding st) st in
  let st := update_scan (h2 st) st in
  map join_bytes (slices 64 8 (take (Z.to_nat n1) (h1 st))).

(** The padding of the finalisation in the words of the specification,
    for the password in the buffer [password]: the bytes
    [end_gost_keyhash] puts in [h3] are all equal to the room left in the
    window. *)
Definition pads_with_remaining_length (password : list Z) : Prop :=
  let st := update (c_string password) (init_gost_keyhash startup) in
  h3_of st = padding_as_stated st.

(** The state of the hash between two calls of [hashing]. *)
Definition hash_state_ok (st : state) : Prop :=
  0 <= x2 st < n1 /\
  Z.of_nat (length (h2 st)) = n1 /\ Z.of_nat (length (h1 st)) = n1 * 3 /\
  bytes_ok (h2 st) /\ bytes_ok (h1 st).

(** The bytes [hashing] reads through its pointer argument, one per step
    of [update], in the states [update] goes through. *)
Inductive feeds (t1 : source) : Z -> state -> list Z -> Prop :=
| feeds_nil b4 st : feeds t1 b4 st []
| feeds_cons b4 st b l :
    read t1 st b4 = b ->
    feeds t1 (b4 + 1) (update_step st b) l ->
    feeds t1 b4 st (b :: l).

(** *** CBC, padding and the container *)

Import Sha256 Codec.

Definition xor_bytes (a b : list Z) : list Z := zip_with Z.lxor a b.

(** One block of CBC encryption: XOR with the previous ciphertext block,
    then the block cipher on the two big-endian halves. *)
Definition cbc_enc_block (key prev blk : list Z) : list Z :=
  be_words_to_bytes (gostcrypt (be_bytes_to_words (xor_bytes blk prev)) key).

(** [n] blocks of CBC encryption of [data], chained from [prev]. *)
Fixpoint cbc_enc (n : nat) (key prev data : list Z) : list Z :=
  match n with
  | O => []
  | S n' =>
      let c := cbc_enc_block key prev (take 16 data) in
      c ++ cbc_enc n' key c (drop 16 data)
  end.

(** The chaining value after these [n] blocks. *)
Fixpoint cbc_chain (n : nat) (key prev data : list Z) : list Z :=
  match n with
  | O => prev
  | S n' => cbc_chain n' key (cbc_enc_block key prev (take 16 data)) (drop 16 data)
  end.

(** One block of CBC decryption: the inverse cipher, then XOR with the
    previous ciphertext block. *)
Definition cbc_dec_block (key prev c : list Z) : list Z :=
  xor_bytes (be_words_to_bytes (gostdecrypt (be_bytes_to_words c) key)) prev.

Fixpoint cbc_dec (n : nat) (key prev data : list Z) : list Z :=
  match n with
  | O => []
  | S n' =>
      cbc_dec_block key prev (take 16 data)
      ++ cbc_dec n' key (take 16 data) (drop 16 data)
  end.

(** The chaining value of decryption: the last ciphertext block. *)
Fixpoint cbc_dec_chain (n : nat) (prev data : list Z) : list Z :=
  match n with
  | O => prev
  | S n' => cbc_dec_chain n' (take 16 data) (drop 16 data)
  end.

(** Unconditional padding: 1 to 16 bytes, each equal to their number. *)
Definition pad_length (len : Z) : Z := 16 - len mod 16.

Definition pkcs7 (p : list Z) : list Z :=
  p ++ replicate (Z.to_nat (pad_length (lenZ p))) (pad_length (lenZ p)).

(** The padding rule on a block: its last byte [v] is between 1 and 16 and
    its last [v] bytes all equal [v]. *)
Definition pad_value (blk : list Z) : Z := idx blk (lenZ blk - 1).

Definition padding_rule (blk : list Z) : Prop :=
  1 <= pad_value blk <= 16 /\
  Forall (fun b => b = pad_value blk) (dropZ (lenZ blk - pad_value blk) blk).

(** Number of whole blocks in a byte string. *)
Definition blocks (l : list Z) : nat := Z.to_nat (lenZ l / 16).

Definition sha256 (l : list Z) : list Z :=
  sha256_final (sha256_update sha256_init l).

(** The ciphertext region and the whole container for a plaintext. *)
Definition ciphertext (key iv p : list Z) : list Z :=
  cbc_enc (blocks (pkcs7 p)) key iv (pkcs7 p).

Definition container (key iv p : list Z) : list Z :=
  iv ++ ciphertext key iv p ++ sha256 (ciphertext key iv p).

(** *** The stream functions *)

(** The buffers of [cbc_encrypt_stream] have their declared sizes. *)
Definition enc_ok (s : enc_state) : Prop :=
  lenZ (e_inbuf s) = READ_CHUNK + BLOCK_SIZE /\
  lenZ (e_outbuf s) = READ_CHUNK + BLOCK_SIZE /\
  length (e_prev s) = 16%nat.

(** The events of a run over [len] bytes of input: one cipher loop and an
    empty carry per full read, then the tail and the last cipher loop. *)
Fixpoint chunk_events (k : nat) : list enc_event :=
  match k with
  | O => []
  | S k' => Batch READ_CHUNK READ_CHUNK :: Carry 0 :: chunk_events k'
  end.

Definition encrypt_log (len : Z) : list enc_event :=
  let t := len mod READ_CHUNK in
  chunk_events (Z.to_nat (len / READ_CHUNK))
  ++ [Tail t; Batch (t + pad_length t) (t + pad_length t)].

(** What [cbc_encrypt_stream] returns when the unread input is [rest],
    the chaining value [prev], the hash context [hctx], and [fout] and
    [log] hold what was written and logged before. *)
Definition enc_expected (key rest prev : list Z) (hctx : sha256_ctx)
    (fout : list Z) (log : list enc_event) : enc_result :=
  let c := cbc_enc (blocks (pkcs7 rest)) key prev (pkcs7 rest) in
  let h := sha256_final (sha256_update hctx c) in
  {| enc_err := None; enc_fout := fout ++ c ++ h; enc_hash := h;
     enc_log := log ++ encrypt_log (lenZ rest) |}.

(** The bounds the specification puts on the events of an encryption
    run: every cipher loop covers whole blocks that are in the buffer, a
    carry is shorter than a block, and so is the tail that gets padded. *)
Definition event_as_stated (e : enc_event) : Prop :=
  match e with
  | Batch n have => n mod BLOCK_SIZE = 0 /\ 0 <= n <= have
  | Carry rem => 0 <= rem <= 15
  | Tail t => 0 <= t <= 15
  end.

(** The same with the bound the code has for the tail: whatever the last
    read delivered, which is less than [READ_CHUNK]. *)
Definition event_in_code (e : enc_event) : Prop :=
  match e with
  | Batch n have => n mod BLOCK_SIZE = 0 /\ 0 <= n <= have
  | Carry rem => 0 <= rem <= 15
  | Tail t => 0 <= t < READ_CHUNK
  end.

Definition encrypt_events_as_stated (p key iv : list Z) : Prop :=
  exists r, cbc_encrypt_stream (fopen p) key iv = Some r /\
            Forall event_as_stated (enc_log r).

(** The buffers of [cbc_decrypt_stream] have their declared sizes. *)
Definition dec_ok (s : dec_state) : Prop :=
  lenZ (d_inbuf s) = READ_CHUNK /\
  lenZ (d_outbuf s) = READ_CHUNK /\
  length (d_prev s) = 16%nat.

(** The sizes of the reads over a ciphertext of [remaining] bytes: full
    chunks, then what is left. *)
Definition read_sizes (remaining : Z) : list Z :=
  let k := (remaining - 1) / READ_CHUNK in
  replicate (Z.to_nat k) READ_CHUNK ++ [remaining - k * READ_CHUNK].

(** What the loop of [cbc_decrypt_stream] returns when the ciphertext
    still to be read is [rest]. *)
Definition dec_expected (key rest prev : list Z) (hctx : sha256_ctx)
    (fout reads stored : list Z) : dec_result :=
  let d := cbc_dec (blocks rest) key prev rest in
  let body := takeZ (lenZ d - 16) d in
  let last := dropZ (lenZ d - 16) d in
  let '(ok, lastlen) := pkcs7_unpad last BLOCK_SIZE in
  if ok
  then {| dec_err := None;
          dec_fout := fout ++ body ++ takeZ lastlen last;
          dec_auth_ok :=
            if bool_decide (takeZ 32 (sha256_final (sha256_update hctx rest))
                            = takeZ 32 stored)
            then 1 else 0;
          dec_reads := reads ++ read_sizes (lenZ rest) |}
  else {| dec_err := Some BadPadding;
          dec_fout := fout ++ body;
          dec_auth_ok := 0;
          dec_reads := reads ++ read_sizes (lenZ rest) |}.

(** The three regions of a container. *)
Definition iv_of (file : list Z) : list Z := takeZ 16 file.
Definition ciphertext_of (file : list Z) : list Z :=
  takeZ (lenZ file - 48) (dropZ 16 file).
Definition trailer_of (file : list Z) : list Z := dropZ (lenZ file - 32) file.

(** The format checks of the decrypt protocol. *)
Definition well_formed (file : list Z) : Prop :=
  48 <= lenZ file /\
  0 < lenZ file - 48 /\ (lenZ file - 48) mod 16 = 0.

(** The ciphertext region decrypted in full, padding included. *)
Definition decrypted (key file : list Z) : list Z :=
  cbc_dec (blocks (ciphertext_of file)) key (iv_of file) (ciphertext_of file).

(** The block that is withheld until the end, and all that precedes it. *)
Definition withheld (key file : list Z) : list Z :=
  dropZ (lenZ (decrypted key file) - 16) (decrypted key file).
Definition emitted_early (key file : list Z) : list Z :=
  takeZ (lenZ (decrypted key file) - 16) (decrypted key file).

(** What a run over a well-formed container leaves in the sink when the
    padding of the withheld block is accepted. *)
Definition recovered (key file : list Z) : list Z :=
  emitted_early key file
  ++ takeZ (16 - pad_value (withheld key file)) (withheld key file).

(** The flag a run reports for the digest comparison. *)
Definition digest_flag (file : list Z) : Z :=
  if bool_decide (sha256 (ciphertext_of file) = trailer_of file) then 1 else 0.

(** *** The program *)

Import Main.

(** The key schedule [main] works with for the password buffer [typed]. *)
Definition subkeys_for (typed : list Z) : list Z :=
  fst (derive_subkeys (c_string typed)).

(** An invocation that gets as far as the password prompt. *)
Definition run (m : mode) (file typed iv : list Z) : invocation :=
  {| arg_mode := Some m; input_file := Some file; output_opens := true;
     typed := typed; iv_bytes := iv |}.

(** The obligation on sensitive buffers in the words of the
    specification, for one invocation: when [main] returns, the password
    buffer and the subkeys are all zero. *)
Definition secrets_zeroed_at_exit (inv : invocation) : Prop :=
  exists out,
    main inv = Some out /\
    password_mem out = Some (replicate 256 0) /\
    subkeys_mem out = Some (replicate 64 0).

End Spec.

(** ** Sample data *)

Module Samples.
Import Spec Codec.

(** The password "pw" in a 256-byte buffer. *)
Definition password : list Z := 112 :: 119 :: replicate 254 0.

(** Its key schedule. *)
Definition subkeys : list Z := Eval vm_compute in derive_subkeys_scan [112; 119].

Definition iv : list Z := [1; 2; 3; 4; 5; 6; 7; 8; 9; 10; 11; 12; 13; 14; 15; 16].

(** The container of the plaintext "hello" under that password, with the
    last byte of the trailer changed. *)
Definition tampered : list Z :=
  Eval vm_compute in
    (let c := ciphertext subkeys iv [104; 101; 108; 108; 111] in
     iv ++ c ++ take 31 (sha256 c) ++ [Z.lxor (idx (sha256 c) 31) 1]).

End Samples.
(** ** The prompt and the file names *)

(** A [char] array that holds a string is a [list Z] like every other
    buffer, and [c_string] reads the string back: the characters before
    the first NUL.  Both branches of [prompt_password] are embedded: the
    one for systems other than Windows under the function's own name, the
    one for Windows as [prompt_password_win32].  Standard input is the list
    of the bytes still to be read, its end standing for end-of-file; the
    keys of the Windows console are the values that the successive calls of
    [_getch()] return. *)

Module Cli.
Import KeyHash Codec.

(** [fgets(buf, n, stdin)]: the characters it stores before the NUL, at
    most [cnt = n - 1] of them and none after a newline. *)
Fixpoint fgets_chars (cnt : nat) (stdin : list Z) : list Z :=
  match cnt, stdin with
  | S cnt', ch :: rest => if ch =? 10 then [ch] else ch :: fgets_chars cnt' rest
  | _, _ => []
  end.

(** [prompt_password(buf, buflen, prompt)]: [buf] afterwards.  When
    [fgets] stores no character the buffer gets [buf[0] = '\0'], either
    by [fgets] itself or by the assignment that follows a NULL result. *)
Definition prompt_password (buf : list Z) (buflen : Z) (stdin : list Z) : list Z :=
  let got := fgets_chars (Z.to_nat (buflen - 1)) stdin in
  let buf := write_at 0 (got ++ [0]) buf in
  let l := lenZ (c_string buf) in
  if (0 <? l) && ((idx buf (l - 1) =? 10) || (idx buf (l - 1) =? 13))
  then <[Z.to_nat (l - 1) := 0]> buf
  else buf.

(** How a call of the Windows branch ends: it returns, or [exit] ends
    the process inside it; [buf] is the buffer as it is at that moment. *)
Inductive prompt_end : Type :=
| PromptReturns (buf : list Z)
| PromptExits (status : Z) (buf : list Z).

(** The loop of the Windows branch, [i] being the variable [idx] of the
    source.  [EOF] is -1, and [_getch()] also gives it once [keys] is
    used up; [(char)ch] is stored as the byte [ch mod 256]. *)
Fixpoint getch_loop (keys : list Z) (buflen i : Z) (buf : list Z) : prompt_end :=
  match keys with
  | [] => PromptReturns (<[Z.to_nat i := 0]> buf)
  | ch :: keys' =>
      if (ch =? 13) || (ch =? 10) || (ch =? -1)
      then PromptReturns (<[Z.to_nat i := 0]> buf)
      else if ch =? 3 then PromptExits 1 buf
      else if ch =? 8 then getch_loop keys' buflen (if 0 <? i then i - 1 else i) buf
      else if i + 1 <? buflen
           then getch_loop keys' buflen (i + 1) (<[Z.to_nat i := to_uchar ch]> buf)
           else getch_loop keys' buflen i buf
  end.

(** [prompt_password(buf, buflen, prompt)] where [_WIN32] is defined. *)
Definition prompt_password_win32 (buf : list Z) (buflen : Z) (keys : list Z)
  : prompt_end :=
  getch_loop keys buflen 0 buf.

(** [has_suffix(name, suffix)]. *)
Definition has_suffix (name suffix : list Z) : Z :=
  let n := lenZ (c_string name) in
  let s := lenZ (c_string suffix) in
  if n <? s then 0
  else if bool_decide (dropZ (n - s) (c_string name) = c_string suffix) then 1 else 0.

(** The literals [".gost2"] and [".dec"]. *)
Definition dot_gost2 : list Z := [46; 103; 111; 115; 116; 50; 0].
Definition dot_dec : list Z := [46; 100; 101; 99; 0].

(** [snprintf(out, outsz, "%s%s", a, b)]: at most [outsz - 1] characters
    are stored, and a NUL after them; nothing when [outsz] is 0. *)
Definition snprintf (out : list Z) (outsz : Z) (a b : list Z) : list Z :=
  if outsz =? 0 then out
  else write_at 0 (takeZ (outsz - 1) (c_string a ++ c_string b) ++ [0]) out.

Definition make_output_name_encrypt (inp out : list Z) (outsz : Z) : list Z :=
  snprintf out outsz inp dot_gost2.

(** [make_output_name_decrypt]: the branch that strips the suffix copies
    [strlen(in) - 6] characters and a NUL without looking at [outsz];
    [None] stands for a copy that would not fit in [out]. *)
Definition make_output_name_decrypt (inp out : list Z) (outsz : Z) : option (list Z) :=
  if negb (has_suffix inp dot_gost2 =? 0) then
    let n := lenZ (c_string inp) - 6 in
    if lenZ out <? n + 1 then None
    else Some (write_at 0 (takeZ n (c_string inp) ++ [0]) out)
  else Some (snprintf out outsz inp dot_dec).

(** What [generate_iv] takes from its environment on a Unix system
    without [arc4random_buf]: [urandom] is [None] when [/dev/urandom]
    does not open, and otherwise the bytes [read] stored in [iv] (none
    when it failed); [rand i] is what the [i]-th call of [rand()]
    returns. *)
Record entropy : Type := {
  urandom : option (list Z);
  rand : nat -> Z
}.

(** [for (i = 0; i < BLOCK_SIZE; i++) iv[i] = (unsigned char)(rand() & 0xFF);] *)
Fixpoint rand_fill (cnt : nat) (i : nat) (e : entropy) (iv : list Z) : list Z :=
  match cnt with
  | O => iv
  | S cnt' => rand_fill cnt' (S i) e (<[i := to_uchar (Z.land (rand e i) 0xFF)]> iv)
  end.

(** [generate_iv(iv)]: [iv] afterwards.  [read] stores at most
    [BLOCK_SIZE] bytes, and the function returns at once when it stored
    that many. *)
Definition generate_iv (iv : list Z) (e : entropy) : list Z :=
  match urandom e with
  | Some got =>
      let got := takeZ BLOCK_SIZE got in
      let iv := write_at 0 got iv in
      if lenZ got =? BLOCK_SIZE then iv else rand_fill 16 0 e iv
  | None => rand_fill 16 0 e iv
  end.

End Cli.

(** ** Notions used to state further properties *)

(** Like [Spec], this module holds no translation of C code: its
    definitions name what the properties below are about. *)

Module Laws.
Import KeyHash Sha256 Codec Spec.

(** Two states of the key hash that agree on everything the current
    window has written: [x1], [x2], [h2], the first third of [h1] and
    the first [x2] bytes of its second and last third. *)
Definition same_window (st st' : KeyHash.state) : Prop :=
  x1 st = x1 st' /\ x2 st = x2 st' /\ h2 st = h2 st' /\
  length (h1 st) = length (h1 st') /\
  forall j,
    0 <= j < n1 \/ n1 <= j < n1 + x2 st \/ n1 * 2 <= j < n1 * 2 + x2 st ->
    idx (h1 st) j = idx (h1 st') j.

(** SHA-256 as the standard has it: the message is followed by the
    byte 0x80, by as few zero bytes as make the total length 56 modulo
    64, and by its length in bits as eight big-endian bytes; the blocks
    of 64 bytes then go through the compression function one after the
    other, and the digest is the bytes of the last chaining value. *)
Definition be64 (n : Z) : list Z :=
  map (fun j : nat => n / 256 ^ Z.of_nat j mod 256) (rev (seq 0 8)).

Definition sha_pad (msg : list Z) : list Z :=
  msg ++ [0x80] ++ replicate (Z.to_nat ((55 - lenZ msg) mod 64)) 0
      ++ be64 ((8 * lenZ msg) mod 2 ^ 64).

Fixpoint sha_blocks (n : nat) (st m : list Z) : list Z :=
  match n with
  | O => st
  | S n' => sha_blocks n' (sha256_transform st (take 64 m)) (drop 64 m)
  end.

Definition sha256_padded (msg : list Z) : list Z :=
  let m := sha_pad msg in
  flat_map hash_bytes
    (sha_blocks (Z.to_nat (lenZ m / 64)) (Sha256.state sha256_init) m).

(** The keys of the Windows prompt: [goes_on] holds of a key that does
    not end the loop (no end of line, no [EOF], no Ctrl+C), [plain_key]
    of one that is not a backspace either. *)
Definition goes_on (ch : Z) : Prop := ch <> 13 /\ ch <> 10 /\ ch <> -1 /\ ch <> 3.
Definition plain_key (ch : Z) : Prop := goes_on ch /\ ch <> 8.

(** Block [j] of a byte string, counted from 0. *)
Definition block (j : Z) (l : list Z) : list Z := takeZ 16 (dropZ (16 * j) l).

(** The block cipher on 16 bytes, as the stream functions apply it. *)
Definition encipher (key blk : list Z) : list Z :=
  be_words_to_bytes (Gost.gostcrypt (be_bytes_to_words blk) key).
Definition decipher (key blk : list Z) : list Z :=
  be_words_to_bytes (Gost.gostdecrypt (be_bytes_to_words blk) key).

End Laws.


(** * Proofs *)

(** ** Bits and bytes *)

Section Bits.

Lemma land_shifted_small a b n :
  0 <= n -> 0 <= b < 2 ^ n -> Z.land (a * 2 ^ n) b = 0.
Proof.
  intros Hn Hb. apply Z.bits_inj'. intros i Hi.
  rewrite Z.land_spec, Z.bits_0.
  destruct (Z.lt_ge_cases i n) as [Hlt | Hge].
  - rewrite Z.mul_pow2_bits_low by lia. reflexivity.
  - rewrite <- (Z.mod_small b (2 ^ n)) by lia.
    rewrite Z.mod_pow2_bits_high by lia. apply andb_false_r.
Qed.

Lemma lor_shifted_small a b n :
  0 <= n -> 0 <= b < 2 ^ n -> Z.lor (a * 2 ^ n) b = a * 2 ^ n + b.
Proof.
  intros Hn Hb.
  pose proof (land_shifted_small a b n Hn Hb) as H0.
  rewrite <- Z.lxor_lor by exact H0.
  symmetry. apply Z.add_nocarry_lxor. exact H0.
Qed.

Lemma land_255 x : Z.land x 255 = x mod 256.
Proof. change 255 with (Z.ones 8). rewrite Z.land_ones by lia. reflexivity. Qed.

Lemma land_ffffffff x : Z.land x 0xffffffff = x mod 2 ^ 32.
Proof. change 0xffffffff with (Z.ones 32). rewrite Z.land_ones by lia. reflexivity. Qed.

Lemma lxor_cancel_r a x : Z.lxor (Z.lxor a x) x = a.
Proof. rewrite Z.lxor_assoc, Z.lxor_nilpotent. apply Z.lxor_0_r. Qed.

Lemma lxor_range a b n : 0 <= n -> 0 <= a < 2 ^ n -> 0 <= b < 2 ^ n -> 0 <= Z.lxor a b < 2 ^ n.
Proof.
  intros Hn Ha Hb.
  assert (H0 : 0 <= Z.lxor a b) by (apply Z.lxor_nonneg; lia).
  split; [exact H0|].
  destruct (Z.eq_dec (Z.lxor a b) 0) as [->|Hne]; [lia|].
  assert (Hpos : 0 < n).
  { destruct (Z.eq_dec n 0) as [->|]; [|lia].
    exfalso. apply Hne. replace a with 0 by lia. replace b with 0 by lia.
    reflexivity. }
  apply Z.log2_lt_pow2; [lia|].
  eapply Z.le_lt_trans; [apply Z.log2_lxor; lia|].
  apply Z.max_lub_lt.
  - destruct (Z.eq_dec a 0) as [->|]; [exact Hpos|]. apply Z.log2_lt_pow2; lia.
  - destruct (Z.eq_dec b 0) as [->|]; [exact Hpos|]. apply Z.log2_lt_pow2; lia.
Qed.

Lemma lxor_byte a b : byte_ok a -> byte_ok b -> byte_ok (Z.lxor a b).
Proof. unfold byte_ok. intros. change 256 with (2 ^ 8). apply lxor_range; lia. Qed.

Lemma idx_range (t : list Z) (lo hi : Z) i :
  lo <= 0 < hi -> Forall (fun v => lo <= v < hi) t -> lo <= idx t i < hi.
Proof.
  intros H0 Ht. unfold idx.
  destruct (nth_in_or_default (Z.to_nat i) t 0) as [Hin | ->]; [|lia].
  rewrite Forall_forall in Ht. apply Ht. apply list_elem_of_In. exact Hin.
Qed.

End Bits.

(** ** The block cipher *)

Lemma bytes_okb_sound (l : list Z) : forallb Spec.byte_okb l = true -> bytes_ok l.
Proof.
  intros H. apply Forall_forall. intros v Hv.
  apply list_elem_of_In in Hv.
  rewrite forallb_forall in H. specialize (H v Hv).
  unfold Spec.byte_okb in H. unfold byte_ok. lia.
Qed.

(** Closes [bytes_ok l] for a concrete list [l] by evaluation. *)
Ltac bytes_by_evaluation := apply bytes_okb_sound; vm_compute; reflexivity.

Section Cipher.
Import Gost Spec.

Lemma K_is_kboxinit : K = kboxinit.
Proof. vm_compute. reflexivity. Qed.

Lemma K_tables :
  byte_table (k175 K) /\ byte_table (k153 K) /\ byte_table (k131 K) /\
  byte_table (k109 K) /\ byte_table (k87 K) /\ byte_table (k65 K) /\
  byte_table (k43 K) /\ byte_table (k21 K).
Proof.
  repeat split; try reflexivity; bytes_by_evaluation.
Qed.

Lemma table_byte (t : list Z) i : byte_table t -> 0 <= idx t i < 256.
Proof. intros [_ Ht]. apply idx_range; [lia | exact Ht]. Qed.

Lemma lor_multiple_small a b n :
  0 <= n -> a mod 2 ^ n = 0 -> 0 <= b < 2 ^ n -> Z.lor a b = a + b.
Proof.
  intros Hn Ha Hb.
  assert (Hp : 0 < 2 ^ n) by (apply Z.pow_pos_nonneg; lia).
  replace a with (a / 2 ^ n * 2 ^ n).
  - apply lor_shifted_small; assumption.
  - pose proof (Z.div_mod a (2 ^ n)). lia.
Qed.

(** Four bytes packed by shifts and ors are the big-endian number. *)
Lemma pack4 t1 t2 t3 t4 :
  0 <= t1 < 256 -> 0 <= t2 < 256 -> 0 <= t3 < 256 -> 0 <= t4 < 256 ->
  Z.lor (Z.lor (Z.lor (shl64 t1 24) (shl64 t2 16)) (shl64 t3 8)) t4
  = t1 * 2 ^ 24 + t2 * 2 ^ 16 + t3 * 2 ^ 8 + t4.
Proof.
  intros H1 H2 H3 H4. unfold shl64.
  rewrite !Z.shiftl_mul_pow2 by lia.
  rewrite !Z.mod_small by lia.
  rewrite (lor_multiple_small (t1 * 2 ^ 24) (t2 * 2 ^ 16) 24); [|lia| |lia].
  2: { apply Z.mod_mul. lia. }
  rewrite (lor_multiple_small (t1 * 2 ^ 24 + t2 * 2 ^ 16) (t3 * 2 ^ 8) 16); [|lia| |lia].
  2: { change (2 ^ 24) with (2 ^ 8 * 2 ^ 16).
       rewrite Z.mul_assoc, <- Z.mul_add_distr_r. apply Z.mod_mul. lia. }
  apply (lor_multiple_small _ t4 8); [lia| |lia].
  change (2 ^ 24) with (2 ^ 16 * 2 ^ 8). change (2 ^ 16) with (2 ^ 8 * 2 ^ 8).
  rewrite !Z.mul_assoc, <- !Z.mul_add_distr_r. apply Z.mod_mul. lia.
Qed.

Lemma rotl64_shifts x n :
  0 < n < 64 -> 0 <= x < 2 ^ 64 ->
  Z.lor (shl64 x n) (Z.shiftr x (64 - n)) = rotl64 x n.
Proof.
  intros Hn Hx. unfold shl64, rotl64.
  rewrite Z.shiftl_mul_pow2, Z.shiftr_div_pow2 by lia.
  assert (Hp : 0 < 2 ^ n) by (apply Z.pow_pos_nonneg; lia).
  assert (Hq : 0 < 2 ^ (64 - n)) by (apply Z.pow_pos_nonneg; lia).
  assert (Hsplit : 2 ^ 64 = 2 ^ (64 - n) * 2 ^ n).
  { rewrite <- Z.pow_add_r by lia. f_equal. lia. }
  apply (lor_multiple_small _ _ n); [lia| |].
  - rewrite Hsplit. rewrite Z.mul_mod_distr_r by lia.
    apply Z.mod_mul. lia.
  - split; [apply Z.div_pos; lia|].
    apply Z.div_lt_upper_bound; [lia|]. rewrite <- Hsplit. lia.
Qed.

Lemma f_range x : 0 <= f x.
Proof.
  unfold f. cbv zeta.
  apply Z.lor_nonneg. split.
  - unfold shl64. apply Z.mod_pos_bound. lia.
  - apply Z.shiftr_nonneg. apply Z.lor_nonneg. split.
    + unfold shl64. apply Z.mod_pos_bound. lia.
    + rewrite land_ffffffff. apply Z.mod_pos_bound. lia.
Qed.

(** [f] is the round function of the specification. *)
Lemma f_round_function x : word64_ok x -> f x = round_function x.
Proof.
  unfold word64_ok. intros Hx.
  destruct K_tables as (T175 & T153 & T131 & T109 & T87 & T65 & T43 & T21).
  unfold f, round_function. cbv zeta.
  rewrite !land_255, !land_ffffffff, !Z.shiftr_div_pow2 by lia.
  unfold bytes32. cbn [zip_with app]. unfold join_bytes. cbn [fold_left].
  set (y := x / 2 ^ 32). set (z := x mod 2 ^ 32).
  pose proof (table_byte (k87 K) (y / 2 ^ 24 mod 256) T87).
  pose proof (table_byte (k65 K) (y / 2 ^ 16 mod 256) T65).
  pose proof (table_byte (k43 K) (y / 2 ^ 8 mod 256) T43).
  pose proof (table_byte (k21 K) (y mod 256) T21).
  pose proof (table_byte (k175 K) (z / 2 ^ 24 mod 256) T175).
  pose proof (table_byte (k153 K) (z / 2 ^ 16 mod 256) T153).
  pose proof (table_byte (k131 K) (z / 2 ^ 8 mod 256) T131).
  pose proof (table_byte (k109 K) (z mod 256) T109).
  rewrite !pack4 by assumption.
  set (t1 := idx (k87 K) _) in *. set (t2 := idx (k65 K) _) in *.
  set (t3 := idx (k43 K) _) in *. set (t4 := idx (k21 K) _) in *.
  set (t5 := idx (k175 K) _) in *. set (t6 := idx (k153 K) _) in *.
  set (t7 := idx (k131 K) _) in *. set (t8 := idx (k109 K) _) in *.
  set (Y := t1 * 2 ^ 24 + t2 * 2 ^ 16 + t3 * 2 ^ 8 + t4).
  set (Z' := t5 * 2 ^ 24 + t6 * 2 ^ 16 + t7 * 2 ^ 8 + t8).
  assert (HY : 0 <= Y < 2 ^ 32) by (unfold Y; lia).
  assert (HZ : 0 <= Z' < 2 ^ 32) by (unfold Z'; lia).
  rewrite (Z.mod_small Z') by lia.
  assert (HX : Z.lor (shl64 Y 32) Z' = Y * 2 ^ 32 + Z').
  { unfold shl64. rewrite Z.shiftl_mul_pow2 by lia.
    rewrite (Z.mod_small (Y * 2 ^ 32)) by lia.
    apply lor_shifted_small; lia. }
  rewrite !HX.
  rewrite <- (Z.shiftr_div_pow2 _ (64 - 11)) by lia.
  rewrite rotl64_shifts by lia.
  f_equal. unfold Y, Z'. lia.
Qed.

Lemma f_wrapped x : f (x mod 2 ^ 64) = round_function (x mod 2 ^ 64).
Proof. apply f_round_function. unfold word64_ok. apply Z.mod_pos_bound. lia. Qed.

Lemma crypt_rounds_fold n i key a b :
  crypt_rounds n (2 * Z.of_nat i) key a b = fold_left (enc_round key) (seq i n) (a, b).
Proof.
  revert i a b. induction n as [|n IH]; intros i a b; [reflexivity|].
  cbn [crypt_rounds seq fold_left]. unfold enc_round at 2. unfold add64.
  rewrite !f_wrapped.
  replace (2 * Z.of_nat i + 2) with (2 * Z.of_nat (S i)) by lia.
  apply IH.
Qed.

Lemma decrypt_rounds_fold n i key a b :
  decrypt_rounds n (63 - 2 * Z.of_nat i) key a b
  = fold_left (dec_round key) (seq i n) (a, b).
Proof.
  revert i a b. induction n as [|n IH]; intros i a b; [reflexivity|].
  cbn [decrypt_rounds seq fold_left]. unfold dec_round at 2. unfold add64.
  rewrite !f_wrapped.
  replace (63 - 2 * Z.of_nat i - 1) with (62 - 2 * Z.of_nat i) by lia.
  replace (63 - 2 * Z.of_nat i - 2) with (63 - 2 * Z.of_nat (S i)) by lia.
  apply IH.
Qed.

(** Running [n + m] rounds downwards is running [n], then [m]. *)
Lemma decrypt_rounds_app n m k key a b :
  decrypt_rounds (n + m) k key a b
  = (let '(a1, b1) := decrypt_rounds n k key a b in
     decrypt_rounds m (k - 2 * Z.of_nat n) key a1 b1).
Proof.
  revert k a b. induction n as [|n IH]; intros k a b.
  - cbn [Nat.add decrypt_rounds]. f_equal. lia.
  - cbn [Nat.add decrypt_rounds]. rewrite IH.
    destruct (decrypt_rounds n (k - 2) key _ _) as [a1 b1].
    f_equal. lia.
Qed.

(** The downward loop started at the last key index the upward loop
    used, on the swapped halves, undoes the upward loop. *)
Lemma decrypt_rounds_crypt_rounds n k key a b :
  (let '(a1, b1) := crypt_rounds n k key a b in
   decrypt_rounds n (k + 2 * Z.of_nat n - 1) key b1 a1) = (b, a).
Proof.
  revert k a b. induction n as [|n IH]; intros k a b; [reflexivity|].
  cbn [crypt_rounds].
  set (b' := Z.lxor b (f (add64 a (idx key k)))).
  set (a' := Z.lxor a (f (add64 b' (idx key (k + 1))))).
  specialize (IH (k + 2) a' b').
  destruct (crypt_rounds n (k + 2) key a' b') as [a1 b1].
  replace (S n) with (n + 1)%nat by lia.
  rewrite decrypt_rounds_app.
  replace (k + 2 * Z.of_nat (n + 1) - 1) with (k + 2 + 2 * Z.of_nat n - 1) by lia.
  rewrite IH. cbn [decrypt_rounds].
  replace (k + 2 + 2 * Z.of_nat n - 1 - 2 * Z.of_nat n) with (k + 1) by lia.
  replace (k + 1 - 1) with k by lia.
  assert (Ha : Z.lxor a' (f (add64 b' (idx key (k + 1)))) = a)
    by (unfold a'; apply lxor_cancel_r).
  assert (Hb : Z.lxor b' (f (add64 a (idx key k))) = b)
    by (unfold b'; apply lxor_cancel_r).
  rewrite Ha, Hb. reflexivity.
Qed.

(** C2: [gostcrypt] runs 32 rounds, round [i] being
    [b ^= f(a + subkeys[2i])] then [a ^= f(b + subkeys[2i+1])] with
    addition modulo 2^64, and returns the halves swapped; on every 64-bit
    argument [f] splits it into two 32-bit halves, sends each of the eight
    bytes through its own table, reassembles and rotates left by 11; the
    eight tables, as [kboxinit] fills them, have 256 byte entries each. *)
Theorem C2_gostcrypt_rounds_and_f (a b x : Z) (subkeys : list Z) :
  gostcrypt (a, b) subkeys = encrypt_block a b subkeys
  /\ f (x mod 2 ^ 64) = round_function (x mod 2 ^ 64)
  /\ K = kboxinit
  /\ Forall byte_table
       [k175 K; k153 K; k131 K; k109 K; k87 K; k65 K; k43 K; k21 K].
Proof.
  split; [|split; [|split]].
  - unfold gostcrypt, encrypt_block. cbn [fst snd].
    change 0 with (2 * Z.of_nat 0). rewrite crypt_rounds_fold. reflexivity.
  - apply f_wrapped.
  - apply K_is_kboxinit.
  - destruct K_tables as (T175 & T153 & T131 & T109 & T87 & T65 & T43 & T21).
    repeat (constructor; [assumption|]). constructor.
Qed.

Lemma gostdecrypt_gostcrypt (w : Z * Z) (key : list Z) :
  gostdecrypt (gostcrypt w key) key = w.
Proof.
  destruct w as [a b]. unfold gostcrypt, gostdecrypt. cbn [fst snd].
  pose proof (decrypt_rounds_crypt_rounds 32 0 key a b) as H.
  destruct (crypt_rounds 32 0 key a b) as [a1 b1]. cbn [fst snd].
  change (0 + 2 * Z.of_nat 32 - 1) with 63 in H. rewrite H. reflexivity.
Qed.

(** C3: [gostdecrypt] undoes [gostcrypt] under the same subkeys, and it is
    the same round structure run over the subkeys from index 63 down to 0,
    two per round, with the halves swapped on output. *)
Theorem C3_gostdecrypt_inverts_gostcrypt (a b : Z) (subkeys : list Z) :
  gostdecrypt (gostcrypt (a, b) subkeys) subkeys = (a, b)
  /\ gostdecrypt (a, b) subkeys = decrypt_block a b subkeys.
Proof.
  split; [apply gostdecrypt_gostcrypt|].
  unfold gostdecrypt, decrypt_block. cbn [fst snd].
  change 63 with (63 - 2 * Z.of_nat 0). rewrite decrypt_rounds_fold. reflexivity.
Qed.

(** Known values: the round function and one block, forwards and back. *)
Example f_sample : f 0x0123456789abcdef = 585452714923133149.
Proof. vm_compute. reflexivity. Qed.

Example gostcrypt_sample :
  gostcrypt (1, 2) (seqZ 1000000007 64) = (5632000907016201031, 8741630302455770277)
  /\ gostdecrypt (5632000907016201031, 8741630302455770277) (seqZ 1000000007 64) = (1, 2).
Proof. split; vm_compute; reflexivity. Qed.

End Cipher.

(** ** The key hash *)

Section KeyHashFacts.
Import KeyHash Spec.

Lemma idx_app_r (pre suf : list Z) :
  idx (pre ++ suf) (Z.of_nat (length pre)) = idx suf 0.
Proof.
  unfold idx. rewrite Nat2Z.id. change (Z.to_nat 0) with 0%nat.
  rewrite app_nth2 by lia. rewrite Nat.sub_diag. reflexivity.
Qed.

Lemma insert_app_r_0 (pre suf : list Z) x v :
  <[length pre := v]> (pre ++ x :: suf) = pre ++ v :: suf.
Proof.
  rewrite insert_app_r_alt by lia. rewrite Nat.sub_diag. reflexivity.
Qed.

(** The indexed sweep over a whole array is the scan. *)
Lemma sweep_scan_from (pre suf : list Z) b2 :
  sweep (length suf) (Z.of_nat (length pre)) (pre ++ suf) b2
  = (pre ++ fst (scan suf b2), snd (scan suf b2)).
Proof.
  revert pre b2. induction suf as [|x t IH]; intros pre b2.
  - cbn. rewrite !app_nil_r. reflexivity.
  - cbn [length sweep scan].
    rewrite idx_app_r. change (idx (x :: t) 0) with x.
    rewrite Nat2Z.id, insert_app_r_0.
    set (v := Z.lxor x (idx s4 b2)).
    replace (Z.of_nat (length pre) + 1) with (Z.of_nat (length (pre ++ [v])))
      by (rewrite length_app; cbn; lia).
    replace (pre ++ v :: t) with ((pre ++ [v]) ++ t)
      by (rewrite <- app_assoc; reflexivity).
    rewrite IH. destruct (scan t v) as [t' b2']. cbn [fst snd].
    rewrite <- app_assoc. reflexivity.
Qed.

Lemma sweep_scan (h : list Z) b2 :
  Z.of_nat (length h) = n1 * 3 -> sweep (Z.to_nat (n1 * 3)) 0 h b2 = scan h b2.
Proof.
  intros Hlen. rewrite <- Hlen, Nat2Z.id.
  pose proof (sweep_scan_from [] h b2) as H. cbn [app length] in H.
  change (Z.of_nat 0) with 0 in H. rewrite H. destruct (scan h b2); reflexivity.
Qed.

Lemma scan_length (h : list Z) b2 : length (fst (scan h b2)) = length h.
Proof.
  revert b2. induction h as [|x t IH]; intros b2; [reflexivity|].
  cbn [scan]. specialize (IH (Z.lxor x (idx s4 b2))).
  destruct (scan t _) as [t' b2']. cbn [fst length] in *. lia.
Qed.

Lemma s4_bytes : bytes_ok s4.
Proof. bytes_by_evaluation. Qed.

Lemma s4_byte i : byte_ok (idx s4 i).
Proof. apply (idx_range s4 0 256); [lia | exact s4_bytes]. Qed.

Lemma scan_bytes (h : list Z) b2 : bytes_ok h -> bytes_ok (fst (scan h b2)).
Proof.
  revert b2. induction h as [|x t IH]; intros b2 Hh; [constructor|].
  cbn [scan]. inversion Hh as [|? ? Hx Ht]; subst.
  specialize (IH (Z.lxor x (idx s4 b2)) Ht).
  destruct (scan t _) as [t' b2']. cbn [fst] in *.
  constructor; [|exact IH]. apply lxor_byte; [exact Hx | apply s4_byte].
Qed.

Lemma mix_mix_scan cnt b3 (h : list Z) b2 :
  Z.of_nat (length h) = n1 * 3 -> mix cnt b3 h b2 = mix_scan cnt b3 h b2.
Proof.
  revert b3 h b2. induction cnt as [|cnt IH]; intros b3 h b2 Hlen; [reflexivity|].
  cbn [mix mix_scan]. rewrite sweep_scan by exact Hlen.
  pose proof (scan_length h b2) as Hl.
  destruct (scan h b2) as [h' b2']. cbn [fst] in Hl.
  apply IH. lia.
Qed.

Lemma mix_scan_inv cnt b3 (h : list Z) b2 :
  length (mix_scan cnt b3 h b2) = length h /\
  (bytes_ok h -> bytes_ok (mix_scan cnt b3 h b2)).
Proof.
  revert b3 h b2. induction cnt as [|cnt IH]; intros b3 h b2; [split; auto|].
  cbn [mix_scan].
  pose proof (scan_length h b2) as Hl. pose proof (scan_bytes h b2) as Hb.
  destruct (scan h b2) as [h' b2']. cbn [fst] in *.
  destruct (IH (b3 + 1) h' ((b2' + b3) mod 256)) as [IHl IHb].
  split; [lia | auto].
Qed.

Lemma compress_compress_scan st :
  Z.of_nat (length (h1 st)) = n1 * 3 -> compress st = compress_scan st.
Proof.
  intros Hlen. unfold compress, compress_scan.
  rewrite mix_mix_scan by exact Hlen. reflexivity.
Qed.

Lemma compress_fields st :
  x2 (compress st) = 0 /\ h2 (compress st) = h2 st /\ x1 (compress st) = x1 st.
Proof. unfold compress. cbn [x1 x2 h2]. auto. Qed.

Lemma compress_h1 st :
  Z.of_nat (length (h1 st)) = n1 * 3 ->
  Z.of_nat (length (h1 (compress st))) = n1 * 3 /\
  (bytes_ok (h1 st) -> bytes_ok (h1 (compress st))).
Proof.
  intros Hlen. rewrite compress_compress_scan by exact Hlen.
  unfold compress_scan. cbn [h1].
  destruct (mix_scan_inv (Z.to_nat (n1 + 2)) 0 (h1 st) 0) as [Hl Hb].
  split; [rewrite Hl; exact Hlen | exact Hb].
Qed.

Lemma absorb_byte_ok b st :
  byte_ok b -> hash_state_ok st ->
  x2 (absorb_byte b st) = x2 st + 1 /\
  Z.of_nat (length (h2 (absorb_byte b st))) = n1 /\
  Z.of_nat (length (h1 (absorb_byte b st))) = n1 * 3 /\
  bytes_ok (h2 (absorb_byte b st)) /\ bytes_ok (h1 (absorb_byte b st)).
Proof.
  intros Hb (Hx & Hl2 & Hl1 & Hb2 & Hb1).
  unfold absorb_byte. cbn [x1 x2 h1 h2].
  rewrite !length_insert.
  split; [reflexivity|]. split; [exact Hl2|]. split; [exact Hl1|]. split.
  - apply Forall_insert; [exact Hb2|].
    apply lxor_byte; [|apply s4_byte].
    apply (idx_range (h2 st) 0 256); [lia | exact Hb2].
  - apply Forall_insert; [apply Forall_insert; assumption|].
    apply lxor_byte; [exact Hb|].
    apply (idx_range _ 0 256); [lia|]. apply Forall_insert; assumption.
Qed.

Lemma update_step_ok b st :
  byte_ok b -> hash_state_ok st ->
  hash_state_ok (update_step st b) /\
  x2 (update_step st b) = (x2 st + 1) mod n1.
Proof.
  intros Hb Hst.
  destruct (absorb_byte_ok b st Hb Hst) as (Hx & Hl2 & Hl1 & Hb2 & Hb1).
  destruct Hst as (Hr & _).
  unfold update_step. cbv zeta.
  destruct (Z.eqb_spec (x2 (absorb_byte b st)) n1) as [Hfull | Hroom].
  - destruct (compress_fields (absorb_byte b st)) as (C2 & Ch2 & _).
    destruct (compress_h1 (absorb_byte b st) Hl1) as [Cl Cb].
    unfold hash_state_ok. rewrite C2, Ch2.
    replace (x2 st + 1) with n1 by lia. rewrite Z.mod_same by (unfold n1; lia).
    split; [|reflexivity].
    split; [unfold n1; lia|]. split; [exact Hl2|]. split; [exact Cl|].
    split; [exact Hb2 | exact (Cb Hb1)].
  - unfold hash_state_ok. rewrite Hx.
    rewrite Z.mod_small by lia.
    split; [|reflexivity].
    split; [lia|]. split; [exact Hl2|]. split; [exact Hl1|].
    split; [exact Hb2 | exact Hb1].
Qed.

Lemma update_ok l st :
  bytes_ok l -> hash_state_ok st ->
  hash_state_ok (update l st) /\
  x2 (update l st) = (x2 st + Z.of_nat (length l)) mod n1.
Proof.
  revert st. induction l as [|b l IH]; intros st Hl Hst.
  - cbn. split; [exact Hst|]. destruct Hst as (Hr & _).
    rewrite Z.add_0_r, Z.mod_small by lia. reflexivity.
  - inversion Hl as [|? ? Hb Hl']; subst.
    destruct (update_step_ok b st Hb Hst) as [Hst' Hx'].
    destruct (IH (update_step st b) Hl' Hst') as [Hok Hx].
    change (update (b :: l) st) with (update l (update_step st b)).
    split; [exact Hok|].
    rewrite Hx, Hx'. rewrite Zplus_mod_idemp_l.
    f_equal. cbn [length]. lia.
Qed.

(** *** [hashing] is [update] *)

Lemma absorb_full b6 t1 b4 st : n1 <= x2 st -> absorb b6 t1 b4 st = (b6, b4, st).
Proof.
  intros H. destruct b6 as [|b6]; [reflexivity|].
  cbn [absorb]. destruct (Z.ltb_spec (x2 st) n1); [lia | reflexivity].
Qed.

Lemma hashing_loop_S fuel t1 b4 b6 st :
  hashing_loop (S fuel) t1 b4 (S b6) st
  = (let '(b6', b4', st') := absorb (S b6) t1 b4 st in
     hashing_loop fuel t1 b4' b6' (if x2 st' =? n1 then compress st' else st')).
Proof.
  cbn [hashing_loop]. destruct (absorb (S b6) t1 b4 st) as [[b6' b4'] st'].
  reflexivity.
Qed.

Lemma absorb_byte_x2 b st : x2 (absorb_byte b st) = x2 st + 1.
Proof. reflexivity. Qed.

Lemma update_step_x2_range b st :
  0 <= x2 st < n1 -> 0 <= x2 (update_step st b) < n1.
Proof.
  intros H. unfold update_step. cbv zeta.
  destruct (Z.eqb_spec (x2 (absorb_byte b st)) n1) as [Hfull | Hroom].
  - destruct (compress_fields (absorb_byte b st)) as (-> & _). unfold n1. lia.
  - rewrite absorb_byte_x2 in *. lia.
Qed.

Lemma hashing_loop_update t1 l :
  forall fuel b4 st,
    feeds t1 b4 st l -> 0 <= x2 st < n1 -> (length l < fuel)%nat ->
    hashing_loop fuel t1 b4 (length l) st = Some (update l st).
Proof.
  induction l as [|b l IH]; intros fuel b4 st Hfeed Hx Hfuel.
  - destruct fuel as [|fuel]; [cbn in Hfuel; lia | reflexivity].
  - destruct fuel as [|fuel]; [cbn in Hfuel; lia|].
    cbn [length] in *.
    inversion Hfeed as [|? ? ? ? Hread Hrest]; subst.
    pose proof (update_step_x2_range (read t1 st b4) st Hx) as Hx'.
    rewrite hashing_loop_S. cbn [absorb].
    destruct (Z.ltb_spec (x2 st) n1) as [_|]; [|lia].
    cbn [update fold_left]. fold (update l (update_step st (read t1 st b4))).
    unfold update_step in *. cbv zeta in *.
    set (st1 := absorb_byte (read t1 st b4) st) in *.
    destruct (Z.eqb_spec (x2 st1) n1) as [Hfull | Hroom].
    + rewrite absorb_full by lia.
      destruct (Z.eqb_spec (x2 st1) n1) as [_|]; [|lia].
      apply IH; [exact Hrest | exact Hx' | lia].
    + destruct l as [|b' l'].
      * cbn [absorb length].
        destruct (Z.eqb_spec (x2 st1) n1) as [|_]; [lia|].
        destruct fuel as [|fuel]; [lia | reflexivity].
      * specialize (IH (S fuel) (b4 + 1) st1 Hrest Hx' ltac:(cbn [length] in *; lia)).
        cbn [length] in IH. rewrite hashing_loop_S in IH. exact IH.
Qed.

Lemma feeds_buffer (l pre : list Z) st :
  feeds (Buffer (pre ++ l)) (Z.of_nat (length pre)) st l.
Proof.
  revert pre st. induction l as [|b l IH]; intros pre st; [constructor|].
  constructor.
  - cbn [read]. rewrite idx_app_r. reflexivity.
  - replace (Z.of_nat (length pre) + 1) with (Z.of_nat (length (pre ++ [b])))
      by (rewrite length_app; cbn; lia).
    replace (pre ++ b :: l) with ((pre ++ [b]) ++ l)
      by (rewrite <- app_assoc; reflexivity).
    apply IH.
Qed.

Lemma hashing_buffer (l : list Z) st :
  0 <= x2 st < n1 ->
  hashing (Buffer l) (length l) st = Some (update l st).
Proof.
  intros Hx. unfold hashing.
  apply hashing_loop_update; [|exact Hx|lia].
  apply (feeds_buffer l [] st).
Qed.

Lemma update_step_h2 b st :
  h2 (update_step st b)
  = <[Z.to_nat (x2 st) := Z.lxor (idx (h2 st) (x2 st)) (idx s4 (Z.lxor b (x1 st)))]> (h2 st).
Proof.
  unfold update_step. cbv zeta.
  destruct (Z.eqb_spec (x2 (absorb_byte b st)) n1).
  - destruct (compress_fields (absorb_byte b st)) as (_ & -> & _). reflexivity.
  - reflexivity.
Qed.

(** Reading through the alias: byte [b4] of [h2] is read before step
    [b4] writes it, and no earlier step has touched it. *)
Lemma feeds_h2 (l : list Z) :
  forall (pre : list Z) st,
    h2 st = pre ++ l ->
    x2 st = Z.of_nat (length pre) \/ l = [] ->
    Z.of_nat (length pre) + Z.of_nat (length l) <= n1 ->
    feeds GlobalH2 (Z.of_nat (length pre)) st l.
Proof.
  induction l as [|b l IH]; intros pre st Hh2 Hx Hlen; [constructor|].
  destruct Hx as [Hx | Hx]; [|discriminate].
  constructor.
  - cbn [read]. rewrite Hh2, idx_app_r. reflexivity.
  - set (v := Z.lxor (idx (h2 st) (x2 st)) (idx s4 (Z.lxor b (x1 st)))).
    replace (Z.of_nat (length pre) + 1) with (Z.of_nat (length (pre ++ [v])))
      by (rewrite length_app; cbn; lia).
    apply IH.
    + rewrite update_step_h2. fold v. rewrite Hh2, Hx, Nat2Z.id.
      rewrite insert_app_r_0. rewrite <- app_assoc. reflexivity.
    + destruct l as [|b' l']; [right; reflexivity|left].
      unfold update_step. cbv zeta. rewrite absorb_byte_x2.
      cbn [length] in Hlen.
      destruct (Z.eqb_spec (x2 st + 1) n1); [lia|].
      rewrite absorb_byte_x2, length_app. cbn. lia.
    + rewrite length_app. cbn [length] in *. lia.
Qed.

Lemma hashing_global_h2 st :
  x2 st = 0 -> Z.of_nat (length (h2 st)) = n1 ->
  hashing GlobalH2 (Z.to_nat n1) st = Some (update (h2 st) st).
Proof.
  intros Hx Hlen. unfold hashing.
  replace (Z.to_nat n1) with (length (h2 st)) by lia.
  apply hashing_loop_update; [|unfold n1; lia|lia].
  apply (feeds_h2 (h2 st) [] st); [reflexivity | left; exact Hx | cbn; lia].
Qed.

(** *** [create_keys] *)

Lemma drop_nth (h : list Z) (n : nat) :
  (n < length h)%nat -> drop n h = nth n h 0 :: drop (S n) h.
Proof.
  revert n. induction h as [|x h IH]; intros n Hn; [cbn in Hn; lia|].
  destruct n as [|n]; [reflexivity|].
  cbn [drop nth]. apply IH. cbn in Hn. lia.
Qed.

Lemma drop_idx (h : list Z) k :
  0 <= k < Z.of_nat (length h) ->
  drop (Z.to_nat k) h = idx h k :: drop (Z.to_nat (k + 1)) h.
Proof.
  intros Hk. unfold idx. rewrite (drop_nth h (Z.to_nat k)) by lia.
  replace (Z.to_nat (k + 1)) with (S (Z.to_nat k)) by lia. reflexivity.
Qed.

Lemma key_word_join n :
  forall (h4 : list Z) k acc,
    (n <= 8)%nat -> bytes_ok h4 ->
    0 <= k -> k + Z.of_nat n <= Z.of_nat (length h4) ->
    0 <= acc < 2 ^ (64 - 8 * Z.of_nat n) ->
    key_word n h4 k acc
    = fold_left (fun a b => a * 256 + b) (take n (drop (Z.to_nat k) h4)) acc.
Proof.
  induction n as [|n IH]; intros h4 k acc Hn Hb Hk Hlen Hacc; [reflexivity|].
  cbn [key_word].
  rewrite (drop_idx h4 k) by lia. cbn [take fold_left].
  assert (Hbyte : byte_ok (idx h4 k))
    by (apply (idx_range h4 0 256); [lia | exact Hb]).
  unfold byte_ok in Hbyte.
  set (P := 2 ^ (64 - 8 * Z.of_nat (S n))) in *.
  assert (HP : 0 < P) by (apply Z.pow_pos_nonneg; lia).
  assert (HP56 : P <= 2 ^ 56) by (apply Z.pow_le_mono_r; lia).
  assert (HPn : 2 ^ (64 - 8 * Z.of_nat n) = P * 256).
  { unfold P. change 256 with (2 ^ 8). rewrite <- Z.pow_add_r by lia.
    f_equal. lia. }
  assert (Hstep : add64 (shl64 acc 8) (Z.land (idx h4 k) 0xff) = acc * 256 + idx h4 k).
  { unfold add64, shl64. rewrite Z.shiftl_mul_pow2 by lia.
    change 0xff with 255. rewrite land_255.
    rewrite (Z.mod_small (idx h4 k)) by lia.
    change (2 ^ 8) with 256.
    rewrite (Z.mod_small (acc * 256)) by lia.
    apply Z.mod_small. lia. }
  rewrite Hstep.
  apply IH; [lia | exact Hb | lia | lia |].
  rewrite HPn. lia.
Qed.

Lemma create_keys_loop_slices i :
  forall (h4 : list Z) k,
    bytes_ok h4 -> 0 <= k -> k + 8 * Z.of_nat i <= Z.of_nat (length h4) ->
    create_keys_loop i h4 k = map join_bytes (slices i 8 (drop (Z.to_nat k) h4)).
Proof.
  induction i as [|i IH]; intros h4 k Hb Hk Hlen; [reflexivity|].
  cbn [create_keys_loop slices map]. f_equal.
  - unfold join_bytes. apply key_word_join; [lia | exact Hb | lia | lia |].
    change (64 - 8 * Z.of_nat 8) with 0. change (2 ^ 0) with 1. lia.
  - rewrite drop_drop.
    replace (Z.to_nat k + 8)%nat with (Z.to_nat (k + 8)) by lia.
    apply IH; [exact Hb | lia | lia].
Qed.

Lemma create_keys_slices (h4 : list Z) :
  bytes_ok h4 -> Z.of_nat (length h4) = n1 ->
  create_keys h4 = map join_bytes (slices 64 8 h4).
Proof.
  intros Hb Hlen. unfold create_keys.
  rewrite (create_keys_loop_slices 64 h4 0 Hb); [reflexivity | lia |].
  rewrite Hlen. unfold n1. lia.
Qed.

(** *** The derivation as a whole *)

Lemma c_string_bytes (buf : list Z) : bytes_ok buf -> bytes_ok (c_string buf).
Proof.
  induction 1 as [|c rest Hc Hrest IH]; [constructor|].
  cbn [c_string]. destruct (c =? 0); [constructor|]. constructor; assumption.
Qed.

Lemma init_state_ok : hash_state_ok (init_gost_keyhash startup).
Proof.
  unfold hash_state_ok, init_gost_keyhash, startup. cbn [x1 x2 h1 h2].
  split; [unfold n1; lia|].
  split; [rewrite length_replicate; unfold n1; lia|].
  split.
  { rewrite length_app, length_drop, !length_replicate. unfold n1. lia. }
  split; [apply Forall_replicate; unfold byte_ok; lia|].
  apply Forall_app. split.
  - apply Forall_replicate. unfold byte_ok. lia.
  - apply Forall_drop. apply Forall_replicate. unfold byte_ok. lia.
Qed.

Lemma padding_is_h3 st : h3_of st = padding st.
Proof. reflexivity. Qed.

Lemma padding_bytes st : bytes_ok (padding st).
Proof.
  unfold padding. apply Forall_replicate. unfold byte_ok.
  apply Z.mod_pos_bound. lia.
Qed.

Lemma bind_Some {A B : Type} (x : A) (k : A -> option B) : (Some x ≫= k) = k x.
Proof. reflexivity. Qed.

Lemma end_gost_keyhash_finalize st :
  hash_state_ok st -> end_gost_keyhash st = Some (finalize st).
Proof.
  intros Hok. pose proof Hok as (Hr & _).
  destruct (update_ok (padding st) st (padding_bytes st) Hok) as [Hok2 Hx2].
  assert (Hpadlen : length (padding st) = Z.to_nat (n1 - x2 st))
    by (unfold padding; apply length_replicate).
  assert (Hx2' : x2 (update (padding st) st) = 0).
  { rewrite Hx2, Hpadlen. rewrite Z2Nat.id by lia.
    replace (x2 st + (n1 - x2 st)) with n1 by lia.
    apply Z.mod_same. unfold n1. lia. }
  pose proof Hok2 as (_ & Hl2 & _).
  unfold end_gost_keyhash, finalize.
  rewrite padding_is_h3, <- Hpadlen.
  rewrite (hashing_buffer _ _ Hr), bind_Some.
  rewrite (hashing_global_h2 _ Hx2' Hl2), bind_Some.
  reflexivity.
Qed.

Lemma finalize_ok st :
  hash_state_ok st ->
  bytes_ok (fst (finalize st)) /\ Z.of_nat (length (fst (finalize st))) = n1.
Proof.
  intros Hok.
  destruct (update_ok (padding st) st (padding_bytes st) Hok) as [Hok2 _].
  pose proof Hok2 as (_ & _ & _ & Hb2 & _).
  destruct (update_ok _ _ Hb2 Hok2) as [(_ & _ & Hl13 & _ & Hb13) _].
  unfold finalize. cbn [fst]. split.
  - apply Forall_take. exact Hb13.
  - rewrite length_take. rewrite Nat2Z.inj_min, Hl13, Z2Nat.id by (unfold n1; lia).
    unfold n1. lia.
Qed.

Lemma derive_is_derive_subkeys (password : list Z) :
  bytes_ok password ->
  derive_gost_subkeys_from_password password startup
  = Some (derive_subkeys (c_string password)).
Proof.
  intros Hpw.
  pose proof (c_string_bytes password Hpw) as Hcs.
  destruct (update_ok (c_string password) _ Hcs init_state_ok) as [Hok1 _].
  pose proof init_state_ok as (Hr0 & _).
  destruct (finalize_ok _ Hok1) as [Hfb Hfl].
  unfold derive_gost_subkeys_from_password, derive_subkeys.
  rewrite (hashing_buffer _ _ Hr0), bind_Some.
  rewrite (end_gost_keyhash_finalize _ Hok1), bind_Some.
  destruct (finalize (update (c_string password) (init_gost_keyhash startup)))
    as [digest st3].
  cbn [fst] in Hfb, Hfl.
  rewrite (create_keys_slices digest Hfb Hfl). reflexivity.
Qed.

(** C4 (amended): key derivation is one [update] with the password bytes,
    then the finalisation, then the slicing of the first 512 bytes of the
    work buffer into 64 big-endian words.  The finalisation pads the window
    to its end, every pad byte being the room left in the window reduced
    modulo 256, and then feeds the 512-byte checksum array; the room left
    after a password of [L] bytes is [512 - L mod 512]. *)
Theorem C4_derivation_order (password : list Z) :
  bytes_ok password ->
  derive_gost_subkeys_from_password password startup
  = Some (derive_subkeys (c_string password))
  /\ x2 (update (c_string password) (init_gost_keyhash startup))
     = Z.of_nat (length (c_string password)) mod n1.
Proof.
  intros Hpw. split; [apply derive_is_derive_subkeys; exact Hpw|].
  destruct (update_ok (c_string password) _ (c_string_bytes password Hpw) init_state_ok)
    as [_ Hx].
  rewrite Hx. reflexivity.
Qed.

Lemma C4_derivation_order_witness :
  derive_gost_subkeys_from_password [112; 119; 0] startup
  = Some (derive_subkeys (c_string [112; 119; 0]))
  /\ x2 (update (c_string [112; 119; 0]) (init_gost_keyhash startup))
     = Z.of_nat (length (c_string [112; 119; 0])) mod n1.
Proof.
  apply (C4_derivation_order [112; 119; 0]).
  repeat (constructor; [unfold byte_ok; lia|]). constructor.
Defined.

(** C4 as stated fails: after the empty password the window has room for
    512 bytes, and the pad bytes are 0, not 512. *)
Lemma C4_pad_byte_counterexample : ~ pads_with_remaining_length [0].
Proof.
  unfold pads_with_remaining_length. intros H.
  vm_compute in H. discriminate H.
Qed.

(** *** The scan form computes the same keys *)

Lemma update_update_scan l st :
  bytes_ok l -> hash_state_ok st -> update l st = update_scan l st.
Proof.
  revert st. induction l as [|b l IH]; intros st Hl Hst; [reflexivity|].
  inversion Hl as [|? ? Hb Hl']; subst.
  change (update (b :: l) st) with (update l (update_step st b)).
  change (update_scan (b :: l) st) with (update_scan l (update_step_scan st b)).
  assert (Hstep : update_step st b = update_step_scan st b).
  { unfold update_step, update_step_scan. cbv zeta.
    destruct (absorb_byte_ok b st Hb Hst) as (_ & _ & Hl1 & _).
    rewrite (compress_compress_scan (absorb_byte b st) Hl1). reflexivity. }
  rewrite <- Hstep. apply IH; [exact Hl'|].
  apply update_step_ok; assumption.
Qed.

Lemma derive_subkeys_scan_eq (password : list Z) :
  bytes_ok password ->
  fst (derive_subkeys password) = derive_subkeys_scan password.
Proof.
  intros Hpw.
  destruct (update_ok password _ Hpw init_state_ok) as [Hok1 _].
  destruct (update_ok _ _
              (padding_bytes (update password (init_gost_keyhash startup))) Hok1)
    as [Hok2 _].
  pose proof Hok2 as (_ & _ & _ & Hb2 & _).
  unfold derive_subkeys, derive_subkeys_scan, finalize. cbn [fst].
  rewrite <- (update_update_scan password _ Hpw init_state_ok).
  rewrite <- (update_update_scan _ _
                (padding_bytes (update password (init_gost_keyhash startup))) Hok1).
  rewrite <- (update_update_scan _ _ Hb2 Hok2). reflexivity.
Qed.

End KeyHashFacts.

(** ** Words and byte strings *)

Section Bytes.
Import Spec Codec.

Lemma join_bytes_fold (bs : list Z) acc :
  bytes_ok bs ->
  fold_left (fun a b => a * 256 + b) bs acc
  = acc * 256 ^ Z.of_nat (length bs) + join_bytes bs
  /\ 0 <= join_bytes bs < 256 ^ Z.of_nat (length bs).
Proof.
  unfold join_bytes. intros Hb. revert acc.
  induction Hb as [|b bs Hb0 Hbs IH]; intros acc.
  - cbn. lia.
  - cbn [fold_left length].
    destruct (IH (acc * 256 + b)) as [E1 _]. destruct (IH (0 * 256 + b)) as [E2 R].
    rewrite E1, E2. rewrite Nat2Z.inj_succ, Z.pow_succ_r by lia.
    unfold byte_ok in Hb0.
    set (P := 256 ^ Z.of_nat (length bs)) in *.
    assert (0 < P) by (apply Z.pow_pos_nonneg; lia).
    split; nia.
Qed.

Lemma be_store_length n w : length (be_store n w) = n.
Proof. induction n as [|n IH]; cbn [be_store length]; [reflexivity | rewrite IH; reflexivity]. Qed.

Lemma be_store_head i w :
  to_uchar (Z.land (Z.shiftr w (Z.of_nat i * 8)) 0xFF) = (w / 256 ^ Z.of_nat i) mod 256.
Proof.
  unfold to_uchar. change 0xFF with 255. rewrite land_255.
  rewrite Z.shiftr_div_pow2 by lia.
  rewrite Z.mod_mod by lia.
  replace (2 ^ (Z.of_nat i * 8)) with (256 ^ Z.of_nat i); [reflexivity|].
  change 256 with (2 ^ 8). rewrite <- Z.pow_mul_r by lia. f_equal. lia.
Qed.

Lemma be_store_bytes n w : bytes_ok (be_store n w).
Proof.
  induction n as [|n IH]; cbn [be_store]; constructor; [|exact IH].
  unfold byte_ok, to_uchar. apply Z.mod_pos_bound. lia.
Qed.

(** Storing a word and joining the bytes gives the word back. *)
Lemma join_be_store n w acc :
  fold_left (fun a b => a * 256 + b) (be_store n w) acc
  = acc * 256 ^ Z.of_nat n + w mod 256 ^ Z.of_nat n.
Proof.
  revert acc. induction n as [|n IH]; intros acc.
  - cbn [be_store fold_left]. change (256 ^ Z.of_nat 0) with 1.
    rewrite Z.mod_1_r. lia.
  - cbn [be_store fold_left]. rewrite IH, be_store_head.
    rewrite Nat2Z.inj_succ, Z.pow_succ_r by lia.
    set (P := 256 ^ Z.of_nat n).
    assert (0 < P) by (apply Z.pow_pos_nonneg; lia).
    rewrite (Z.mul_comm 256 P).
    rewrite (Z.rem_mul_r w P 256) by lia. lia.
Qed.

(** Joining bytes and storing the word gives the bytes back. *)
Lemma be_store_join (bs : list Z) acc :
  bytes_ok bs ->
  be_store (length bs) (fold_left (fun a b => a * 256 + b) bs acc) = bs.
Proof.
  intros Hb. revert acc. induction Hb as [|b bs Hb0 Hbs IH]; intros acc; [reflexivity|].
  cbn [length be_store fold_left]. rewrite IH, be_store_head. f_equal.
  destruct (join_bytes_fold bs (acc * 256 + b) Hbs) as [E R]. rewrite E.
  set (P := 256 ^ Z.of_nat (length bs)) in *.
  assert (0 < P) by (apply Z.pow_pos_nonneg; lia).
  rewrite Z.div_add_l by lia. rewrite (Z.div_small (join_bytes bs)) by lia.
  rewrite Z.add_0_r. rewrite Z.add_comm, Z_mod_plus_full.
  apply Z.mod_small. exact Hb0.
Qed.

(** The loop of [be_bytes_to_words] joins the bytes it reads. *)
Lemma be_load_join (bs : list Z) :
  forall (pre suf : list Z) acc,
    bytes_ok bs -> (length bs <= 8)%nat ->
    0 <= acc < 2 ^ (64 - 8 * Z.of_nat (length bs)) ->
    be_load (length bs) (Z.of_nat (length pre)) (pre ++ bs ++ suf) acc
    = fold_left (fun a b => a * 256 + b) bs acc.
Proof.
  induction bs as [|b bs IH]; intros pre suf acc Hb Hn Hacc; [reflexivity|].
  inversion Hb as [|? ? Hb0 Hbs]; subst. unfold byte_ok in Hb0.
  cbn [length] in *. cbn [be_load fold_left].
  rewrite idx_app_r. change (idx ((b :: bs) ++ suf) 0) with b.
  set (P := 2 ^ (64 - 8 * Z.of_nat (S (length bs)))) in *.
  assert (HP : 0 < P) by (apply Z.pow_pos_nonneg; lia).
  assert (HP56 : P <= 2 ^ 56) by (apply Z.pow_le_mono_r; lia).
  assert (HPn : 2 ^ (64 - 8 * Z.of_nat (length bs)) = P * 256).
  { unfold P. change 256 with (2 ^ 8). rewrite <- Z.pow_add_r by lia.
    f_equal. lia. }
  assert (Hstep : Z.lor (shl64 acc 8) b = acc * 256 + b).
  { unfold shl64. rewrite Z.shiftl_mul_pow2 by lia.
    rewrite (Z.mod_small (acc * 2 ^ 8)) by (change (2 ^ 8) with 256; lia).
    apply lor_shifted_small; [lia|]. change (2 ^ 8) with 256. lia. }
  rewrite Hstep.
  replace (Z.of_nat (length pre) + 1) with (Z.of_nat (length (pre ++ [b])))
    by (rewrite length_app; cbn; lia).
  replace (pre ++ (b :: bs) ++ suf) with ((pre ++ [b]) ++ bs ++ suf)
    by (rewrite <- app_assoc; reflexivity).
  apply IH; [exact Hbs | lia |]. rewrite HPn. lia.
Qed.

(** The two halves of a block of sixteen bytes. *)
Lemma be_bytes_to_words_join (hi lo rest : list Z) :
  bytes_ok hi -> bytes_ok lo -> length hi = 8%nat -> length lo = 8%nat ->
  be_bytes_to_words (hi ++ lo ++ rest) = (join_bytes hi, join_bytes lo).
Proof.
  intros Hb1 Hb2 Hl1 Hl2. unfold be_bytes_to_words, join_bytes. f_equal.
  - pose proof (be_load_join hi [] (lo ++ rest) 0 Hb1) as H.
    rewrite Hl1 in H. cbn [length app] in H. apply H; [lia|].
    change (2 ^ (64 - 8 * Z.of_nat 8)) with 1. lia.
  - pose proof (be_load_join lo hi rest 0 Hb2) as H.
    rewrite Hl1, Hl2 in H. apply H; [lia|].
    change (2 ^ (64 - 8 * Z.of_nat 8)) with 1. lia.
Qed.

Lemma join_bytes_word (bs : list Z) :
  bytes_ok bs -> length bs = 8%nat -> word64_ok (join_bytes bs).
Proof.
  intros Hb Hl. destruct (join_bytes_fold bs 0 Hb) as [_ R].
  rewrite Hl in R. unfold word64_ok. change (2 ^ 64) with (256 ^ Z.of_nat 8). exact R.
Qed.

(** [be_words_to_bytes] and [be_bytes_to_words] are inverse to each
    other on words of 64 bits and blocks of sixteen bytes. *)
Lemma be_bytes_to_words_to_bytes (w : Z * Z) (rest : list Z) :
  word64_ok (fst w) -> word64_ok (snd w) ->
  be_bytes_to_words (be_words_to_bytes w ++ rest) = w.
Proof.
  destruct w as [a b]. cbn [fst snd]. unfold word64_ok. intros Ha Hb.
  unfold be_words_to_bytes. cbn [fst snd]. rewrite <- app_assoc.
  rewrite be_bytes_to_words_join
    by (apply be_store_bytes || apply be_store_length).
  unfold join_bytes. rewrite !join_be_store.
  change (256 ^ Z.of_nat 8) with (2 ^ 64).
  rewrite !Z.mod_small by lia. reflexivity.
Qed.

Lemma be_words_to_bytes_to_words (hi lo rest : list Z) :
  bytes_ok hi -> bytes_ok lo -> length hi = 8%nat -> length lo = 8%nat ->
  be_words_to_bytes (be_bytes_to_words (hi ++ lo ++ rest)) = hi ++ lo.
Proof.
  intros Hb1 Hb2 Hl1 Hl2.
  rewrite be_bytes_to_words_join by assumption.
  unfold be_words_to_bytes, join_bytes. cbn [fst snd].
  pose proof (be_store_join hi 0 Hb1) as E1. rewrite Hl1 in E1.
  pose proof (be_store_join lo 0 Hb2) as E2. rewrite Hl2 in E2.
  rewrite E1, E2. reflexivity.
Qed.

Lemma be_words_to_bytes_length w : length (be_words_to_bytes w) = 16%nat.
Proof. unfold be_words_to_bytes. rewrite length_app, !be_store_length. reflexivity. Qed.

Lemma be_words_to_bytes_bytes w : bytes_ok (be_words_to_bytes w).
Proof. unfold be_words_to_bytes. apply Forall_app. split; apply be_store_bytes. Qed.

End Bytes.

(** ** Buffers *)

Section Buffers.
Import Spec Codec.

Lemma takeZ_length n (l : list Z) : 0 <= n <= lenZ l -> lenZ (takeZ n l) = n.
Proof. intros H. unfold takeZ. rewrite length_take. lia. Qed.

Lemma dropZ_length n (l : list Z) : 0 <= n -> lenZ (dropZ n l) = Z.max 0 (lenZ l - n).
Proof. intros H. unfold dropZ. rewrite length_drop. lia. Qed.

Lemma lenZ_app (a b : list Z) : lenZ (a ++ b) = lenZ a + lenZ b.
Proof. rewrite length_app. lia. Qed.

Lemma takeZ_app_length (a b : list Z) : takeZ (lenZ a) (a ++ b) = a.
Proof. unfold takeZ. rewrite Nat2Z.id. apply take_app_length. Qed.

Lemma dropZ_app_length (a b : list Z) : dropZ (lenZ a) (a ++ b) = b.
Proof. unfold dropZ. rewrite Nat2Z.id. apply drop_app_length. Qed.

Lemma takeZ_app_length' n (a b : list Z) : n = lenZ a -> takeZ n (a ++ b) = a.
Proof. intros ->. apply takeZ_app_length. Qed.

Lemma dropZ_app_length' n (a b : list Z) : n = lenZ a -> dropZ n (a ++ b) = b.
Proof. intros ->. apply dropZ_app_length. Qed.

Lemma takeZ_dropZ n (l : list Z) : takeZ n l ++ dropZ n l = l.
Proof. apply take_drop. Qed.

Lemma dropZ_0 (l : list Z) : dropZ 0 l = l.
Proof. reflexivity. Qed.

Lemma takeZ_0 (l : list Z) : takeZ 0 l = [].
Proof. reflexivity. Qed.

Lemma takeZ_all n (l : list Z) : lenZ l <= n -> takeZ n l = l.
Proof. intros H. unfold takeZ. apply take_ge. lia. Qed.

Lemma dropZ_all n (l : list Z) : lenZ l <= n -> dropZ n l = [].
Proof. intros H. unfold dropZ. apply drop_ge. lia. Qed.

Lemma dropZ_dropZ n m (l : list Z) :
  0 <= n -> 0 <= m -> dropZ m (dropZ n l) = dropZ (n + m) l.
Proof.
  intros Hn Hm. unfold dropZ. rewrite drop_drop. f_equal. lia.
Qed.

(** Writing [bs] over the middle of a buffer. *)
Lemma write_at_app (a old b bs : list Z) :
  length old = length bs ->
  write_at (lenZ a) bs (a ++ old ++ b) = a ++ bs ++ b.
Proof.
  intros Hlen. unfold write_at.
  rewrite takeZ_app_length.
  replace (a ++ old ++ b) with ((a ++ old) ++ b) by (rewrite <- app_assoc; reflexivity).
  rewrite dropZ_app_length'; [reflexivity|].
  rewrite length_app. lia.
Qed.

(** A buffer of at least [off + n] bytes splits around [n] bytes at
    [off]. *)
Lemma buffer_split off n (buf : list Z) :
  0 <= off -> 0 <= n -> off + n <= lenZ buf ->
  buf = takeZ off buf ++ takeZ n (dropZ off buf) ++ dropZ (off + n) buf
  /\ lenZ (takeZ off buf) = off
  /\ lenZ (takeZ n (dropZ off buf)) = n.
Proof.
  intros Hoff Hn Hlen. split; [|split].
  - rewrite <- (dropZ_dropZ off n) by lia.
    rewrite (takeZ_dropZ n (dropZ off buf)). symmetry. apply takeZ_dropZ.
  - apply takeZ_length. lia.
  - apply takeZ_length. rewrite dropZ_length by lia. lia.
Qed.

Lemma write_at_length off (bs buf : list Z) :
  0 <= off -> off + lenZ bs <= lenZ buf ->
  length (write_at off bs buf) = length buf.
Proof.
  intros Hoff Hlen. unfold write_at.
  rewrite !length_app. unfold takeZ, dropZ. rewrite length_take, length_drop. lia.
Qed.

Lemma write_at_0_take (bs buf : list Z) :
  lenZ bs <= lenZ buf -> takeZ (lenZ bs) (write_at 0 bs buf) = bs.
Proof.
  intros Hlen. unfold write_at. rewrite takeZ_0. cbn [app].
  apply takeZ_app_length.
Qed.

Lemma idx_app_l (l rest : list Z) j :
  0 <= j < lenZ l -> idx (l ++ rest) j = idx l j.
Proof. intros Hj. unfold idx. apply app_nth1. lia. Qed.

(** [be_bytes_to_words] reads sixteen bytes and no more. *)
Lemma be_load_app n : forall i (l rest : list Z) a,
    0 <= i -> i + Z.of_nat n <= lenZ l ->
    be_load n i (l ++ rest) a = be_load n i l a.
Proof.
  induction n as [|n IH]; intros i l rest a Hi Hlen; [reflexivity|].
  cbn [be_load]. rewrite idx_app_l by lia. apply IH; lia.
Qed.

Lemma be_bytes_to_words_app (blk rest : list Z) :
  length blk = 16%nat -> be_bytes_to_words (blk ++ rest) = be_bytes_to_words blk.
Proof.
  intros Hlen. unfold be_bytes_to_words.
  rewrite !be_load_app by (rewrite ?Hlen; lia). reflexivity.
Qed.

(** The in-place XOR loop. *)
Lemma xor_loop_app (xs : list Z) :
  forall (ps a b ppre psuf : list Z) off i,
    length xs = length ps ->
    i = lenZ ppre -> off + i = lenZ a ->
    xor_loop (length xs) i (a ++ xs ++ b) off (ppre ++ ps ++ psuf)
    = a ++ xor_bytes xs ps ++ b.
Proof.
  induction xs as [|x xs IH]; intros ps a b ppre psuf off i Hlen Hi Ha.
  - destruct ps; [reflexivity | discriminate].
  - destruct ps as [|p ps]; [discriminate|].
    cbn [length xor_loop]. rewrite Ha, Hi.
    rewrite Nat2Z.id, !idx_app_r.
    change (idx ((x :: xs) ++ b) 0) with x. change (idx ((p :: ps) ++ psuf) 0) with p.
    change ((x :: xs) ++ b) with (x :: xs ++ b). rewrite insert_app_r_0.
    replace (a ++ Z.lxor x p :: xs ++ b) with ((a ++ [Z.lxor x p]) ++ xs ++ b)
      by (rewrite <- app_assoc; reflexivity).
    replace (ppre ++ (p :: ps) ++ psuf) with ((ppre ++ [p]) ++ ps ++ psuf)
      by (rewrite <- app_assoc; reflexivity).
    rewrite (IH ps (a ++ [Z.lxor x p]) b (ppre ++ [p]) psuf off (lenZ ppre + 1)).
    + rewrite <- app_assoc. reflexivity.
    + cbn [length] in Hlen. lia.
    + rewrite length_app. cbn. lia.
    + rewrite length_app. cbn. lia.
Qed.

Lemma xor_loop_block (blk prev a b : list Z) :
  length blk = 16%nat -> length prev = 16%nat ->
  xor_loop 16 0 (a ++ blk ++ b) (lenZ a) prev = a ++ xor_bytes blk prev ++ b.
Proof.
  intros Hb Hp.
  pose proof (xor_loop_app blk prev a b [] [] (lenZ a) 0) as H.
  rewrite Hb in H. cbn [app] in H. rewrite app_nil_r in H.
  apply H; [lia | reflexivity | lia].
Qed.

Lemma xor_bytes_length (a b : list Z) :
  length a = length b -> length (xor_bytes a b) = length a.
Proof. intros H. unfold xor_bytes. rewrite length_zip_with. lia. Qed.

End Buffers.

(** ** The cipher loops of the stream functions *)

Section Blocks.
Import Gost Spec Codec.

Variable key : list Z.

Lemma cbc_enc_block_length prev blk : length (cbc_enc_block key prev blk) = 16%nat.
Proof. apply be_words_to_bytes_length. Qed.

Lemma cbc_enc_length n : forall prev data,
    lenZ (cbc_enc n key prev data) = 16 * Z.of_nat n.
Proof.
  induction n as [|n IH]; intros prev data; [reflexivity|].
  cbn [cbc_enc]. rewrite length_app, Nat2Z.inj_add, IH, cbc_enc_block_length. lia.
Qed.

Lemma cbc_chain_length n : forall prev data,
    length prev = 16%nat -> length (cbc_chain n key prev data) = 16%nat.
Proof.
  induction n as [|n IH]; intros prev data Hp; [exact Hp|].
  cbn [cbc_chain]. apply IH. apply cbc_enc_block_length.
Qed.

Lemma cbc_dec_block_length prev c :
  length prev = 16%nat -> length (cbc_dec_block key prev c) = 16%nat.
Proof.
  intros Hp. unfold cbc_dec_block.
  rewrite xor_bytes_length; rewrite be_words_to_bytes_length; lia.
Qed.

Lemma enc_block_app (a blk b oa old ob prev : list Z) :
  length blk = 16%nat -> length prev = 16%nat ->
  length old = 16%nat -> length oa = length a ->
  enc_block key (lenZ a) (a ++ blk ++ b, oa ++ old ++ ob, prev)
  = (a ++ xor_bytes blk prev ++ b,
     oa ++ cbc_enc_block key prev blk ++ ob,
     cbc_enc_block key prev blk).
Proof.
  intros Hblk Hprev Hold Hoa. unfold enc_block.
  rewrite xor_loop_block by assumption.
  rewrite dropZ_app_length.
  rewrite be_bytes_to_words_app by (rewrite xor_bytes_length; lia).
  fold (cbc_enc_block key prev blk).
  replace (lenZ a) with (lenZ oa) by lia.
  rewrite write_at_app by (rewrite cbc_enc_block_length; exact Hold).
  rewrite dropZ_app_length.
  rewrite takeZ_app_length' by (rewrite cbc_enc_block_length; reflexivity).
  reflexivity.
Qed.

Lemma split_block (data : list Z) n :
  lenZ data = 16 * Z.of_nat (S n) ->
  data = take 16 data ++ drop 16 data /\
  length (take 16 data) = 16%nat /\
  lenZ (drop 16 data) = 16 * Z.of_nat n.
Proof.
  intros H. split; [symmetry; apply take_drop|].
  rewrite length_take, length_drop. lia.
Qed.

Lemma enc_blocks_app cnt :
  forall (a data b oa old ob prev : list Z),
    lenZ data = 16 * Z.of_nat cnt -> length old = length data ->
    length oa = length a -> length prev = 16%nat ->
    exists x,
      length x = length data /\
      enc_blocks cnt (lenZ a) key (a ++ data ++ b, oa ++ old ++ ob, prev)
      = (a ++ x ++ b, oa ++ cbc_enc cnt key prev data ++ ob,
         cbc_chain cnt key prev data).
Proof.
  induction cnt as [|cnt IH]; intros a data b oa old ob prev Hd Hold Hoa Hprev.
  - destruct data; [|cbn in Hd; lia]. destruct old; [|discriminate].
    exists []. split; reflexivity.
  - destruct (split_block data cnt Hd) as (Ed & Hb & Hd').
    assert (Hold16 : lenZ old = 16 * Z.of_nat (S cnt)) by lia.
    destruct (split_block old cnt Hold16) as (Eo & Ho & Hold').
    set (blk := take 16 data) in *. set (data' := drop 16 data) in *.
    set (o1 := take 16 old) in *. set (old' := drop 16 old) in *.
    set (c := cbc_enc_block key prev blk).
    destruct (IH (a ++ xor_bytes blk prev) data' b (oa ++ c) old' ob c)
      as (x & Hx & Hrun).
    + exact Hd'.
    + lia.
    + rewrite !length_app. unfold c.
      rewrite cbc_enc_block_length, xor_bytes_length; lia.
    + apply cbc_enc_block_length.
    + exists (xor_bytes blk prev ++ x). split.
      { rewrite length_app, xor_bytes_length by lia. lia. }
      cbn [enc_blocks cbc_enc cbc_chain]. fold blk data' c.
      rewrite Ed at 1. rewrite Eo.
      rewrite <- !app_assoc.
      rewrite (enc_block_app a blk (data' ++ b) oa o1 (old' ++ ob) prev)
        by assumption.
      fold c.
      replace (lenZ a + BLOCK_SIZE) with (lenZ (a ++ xor_bytes blk prev))
        by (rewrite length_app, xor_bytes_length by lia; unfold BLOCK_SIZE; lia).
      rewrite !app_assoc in Hrun |- *. rewrite !app_assoc. exact Hrun.
Qed.

Lemma dec_block_app (a blk b oa old ob prev : list Z) :
  length blk = 16%nat -> length prev = 16%nat ->
  length old = 16%nat -> length oa = length a ->
  dec_block key (lenZ a) (a ++ blk ++ b) (oa ++ old ++ ob, prev)
  = (oa ++ cbc_dec_block key prev blk ++ ob, blk).
Proof.
  intros Hblk Hprev Hold Hoa. unfold dec_block.
  rewrite dropZ_app_length.
  rewrite takeZ_app_length' by (unfold BLOCK_SIZE; lia).
  rewrite be_bytes_to_words_app by exact Hblk.
  replace (lenZ a) with (lenZ oa) by lia.
  rewrite write_at_app by (rewrite be_words_to_bytes_length; exact Hold).
  rewrite xor_loop_block by (apply be_words_to_bytes_length || exact Hprev).
  reflexivity.
Qed.

Lemma dec_blocks_app cnt :
  forall (a data b oa old ob prev : list Z),
    lenZ data = 16 * Z.of_nat cnt -> length old = length data ->
    length oa = length a -> length prev = 16%nat ->
    dec_blocks cnt (lenZ a) key (a ++ data ++ b) (oa ++ old ++ ob, prev)
    = (oa ++ cbc_dec cnt key prev data ++ ob, cbc_dec_chain cnt prev data).
Proof.
  induction cnt as [|cnt IH]; intros a data b oa old ob prev Hd Hold Hoa Hprev.
  - destruct data; [|cbn in Hd; lia]. destruct old; [|discriminate]. reflexivity.
  - destruct (split_block data cnt Hd) as (Ed & Hb & Hd').
    assert (Hold16 : lenZ old = 16 * Z.of_nat (S cnt)) by lia.
    destruct (split_block old cnt Hold16) as (Eo & Ho & Hold').
    set (blk := take 16 data) in *. set (data' := drop 16 data) in *.
    set (o1 := take 16 old) in *. set (old' := drop 16 old) in *.
    set (p := cbc_dec_block key prev blk).
    cbn [dec_blocks cbc_dec cbc_dec_chain]. fold blk data' p.
    rewrite Ed at 1 2. rewrite Eo.
    rewrite <- !app_assoc.
    rewrite (dec_block_app a blk (data' ++ b) oa o1 (old' ++ ob) prev)
      by assumption.
    fold p.
    replace (lenZ a + BLOCK_SIZE) with (lenZ (a ++ blk))
      by (rewrite length_app; unfold BLOCK_SIZE; lia).
    pose proof (IH (a ++ blk) data' b (oa ++ p) old' ob blk) as Hrun.
    rewrite <- !app_assoc in Hrun. rewrite Hrun; [reflexivity | exact Hd' | lia | | exact Hb].
    rewrite !length_app. unfold p. rewrite cbc_dec_block_length by exact Hprev. lia.
Qed.

Lemma trips_whole n : 0 <= n -> n mod 16 = 0 -> trips n = Z.to_nat (n / 16).
Proof.
  intros Hn Hm. unfold trips, BLOCK_SIZE. f_equal.
  pose proof (Z.div_mod n 16). pose proof (Z.div_mod (n + (16 - 1)) 16).
  pose proof (Z.mod_pos_bound (n + (16 - 1)) 16). lia.
Qed.

End Blocks.

(** ** [cbc_encrypt_stream] *)

Section Encrypt.
Import Gost Sha256 Spec Codec.

Variable key : list Z.

Lemma READ_CHUNK_value : READ_CHUNK = 65536.
Proof. reflexivity. Qed.

Lemma sha256_final_length ctx : length (sha256_final ctx) = 32%nat.
Proof.
  unfold sha256_final. cbv zeta.
  destruct (56 <? datalen ctx + 1); rewrite !length_app; reflexivity.
Qed.

Lemma sha256_update_app ctx (a b : list Z) :
  sha256_update ctx (a ++ b) = sha256_update (sha256_update ctx a) b.
Proof. unfold sha256_update. apply fold_left_app. Qed.

Lemma pad_length_range len : 1 <= pad_length len <= 16.
Proof. unfold pad_length. pose proof (Z.mod_pos_bound len 16). lia. Qed.

Lemma pkcs7_length (p : list Z) :
  lenZ (pkcs7 p) = lenZ p + pad_length (lenZ p) /\
  lenZ (pkcs7 p) mod 16 = 0 /\
  lenZ (pkcs7 p) = (lenZ p / 16 + 1) * 16.
Proof.
  pose proof (pad_length_range (lenZ p)) as Hr.
  assert (E : lenZ (pkcs7 p) = lenZ p + pad_length (lenZ p)).
  { unfold pkcs7. rewrite length_app, length_replicate. lia. }
  rewrite E. unfold pad_length in *.
  pose proof (Z.div_mod (lenZ p) 16).
  assert (E2 : lenZ p + (16 - lenZ p mod 16) = (lenZ p / 16 + 1) * 16) by lia.
  split; [reflexivity|]. split; [|exact E2].
  rewrite E2. apply Z.mod_mul. lia.
Qed.

Lemma cbc_enc_app n m : forall (prev a b : list Z),
    lenZ a = 16 * Z.of_nat n ->
    cbc_enc (n + m) key prev (a ++ b)
    = cbc_enc n key prev a ++ cbc_enc m key (cbc_chain n key prev a) b.
Proof.
  induction n as [|n IH]; intros prev a b Ha.
  - destruct a; [reflexivity | cbn in Ha; lia].
  - destruct (split_block a n Ha) as (Ea & Hb & Ha').
    cbn [Nat.add cbc_enc cbc_chain].
    assert (Ht : take 16 (a ++ b) = take 16 a)
      by (apply take_app_le; rewrite length_take in Hb; lia).
    assert (Hd : drop 16 (a ++ b) = drop 16 a ++ b)
      by (apply drop_app_le; rewrite length_take in Hb; lia).
    rewrite Ht, Hd, IH by exact Ha'. rewrite <- app_assoc. reflexivity.
Qed.

(** The cipher loop over the first [n] bytes of the input buffer. *)
Lemma enc_batch_spec n have (s : enc_state) :
  enc_ok s -> 0 <= n <= READ_CHUNK + BLOCK_SIZE -> n mod 16 = 0 ->
  let c := cbc_enc (Z.to_nat (n / 16)) key (e_prev s) (takeZ n (e_inbuf s)) in
  let s' := enc_batch key n have s in
  enc_ok s' /\
  e_fout s' = e_fout s ++ c /\
  e_hctx s' = sha256_update (e_hctx s) c /\
  e_prev s' = cbc_chain (Z.to_nat (n / 16)) key (e_prev s) (takeZ n (e_inbuf s)) /\
  e_log s' = e_log s ++ [Batch n have].
Proof.
  intros (Hin & Hout & Hprev) Hn Hmod. cbv zeta.
  destruct (buffer_split 0 n (e_inbuf s)) as (Ein & _ & Hl1); [lia | lia | lia |].
  destruct (buffer_split 0 n (e_outbuf s)) as (Eout & _ & Hl2); [lia | lia | lia |].
  rewrite takeZ_0, dropZ_0, Z.add_0_l in Ein, Eout. cbn [app] in Ein, Eout.
  rewrite dropZ_0 in Hl1, Hl2.
  set (data := takeZ n (e_inbuf s)) in *. set (old := takeZ n (e_outbuf s)) in *.
  assert (Hcnt : lenZ data = 16 * Z.of_nat (Z.to_nat (n / 16))).
  { rewrite Hl1. pose proof (Z.div_mod n 16). rewrite Z2Nat.id; [lia|].
    apply Z.div_pos; lia. }
  destruct (enc_blocks_app key (Z.to_nat (n / 16)) [] data (dropZ n (e_inbuf s))
              [] old (dropZ n (e_outbuf s)) (e_prev s))
    as (x & Hx & Hrun); [exact Hcnt | lia | reflexivity | exact Hprev |].
  cbn [app length] in Hrun. change (Z.of_nat 0) with 0 in Hrun.
  rewrite <- Ein, <- Eout in Hrun.
  unfold enc_batch. rewrite trips_whole by lia. rewrite Hrun.
  cbn [e_inbuf e_outbuf e_prev e_hctx e_fout e_log].
  set (c := cbc_enc (Z.to_nat (n / 16)) key (e_prev s) data) in *.
  assert (Hc : lenZ c = n).
  { unfold c. rewrite cbc_enc_length. lia. }
  rewrite (takeZ_app_length' n c) by lia.
  split; [|repeat split; reflexivity].
  unfold enc_ok. cbn [e_inbuf e_outbuf e_prev].
  split; [|split].
  - rewrite <- Hin. rewrite Ein at 2. rewrite !length_app. lia.
  - rewrite <- Hout. rewrite Eout at 2. rewrite !length_app. lia.
  - apply cbc_chain_length. exact Hprev.
Qed.

Lemma encrypt_log_full len :
  READ_CHUNK <= len ->
  encrypt_log len = Batch READ_CHUNK READ_CHUNK :: Carry 0 :: encrypt_log (len - READ_CHUNK).
Proof.
  intros H. unfold encrypt_log. cbv zeta.
  assert (Hrc : 0 < READ_CHUNK) by (rewrite READ_CHUNK_value; lia).
  replace (len / READ_CHUNK) with ((len - READ_CHUNK) / READ_CHUNK + 1).
  2: { replace len with (len - READ_CHUNK + 1 * READ_CHUNK) at 2 by lia.
       rewrite Z.div_add by lia. reflexivity. }
  replace (len mod READ_CHUNK) with ((len - READ_CHUNK) mod READ_CHUNK).
  2: { replace len with (len - READ_CHUNK + 1 * READ_CHUNK) at 2 by lia.
       rewrite Z.mod_add by lia. reflexivity. }
  rewrite Z2Nat.inj_add by (try apply Z.div_pos; lia).
  rewrite Nat.add_comm. reflexivity.
Qed.

Lemma encrypt_log_short len :
  0 <= len < READ_CHUNK ->
  encrypt_log len = [Tail len; Batch (len + pad_length len) (len + pad_length len)].
Proof.
  intros H. unfold encrypt_log. cbv zeta.
  rewrite Z.div_small, Z.mod_small by lia. reflexivity.
Qed.

Lemma pkcs7_blocks (p : list Z) :
  blocks (pkcs7 p) = Z.to_nat ((lenZ p + pad_length (lenZ p)) / 16).
Proof. unfold blocks. destruct (pkcs7_length p) as (-> & _). reflexivity. Qed.

(** From the last read to the end. *)
Lemma enc_final_spec r (s : enc_state) :
  enc_ok s -> 0 <= r < READ_CHUNK ->
  enc_final key r s
  = enc_expected key (takeZ r (e_inbuf s)) (e_prev s) (e_hctx s) (e_fout s) (e_log s).
Proof.
  intros Hok Hr. pose proof Hok as (Hin & Hout & Hprev).
  pose proof (pad_length_range r) as Hpad.
  pose proof READ_CHUNK_value as Hrc.
  set (p := takeZ r (e_inbuf s)).
  assert (Hp : lenZ p = r) by (apply takeZ_length; unfold BLOCK_SIZE in *; lia).
  unfold enc_final, pkcs7_pad. cbv zeta.
  change (BLOCK_SIZE - r mod BLOCK_SIZE) with (pad_length r).
  destruct (Z.ltb_spec (READ_CHUNK + BLOCK_SIZE) (r + pad_length r)) as [Hbad|_];
    [unfold BLOCK_SIZE in *; lia|].
  destruct (Z.eqb_spec (r + pad_length r) 0) as [Hbad|_]; [lia|].
  set (pads := replicate (Z.to_nat (pad_length r)) (to_uchar (pad_length r))).
  assert (Hpads : pads = replicate (Z.to_nat (pad_length r)) (pad_length r)).
  { unfold pads, to_uchar. rewrite Z.mod_small by lia. reflexivity. }
  assert (Hpl : lenZ pads = pad_length r)
    by (unfold pads; rewrite length_replicate; lia).
  set (s1 := {| e_inbuf := write_at r pads (e_inbuf s); e_outbuf := e_outbuf s;
                e_prev := e_prev s; e_hctx := e_hctx s; e_fout := e_fout s;
                e_log := e_log s ++ [Tail r] |}).
  assert (Hok1 : enc_ok s1).
  { unfold enc_ok, s1. cbn [e_inbuf e_outbuf e_prev].
    rewrite write_at_length by (unfold BLOCK_SIZE in *; lia).
    split; [exact Hin | split; [exact Hout | exact Hprev]]. }
  assert (Hdata : takeZ (r + pad_length r) (e_inbuf s1) = pkcs7 p).
  { unfold s1. cbn [e_inbuf]. unfold write_at. fold p.
    rewrite app_assoc. rewrite takeZ_app_length' by (rewrite length_app; lia).
    unfold pkcs7. rewrite Hp, Hpads. reflexivity. }
  assert (Hmod : (r + pad_length r) mod 16 = 0).
  { destruct (pkcs7_length p) as (E1 & E2 & _). rewrite E1, Hp in E2. exact E2. }
  destruct (enc_batch_spec (r + pad_length r) (r + pad_length r) s1 Hok1)
    as (_ & Hf & Hh & _ & Hl); [unfold BLOCK_SIZE in *; lia | exact Hmod |].
  pose proof (pkcs7_blocks p) as Hb. rewrite Hp in Hb.
  rewrite Hdata, <- Hb in Hf, Hh.
  unfold enc_expected. cbv zeta. rewrite Hf, Hh, Hl.
  rewrite takeZ_all by (rewrite sha256_final_length; lia).
  rewrite encrypt_log_short, Hp by lia.
  unfold s1. cbn [e_prev e_hctx e_fout e_log].
  rewrite <- !app_assoc. reflexivity.
Qed.

Lemma pkcs7_app (a b : list Z) :
  lenZ a mod 16 = 0 -> pkcs7 (a ++ b) = a ++ pkcs7 b.
Proof.
  intros Ha. unfold pkcs7, pad_length. rewrite length_app, Nat2Z.inj_add.
  replace ((lenZ a + lenZ b) mod 16) with (lenZ b mod 16).
  - rewrite <- app_assoc. reflexivity.
  - rewrite Z.add_mod, Ha, Z.add_0_l, Z.mod_mod by lia. reflexivity.
Qed.

Lemma enc_loop_S fuel fin s :
  enc_loop (S fuel) key fin s
  = (let got := takeZ READ_CHUNK (dropZ (pos fin) (content fin)) in
     let fin := {| content := content fin; pos := pos fin + lenZ got |} in
     let s := read_into 0 got s in
     let r := lenZ got in
     if r =? READ_CHUNK then
       let full := r / BLOCK_SIZE * BLOCK_SIZE in
       let rem := r - full in
       let s := keep_tail full rem (enc_batch key full r s) in
       if rem =? 0 then enc_loop fuel key fin s
       else
         let got := takeZ (READ_CHUNK - rem) (dropZ (pos fin) (content fin)) in
         let s := read_into rem got s in
         let r := rem + lenZ got in
         let full2 := r / BLOCK_SIZE * BLOCK_SIZE in
         let rem2 := r - full2 in
         let s := keep_tail full2 rem2 (enc_batch key full2 r s) in
         Some (enc_final key rem2 s)
     else Some (enc_final key r s)).
Proof. reflexivity. Qed.

Lemma read_into_0_ok got s :
  enc_ok s -> lenZ got <= READ_CHUNK ->
  enc_ok (read_into 0 got s) /\ takeZ (lenZ got) (e_inbuf (read_into 0 got s)) = got.
Proof.
  intros (Hin & Hout & Hprev) Hg. unfold enc_ok, read_into. cbn [e_inbuf e_outbuf e_prev].
  unfold BLOCK_SIZE in *.
  rewrite write_at_length by lia.
  rewrite write_at_0_take by lia.
  repeat split; assumption.
Qed.

Lemma read_into_prev off got s : e_prev (read_into off got s) = e_prev s.
Proof. reflexivity. Qed.
Lemma read_into_hctx off got s : e_hctx (read_into off got s) = e_hctx s.
Proof. reflexivity. Qed.
Lemma read_into_fout off got s : e_fout (read_into off got s) = e_fout s.
Proof. reflexivity. Qed.
Lemma read_into_log off got s : e_log (read_into off got s) = e_log s.
Proof. reflexivity. Qed.

Lemma keep_tail_0 full s :
  e_inbuf (keep_tail full 0 s) = e_inbuf s /\
  e_outbuf (keep_tail full 0 s) = e_outbuf s /\
  e_prev (keep_tail full 0 s) = e_prev s /\
  e_hctx (keep_tail full 0 s) = e_hctx s /\
  e_fout (keep_tail full 0 s) = e_fout s /\
  e_log (keep_tail full 0 s) = e_log s ++ [Carry 0].
Proof. repeat split; reflexivity. Qed.

(** The loop and what follows, from any state the loop can be in. *)
Lemma enc_loop_spec fuel :
  forall fin s,
    enc_ok s -> 0 <= pos fin ->
    (length (dropZ (pos fin) (content fin)) < fuel)%nat ->
    enc_loop fuel key fin s
    = Some (enc_expected key (dropZ (pos fin) (content fin))
              (e_prev s) (e_hctx s) (e_fout s) (e_log s)).
Proof.
  pose proof READ_CHUNK_value as Hrc.
  induction fuel as [|fuel IH]; intros fin s Hok Hpos Hfuel; [lia|].
  rewrite enc_loop_S. cbv zeta.
  set (rest := dropZ (pos fin) (content fin)) in *.
  set (got := takeZ READ_CHUNK rest).
  assert (Hgot : lenZ got = Z.min READ_CHUNK (lenZ rest))
    by (unfold got, takeZ; rewrite length_take; lia).
  destruct (read_into_0_ok got s Hok) as [Hok1 Hdata]; [lia|].
  destruct (Z.eqb_spec (lenZ got) READ_CHUNK) as [Hfull | Hshort].
  - (* a full chunk: READ_CHUNK is a multiple of the block size *)
    rewrite Hfull in *.
    replace (READ_CHUNK / BLOCK_SIZE * BLOCK_SIZE) with READ_CHUNK by (rewrite Hrc; reflexivity).
    rewrite Z.sub_diag. cbn [Z.eqb].
    destruct (enc_batch_spec READ_CHUNK READ_CHUNK (read_into 0 got s) Hok1)
      as (Hok2 & Hf & Hh & Hp & Hl);
      [unfold BLOCK_SIZE; lia | rewrite Hrc; reflexivity |].
    rewrite Hdata in Hf, Hh, Hp.
    rewrite read_into_fout, read_into_prev in Hf.
    rewrite read_into_hctx, read_into_prev in Hh.
    rewrite read_into_prev in Hp. rewrite read_into_log in Hl.
    remember (enc_batch key READ_CHUNK READ_CHUNK (read_into 0 got s)) as s2 eqn:Es2.
    clear Es2.
    pose proof (keep_tail_0 READ_CHUNK s2) as (K1 & K2 & K3 & K4 & K5 & K6).
    remember (keep_tail READ_CHUNK 0 s2) as s3 eqn:Es3. clear Es3.
    assert (Hok3 : enc_ok s3).
    { destruct Hok2 as (A & B & C). unfold enc_ok. rewrite K1, K2, K3. auto. }
    set (fin' := {| content := content fin; pos := pos fin + READ_CHUNK |}).
    assert (Hrest' : dropZ (pos fin') (content fin') = dropZ READ_CHUNK rest).
    { unfold fin', rest. cbn [content pos]. rewrite dropZ_dropZ by lia. reflexivity. }
    assert (Hsplit : rest = got ++ dropZ READ_CHUNK rest)
      by (symmetry; apply takeZ_dropZ).
    rewrite (IH fin' s3 Hok3); [|unfold fin'; cbn [pos]; lia|].
    2: { rewrite Hrest'. rewrite Hsplit in Hfuel. rewrite length_app in Hfuel. lia. }
    rewrite Hrest'. f_equal.
    unfold enc_expected.
    rewrite K3, K4, K5, K6, Hf, Hh, Hp, Hl.
    remember (dropZ READ_CHUNK rest) as rest' eqn:Erest'.
    set (n := Z.to_nat (READ_CHUNK / 16)).
    assert (Hn : lenZ got = 16 * Z.of_nat n).
    { unfold n. rewrite Hfull, Hrc. reflexivity. }
    assert (Hpk : pkcs7 rest = got ++ pkcs7 rest').
    { rewrite Hsplit. apply pkcs7_app. rewrite Hfull, Hrc. reflexivity. }
    assert (Hbl : blocks (pkcs7 rest) = (n + blocks (pkcs7 rest'))%nat).
    { unfold blocks. rewrite Hpk. rewrite length_app, Nat2Z.inj_add, Hn.
      destruct (pkcs7_length rest') as (_ & _ & E). rewrite E.
      replace (16 * Z.of_nat n + (lenZ rest' / 16 + 1) * 16)
        with ((Z.of_nat n + (lenZ rest' / 16 + 1)) * 16) by lia.
      rewrite !Z.div_mul by lia.
      assert (0 <= lenZ rest' / 16) by (apply Z.div_pos; lia). lia. }
    rewrite Hbl, Hpk, (cbc_enc_app n) by exact Hn.
    rewrite sha256_update_app.
    replace (lenZ rest) with (lenZ rest' + READ_CHUNK).
    2: { rewrite Hsplit. rewrite length_app. lia. }
    rewrite (encrypt_log_full (lenZ rest' + READ_CHUNK)) by lia.
    replace (lenZ rest' + READ_CHUNK - READ_CHUNK) with (lenZ rest') by lia.
    rewrite <- !app_assoc. reflexivity.
  - (* the last, short read *)
    assert (Hlt : lenZ rest < READ_CHUNK) by lia.
    assert (Hall : got = rest) by (apply takeZ_all; lia).
    rewrite enc_final_spec by (exact Hok1 || lia).
    rewrite Hdata, Hall. reflexivity.
Qed.

Lemma fresh_length n : 0 <= n -> lenZ (fresh n) = n.
Proof. intros H. unfold fresh. rewrite length_replicate. lia. Qed.

(** [cbc_encrypt_stream] on a stream opened at its start writes the
    container. *)
Lemma cbc_encrypt_stream_spec (p iv : list Z) :
  length iv = 16%nat ->
  cbc_encrypt_stream (fopen p) key iv
  = Some {| enc_err := None;
            enc_fout := container key iv p;
            enc_hash := sha256 (ciphertext key iv p);
            enc_log := encrypt_log (lenZ p) |}.
Proof.
  intros Hiv. pose proof READ_CHUNK_value as Hrc.
  unfold cbc_encrypt_stream.
  assert (Htake : takeZ BLOCK_SIZE iv = iv) by (apply takeZ_all; unfold BLOCK_SIZE; lia).
  rewrite Htake.
  rewrite enc_loop_spec.
  - reflexivity.
  - unfold enc_ok. cbn [e_inbuf e_outbuf e_prev].
    rewrite !fresh_length by (unfold BLOCK_SIZE; lia).
    split; [reflexivity | split; [reflexivity | exact Hiv]].
  - cbn. lia.
  - cbn [fopen content pos]. rewrite dropZ_0. lia.
Qed.

Lemma chunk_events_in_code k : Forall event_in_code (chunk_events k).
Proof.
  pose proof READ_CHUNK_value as Hrc.
  induction k as [|k IH]; [constructor|].
  cbn [chunk_events]. constructor; [|constructor; [|exact IH]].
  - cbn. rewrite Hrc. unfold BLOCK_SIZE. split; [reflexivity | lia].
  - cbn. lia.
Qed.

Lemma encrypt_log_in_code len : 0 <= len -> Forall event_in_code (encrypt_log len).
Proof.
  intros Hlen. pose proof READ_CHUNK_value as Hrc.
  unfold encrypt_log. cbv zeta. apply Forall_app. split; [apply chunk_events_in_code|].
  pose proof (Z.mod_pos_bound len READ_CHUNK ltac:(lia)) as Ht.
  set (t := len mod READ_CHUNK) in *.
  pose proof (pad_length_range t) as Hp.
  constructor; [cbn; lia|]. constructor; [|constructor].
  cbn. split; [|lia]. unfold BLOCK_SIZE, pad_length.
  pose proof (Z.div_mod t 16).
  replace (t + (16 - t mod 16)) with ((t / 16 + 1) * 16) by lia.
  apply Z.mod_mul. lia.
Qed.

Lemma carry_in_chunk_events k rem : In (Carry rem) (chunk_events k) -> rem = 0.
Proof.
  induction k as [|k IH]; cbn [chunk_events In]; [intros []|].
  intros [H | [H | H]]; [discriminate H | injection H as <-; reflexivity | exact (IH H)].
Qed.

Lemma carry_in_encrypt_log len rem : In (Carry rem) (encrypt_log len) -> rem = 0.
Proof.
  unfold encrypt_log. cbv zeta. intros H. apply in_app_or in H.
  destruct H as [H | H]; [exact (carry_in_chunk_events _ _ H)|].
  cbn [In] in H. destruct H as [H | [H | []]]; discriminate H.
Qed.

(** The SHA-256 embedded here gives the digest of "abc" of FIPS 180. *)
Example sha256_abc :
  sha256 [97; 98; 99]
  = [ 0xba; 0x78; 0x16; 0xbf; 0x8f; 0x01; 0xcf; 0xea; 0x41; 0x41; 0x40; 0xde;
      0x5d; 0xae; 0x22; 0x23; 0xb0; 0x03; 0x61; 0xa3; 0x96; 0x17; 0x7a; 0x9c;
      0xb4; 0x10; 0xff; 0x61; 0xf2; 0x00; 0x15; 0xad ].
Proof. vm_compute. reflexivity. Qed.

Lemma tail_in_encrypt_log len : In (Tail (len mod READ_CHUNK)) (encrypt_log len).
Proof. unfold encrypt_log. cbv zeta. apply in_or_app. right. left. reflexivity. Qed.

End Encrypt.

(** C5: the output of an encryption run is the 16 bytes of the IV, a
    ciphertext of [(L / 16 + 1) * 16] bytes and the 32 bytes of the digest;
    the ciphertext length is a positive multiple of 16 that exceeds the
    plaintext length [L] by 1 to 16 bytes, by 16 when [L] is a multiple of 16;
    an empty plaintext gives 64 bytes. *)
Theorem C5_output_length (p key iv : list Z) :
  length iv = 16%nat ->
  exists r c h,
    Codec.cbc_encrypt_stream (Codec.fopen p) key iv = Some r /\
    Codec.enc_err r = None /\
    Codec.enc_fout r = iv ++ c ++ h /\
    Z.of_nat (length h) = 32 /\
    Z.of_nat (length c) = (Z.of_nat (length p) / 16 + 1) * 16 /\
    Z.of_nat (length (Codec.enc_fout r)) = 16 + Z.of_nat (length c) + 32 /\
    0 < Z.of_nat (length c) /\ Z.of_nat (length c) mod 16 = 0 /\
    1 <= Z.of_nat (length c) - Z.of_nat (length p) <= 16 /\
    (Z.of_nat (length p) mod 16 = 0 ->
     Z.of_nat (length c) = Z.of_nat (length p) + 16) /\
    (p = [] -> Z.of_nat (length (Codec.enc_fout r)) = 64).
Proof.
  intros Hiv.
  eexists. exists (Spec.ciphertext key iv p), (Spec.sha256 (Spec.ciphertext key iv p)).
  split; [apply cbc_encrypt_stream_spec; exact Hiv|].
  cbn [Codec.enc_err Codec.enc_fout].
  assert (Hh : Z.of_nat (length (Spec.sha256 (Spec.ciphertext key iv p))) = 32)
    by (unfold Spec.sha256; rewrite sha256_final_length; reflexivity).
  assert (Hc : Z.of_nat (length (Spec.ciphertext key iv p))
               = (Z.of_nat (length p) / 16 + 1) * 16).
  { unfold Spec.ciphertext. rewrite cbc_enc_length. unfold Spec.blocks.
    destruct (pkcs7_length p) as (_ & _ & E). rewrite E.
    rewrite Z.div_mul by lia. rewrite Z2Nat.id; [lia|].
    assert (0 <= Z.of_nat (length p) / 16) by (apply Z.div_pos; lia). lia. }
  pose proof (Z.div_mod (Z.of_nat (length p)) 16 ltac:(lia)) as Hdm.
  pose proof (Z.mod_pos_bound (Z.of_nat (length p)) 16 ltac:(lia)) as Hmb.
  split; [reflexivity|]. split; [reflexivity|]. split; [exact Hh|].
  split; [exact Hc|].
  assert (Htot : Z.of_nat (length (Spec.container key iv p))
                 = 16 + Z.of_nat (length (Spec.ciphertext key iv p)) + 32).
  { unfold Spec.container. rewrite !length_app. lia. }
  split; [exact Htot|]. rewrite Htot, Hc.
  split; [lia|]. split; [apply Z.mod_mul; lia|]. split; [lia|]. split; [lia|].
  intros ->. reflexivity.
Qed.

Lemma C5_output_length_witness :
  exists r c h,
    Codec.cbc_encrypt_stream (Codec.fopen [1; 2; 3]) [] (replicate 16 7) = Some r /\
    Codec.enc_err r = None /\
    Codec.enc_fout r = replicate 16 7 ++ c ++ h /\
    Z.of_nat (length h) = 32 /\
    Z.of_nat (length c) = (Z.of_nat (length [1; 2; 3]) / 16 + 1) * 16 /\
    Z.of_nat (length (Codec.enc_fout r)) = 16 + Z.of_nat (length c) + 32 /\
    0 < Z.of_nat (length c) /\ Z.of_nat (length c) mod 16 = 0 /\
    1 <= Z.of_nat (length c) - Z.of_nat (length [1; 2; 3]) <= 16 /\
    (Z.of_nat (length [1; 2; 3]) mod 16 = 0 ->
     Z.of_nat (length c) = Z.of_nat (length [1; 2; 3]) + 16) /\
    ([1; 2; 3] = [] -> Z.of_nat (length (Codec.enc_fout r)) = 64).
Proof. apply (C5_output_length [1; 2; 3] [] (replicate 16 7)). reflexivity. Defined.

(** C9 (amended): in every encryption run each cipher loop covers a whole
    number of 16-byte blocks that are in the buffer and the carry between
    reads is shorter than a block (it is empty, [READ_CHUNK] being a multiple
    of 16); the remainder handed to the padding is what the last read
    delivered, [L mod READ_CHUNK] bytes, which is less than [READ_CHUNK] and
    not in general less than 16. *)
Theorem C9_carry_and_tail (p key iv : list Z) :
  length iv = 16%nat ->
  exists r,
    Codec.cbc_encrypt_stream (Codec.fopen p) key iv = Some r /\
    Forall Spec.event_in_code (Codec.enc_log r) /\
    (forall rem, In (Codec.Carry rem) (Codec.enc_log r) -> rem = 0) /\
    In (Codec.Tail (Z.of_nat (length p) mod Codec.READ_CHUNK)) (Codec.enc_log r).
Proof.
  intros Hiv. eexists. split; [apply cbc_encrypt_stream_spec; exact Hiv|].
  cbn [Codec.enc_log]. split; [|split].
  - apply encrypt_log_in_code. lia.
  - intros rem. apply carry_in_encrypt_log.
  - apply tail_in_encrypt_log.
Qed.

Lemma C9_carry_and_tail_witness :
  exists r,
    Codec.cbc_encrypt_stream (Codec.fopen [1; 2; 3]) [] (replicate 16 7) = Some r /\
    Forall Spec.event_in_code (Codec.enc_log r) /\
    (forall rem, In (Codec.Carry rem) (Codec.enc_log r) -> rem = 0) /\
    In (Codec.Tail (Z.of_nat (length [1; 2; 3]) mod Codec.READ_CHUNK)) (Codec.enc_log r).
Proof. apply (C9_carry_and_tail [1; 2; 3] [] (replicate 16 7)). reflexivity. Defined.

(** C9 as stated fails: for a plaintext of 20 bytes the remainder handed to
    the padding has 20 bytes, not 0 to 15. *)
Lemma C9_tail_counterexample :
  ~ Spec.encrypt_events_as_stated (replicate 20 65) (replicate 64 0) (replicate 16 0).
Proof.
  intros (r & Hrun & Hall).
  rewrite cbc_encrypt_stream_spec in Hrun by reflexivity.
  injection Hrun as <-. cbn [Codec.enc_log] in Hall.
  change (Spec.encrypt_log (Z.of_nat (length (replicate 20 65))))
    with [Codec.Tail 20; Codec.Batch 32 32] in Hall.
  apply Forall_cons_1 in Hall. destruct Hall as [Htail _].
  unfold Spec.event_as_stated in Htail.
  change (Z.of_nat 20 mod Codec.READ_CHUNK) with 20 in Htail. lia.
Qed.

(** ** [cbc_decrypt_stream] *)

Section Decrypt.
Import Gost Sha256 Spec Codec.

Variable key : list Z.

Lemma cbc_dec_length n : forall prev data,
    length prev = 16%nat -> lenZ data = 16 * Z.of_nat n ->
    lenZ (cbc_dec n key prev data) = 16 * Z.of_nat n.
Proof.
  induction n as [|n IH]; intros prev data Hp Hd; [reflexivity|].
  destruct (split_block data n Hd) as (_ & Hb & Hd').
  cbn [cbc_dec]. rewrite length_app, Nat2Z.inj_add.
  rewrite cbc_dec_block_length by exact Hp.
  rewrite IH by assumption. lia.
Qed.

Lemma cbc_dec_chain_length n : forall prev data,
    length prev = 16%nat -> lenZ data = 16 * Z.of_nat n ->
    length (cbc_dec_chain n prev data) = 16%nat.
Proof.
  induction n as [|n IH]; intros prev data Hp Hd; [exact Hp|].
  destruct (split_block data n Hd) as (_ & Hb & Hd').
  cbn [cbc_dec_chain]. apply IH; assumption.
Qed.

Lemma cbc_dec_app n m : forall (prev a b : list Z),
    lenZ a = 16 * Z.of_nat n ->
    cbc_dec (n + m) key prev (a ++ b)
    = cbc_dec n key prev a ++ cbc_dec m key (cbc_dec_chain n prev a) b.
Proof.
  induction n as [|n IH]; intros prev a b Ha.
  - destruct a; [reflexivity | cbn in Ha; lia].
  - destruct (split_block a n Ha) as (Ea & Hb & Ha').
    cbn [Nat.add cbc_dec cbc_dec_chain].
    assert (Ht : take 16 (a ++ b) = take 16 a)
      by (apply take_app_le; rewrite length_take in Hb; lia).
    assert (Hd : drop 16 (a ++ b) = drop 16 a ++ b)
      by (apply drop_app_le; rewrite length_take in Hb; lia).
    rewrite Ht, Hd, IH by exact Ha'. rewrite <- app_assoc. reflexivity.
Qed.

Lemma read_sizes_long remaining :
  READ_CHUNK < remaining ->
  read_sizes remaining = READ_CHUNK :: read_sizes (remaining - READ_CHUNK).
Proof.
  intros H. pose proof READ_CHUNK_value as Hrc. unfold read_sizes. cbv zeta.
  set (q := (remaining - READ_CHUNK - 1) / READ_CHUNK).
  replace ((remaining - 1) / READ_CHUNK)
    with ((remaining - READ_CHUNK - 1) / READ_CHUNK + 1).
  2: { replace (remaining - 1) with (remaining - READ_CHUNK - 1 + 1 * READ_CHUNK) by lia.
       rewrite Z.div_add by lia. reflexivity. }
  assert (0 <= q) by (apply Z.div_pos; lia).
  rewrite Z2Nat.inj_add by lia. rewrite Nat.add_comm.
  change (Z.to_nat 1) with 1%nat. cbn [Nat.add replicate app]. fold q.
  replace (remaining - (q + 1) * READ_CHUNK) with (remaining - READ_CHUNK - q * READ_CHUNK)
    by ring.
  reflexivity.
Qed.

Lemma read_sizes_short remaining :
  0 < remaining <= READ_CHUNK -> read_sizes remaining = [remaining].
Proof.
  intros H. unfold read_sizes. cbv zeta.
  rewrite Z.div_small by lia. change (Z.to_nat 0) with 0%nat.
  cbn [replicate app]. rewrite Z.mul_0_l, Z.sub_0_r. reflexivity.
Qed.

Lemma dec_loop_S fuel fin stored remaining s :
  dec_loop (S fuel) key fin stored remaining s
  = (if 0 <? remaining then
       let toread := if READ_CHUNK <? remaining then READ_CHUNK else remaining in
       let toread := if toread mod BLOCK_SIZE =? 0 then toread
                     else toread - toread mod BLOCK_SIZE in
       let got := takeZ toread (dropZ (pos fin) (content fin)) in
       let fin := {| content := content fin; pos := pos fin + lenZ got |} in
       let inbuf := write_at 0 got (d_inbuf s) in
       let r := lenZ got in
       let reads := d_reads s ++ [r] in
       if negb (r =? toread) then Some (dec_fail ShortRead (d_fout s) reads)
       else
         let hctx := sha256_update (d_hctx s) (takeZ r inbuf) in
         let bufs := dec_blocks (trips r) 0 key inbuf (d_outbuf s, d_prev s) in
         let remaining := remaining - r in
         if 0 <? remaining then
           dec_loop fuel key fin stored remaining
             {| d_inbuf := inbuf; d_outbuf := fst bufs; d_prev := snd bufs;
                d_hctx := hctx; d_fout := d_fout s ++ takeZ r (fst bufs);
                d_reads := reads |}
         else if r <? BLOCK_SIZE then Some (dec_fail ShortLastChunk (d_fout s) reads)
         else
           let keep := r - BLOCK_SIZE in
           let fout := if keep =? 0 then d_fout s
                       else d_fout s ++ takeZ keep (fst bufs) in
           let lastblk := takeZ BLOCK_SIZE (dropZ keep (fst bufs)) in
           let res := pkcs7_unpad lastblk BLOCK_SIZE in
           if negb (fst res) then Some (dec_fail BadPadding fout reads)
           else
             let fout := if snd res =? 0 then fout
                         else fout ++ takeZ (snd res) lastblk in
             dec_loop fuel key fin stored remaining
               {| d_inbuf := inbuf; d_outbuf := fst bufs; d_prev := snd bufs;
                  d_hctx := hctx; d_fout := fout; d_reads := reads |}
     else
       let calc_hash := sha256_final (d_hctx s) in
       Some {| dec_err := None; dec_fout := d_fout s;
               dec_auth_ok :=
                 if bool_decide (takeZ 32 calc_hash = takeZ 32 stored)
                 then 1 else 0;
               dec_reads := d_reads s |}).
Proof.
  cbn [dec_loop]. unfold fread. cbv zeta.
  destruct (0 <? remaining); [|reflexivity].
  destruct (negb _); [reflexivity|].
  destruct (dec_blocks _ _ _ _ _) as [outbuf prev]. cbn [fst snd].
  destruct (0 <? _); [reflexivity|].
  destruct (_ <? BLOCK_SIZE); [reflexivity|].
  destruct (pkcs7_unpad _ _) as [ok lastlen]. reflexivity.
Qed.

(** One pass of the cipher loop over [r] bytes just read. *)
Lemma dec_chunk_spec (got : list Z) (s : dec_state) :
  dec_ok s -> 0 <= lenZ got <= READ_CHUNK -> lenZ got mod 16 = 0 ->
  let n := Z.to_nat (lenZ got / 16) in
  let inbuf := write_at 0 got (d_inbuf s) in
  let bufs := dec_blocks (trips (lenZ got)) 0 key inbuf (d_outbuf s, d_prev s) in
  lenZ inbuf = READ_CHUNK /\
  takeZ (lenZ got) inbuf = got /\
  lenZ (fst bufs) = READ_CHUNK /\
  length (snd bufs) = 16%nat /\
  snd bufs = cbc_dec_chain n (d_prev s) got /\
  lenZ (cbc_dec n key (d_prev s) got) = lenZ got /\
  forall k, 0 <= k <= lenZ got ->
    takeZ k (fst bufs) = takeZ k (cbc_dec n key (d_prev s) got) /\
    takeZ (lenZ got - k) (dropZ k (fst bufs))
    = dropZ k (cbc_dec n key (d_prev s) got).
Proof.
  intros (Hin & Hout & Hprev) Hg Hmod. cbv zeta.
  set (n := Z.to_nat (lenZ got / 16)).
  assert (Hn : lenZ got = 16 * Z.of_nat n).
  { unfold n. pose proof (Z.div_mod (lenZ got) 16). rewrite Z2Nat.id; [lia|].
    apply Z.div_pos; lia. }
  assert (Hw : write_at 0 got (d_inbuf s) = got ++ dropZ (lenZ got) (d_inbuf s)).
  { unfold write_at. rewrite takeZ_0, Z.add_0_l. reflexivity. }
  destruct (buffer_split 0 (lenZ got) (d_outbuf s)) as (Eout & _ & Hl2); [lia | lia | lia |].
  rewrite takeZ_0, dropZ_0, Z.add_0_l in Eout. cbn [app] in Eout. rewrite dropZ_0 in Hl2.
  set (old := takeZ (lenZ got) (d_outbuf s)) in *.
  pose proof (dec_blocks_app key n [] got (dropZ (lenZ got) (d_inbuf s))
                [] old (dropZ (lenZ got) (d_outbuf s)) (d_prev s)) as Hrun.
  cbn [app length] in Hrun. change (Z.of_nat 0) with 0 in Hrun.
  rewrite <- Hw, <- Eout in Hrun.
  rewrite trips_whole by lia. fold n.
  rewrite Hrun; [|exact Hn | lia | reflexivity | exact Hprev].
  cbn [fst snd].
  pose proof (cbc_dec_length n (d_prev s) got Hprev Hn) as Hdl.
  set (d := cbc_dec n key (d_prev s) got) in *.
  split; [rewrite Hw, lenZ_app, dropZ_length by lia; lia|].
  split; [rewrite Hw; apply takeZ_app_length|].
  split; [rewrite lenZ_app, dropZ_length by lia; lia|].
  split; [apply cbc_dec_chain_length; assumption|].
  split; [reflexivity|]. split; [lia|].
  intros k Hk.
  assert (Hld : lenZ (dropZ k d) = lenZ got - k) by (rewrite dropZ_length by lia; lia).
  split.
  - unfold takeZ. apply take_app_le. lia.
  - unfold dropZ at 1. rewrite drop_app_le by lia.
    apply takeZ_app_length'. fold (dropZ k d). lia.
Qed.

Lemma write_if_nonzero k (f l : list Z) :
  (if k =? 0 then f else f ++ takeZ k l) = f ++ takeZ k l.
Proof.
  destruct (Z.eqb_spec k 0) as [->|]; [|reflexivity].
  rewrite takeZ_0, app_nil_r. reflexivity.
Qed.

Lemma takeZ_app_r k (a b : list Z) :
  lenZ a <= k -> takeZ k (a ++ b) = a ++ takeZ (k - lenZ a) b.
Proof.
  intros H. unfold takeZ. rewrite take_app.
  rewrite take_ge by lia. f_equal. f_equal. lia.
Qed.

Lemma dropZ_app_r k (a b : list Z) :
  lenZ a <= k -> dropZ k (a ++ b) = dropZ (k - lenZ a) b.
Proof.
  intros H. unfold dropZ. rewrite drop_app.
  rewrite drop_ge by lia. cbn [app]. f_equal. lia.
Qed.

Lemma blocks_exact (l : list Z) n : lenZ l = 16 * Z.of_nat n -> blocks l = n.
Proof.
  intros H. unfold blocks. rewrite H.
  rewrite Z.mul_comm, Z.div_mul by lia. apply Nat2Z.id.
Qed.

Lemma dec_loop_spec fuel :
  forall fin stored remaining s,
    dec_ok s -> 0 <= pos fin -> 0 < remaining -> remaining mod 16 = 0 ->
    pos fin + remaining <= lenZ (content fin) ->
    remaining < Z.of_nat fuel ->
    dec_loop fuel key fin stored remaining s
    = Some (dec_expected key (takeZ remaining (dropZ (pos fin) (content fin)))
              (d_prev s) (d_hctx s) (d_fout s) (d_reads s) stored).
Proof.
  pose proof READ_CHUNK_value as Hrc.
  induction fuel as [|fuel IH];
    intros fin stored remaining s Hok Hpos Hrem Hmod Hfit Hfuel; [lia|].
  pose proof Hok as (Hin & Hout & Hprev).
  rewrite dec_loop_S.
  destruct (Z.ltb_spec 0 remaining) as [_|]; [|lia].
  cbv zeta.
  set (avail := dropZ (pos fin) (content fin)) in *.
  assert (Hav : remaining <= lenZ avail)
    by (unfold avail; rewrite dropZ_length by lia; lia).
  set (rest := takeZ remaining avail).
  assert (Hrest : lenZ rest = remaining) by (apply takeZ_length; lia).
  destruct (Z.ltb_spec READ_CHUNK remaining) as [Hlong | Hshort].
  - (* a full chunk, and more to come *)
    replace (READ_CHUNK mod BLOCK_SIZE =? 0) with true by (rewrite Hrc; reflexivity).
    set (got := takeZ READ_CHUNK avail).
    assert (Hgot : lenZ got = READ_CHUNK) by (apply takeZ_length; lia).
    rewrite Hgot, Z.eqb_refl. cbn [negb].
    destruct (dec_chunk_spec got s Hok) as (Hl1 & Ht1 & Hl2 & Hp2 & Hch & Hdl & Hk);
      [lia | rewrite Hgot, Hrc; reflexivity |].
    rewrite Hgot in Ht1, Hl2, Hp2, Hch, Hdl, Hk.
    set (n := Z.to_nat (READ_CHUNK / 16)) in *.
    remember (dec_blocks (trips READ_CHUNK) 0 key (write_at 0 got (d_inbuf s))
                (d_outbuf s, d_prev s)) as bufs eqn:Ebufs.
    clear Ebufs.
    destruct (Hk READ_CHUNK ltac:(lia)) as [Htk _].
    rewrite (takeZ_all READ_CHUNK (cbc_dec n key (d_prev s) got)) in Htk by lia.
    destruct (Z.ltb_spec 0 (remaining - READ_CHUNK)) as [_|]; [|lia].
    set (fin' := {| content := content fin; pos := pos fin + READ_CHUNK |}).
    rewrite IH; [| | unfold fin'; cbn [pos]; lia | lia | | unfold fin'; cbn [content pos]; lia | lia].
    2: { unfold dec_ok. cbn [d_inbuf d_outbuf d_prev].
         split; [exact Hl1 | split; [exact Hl2 | exact Hp2]]. }
    2: { rewrite <- Z.mod_add with (b := 1) by lia.
         replace (remaining - READ_CHUNK + 1 * 16) with (remaining - (READ_CHUNK - 16)) by lia.
         rewrite Hrc. change (65536 - 16) with (4095 * 16).
         rewrite <- (Z.mod_add _ 4095) by lia.
         replace (remaining - 4095 * 16 + 4095 * 16) with remaining by lia. exact Hmod. }
    cbn [d_prev d_hctx d_fout d_reads]. f_equal.
    assert (Hrest' : takeZ (remaining - READ_CHUNK) (dropZ (pos fin') (content fin'))
                     = dropZ READ_CHUNK rest).
    { unfold fin', rest, avail. cbn [content pos].
      rewrite <- dropZ_dropZ by lia. unfold takeZ, dropZ.
      rewrite take_drop_commute. f_equal. f_equal. lia. }
    rewrite Hrest'.
    assert (Hsplit : rest = got ++ dropZ READ_CHUNK rest).
    { rewrite <- (takeZ_dropZ READ_CHUNK rest) at 1. f_equal.
      unfold rest, got, takeZ. rewrite take_take. f_equal. lia. }
    set (rest' := dropZ READ_CHUNK rest) in *.
    assert (Hrl' : lenZ rest' = remaining - READ_CHUNK)
      by (unfold rest'; rewrite dropZ_length by lia; lia).
    assert (Hn : lenZ got = 16 * Z.of_nat n) by (rewrite Hgot; unfold n; rewrite Hrc; reflexivity).
    pose proof (Z.div_mod (remaining - READ_CHUNK) 16 ltac:(lia)) as Hdm.
    assert (Hm16 : (remaining - READ_CHUNK) mod 16 = 0).
    { rewrite Hrc. change 65536 with (4096 * 16).
      rewrite <- (Z.mod_add _ 4096) by lia.
      replace (remaining - 4096 * 16 + 4096 * 16) with remaining by lia. exact Hmod. }
    set (m := Z.to_nat ((remaining - READ_CHUNK) / 16)).
    assert (Hm : lenZ rest' = 16 * Z.of_nat m).
    { unfold m. rewrite Z2Nat.id by (apply Z.div_pos; lia). lia. }
    assert (Hbl : blocks rest = (n + m)%nat).
    { apply blocks_exact. rewrite Hsplit, length_app. lia. }
    pose proof (cbc_dec_length m (snd bufs) rest' Hp2 Hm) as Hdl'.
    assert (Hd1 : lenZ (takeZ READ_CHUNK (fst bufs)) = READ_CHUNK)
      by (apply takeZ_length; lia).
    assert (Hdsplit : cbc_dec (n + m) key (d_prev s) rest
                      = takeZ READ_CHUNK (fst bufs) ++ cbc_dec m key (snd bufs) rest').
    { rewrite Hsplit at 1. rewrite (cbc_dec_app n m) by exact Hn.
      rewrite <- Hch, <- Htk. reflexivity. }
    assert (Hhash : sha256_update (d_hctx s) rest
                    = sha256_update
                        (sha256_update (d_hctx s)
                           (takeZ READ_CHUNK (write_at 0 got (d_inbuf s)))) rest').
    { rewrite Hsplit at 1. rewrite sha256_update_app, Ht1. reflexivity. }
    assert (Hreads : read_sizes (lenZ rest) = READ_CHUNK :: read_sizes (lenZ rest')).
    { rewrite (read_sizes_long (lenZ rest)) by lia. do 2 f_equal. lia. }
    unfold dec_expected. cbv zeta.
    rewrite Hbl, (blocks_exact rest' m Hm), Hdsplit, Hhash, Hreads.
    remember (takeZ READ_CHUNK (fst bufs)) as d1 eqn:Ed1.
    remember (cbc_dec m key (snd bufs) rest') as d' eqn:Ed'.
    rewrite lenZ_app.
    rewrite (takeZ_app_r _ d1 d') by lia. rewrite (dropZ_app_r _ d1 d') by lia.
    replace (lenZ d1 + lenZ d' - 16 - lenZ d1) with (lenZ d' - 16) by lia.
    destruct (pkcs7_unpad _ BLOCK_SIZE) as [ok lastlen].
    destruct ok; rewrite <- !app_assoc; reflexivity.
  - (* the last chunk *)
    replace (remaining mod BLOCK_SIZE =? 0) with true
      by (unfold BLOCK_SIZE; rewrite Hmod; reflexivity).
    fold rest. rewrite Hrest, Z.eqb_refl. cbn [negb].
    destruct (dec_chunk_spec rest s Hok) as (Hl1 & Ht1 & Hl2 & Hp2 & Hch & Hdl & Hk);
      [lia | rewrite Hrest; exact Hmod |].
    rewrite Hrest in Ht1, Hl2, Hp2, Hch, Hdl, Hk.
    set (n := Z.to_nat (remaining / 16)) in *.
    remember (dec_blocks (trips remaining) 0 key (write_at 0 rest (d_inbuf s))
                (d_outbuf s, d_prev s)) as bufs eqn:Ebufs.
    clear Ebufs.
    assert (H16 : 16 <= remaining).
    { pose proof (Z.div_mod remaining 16 ltac:(lia)). lia. }
    rewrite Z.sub_diag. cbn [Z.ltb Z.compare].
    destruct (Z.ltb_spec remaining BLOCK_SIZE) as [Hbad|_]; [unfold BLOCK_SIZE in Hbad; lia|].
    destruct (Hk (remaining - BLOCK_SIZE)) as [Hbody Hlast]; [unfold BLOCK_SIZE; lia|].
    replace (remaining - (remaining - BLOCK_SIZE)) with BLOCK_SIZE in Hlast by lia.
    rewrite write_if_nonzero, Hbody, Hlast.
    assert (Hn : lenZ rest = 16 * Z.of_nat n).
    { rewrite Hrest. unfold n. pose proof (Z.div_mod remaining 16 ltac:(lia)).
      rewrite Z2Nat.id by (apply Z.div_pos; lia). lia. }
    unfold dec_expected. cbv zeta. rewrite (blocks_exact rest n Hn).
    set (d := cbc_dec n key (d_prev s) rest) in *.
    rewrite Hdl, Hrest. unfold BLOCK_SIZE at 1 2 3.
    rewrite (read_sizes_short remaining) by lia.
    change BLOCK_SIZE with 16.
    destruct (pkcs7_unpad (dropZ (remaining - 16) d) 16) as [ok lastlen].
    cbn [fst snd]. destruct ok; cbn [negb].
    + destruct fuel as [|fuel]; [lia|].
      rewrite dec_loop_S. cbn [Z.ltb Z.compare]. cbv zeta.
      cbn [d_hctx d_fout d_reads].
      rewrite write_if_nonzero, Ht1, <- app_assoc. reflexivity.
    + reflexivity.
Qed.

End Decrypt.

(** ** Padding removal and the decryption of a whole container *)

Section Unpad.
Import Gost Sha256 Spec Codec.

Lemma pad_scan_true cnt : forall i (buf : list Z) len pad,
    pad_scan cnt i buf len pad = true
    <-> (forall j, i <= j < i + Z.of_nat cnt -> idx buf (len - 1 - j) = pad).
Proof.
  induction cnt as [|cnt IH]; intros i buf len pad.
  - cbn [pad_scan]. split; [intros _ j Hj; lia | reflexivity].
  - cbn [pad_scan]. destruct (Z.eqb_spec (idx buf (len - 1 - i)) pad) as [He | Hne].
    + rewrite IH. split.
      * intros H j Hj. destruct (Z.eq_dec j i) as [->|]; [exact He|]. apply H. lia.
      * intros H j Hj. apply H. lia.
    + split; [discriminate|]. intros H. exfalso. apply Hne. apply H. lia.
Qed.

Lemma idx_lookup (l : list Z) j :
  0 <= j < lenZ l -> l !! Z.to_nat j = Some (idx l j).
Proof.
  intros Hj. unfold idx.
  destruct (lookup_lt_is_Some_2 l (Z.to_nat j) ltac:(lia)) as [x Hx].
  rewrite Hx. f_equal. symmetry. apply nth_lookup_Some. exact Hx.
Qed.

Lemma Forall_dropZ (P : Z -> Prop) k (l : list Z) :
  0 <= k <= lenZ l ->
  Forall P (dropZ k l) <-> (forall j, k <= j < lenZ l -> P (idx l j)).
Proof.
  intros Hk. unfold dropZ. rewrite Forall_lookup. split.
  - intros H j Hj. apply (H (Z.to_nat (j - k))).
    rewrite lookup_drop.
    replace (Z.to_nat k + Z.to_nat (j - k))%nat with (Z.to_nat j) by lia.
    apply idx_lookup. lia.
  - intros H i x Hx. rewrite lookup_drop in Hx.
    pose proof (lookup_lt_Some _ _ _ Hx) as Hlt.
    specialize (H (k + Z.of_nat i) ltac:(lia)).
    replace (Z.to_nat k + i)%nat with (Z.to_nat (k + Z.of_nat i)) in Hx by lia.
    rewrite idx_lookup in Hx by lia. injection Hx as <-. exact H.
Qed.

(** [pkcs7_unpad] on a block of sixteen bytes accepts exactly the blocks
    that satisfy the padding rule, and then removes the padding. *)
Lemma pkcs7_unpad_spec (blk : list Z) :
  length blk = 16%nat -> bytes_ok blk ->
  (padding_rule blk /\ pkcs7_unpad blk BLOCK_SIZE = (true, 16 - pad_value blk)) \/
  (~ padding_rule blk /\ pkcs7_unpad blk BLOCK_SIZE = (false, 16)).
Proof.
  intros Hlen Hb.
  assert (Hv : 0 <= pad_value blk < 256).
  { unfold pad_value. apply (idx_range blk 0 256); [lia | exact Hb]. }
  unfold pkcs7_unpad, BLOCK_SIZE.
  change (16 =? 0) with false. change (16 mod 16 =? 0) with true. cbn [negb orb].
  unfold padding_rule, pad_value in *. replace (lenZ blk) with 16 in * by lia.
  set (v := idx blk (16 - 1)) in *.
  destruct (Z.eqb_spec v 0) as [H0 | H0]; cbn [orb].
  { right. split; [intros [Hr _]; lia | reflexivity]. }
  destruct (Z.ltb_spec 16 v) as [Hbig | Hsmall].
  { right. split; [intros [Hr _]; lia | reflexivity]. }
  assert (Hiff : pad_scan (Z.to_nat v) 0 blk 16 v = true
                 <-> Forall (fun b => b = v) (dropZ (16 - v) blk)).
  { rewrite pad_scan_true, Forall_dropZ by lia. split.
    - intros H j Hj. replace j with (16 - 1 - (15 - j)) by lia. apply H. lia.
    - intros H j Hj. apply H. lia. }
  destruct (pad_scan (Z.to_nat v) 0 blk 16 v) eqn:Hs.
  - left. split; [|reflexivity]. split; [lia | apply Hiff; reflexivity].
  - right. split; [|reflexivity]. intros [_ Hall]. apply Hiff in Hall. discriminate.
Qed.

Lemma xor_bytes_bytes (a b : list Z) : bytes_ok a -> bytes_ok b -> bytes_ok (xor_bytes a b).
Proof.
  intros Ha. revert b. induction Ha as [|x a Hx Ha IH]; intros b Hb; [constructor|].
  destruct Hb as [|y b Hy Hb]; [constructor|].
  cbn. constructor; [apply lxor_byte; assumption | apply IH; exact Hb].
Qed.

Lemma cbc_dec_bytes key n : forall prev data,
    bytes_ok prev -> bytes_ok data -> bytes_ok (cbc_dec n key prev data).
Proof.
  induction n as [|n IH]; intros prev data Hp Hd; [constructor|].
  cbn [cbc_dec]. apply Forall_app. split.
  - unfold cbc_dec_block. apply xor_bytes_bytes; [apply be_words_to_bytes_bytes | exact Hp].
  - apply IH; [apply Forall_take | apply Forall_drop]; exact Hd.
Qed.

Variable key : list Z.

Lemma cbc_decrypt_stream_unfold (file : list Z) :
  cbc_decrypt_stream (fopen file) key
  = (if lenZ file <? BLOCK_SIZE + 32 then Some (dec_fail TooSmall [] [])
     else if negb (lenZ (takeZ BLOCK_SIZE (dropZ 0 file)) =? BLOCK_SIZE)
     then Some (dec_fail ShortRead [] [])
     else if negb (lenZ (takeZ 32 (dropZ (lenZ file - 32) file)) =? 32)
     then Some (dec_fail ShortRead [] [])
     else if (lenZ file - 32 - BLOCK_SIZE <=? 0)
             || negb (Z.rem (lenZ file - 32 - BLOCK_SIZE) BLOCK_SIZE =? 0)
     then Some (dec_fail BadSize [] [])
     else
       dec_loop (S (Z.to_nat (lenZ file - 32 - BLOCK_SIZE))) key
         {| content := file; pos := BLOCK_SIZE |}
         (takeZ 32 (dropZ (lenZ file - 32) file))
         (lenZ file - 32 - BLOCK_SIZE)
         {| d_inbuf := fresh READ_CHUNK; d_outbuf := fresh READ_CHUNK;
            d_prev := takeZ BLOCK_SIZE (dropZ 0 file); d_hctx := sha256_init;
            d_fout := []; d_reads := [] |}).
Proof. reflexivity. Qed.

Lemma region_lengths (file : list Z) :
  48 <= lenZ file ->
  lenZ (iv_of file) = 16 /\
  lenZ (ciphertext_of file) = lenZ file - 48 /\
  lenZ (trailer_of file) = 32.
Proof.
  intros H. unfold iv_of, ciphertext_of, trailer_of.
  rewrite !takeZ_length, !dropZ_length; rewrite ?dropZ_length; lia.
Qed.

(** A run over a well-formed container. *)
Lemma cbc_decrypt_stream_well_formed (file : list Z) :
  well_formed file ->
  cbc_decrypt_stream (fopen file) key
  = Some (dec_expected key (ciphertext_of file) (iv_of file) sha256_init
            [] [] (trailer_of file)).
Proof.
  intros (Hsz & Hpos & Hmod). pose proof READ_CHUNK_value as Hrc.
  destruct (region_lengths file Hsz) as (Hiv & Hct & Htr).
  rewrite cbc_decrypt_stream_unfold. unfold BLOCK_SIZE. rewrite dropZ_0.
  fold (iv_of file).
  assert (Htake : takeZ 32 (dropZ (lenZ file - 32) file) = trailer_of file)
    by (apply takeZ_all; fold (trailer_of file); lia).
  rewrite Htake, Hiv, Htr.
  destruct (Z.ltb_spec (lenZ file) (16 + 32)) as [|_]; [lia|].
  change (16 =? 16) with true. change (32 =? 32) with true. cbn [negb].
  replace (lenZ file - 32 - 16) with (lenZ file - 48) by lia.
  destruct (Z.leb_spec (lenZ file - 48) 0) as [|_]; [lia|].
  rewrite Z.rem_mod_nonneg, Hmod by lia. change (0 =? 0) with true. cbn [negb orb].
  rewrite dec_loop_spec.
  - reflexivity.
  - unfold dec_ok. cbn [d_inbuf d_outbuf d_prev].
    rewrite !fresh_length by lia. split; [reflexivity | split; [reflexivity | lia]].
  - cbn [pos]. lia.
  - exact Hpos.
  - exact Hmod.
  - cbn [content pos]. lia.
  - lia.
Qed.

(** The format checks. *)
Lemma cbc_decrypt_stream_too_small (file : list Z) :
  lenZ file < 48 ->
  cbc_decrypt_stream (fopen file) key = Some (dec_fail TooSmall [] []).
Proof.
  intros H. rewrite cbc_decrypt_stream_unfold. unfold BLOCK_SIZE.
  destruct (Z.ltb_spec (lenZ file) (16 + 32)) as [_|]; [reflexivity | lia].
Qed.

Lemma cbc_decrypt_stream_bad_size (file : list Z) :
  48 <= lenZ file -> ~ well_formed file ->
  cbc_decrypt_stream (fopen file) key = Some (dec_fail BadSize [] []).
Proof.
  intros Hsz Hbad.
  destruct (region_lengths file Hsz) as (Hiv & Hct & Htr).
  rewrite cbc_decrypt_stream_unfold. unfold BLOCK_SIZE. rewrite dropZ_0.
  fold (iv_of file).
  assert (Htake : takeZ 32 (dropZ (lenZ file - 32) file) = trailer_of file)
    by (apply takeZ_all; fold (trailer_of file); lia).
  rewrite Htake, Hiv, Htr.
  destruct (Z.ltb_spec (lenZ file) (16 + 32)) as [|_]; [lia|].
  change (16 =? 16) with true. change (32 =? 32) with true. cbn [negb].
  replace (lenZ file - 32 - 16) with (lenZ file - 48) by lia.
  destruct (Z.leb_spec (lenZ file - 48) 0) as [|Hpos]; [reflexivity|].
  cbn [orb]. rewrite Z.rem_mod_nonneg by lia.
  destruct (Z.eqb_spec ((lenZ file - 48) mod 16) 0) as [Hmod|_]; [|reflexivity].
  exfalso. apply Hbad. unfold well_formed. lia.
Qed.

Lemma decrypted_facts (file : list Z) :
  well_formed file -> bytes_ok file ->
  lenZ (decrypted key file) = lenZ file - 48 /\
  length (withheld key file) = 16%nat /\
  bytes_ok (withheld key file).
Proof.
  intros (Hsz & Hpos & Hmod) Hb.
  destruct (region_lengths file Hsz) as (Hiv & Hct & Htr).
  assert (Hn : lenZ (ciphertext_of file) = 16 * Z.of_nat (blocks (ciphertext_of file))).
  { unfold blocks. rewrite Hct.
    pose proof (Z.div_mod (lenZ file - 48) 16 ltac:(lia)).
    rewrite Z2Nat.id by (apply Z.div_pos; lia). lia. }
  assert (Hd : lenZ (decrypted key file) = lenZ file - 48).
  { unfold decrypted. rewrite cbc_dec_length; [lia | lia | exact Hn]. }
  split; [exact Hd|]. unfold withheld. split.
  - assert (H16 : 16 <= lenZ file - 48).
    { pose proof (Z.div_mod (lenZ file - 48) 16 ltac:(lia)). lia. }
    apply Nat2Z.inj. rewrite dropZ_length by lia. lia.
  - unfold dropZ. apply Forall_drop. unfold decrypted. apply cbc_dec_bytes.
    + unfold iv_of, takeZ. apply Forall_take. exact Hb.
    + unfold ciphertext_of, takeZ, dropZ. apply Forall_take, Forall_drop. exact Hb.
Qed.

Lemma digest_flag_eq (file : list Z) :
  48 <= lenZ file ->
  (if bool_decide
        (takeZ 32 (sha256_final (sha256_update sha256_init (ciphertext_of file)))
         = takeZ 32 (trailer_of file))
   then 1 else 0) = digest_flag file.
Proof.
  intros Hsz. destruct (region_lengths file Hsz) as (_ & _ & Htr).
  rewrite !takeZ_all by (rewrite ?sha256_final_length; lia).
  reflexivity.
Qed.

(** The two ways a run over a well-formed container of bytes can end. *)
Lemma decrypt_outcome (file : list Z) :
  well_formed file -> bytes_ok file ->
  (padding_rule (withheld key file) /\
   cbc_decrypt_stream (fopen file) key
   = Some {| dec_err := None; dec_fout := recovered key file;
             dec_auth_ok := digest_flag file;
             dec_reads := read_sizes (lenZ file - 48) |})
  \/
  (~ padding_rule (withheld key file) /\
   cbc_decrypt_stream (fopen file) key
   = Some {| dec_err := Some BadPadding; dec_fout := emitted_early key file;
             dec_auth_ok := 0;
             dec_reads := read_sizes (lenZ file - 48) |}).
Proof.
  intros Hwf Hb. pose proof Hwf as (Hsz & _).
  destruct (region_lengths file Hsz) as (_ & Hct & _).
  destruct (decrypted_facts file Hwf Hb) as (_ & Hl & Hbw).
  rewrite (cbc_decrypt_stream_well_formed file Hwf).
  unfold dec_expected.
  fold (decrypted key file). fold (withheld key file). fold (emitted_early key file).
  rewrite (digest_flag_eq file Hsz), Hct.
  destruct (pkcs7_unpad_spec (withheld key file) Hl Hbw) as [[Hp ->] | [Hn ->]].
  - left. split; [exact Hp | reflexivity].
  - right. split; [exact Hn | reflexivity].
Qed.

End Unpad.

(** ** What a decryption run reads, emits and reports *)

Section DecryptClaims.
Import Gost Sha256 Spec Codec.

Lemma read_sizes_whole remaining :
  0 < remaining -> remaining mod 16 = 0 ->
  Forall (fun n => 0 < n /\ n mod 16 = 0) (read_sizes remaining) /\
  exists before last,
    read_sizes remaining = before ++ [last] /\ 16 <= last.
Proof.
  intros Hpos Hmod. pose proof READ_CHUNK_value as Hrc.
  unfold read_sizes. cbv zeta.
  set (k := (remaining - 1) / READ_CHUNK).
  pose proof (Z.div_mod (remaining - 1) READ_CHUNK ltac:(lia)) as Hdm.
  pose proof (Z.mod_pos_bound (remaining - 1) READ_CHUNK ltac:(lia)) as Hmb.
  fold k in Hdm.
  assert (Hlast : 0 < remaining - k * READ_CHUNK) by lia.
  assert (Hlm : (remaining - k * READ_CHUNK) mod 16 = 0).
  { rewrite Hrc. replace (remaining - k * 65536) with (remaining + (- (k * 4096)) * 16) by lia.
    rewrite Z.mod_add by lia. exact Hmod. }
  assert (H16 : 16 <= remaining - k * READ_CHUNK).
  { pose proof (Z.div_mod (remaining - k * READ_CHUNK) 16 ltac:(lia)). lia. }
  split.
  - apply Forall_app. split.
    + apply Forall_replicate. rewrite Hrc. split; [lia | reflexivity].
    + constructor; [split; assumption | constructor].
  - exists (replicate (Z.to_nat k) READ_CHUNK), (remaining - k * READ_CHUNK).
    split; [reflexivity | exact H16].
Qed.

(** C10: on an input that passes the format checks every read of the
    decryption loop delivers a positive multiple of 16 bytes, the last one
    at least 16, and the run does not end in the branch for a last chunk
    shorter than a block. *)
Theorem C10_reads_are_whole_blocks (file key : list Z) :
  well_formed file ->
  exists r,
    cbc_decrypt_stream (fopen file) key = Some r /\
    Forall (fun n => 0 < n /\ n mod BLOCK_SIZE = 0) (dec_reads r) /\
    (exists before last, dec_reads r = before ++ [last] /\ BLOCK_SIZE <= last) /\
    dec_err r <> Some ShortLastChunk /\ dec_err r <> Some ShortRead.
Proof.
  intros Hwf. pose proof Hwf as (Hsz & Hpos & Hmod).
  destruct (region_lengths file Hsz) as (_ & Hct & _).
  eexists. split; [apply cbc_decrypt_stream_well_formed; exact Hwf|].
  destruct (read_sizes_whole (lenZ file - 48) Hpos Hmod) as [Hall Hlast].
  unfold dec_expected, BLOCK_SIZE. rewrite Hct.
  destruct (pkcs7_unpad _ 16) as [ok lastlen].
  destruct ok; cbn [dec_reads dec_err app];
    (split; [exact Hall | split; [exact Hlast | split; discriminate]]).
Qed.

Lemma C10_reads_are_whole_blocks_witness :
  exists r,
    cbc_decrypt_stream (fopen (replicate 64 0)) [] = Some r /\
    Forall (fun n => 0 < n /\ n mod BLOCK_SIZE = 0) (dec_reads r) /\
    (exists before last, dec_reads r = before ++ [last] /\ BLOCK_SIZE <= last) /\
    dec_err r <> Some ShortLastChunk /\ dec_err r <> Some ShortRead.
Proof.
  apply (C10_reads_are_whole_blocks (replicate 64 0) []).
  unfold well_formed. change (lenZ (replicate 64 0)) with 64.
  split; [lia | split; [lia | reflexivity]].
Defined.

(** C6: on a well-formed input a run fails with the padding error exactly
    when the withheld last block breaks the padding rule (its last byte [v]
    is outside 1..16, or its last [v] bytes are not all [v]); the sink then
    holds every decrypted block before the last one.  Otherwise the run
    succeeds and the sink holds those blocks followed by the first
    [16 - v] bytes, 0 to 15 of them, of the last block. *)
Theorem C6_padding_error (file key : list Z) :
  well_formed file -> bytes_ok file ->
  exists r,
    cbc_decrypt_stream (fopen file) key = Some r /\
    (dec_err r = Some BadPadding <-> ~ padding_rule (withheld key file)) /\
    (dec_err r = Some BadPadding ->
     dec_fout r = emitted_early key file /\
     lenZ (emitted_early key file) = lenZ (ciphertext_of file) - 16) /\
    (dec_err r <> Some BadPadding ->
     dec_err r = None /\
     dec_fout r = emitted_early key file
                  ++ takeZ (16 - pad_value (withheld key file)) (withheld key file) /\
     0 <= 16 - pad_value (withheld key file) <= 15).
Proof.
  intros Hwf Hb. pose proof Hwf as (Hsz & Hpos & Hmod).
  destruct (region_lengths file Hsz) as (_ & Hct & _).
  destruct (decrypted_facts key file Hwf Hb) as (Hd & _ & _).
  assert (H16 : 16 <= lenZ file - 48).
  { pose proof (Z.div_mod (lenZ file - 48) 16 ltac:(lia)). lia. }
  destruct (decrypt_outcome key file Hwf Hb) as [[Hp Hrun] | [Hn Hrun]];
    eexists; (split; [exact Hrun|]); cbn [dec_err dec_fout].
  - split; [split; [discriminate | intros Hc; destruct (Hc Hp)]|].
    split; [discriminate|]. intros _.
    split; [reflexivity|]. split; [reflexivity|].
    destruct Hp as [Hr _]. lia.
  - split; [split; [intros _; exact Hn | reflexivity]|].
    split; [|intros Hc; destruct (Hc eq_refl)].
    intros _. split; [reflexivity|].
    unfold emitted_early. rewrite takeZ_length by lia. lia.
Qed.

Lemma C6_padding_error_witness :
  exists r,
    cbc_decrypt_stream (fopen (replicate 64 0)) [] = Some r /\
    (dec_err r = Some BadPadding <-> ~ padding_rule (withheld [] (replicate 64 0))) /\
    (dec_err r = Some BadPadding ->
     dec_fout r = emitted_early [] (replicate 64 0) /\
     lenZ (emitted_early [] (replicate 64 0))
     = lenZ (ciphertext_of (replicate 64 0)) - 16) /\
    (dec_err r <> Some BadPadding ->
     dec_err r = None /\
     dec_fout r = emitted_early [] (replicate 64 0)
                  ++ takeZ (16 - pad_value (withheld [] (replicate 64 0)))
                       (withheld [] (replicate 64 0)) /\
     0 <= 16 - pad_value (withheld [] (replicate 64 0)) <= 15).
Proof.
  apply (C6_padding_error (replicate 64 0) []).
  - unfold well_formed. change (lenZ (replicate 64 0)) with 64.
    split; [lia | split; [lia | reflexivity]].
  - apply Forall_replicate. unfold byte_ok. lia.
Defined.

End DecryptClaims.

(** ** Decryption undoes encryption *)

Section RoundTrip.
Import Gost Sha256 Spec Codec.

Variable key : list Z.

Lemma lor_range a b n :
  0 <= n -> 0 <= a < 2 ^ n -> 0 <= b < 2 ^ n -> 0 <= Z.lor a b < 2 ^ n.
Proof.
  intros Hn Ha Hb.
  assert (H0 : 0 <= Z.lor a b) by (apply Z.lor_nonneg; lia).
  split; [exact H0|].
  destruct (Z.eq_dec (Z.lor a b) 0) as [->|Hne]; [lia|].
  assert (Hpos : 0 < n).
  { destruct (Z.eq_dec n 0) as [->|]; [|lia].
    exfalso. apply Hne. replace a with 0 by lia. replace b with 0 by lia.
    reflexivity. }
  apply Z.log2_lt_pow2; [lia|].
  rewrite Z.log2_lor by lia.
  apply Z.max_lub_lt.
  - destruct (Z.eq_dec a 0) as [->|]; [exact Hpos|]. apply Z.log2_lt_pow2; lia.
  - destruct (Z.eq_dec b 0) as [->|]; [exact Hpos|]. apply Z.log2_lt_pow2; lia.
Qed.

Lemma shl64_range x n : 0 <= shl64 x n < 2 ^ 64.
Proof. unfold shl64. apply Z.mod_pos_bound. lia. Qed.

Lemma f_word x : word64_ok (f x).
Proof.
  unfold word64_ok, f. cbv zeta.
  set (y := Z.lor (Z.lor (Z.lor _ _) _) _).
  set (z := Z.lor (Z.lor (Z.lor _ _) _) _).
  set (w := Z.lor (shl64 y 32) (Z.land z 0xffffffff)).
  assert (Hw : 0 <= w < 2 ^ 64).
  { unfold w. apply lor_range; [lia | apply shl64_range|].
    rewrite land_ffffffff. pose proof (Z.mod_pos_bound z (2 ^ 32)). lia. }
  apply lor_range; [lia | apply shl64_range|].
  rewrite Z.shiftr_div_pow2 by lia. split; [apply Z.div_pos; lia|].
  apply Z.div_lt_upper_bound; lia.
Qed.

Lemma crypt_rounds_word n : forall k a b,
    word64_ok a -> word64_ok b ->
    word64_ok (fst (crypt_rounds n k key a b)) /\
    word64_ok (snd (crypt_rounds n k key a b)).
Proof.
  induction n as [|n IH]; intros k a b Ha Hb; [split; assumption|].
  cbn [crypt_rounds]. apply IH.
  - apply lxor_range; [lia | exact Ha | apply f_word].
  - apply lxor_range; [lia | exact Hb | apply f_word].
Qed.

Lemma gostcrypt_word (w : Z * Z) :
  word64_ok (fst w) -> word64_ok (snd w) ->
  word64_ok (fst (gostcrypt w key)) /\ word64_ok (snd (gostcrypt w key)).
Proof.
  intros Ha Hb. unfold gostcrypt.
  destruct (crypt_rounds_word 32 0 (fst w) (snd w) Ha Hb) as [H1 H2].
  destruct (crypt_rounds 32 0 key (fst w) (snd w)) as [a b].
  cbn [fst snd] in *. split; assumption.
Qed.

Lemma xor_bytes_cancel (a b : list Z) :
  length a = length b -> xor_bytes (xor_bytes a b) b = a.
Proof.
  revert b. induction a as [|x a IH]; intros b Hlen.
  - destruct b; [reflexivity | discriminate].
  - destruct b as [|y b]; [discriminate|].
    cbn. rewrite lxor_cancel_r. f_equal. apply IH. cbn in Hlen. lia.
Qed.

Lemma block_halves (blk : list Z) :
  length blk = 16%nat ->
  blk = take 8 blk ++ drop 8 blk ++ [] /\
  length (take 8 blk) = 8%nat /\ length (drop 8 blk) = 8%nat.
Proof.
  intros H. rewrite app_nil_r, take_drop, length_take, length_drop.
  split; [reflexivity | lia].
Qed.

Lemma be_bytes_to_words_word (blk : list Z) :
  bytes_ok blk -> length blk = 16%nat ->
  word64_ok (fst (be_bytes_to_words blk)) /\ word64_ok (snd (be_bytes_to_words blk)).
Proof.
  intros Hb Hl. destruct (block_halves blk Hl) as (E & H1 & H2).
  rewrite E, be_bytes_to_words_join
    by (apply Forall_take || apply Forall_drop || assumption; exact Hb).
  cbn [fst snd]. split; apply join_bytes_word;
    try assumption; [apply Forall_take | apply Forall_drop]; exact Hb.
Qed.

Lemma be_words_to_bytes_of_block (blk : list Z) :
  bytes_ok blk -> length blk = 16%nat ->
  be_words_to_bytes (be_bytes_to_words blk) = blk.
Proof.
  intros Hb Hl. destruct (block_halves blk Hl) as (E & H1 & H2).
  rewrite E at 1. rewrite be_words_to_bytes_to_words
    by (apply Forall_take || apply Forall_drop || assumption; exact Hb).
  apply take_drop.
Qed.

Lemma be_bytes_to_words_of_bytes (w : Z * Z) :
  word64_ok (fst w) -> word64_ok (snd w) ->
  be_bytes_to_words (be_words_to_bytes w) = w.
Proof.
  intros Ha Hb. rewrite <- (app_nil_r (be_words_to_bytes w)).
  apply be_bytes_to_words_to_bytes; assumption.
Qed.

(** One block. *)
Lemma cbc_dec_block_enc_block (prev blk : list Z) :
  bytes_ok prev -> bytes_ok blk ->
  length prev = 16%nat -> length blk = 16%nat ->
  cbc_dec_block key prev (cbc_enc_block key prev blk) = blk.
Proof.
  intros Hp Hb Hlp Hlb. unfold cbc_dec_block, cbc_enc_block.
  assert (Hx : bytes_ok (xor_bytes blk prev)) by (apply xor_bytes_bytes; assumption).
  assert (Hxl : length (xor_bytes blk prev) = 16%nat)
    by (rewrite xor_bytes_length; lia).
  destruct (be_bytes_to_words_word _ Hx Hxl) as [W1 W2].
  destruct (gostcrypt_word _ W1 W2) as [G1 G2].
  rewrite be_bytes_to_words_of_bytes by assumption.
  rewrite gostdecrypt_gostcrypt.
  rewrite be_words_to_bytes_of_block by assumption.
  apply xor_bytes_cancel. lia.
Qed.

(** Any number of blocks. *)
Lemma cbc_dec_cbc_enc n : forall prev data,
    bytes_ok prev -> bytes_ok data ->
    length prev = 16%nat -> lenZ data = 16 * Z.of_nat n ->
    cbc_dec n key prev (cbc_enc n key prev data) = data.
Proof.
  induction n as [|n IH]; intros prev data Hp Hd Hlp Hld.
  - destruct data; [reflexivity | cbn in Hld; lia].
  - destruct (split_block data n Hld) as (Ed & Hb & Hd').
    cbn [cbc_enc cbc_dec].
    set (c := cbc_enc_block key prev (take 16 data)).
    assert (Hc : length c = 16%nat) by apply cbc_enc_block_length.
    rewrite take_app_length' by exact Hc.
    rewrite drop_app_length' by exact Hc.
    unfold c at 1. rewrite cbc_dec_block_enc_block;
      [|exact Hp | apply Forall_take; exact Hd | exact Hlp | exact Hb].
    rewrite IH; [apply take_drop | | apply Forall_drop; exact Hd | exact Hc | exact Hd'].
    unfold c, cbc_enc_block. apply be_words_to_bytes_bytes.
Qed.

Lemma cbc_enc_bytes n : forall prev data, bytes_ok (cbc_enc n key prev data).
Proof.
  induction n as [|n IH]; intros prev data; [constructor|].
  cbn [cbc_enc]. apply Forall_app. split; [|apply IH].
  unfold cbc_enc_block. apply be_words_to_bytes_bytes.
Qed.

Lemma sha256_final_bytes ctx : bytes_ok (sha256_final ctx).
Proof.
  assert (Hh : forall w, bytes_ok (hash_bytes w)).
  { intros w. unfold hash_bytes.
    repeat (constructor; [change 0xFF with 255; rewrite land_255;
                          unfold byte_ok; apply Z.mod_pos_bound; lia|]).
    constructor. }
  unfold sha256_final. cbv zeta.
  destruct (56 <? datalen ctx + 1); repeat (apply Forall_app; split; [apply Hh|]); apply Hh.
Qed.

Lemma pkcs7_bytes (p : list Z) : bytes_ok p -> bytes_ok (pkcs7 p).
Proof.
  intros Hp. unfold pkcs7. apply Forall_app. split; [exact Hp|].
  apply Forall_replicate. pose proof (pad_length_range (lenZ p)). unfold byte_ok. lia.
Qed.

Lemma idx_app_ge (a b : list Z) j :
  lenZ a <= j -> idx (a ++ b) j = idx b (j - lenZ a).
Proof.
  intros H. unfold idx. rewrite app_nth2 by lia. f_equal. lia.
Qed.

Lemma idx_replicate n (x : Z) j : 0 <= j < Z.of_nat n -> idx (replicate n x) j = x.
Proof.
  intros H. unfold idx.
  apply nth_lookup_Some. apply lookup_replicate_2. lia.
Qed.

(** The last block of a padded plaintext obeys the padding rule, and
    removing the padding gives the plaintext back. *)
Lemma pkcs7_unpadded (p : list Z) :
  padding_rule (dropZ (lenZ (pkcs7 p) - 16) (pkcs7 p)) /\
  takeZ (lenZ (pkcs7 p) - 16) (pkcs7 p)
  ++ takeZ (16 - pad_value (dropZ (lenZ (pkcs7 p) - 16) (pkcs7 p)))
       (dropZ (lenZ (pkcs7 p) - 16) (pkcs7 p))
  = p.
Proof.
  destruct (pkcs7_length p) as (Hlen & Hmod & _).
  pose proof (pad_length_range (lenZ p)) as Hpad.
  set (pad := pad_length (lenZ p)) in *.
  set (q := lenZ (pkcs7 p) - 16).
  assert (Hq : 0 <= q <= lenZ p).
  { unfold q. split; [|lia].
    pose proof (Z.div_mod (lenZ (pkcs7 p)) 16 ltac:(lia)). lia. }
  set (pads := replicate (Z.to_nat pad) pad).
  assert (Hpl : lenZ pads = pad) by (unfold pads; rewrite length_replicate; lia).
  assert (Hlast : dropZ q (pkcs7 p) = dropZ q p ++ pads).
  { unfold pkcs7, dropZ. fold pad. fold pads. apply drop_app_le. lia. }
  assert (Hfirst : takeZ q (pkcs7 p) = takeZ q p).
  { unfold pkcs7, takeZ. apply take_app_le. lia. }
  assert (Hdl : lenZ (dropZ q p) = 16 - pad).
  { rewrite dropZ_length by lia. unfold q. lia. }
  assert (Hv : pad_value (dropZ q (pkcs7 p)) = pad).
  { unfold pad_value. rewrite Hlast, lenZ_app, Hdl, Hpl.
    rewrite idx_app_ge by lia. rewrite Hdl.
    unfold pads. apply idx_replicate. lia. }
  split.
  - unfold padding_rule. rewrite Hv, Hlast, lenZ_app, Hdl, Hpl. split; [lia|].
    replace (16 - pad + pad - pad) with (lenZ (dropZ q p)) by lia.
    rewrite dropZ_app_length. apply Forall_replicate. reflexivity.
  - rewrite Hv, Hlast, Hfirst.
    rewrite takeZ_app_length' by lia. apply takeZ_dropZ.
Qed.

(** The regions of a container written by the encryption. *)
Lemma container_regions (p iv : list Z) :
  length iv = 16%nat ->
  well_formed (container key iv p) /\
  iv_of (container key iv p) = iv /\
  ciphertext_of (container key iv p) = ciphertext key iv p /\
  trailer_of (container key iv p) = sha256 (ciphertext key iv p).
Proof.
  intros Hiv.
  set (c := ciphertext key iv p). set (h := sha256 c).
  assert (Hc : lenZ c = lenZ (pkcs7 p)).
  { unfold c, ciphertext. rewrite cbc_enc_length. unfold blocks.
    destruct (pkcs7_length p) as (_ & Hm & _).
    pose proof (Z.div_mod (lenZ (pkcs7 p)) 16 ltac:(lia)).
    rewrite Z2Nat.id by (apply Z.div_pos; lia). lia. }
  destruct (pkcs7_length p) as (Hl & Hm & _).
  pose proof (pad_length_range (lenZ p)) as Hpad.
  assert (Hh : lenZ h = 32) by (unfold h, sha256; rewrite sha256_final_length; lia).
  assert (Hfile : lenZ (container key iv p) = 16 + lenZ c + 32).
  { unfold container. fold c. fold h. rewrite !lenZ_app. lia. }
  unfold well_formed, iv_of, ciphertext_of, trailer_of. rewrite Hfile.
  unfold container. fold c. fold h.
  split; [|split; [|split]].
  - split; [lia|]. split; [lia|].
    replace (16 + lenZ c + 32 - 48) with (lenZ c) by lia. rewrite Hc. exact Hm.
  - apply takeZ_app_length'. lia.
  - rewrite dropZ_app_length' by lia.
    apply takeZ_app_length'. lia.
  - rewrite app_assoc. apply dropZ_app_length'. rewrite lenZ_app. lia.
Qed.

Lemma container_bytes (p iv : list Z) :
  bytes_ok iv -> bytes_ok (container key iv p).
Proof.
  intros Hiv. unfold container. apply Forall_app. split; [exact Hiv|].
  apply Forall_app. split; [apply cbc_enc_bytes | apply sha256_final_bytes].
Qed.

Lemma container_decrypted (p iv : list Z) :
  bytes_ok p -> bytes_ok iv -> length iv = 16%nat ->
  decrypted key (container key iv p) = pkcs7 p.
Proof.
  intros Hp Hb Hiv.
  destruct (container_regions p iv Hiv) as (_ & Eiv & Ect & _).
  unfold decrypted. rewrite Eiv, Ect. unfold ciphertext.
  assert (Hn : lenZ (pkcs7 p) = 16 * Z.of_nat (blocks (pkcs7 p))).
  { unfold blocks. destruct (pkcs7_length p) as (_ & Hm & _).
    pose proof (Z.div_mod (lenZ (pkcs7 p)) 16 ltac:(lia)).
    rewrite Z2Nat.id by (apply Z.div_pos; lia). lia. }
  rewrite (blocks_exact (cbc_enc _ key iv (pkcs7 p)) (blocks (pkcs7 p)))
    by (rewrite cbc_enc_length; reflexivity).
  apply cbc_dec_cbc_enc; [exact Hb | apply pkcs7_bytes; exact Hp | exact Hiv | exact Hn].
Qed.

(** Decrypting what the encryption wrote. *)
Lemma container_decrypts (p iv : list Z) :
  bytes_ok p -> bytes_ok iv -> length iv = 16%nat ->
  cbc_decrypt_stream (fopen (container key iv p)) key
  = Some {| dec_err := None; dec_fout := p; dec_auth_ok := 1;
            dec_reads := read_sizes (lenZ (container key iv p) - 48) |}.
Proof.
  intros Hp Hb Hiv.
  destruct (container_regions p iv Hiv) as (Hwf & Eiv & Ect & Etr).
  pose proof (container_decrypted p iv Hp Hb Hiv) as Hd.
  destruct (pkcs7_unpadded p) as [Hrule Hrec].
  assert (Hw : withheld key (container key iv p) = dropZ (lenZ (pkcs7 p) - 16) (pkcs7 p))
    by (unfold withheld; rewrite Hd; reflexivity).
  assert (Hrecov : recovered key (container key iv p) = p).
  { unfold recovered. rewrite Hw. unfold emitted_early. rewrite Hd. exact Hrec. }
  assert (Hflag : digest_flag (container key iv p) = 1).
  { unfold digest_flag. rewrite Ect, Etr.
    rewrite bool_decide_eq_true_2 by reflexivity. reflexivity. }
  destruct (decrypt_outcome key _ Hwf (container_bytes p iv Hb)) as [[_ Hrun] | [Hn _]].
  - rewrite Hrun, Hrecov, Hflag. reflexivity.
  - exfalso. apply Hn. rewrite Hw. exact Hrule.
Qed.

End RoundTrip.

(** ** The program *)

Section Program.
Import Gost KeyHash Sha256 Spec Codec Main.

Lemma cbc_decrypt_stream_total (file key : list Z) :
  exists r, cbc_decrypt_stream (fopen file) key = Some r.
Proof.
  destruct (Z_lt_dec (lenZ file) 48) as [Hs | Hs].
  { eexists. apply cbc_decrypt_stream_too_small. exact Hs. }
  destruct (Z_lt_dec 0 (lenZ file - 48)) as [Hp | Hp].
  - destruct (Z.eq_dec ((lenZ file - 48) mod 16) 0) as [Hm | Hm].
    + eexists. apply cbc_decrypt_stream_well_formed. unfold well_formed. lia.
    + eexists. apply cbc_decrypt_stream_bad_size; [lia|]. unfold well_formed. lia.
  - eexists. apply cbc_decrypt_stream_bad_size; [lia|]. unfold well_formed. lia.
Qed.

(** An encryption run of [main]. *)
Lemma main_encrypt_run (p pw iv : list Z) :
  bytes_ok pw -> length iv = 16%nat ->
  main (run ModeEncrypt p pw iv)
  = Some {| exit_code := 0;
            output_file := Some (container (subkeys_for pw) iv p);
            auth_report := None;
            password_mem := Some (replicate 256 0);
            subkeys_mem := Some (subkeys_for pw) |}.
Proof.
  intros Hpw Hiv. unfold main, run.
  cbn [arg_mode input_file output_opens typed iv_bytes negb].
  rewrite (derive_is_derive_subkeys pw Hpw), bind_Some.
  unfold subkeys_for. destruct (derive_subkeys (c_string pw)) as [key st]. cbn [fst].
  rewrite (cbc_encrypt_stream_spec key p iv Hiv), !bind_Some.
  reflexivity.
Qed.

(** A decryption run of [main], in terms of what the stream function
    returns. *)
Lemma main_decrypt_run (file pw iv : list Z) (r : dec_result) :
  bytes_ok pw ->
  cbc_decrypt_stream (fopen file) (subkeys_for pw) = Some r ->
  main (run ModeDecrypt file pw iv)
  = Some (if err_flag (dec_err r) =? 0
          then {| exit_code := 0; output_file := Some (dec_fout r);
                  auth_report := Some (dec_auth_ok r);
                  password_mem := Some (replicate 256 0);
                  subkeys_mem := Some (subkeys_for pw) |}
          else {| exit_code := 2; output_file := None; auth_report := None;
                  password_mem := Some (replicate 256 0);
                  subkeys_mem := Some (subkeys_for pw) |}).
Proof.
  intros Hpw Hrun. unfold main, run.
  cbn [arg_mode input_file output_opens typed iv_bytes negb].
  rewrite (derive_is_derive_subkeys pw Hpw), bind_Some.
  unfold subkeys_for in *. destruct (derive_subkeys (c_string pw)) as [key st].
  cbn [fst] in *.
  rewrite Hrun, !bind_Some.
  destruct (err_flag (dec_err r) =? 0); reflexivity.
Qed.

(** C1: encrypting a plaintext under a password and decrypting the result
    under the same password succeeds, gives the plaintext back and reports
    the digest as matching, whatever IV the encryption was given. *)
Theorem C1_round_trip (p pw iv iv' : list Z) :
  bytes_ok p -> bytes_ok pw -> bytes_ok iv -> length iv = 16%nat ->
  exists enc_out c dec_out,
    main (run ModeEncrypt p pw iv) = Some enc_out /\
    exit_code enc_out = 0 /\ output_file enc_out = Some c /\
    main (run ModeDecrypt c pw iv') = Some dec_out /\
    exit_code dec_out = 0 /\ output_file dec_out = Some p /\
    auth_report dec_out = Some 1.
Proof.
  intros Hp Hpw Hb Hiv.
  pose proof (container_decrypts (subkeys_for pw) p iv Hp Hb Hiv) as Hdec.
  pose proof (main_decrypt_run _ pw iv' _ Hpw Hdec) as Hmain.
  cbn [dec_err err_flag Z.eqb dec_fout dec_auth_ok] in Hmain.
  eexists. exists (container (subkeys_for pw) iv p). eexists.
  split; [apply main_encrypt_run; assumption|].
  split; [reflexivity|]. split; [reflexivity|].
  split; [exact Hmain|].
  split; [reflexivity|]. split; reflexivity.
Qed.

Lemma sample_password_bytes : bytes_ok Samples.password.
Proof. bytes_by_evaluation. Qed.

Lemma C1_round_trip_witness :
  exists enc_out c dec_out,
    main (run ModeEncrypt [104; 105] Samples.password Samples.iv) = Some enc_out /\
    exit_code enc_out = 0 /\ output_file enc_out = Some c /\
    main (run ModeDecrypt c Samples.password Samples.iv) = Some dec_out /\
    exit_code dec_out = 0 /\ output_file dec_out = Some [104; 105] /\
    auth_report dec_out = Some 1.
Proof.
  apply (C1_round_trip [104; 105] Samples.password Samples.iv Samples.iv).
  - bytes_by_evaluation.
  - exact sample_password_bytes.
  - bytes_by_evaluation.
  - reflexivity.
Defined.

(** The sample key schedule is the one derived from the sample
    password. *)
Lemma sample_subkeys : subkeys_for Samples.password = Samples.subkeys.
Proof.
  unfold subkeys_for. change (c_string Samples.password) with [112; 119].
  rewrite derive_subkeys_scan_eq.
  - vm_compute. reflexivity.
  - bytes_by_evaluation.
Qed.

Lemma sample_tampered_ok :
  well_formed Samples.tampered /\ bytes_ok Samples.tampered /\
  padding_rule (withheld Samples.subkeys Samples.tampered).
Proof.
  assert (Hwf : well_formed Samples.tampered).
  { unfold well_formed. change (lenZ Samples.tampered) with 64.
    split; [lia | split; [lia | reflexivity]]. }
  assert (Hb : bytes_ok Samples.tampered)
    by bytes_by_evaluation.
  split; [exact Hwf|]. split; [exact Hb|].
  destruct (decrypted_facts Samples.subkeys Samples.tampered Hwf Hb) as (_ & Hl & Hbw).
  destruct (pkcs7_unpad_spec _ Hl Hbw) as [[Hp _] | [_ Hno]]; [exact Hp|].
  exfalso. vm_compute in Hno. discriminate Hno.
Qed.

(** The sample container decrypts to "hello" with the flag at 0: the
    trailer does not match, and the run succeeds all the same. *)
Example tampered_run :
  main (run ModeDecrypt Samples.tampered Samples.password Samples.iv)
  = Some {| exit_code := 0;
            output_file := Some [104; 101; 108; 108; 111];
            auth_report := Some 0;
            password_mem := Some (replicate 256 0);
            subkeys_mem := Some Samples.subkeys |}.
Proof.
  destruct sample_tampered_ok as (Hwf & Hb & Hrule).
  destruct (decrypt_outcome Samples.subkeys Samples.tampered Hwf Hb)
    as [[_ Hrun] | [Hn _]]; [|destruct (Hn Hrule)].
  rewrite <- sample_subkeys in Hrun.
  rewrite (main_decrypt_run _ _ Samples.iv _ sample_password_bytes Hrun).
  cbn [dec_err err_flag Z.eqb dec_fout dec_auth_ok].
  rewrite sample_subkeys.
  assert (Hrec : recovered Samples.subkeys Samples.tampered = [104; 101; 108; 108; 111])
    by (vm_compute; reflexivity).
  assert (Hflag : digest_flag Samples.tampered = 0) by (vm_compute; reflexivity).
  rewrite Hrec, Hflag. reflexivity.
Qed.

(** C7: when the format and padding checks pass, the run of the stream
    function ends without error with all the recovered plaintext in the
    sink whether or not the digest over the ciphertext equals the stored
    trailer; the comparison only sets the flag, which is 0 on a mismatch,
    and [main] then returns 0, keeps the output file and reports the
    flag. *)
Theorem C7_mismatch_is_not_fatal (file pw iv : list Z) :
  bytes_ok pw -> well_formed file -> bytes_ok file ->
  padding_rule (withheld (subkeys_for pw) file) ->
  exists r out,
    cbc_decrypt_stream (fopen file) (subkeys_for pw) = Some r /\
    dec_err r = None /\
    dec_fout r = recovered (subkeys_for pw) file /\
    dec_auth_ok r = digest_flag file /\
    (sha256 (ciphertext_of file) <> trailer_of file -> dec_auth_ok r = 0) /\
    (sha256 (ciphertext_of file) = trailer_of file -> dec_auth_ok r = 1) /\
    main (run ModeDecrypt file pw iv) = Some out /\
    exit_code out = 0 /\
    output_file out = Some (recovered (subkeys_for pw) file) /\
    auth_report out = Some (dec_auth_ok r).
Proof.
  intros Hpw Hwf Hb Hrule.
  destruct (decrypt_outcome (subkeys_for pw) file Hwf Hb) as [[_ Hrun] | [Hn _]];
    [|destruct (Hn Hrule)].
  pose proof (main_decrypt_run file pw iv _ Hpw Hrun) as Hmain.
  cbn [dec_err err_flag Z.eqb dec_fout dec_auth_ok] in Hmain.
  eexists. eexists. split; [exact Hrun|].
  cbn [dec_err dec_fout dec_auth_ok].
  split; [reflexivity|]. split; [reflexivity|]. split; [reflexivity|].
  split; [|split].
  - intros Hne. unfold digest_flag. rewrite bool_decide_eq_false_2 by exact Hne.
    reflexivity.
  - intros He. unfold digest_flag. rewrite bool_decide_eq_true_2 by exact He.
    reflexivity.
  - split; [exact Hmain|]. cbn [exit_code output_file auth_report].
    split; [reflexivity|]. split; reflexivity.
Qed.

Lemma C7_mismatch_is_not_fatal_witness :
  exists r out,
    cbc_decrypt_stream (fopen Samples.tampered) (subkeys_for Samples.password) = Some r /\
    dec_err r = None /\
    dec_fout r = recovered (subkeys_for Samples.password) Samples.tampered /\
    dec_auth_ok r = digest_flag Samples.tampered /\
    (sha256 (ciphertext_of Samples.tampered) <> trailer_of Samples.tampered ->
     dec_auth_ok r = 0) /\
    (sha256 (ciphertext_of Samples.tampered) = trailer_of Samples.tampered ->
     dec_auth_ok r = 1) /\
    main (run ModeDecrypt Samples.tampered Samples.password Samples.iv) = Some out /\
    exit_code out = 0 /\
    output_file out = Some (recovered (subkeys_for Samples.password) Samples.tampered) /\
    auth_report out = Some (dec_auth_ok r).
Proof.
  destruct sample_tampered_ok as (Hwf & Hb & Hrule).
  apply (C7_mismatch_is_not_fatal Samples.tampered Samples.password Samples.iv).
  - exact sample_password_bytes.
  - exact Hwf.
  - exact Hb.
  - rewrite sample_subkeys. exact Hrule.
Defined.

(** C8 (amended): when the password prompt returns, or is not reached,
    [main] returns.  On the three paths that return before the password
    prompt neither buffer has been filled.  On every other path on which
    [main] returns, error or not, the password buffer is all zero at that
    return, and the subkeys are not cleared: they still hold the key
    schedule derived from the password.  The statement is about the
    returns of [main]: an exit of the process from inside the prompt,
    which the Windows build has on Ctrl+C, is not one of them. *)
Theorem C8_password_zeroed_subkeys_kept (inv : invocation) :
  bytes_ok (typed inv) -> length (iv_bytes inv) = 16%nat ->
  exists out,
    main inv = Some out /\
    (arg_mode inv = None \/ input_file inv = None \/ output_opens inv = false ->
     exit_code out = 1 /\ password_mem out = None /\ subkeys_mem out = None) /\
    (arg_mode inv <> None -> input_file inv <> None -> output_opens inv = true ->
     password_mem out = Some (replicate 256 0) /\
     subkeys_mem out = Some (subkeys_for (typed inv))).
Proof.
  destruct inv as [m file opens pw iv]. cbn [typed iv_bytes arg_mode input_file output_opens].
  intros Hpw Hiv.
  destruct m as [m|].
  2: { exists early_exit. split; [reflexivity|]. split; [intros _; repeat split|].
       intros H. destruct (H eq_refl). }
  destruct file as [file|].
  2: { exists early_exit. split; [reflexivity|]. split; [intros _; repeat split|].
       intros _ H. destruct (H eq_refl). }
  destruct opens.
  2: { exists early_exit. split; [reflexivity|]. split; [intros _; repeat split|].
       intros _ _ H. discriminate H. }
  change {| arg_mode := Some m; input_file := Some file; output_opens := true;
            typed := pw; iv_bytes := iv |} with (run m file pw iv).
  destruct m.
  - eexists. split; [apply main_encrypt_run; assumption|].
    cbn [exit_code password_mem subkeys_mem]. split.
    + intros [H | [H | H]]; discriminate H.
    + intros _ _ _. split; reflexivity.
  - destruct (cbc_decrypt_stream_total file (subkeys_for pw)) as [r Hr].
    eexists. split; [apply (main_decrypt_run file pw iv r Hpw Hr)|].
    split.
    + intros [H | [H | H]]; discriminate H.
    + intros _ _ _. destruct (err_flag (dec_err r) =? 0); split; reflexivity.
Qed.

Lemma C8_password_zeroed_subkeys_kept_witness :
  exists out,
    main (run ModeEncrypt [] Samples.password Samples.iv) = Some out /\
    (arg_mode (run ModeEncrypt [] Samples.password Samples.iv) = None \/
     input_file (run ModeEncrypt [] Samples.password Samples.iv) = None \/
     output_opens (run ModeEncrypt [] Samples.password Samples.iv) = false ->
     exit_code out = 1 /\ password_mem out = None /\ subkeys_mem out = None) /\
    (arg_mode (run ModeEncrypt [] Samples.password Samples.iv) <> None ->
     input_file (run ModeEncrypt [] Samples.password Samples.iv) <> None ->
     output_opens (run ModeEncrypt [] Samples.password Samples.iv) = true ->
     password_mem out = Some (replicate 256 0) /\
     subkeys_mem out
     = Some (subkeys_for (typed (run ModeEncrypt [] Samples.password Samples.iv)))).
Proof.
  apply (C8_password_zeroed_subkeys_kept (run ModeEncrypt [] Samples.password Samples.iv)).
  - exact sample_password_bytes.
  - reflexivity.
Defined.

(** C8 as stated fails: after encrypting an empty file under the password
    "pw" the subkeys are not zero when [main] returns. *)
Lemma C8_subkeys_counterexample :
  ~ secrets_zeroed_at_exit (run ModeEncrypt [] Samples.password Samples.iv).
Proof.
  intros (out & Hrun & _ & Hk).
  rewrite main_encrypt_run in Hrun by (exact sample_password_bytes || reflexivity).
  injection Hrun as <-. cbn [subkeys_mem] in Hk.
  rewrite sample_subkeys in Hk. injection Hk as Hk.
  vm_compute in Hk. discriminate Hk.
Qed.

End Program.
(** ** More on the key hash *)

Section KeyHashLaws.
Import KeyHash Spec Codec Laws.

Lemma update_app (a b : list Z) st : update (a ++ b) st = update b (update a st).
Proof. unfold update. apply fold_left_app. Qed.

Lemma update_x2_range (l : list Z) : forall st,
    0 <= x2 st < n1 -> 0 <= x2 (update l st) < n1.
Proof.
  induction l as [|b l IH]; intros st Hx; [exact Hx|].
  change (update (b :: l) st) with (update l (update_step st b)).
  apply IH. apply update_step_x2_range. exact Hx.
Qed.

Lemma idx_insert (l : list Z) i j v :
  0 <= i < lenZ l -> 0 <= j ->
  idx (<[Z.to_nat i := v]> l) j = if j =? i then v else idx l j.
Proof.
  intros Hi Hj. unfold idx. rewrite !nth_lookup.
  destruct (Z.eqb_spec j i) as [->|Hne].
  - rewrite list_lookup_insert_eq by lia. reflexivity.
  - rewrite list_lookup_insert_ne by lia. reflexivity.
Qed.

Lemma list_eq_idx (l l' : list Z) :
  length l = length l' ->
  (forall j, 0 <= j < lenZ l -> idx l j = idx l' j) -> l = l'.
Proof.
  intros Hlen H. apply list_eq. intros i.
  destruct (decide (i < length l)%nat) as [Hi|Hi].
  - specialize (H (Z.of_nat i) ltac:(lia)). unfold idx in H.
    rewrite Nat2Z.id in H. rewrite !nth_lookup in H.
    destruct (lookup_lt_is_Some_2 l i Hi) as [x Hx].
    destruct (lookup_lt_is_Some_2 l' i ltac:(lia)) as [y Hy].
    rewrite Hx, Hy in *. cbn in H. congruence.
  - rewrite !lookup_ge_None_2 by lia. reflexivity.
Qed.

Lemma same_window_refl st : same_window st st.
Proof. unfold same_window. repeat split; reflexivity. Qed.

Lemma state_eq (st st' : state) :
  x1 st = x1 st' -> x2 st = x2 st' -> h2 st = h2 st' -> h1 st = h1 st' -> st = st'.
Proof. destruct st, st'. cbn. intros -> -> -> ->. reflexivity. Qed.

(** Once the window is full the two states are the same. *)
Lemma same_window_full st st' :
  same_window st st' -> x2 st = n1 -> lenZ (h1 st) = n1 * 3 -> st = st'.
Proof.
  intros (H1 & H2 & H3 & Hl & Hj) Hx Hlen.
  apply state_eq; try assumption.
  apply list_eq_idx; [exact Hl|].
  intros j Hjr. apply Hj. rewrite Hx. unfold n1 in *. lia.
Qed.

Lemma same_window_absorb_byte b st st' :
  same_window st st' -> 0 <= x2 st < n1 -> lenZ (h1 st) = n1 * 3 ->
  same_window (absorb_byte b st) (absorb_byte b st').
Proof.
  intros (H1 & H2 & H3 & Hl & Hj) Hx Hlen.
  assert (Hlen' : lenZ (h1 st') = n1 * 3) by (rewrite <- Hl; exact Hlen).
  unfold same_window, absorb_byte. cbn [x1 x2 h1 h2].
  rewrite <- H1, <- H2, <- H3.
  split; [reflexivity|]. split; [reflexivity|]. split; [reflexivity|].
  split; [rewrite !length_insert; exact Hl|].
  intros j Hjr.
  assert (Hj0 : 0 <= j) by (unfold n1 in *; lia).
  rewrite !idx_insert
    by (rewrite ?length_insert; unfold n1 in *; lia).
  destruct (Z.eqb_spec j (x2 st + n1 * 2)) as [E2|N2].
  - destruct (Z.eqb_spec (x2 st) (x2 st + n1)) as [E|_]; [unfold n1 in E; lia|].
    rewrite (Hj (x2 st)) by (unfold n1 in *; lia). reflexivity.
  - destruct (Z.eqb_spec j (x2 st + n1)) as [E1|N1]; [reflexivity|].
    apply Hj. unfold n1 in *. lia.
Qed.

Lemma absorb_byte_h1_length b st :
  length (h1 (absorb_byte b st)) = length (h1 st).
Proof. unfold absorb_byte. cbn [h1]. rewrite !length_insert. reflexivity. Qed.

(** A step that does not fill the window keeps the agreement; the step
    that fills it makes the two states equal. *)
Lemma same_window_update_step b st st' :
  same_window st st' -> 0 <= x2 st < n1 -> lenZ (h1 st) = n1 * 3 ->
  (x2 st + 1 < n1 ->
   same_window (update_step st b) (update_step st' b) /\
   x2 (update_step st b) = x2 st + 1 /\
   lenZ (h1 (update_step st b)) = n1 * 3)
  /\ (x2 st + 1 = n1 -> update_step st b = update_step st' b).
Proof.
  intros Hs Hx Hlen.
  pose proof (same_window_absorb_byte b st st' Hs Hx Hlen) as Ha.
  pose proof (absorb_byte_x2 b st) as Hx2.
  pose proof (absorb_byte_x2 b st') as Hx2'.
  pose proof (absorb_byte_h1_length b st) as Hl1.
  assert (Hxx : x2 st = x2 st') by (destruct Hs as (_ & H & _); exact H).
  unfold update_step. split.
  - intros Hlt.
    destruct (Z.eqb_spec (x2 (absorb_byte b st)) n1) as [E|_]; [lia|].
    destruct (Z.eqb_spec (x2 (absorb_byte b st')) n1) as [E|_]; [lia|].
    split; [exact Ha|]. split; [exact Hx2|]. rewrite Hl1. exact Hlen.
  - intros Heq.
    assert (Hfull : x2 (absorb_byte b st) = n1) by lia.
    assert (Hlen1 : lenZ (h1 (absorb_byte b st)) = n1 * 3) by (rewrite Hl1; exact Hlen).
    pose proof (same_window_full _ _ Ha Hfull Hlen1) as Hsame.
    rewrite <- Hsame. reflexivity.
Qed.

Lemma same_window_update (l : list Z) : forall st st',
    same_window st st' -> 0 <= x2 st < n1 -> lenZ (h1 st) = n1 * 3 ->
    (x2 st + lenZ l < n1 ->
     same_window (update l st) (update l st') /\
     x2 (update l st) = x2 st + lenZ l /\
     lenZ (h1 (update l st)) = n1 * 3)
    /\ (n1 <= x2 st + lenZ l -> update l st = update l st').
Proof.
  induction l as [|b l IH]; intros st st' Hs Hx Hlen.
  - cbn [length update fold_left]. split.
    + intros _. split; [exact Hs|]. split; [lia | exact Hlen].
    + intros Hge. change (Z.of_nat 0) with 0 in Hge. lia.
  - change (update (b :: l) st) with (update l (update_step st b)).
    change (update (b :: l) st') with (update l (update_step st' b)).
    destruct (same_window_update_step b st st' Hs Hx Hlen) as [Hlt Heq].
    rewrite length_cons, Nat2Z.inj_succ.
    destruct (Z.eq_dec (x2 st + 1) n1) as [E|N].
    + rewrite <- (Heq E). split; [intros H; lia | intros _; reflexivity].
    + destruct (Hlt ltac:(lia)) as (Hs1 & Hx1 & Hl1).
      destruct (IH _ _ Hs1 ltac:(lia) Hl1) as [IH1 IH2].
      split.
      * intros H. destruct (IH1 ltac:(lia)) as (A & B & C).
        split; [exact A|]. split; [lia | exact C].
      * intros H. apply IH2. lia.
Qed.

Lemma init_same_window st :
  lenZ (h1 st) = n1 * 3 ->
  same_window (init_gost_keyhash st) (init_gost_keyhash startup).
Proof.
  intros Hlen. unfold same_window, init_gost_keyhash, startup. cbn [x1 x2 h1 h2].
  split; [reflexivity|]. split; [reflexivity|]. split; [reflexivity|].
  split.
  { rewrite !length_app, !length_drop, !length_replicate. unfold n1 in *. lia. }
  intros j Hj.
  assert (Hj' : 0 <= j < n1) by (unfold n1 in *; lia).
  rewrite !idx_app_l by (rewrite length_replicate; unfold n1 in *; lia).
  reflexivity.
Qed.

Lemma init_state_ok_from st :
  lenZ (h1 st) = n1 * 3 -> bytes_ok (h1 st) -> hash_state_ok (init_gost_keyhash st).
Proof.
  intros Hlen Hb. unfold hash_state_ok, init_gost_keyhash. cbn [x1 x2 h1 h2].
  split; [unfold n1; lia|].
  split; [rewrite length_replicate; unfold n1; lia|].
  split.
  { rewrite length_app, length_drop, !length_replicate. unfold n1 in *. lia. }
  split; [apply Forall_replicate; unfold byte_ok; lia|].
  apply Forall_app. split.
  - apply Forall_replicate. unfold byte_ok. lia.
  - apply Forall_drop. exact Hb.
Qed.

(** Key derivation from any earlier state of the globals, in terms of
    [update] and [finalize]. *)
Lemma derive_from (password : list Z) st :
  bytes_ok password -> lenZ (h1 st) = n1 * 3 -> bytes_ok (h1 st) ->
  derive_gost_subkeys_from_password password st
  = Some (create_keys (fst (finalize (update (c_string password) (init_gost_keyhash st)))),
          snd (finalize (update (c_string password) (init_gost_keyhash st)))).
Proof.
  intros Hpw Hlen Hb.
  pose proof (c_string_bytes password Hpw) as Hcs.
  pose proof (init_state_ok_from st Hlen Hb) as Hok0.
  destruct (update_ok (c_string password) _ Hcs Hok0) as [Hok1 _].
  pose proof Hok0 as (Hr0 & _).
  unfold derive_gost_subkeys_from_password.
  rewrite (hashing_buffer _ _ Hr0), bind_Some.
  rewrite (end_gost_keyhash_finalize _ Hok1), bind_Some.
  destruct (finalize (update (c_string password) (init_gost_keyhash st)))
    as [digest st3].
  reflexivity.
Qed.

(** [finalize] gives the same on two states that agree on the window. *)
Lemma finalize_same_window st st' :
  same_window st st' -> 0 <= x2 st < n1 -> lenZ (h1 st) = n1 * 3 ->
  finalize st = finalize st'.
Proof.
  intros Hs Hx Hlen.
  assert (Hpad : padding st' = padding st).
  { unfold padding. destruct Hs as (_ & H & _). rewrite H. reflexivity. }
  assert (Hfill : update (padding st) st = update (padding st) st').
  { apply (same_window_update (padding st) st st' Hs Hx Hlen).
    unfold padding. rewrite length_replicate. lia. }
  unfold finalize. rewrite Hpad, <- Hfill. reflexivity.
Qed.

Lemma flat_map_be_store_slices n : forall l : list Z,
    bytes_ok l -> lenZ l = 8 * Z.of_nat n ->
    flat_map (be_store 8) (map join_bytes (slices n 8 l)) = l.
Proof.
  induction n as [|n IH]; intros l Hb Hlen.
  - destruct l; [reflexivity | cbn in Hlen; lia].
  - cbn [slices map flat_map].
    assert (H8 : length (take 8 l) = 8%nat) by (rewrite length_take; lia).
    assert (Hb8 : bytes_ok (take 8 l)) by (apply Forall_take; exact Hb).
    pose proof (be_store_join (take 8 l) 0 Hb8) as Hs. rewrite H8 in Hs.
    unfold join_bytes at 1. rewrite Hs.
    rewrite IH.
    + apply take_drop.
    + apply Forall_drop. exact Hb.
    + rewrite length_drop. lia.
Qed.

Lemma slices_words n : forall l : list Z,
    bytes_ok l -> lenZ l = 8 * Z.of_nat n ->
    length (map join_bytes (slices n 8 l)) = n /\
    Forall word64_ok (map join_bytes (slices n 8 l)).
Proof.
  induction n as [|n IH]; intros l Hb Hlen.
  - split; [reflexivity | constructor].
  - cbn [slices map length].
    destruct (IH (drop 8 l)) as [IH1 IH2].
    { apply Forall_drop. exact Hb. }
    { rewrite length_drop. lia. }
    split; [rewrite IH1; reflexivity|].
    constructor; [|exact IH2].
    apply join_bytes_word; [apply Forall_take; exact Hb | rewrite length_take; lia].
Qed.

End KeyHashLaws.

(** X1: [hashing] on a buffer of bytes returns, and keeps the globals in
    shape: the window index stays below 512 and advances by the number of
    bytes modulo 512, the arrays keep their sizes and hold bytes. *)
Theorem X1_hashing_keeps_state (l : list Z) (st : KeyHash.state) :
  Spec.hash_state_ok st -> bytes_ok l ->
  exists st',
    KeyHash.hashing (KeyHash.Buffer l) (length l) st = Some st' /\
    Spec.hash_state_ok st' /\
    KeyHash.x2 st' = (KeyHash.x2 st + Z.of_nat (length l)) mod KeyHash.n1.
Proof.
  intros Hok Hb. exists (Spec.update l st).
  pose proof Hok as (Hr & _).
  split; [apply hashing_buffer; exact Hr|].
  apply update_ok; assumption.
Qed.

Lemma X1_hashing_keeps_state_witness :
  exists st',
    KeyHash.hashing (KeyHash.Buffer [1; 2; 3]) (length [1; 2; 3])
      (KeyHash.init_gost_keyhash KeyHash.startup) = Some st' /\
    Spec.hash_state_ok st' /\
    KeyHash.x2 st'
    = (KeyHash.x2 (KeyHash.init_gost_keyhash KeyHash.startup)
       + Z.of_nat (length [1; 2; 3])) mod KeyHash.n1.
Proof.
  apply (X1_hashing_keeps_state [1; 2; 3] (KeyHash.init_gost_keyhash KeyHash.startup)).
  - exact init_state_ok.
  - bytes_by_evaluation.
Defined.

(** X2: hashing a buffer in two calls, first a prefix and then the rest,
    leaves the globals as one call on the whole buffer does. *)
Theorem X2_hashing_in_pieces (a b : list Z) (st : KeyHash.state) :
  0 <= KeyHash.x2 st < KeyHash.n1 ->
  KeyHash.hashing (KeyHash.Buffer (a ++ b)) (length (a ++ b)) st
  = KeyHash.hashing (KeyHash.Buffer a) (length a) st
      ≫= KeyHash.hashing (KeyHash.Buffer b) (length b).
Proof.
  intros Hx.
  rewrite (hashing_buffer (a ++ b) st Hx).
  rewrite (hashing_buffer a st Hx), bind_Some.
  rewrite (hashing_buffer b _ (update_x2_range a st Hx)).
  rewrite update_app. reflexivity.
Qed.

Lemma X2_hashing_in_pieces_witness :
  KeyHash.hashing (KeyHash.Buffer ([1; 2] ++ [3])) (length ([1; 2] ++ [3])) KeyHash.startup
  = KeyHash.hashing (KeyHash.Buffer [1; 2]) (length [1; 2]) KeyHash.startup
      ≫= KeyHash.hashing (KeyHash.Buffer [3]) (length [3]).
Proof.
  apply (X2_hashing_in_pieces [1; 2] [3] KeyHash.startup).
  cbn. unfold KeyHash.n1. lia.
Defined.

(** X3: key derivation does not depend on what the globals held before:
    [init_gost_keyhash] leaves two thirds of [h1] as they are, and still
    the subkeys and the state left behind are those of a first run. *)
Theorem X3_derivation_ignores_earlier_state (password : list Z) (st : KeyHash.state) :
  bytes_ok password ->
  Z.of_nat (length (KeyHash.h1 st)) = KeyHash.n1 * 3 -> bytes_ok (KeyHash.h1 st) ->
  KeyHash.derive_gost_subkeys_from_password password st
  = KeyHash.derive_gost_subkeys_from_password password KeyHash.startup.
Proof.
  intros Hpw Hlen Hb.
  rewrite (derive_from password st Hpw Hlen Hb).
  assert (Hlen0 : Z.of_nat (length (KeyHash.h1 KeyHash.startup)) = KeyHash.n1 * 3)
    by (unfold KeyHash.startup; cbn [KeyHash.h1]; rewrite length_replicate;
        unfold KeyHash.n1; lia).
  assert (Hb0 : bytes_ok (KeyHash.h1 KeyHash.startup))
    by (apply Forall_replicate; unfold byte_ok; lia).
  rewrite (derive_from password KeyHash.startup Hpw Hlen0 Hb0).
  pose proof (init_same_window st Hlen) as Hs.
  pose proof (init_state_ok_from st Hlen Hb) as (Hr0 & _ & Hl0 & _).
  assert (Hfin : Spec.finalize (Spec.update (KeyHash.c_string password)
                                  (KeyHash.init_gost_keyhash st))
                 = Spec.finalize (Spec.update (KeyHash.c_string password)
                                    (KeyHash.init_gost_keyhash KeyHash.startup))).
  { destruct (same_window_update (KeyHash.c_string password) _ _ Hs Hr0 Hl0)
      as [Hshort Hlong].
    destruct (Z_lt_le_dec
                (KeyHash.x2 (KeyHash.init_gost_keyhash st)
                 + Z.of_nat (length (KeyHash.c_string password))) KeyHash.n1)
      as [Hlt|Hge].
    - destruct (Hshort Hlt) as (Hs1 & Hx1 & Hl1).
      apply finalize_same_window; [exact Hs1 | | exact Hl1].
      rewrite Hx1. lia.
    - rewrite (Hlong Hge). reflexivity. }
  rewrite Hfin. reflexivity.
Qed.

Lemma X3_derivation_ignores_earlier_state_witness :
  KeyHash.derive_gost_subkeys_from_password [112; 119; 0]
    {| KeyHash.x1 := 7; KeyHash.x2 := 300;
       KeyHash.h2 := replicate 512 1; KeyHash.h1 := replicate 1536 255 |}
  = KeyHash.derive_gost_subkeys_from_password [112; 119; 0] KeyHash.startup.
Proof.
  apply (X3_derivation_ignores_earlier_state [112; 119; 0]
           {| KeyHash.x1 := 7; KeyHash.x2 := 300;
              KeyHash.h2 := replicate 512 1; KeyHash.h1 := replicate 1536 255 |}).
  - bytes_by_evaluation.
  - reflexivity.
  - bytes_by_evaluation.
Defined.

(** X4: [create_keys] turns 512 bytes into 64 words below 2^64, and the
    big-endian bytes of those words are the 512 bytes again: no bit of the
    digest is lost or used twice. *)
Theorem X4_create_keys_round_trip (h4 : list Z) :
  bytes_ok h4 -> Z.of_nat (length h4) = KeyHash.n1 ->
  length (KeyHash.create_keys h4) = 64%nat
  /\ Forall word64_ok (KeyHash.create_keys h4)
  /\ flat_map (Codec.be_store 8) (KeyHash.create_keys h4) = h4.
Proof.
  intros Hb Hlen.
  rewrite (create_keys_slices h4 Hb Hlen).
  assert (Hlen' : Z.of_nat (length h4) = 8 * Z.of_nat 64)
    by (rewrite Hlen; reflexivity).
  destruct (slices_words 64 h4 Hb Hlen') as [H1 H2].
  split; [exact H1|]. split; [exact H2|].
  apply flat_map_be_store_slices; assumption.
Qed.

Lemma X4_create_keys_round_trip_witness :
  length (KeyHash.create_keys (replicate 512 171)) = 64%nat
  /\ Forall word64_ok (KeyHash.create_keys (replicate 512 171))
  /\ flat_map (Codec.be_store 8) (KeyHash.create_keys (replicate 512 171))
     = replicate 512 171.
Proof.
  apply (X4_create_keys_round_trip (replicate 512 171)).
  - bytes_by_evaluation.
  - reflexivity.
Defined.

(** X5: for every password buffer the derivation returns, with 64 subkeys
    that are 64-bit words, and it leaves the window of the key hash empty
    and the globals in shape. *)
Theorem X5_derivation_result (password : list Z) (st : KeyHash.state) :
  bytes_ok password ->
  Z.of_nat (length (KeyHash.h1 st)) = KeyHash.n1 * 3 -> bytes_ok (KeyHash.h1 st) ->
  exists subkeys st',
    KeyHash.derive_gost_subkeys_from_password password st = Some (subkeys, st') /\
    length subkeys = 64%nat /\ Forall word64_ok subkeys /\
    Spec.hash_state_ok st' /\ KeyHash.x2 st' = 0.
Proof.
  intros Hpw Hlen Hb.
  rewrite (derive_from password st Hpw Hlen Hb).
  pose proof (c_string_bytes password Hpw) as Hcs.
  pose proof (init_state_ok_from st Hlen Hb) as Hok0.
  destruct (update_ok (KeyHash.c_string password) _ Hcs Hok0) as [Hok1 _].
  remember (Spec.update (KeyHash.c_string password) (KeyHash.init_gost_keyhash st))
    as S eqn:ES. clear ES.
  destruct (finalize_ok S Hok1) as [Hfb Hfl].
  destruct (update_ok (Spec.padding S) S (padding_bytes S) Hok1) as [Hok2 Hx2].
  pose proof Hok2 as (_ & _ & _ & Hb2 & _).
  destruct (update_ok _ _ Hb2 Hok2) as [Hok3 Hx3].
  assert (Hx2' : KeyHash.x2 (Spec.update (Spec.padding S) S) = 0).
  { rewrite Hx2. unfold Spec.padding. rewrite length_replicate.
    pose proof Hok1 as (Hr & _).
    rewrite Z2Nat.id by lia.
    replace (KeyHash.x2 S + (KeyHash.n1 - KeyHash.x2 S)) with KeyHash.n1 by lia.
    apply Z.mod_same. unfold KeyHash.n1. lia. }
  assert (Hx3' : KeyHash.x2 (snd (Spec.finalize S)) = 0).
  { unfold Spec.finalize. cbn [snd]. rewrite Hx3, Hx2'.
    pose proof Hok2 as (_ & Hl2 & _). rewrite Hl2.
    apply Z.mod_same. unfold KeyHash.n1. lia. }
  eexists _, _. split; [reflexivity|].
  assert (Hlen' : Z.of_nat (length (fst (Spec.finalize S))) = 8 * Z.of_nat 64)
    by (rewrite Hfl; reflexivity).
  rewrite (create_keys_slices _ Hfb Hfl).
  destruct (slices_words 64 _ Hfb Hlen') as [H1 H2].
  split; [exact H1|]. split; [exact H2|].
  split; [exact Hok3 | exact Hx3'].
Qed.

Lemma X5_derivation_result_witness :
  exists subkeys st',
    KeyHash.derive_gost_subkeys_from_password [112; 119; 0] KeyHash.startup
    = Some (subkeys, st') /\
    length subkeys = 64%nat /\ Forall word64_ok subkeys /\
    Spec.hash_state_ok st' /\ KeyHash.x2 st' = 0.
Proof.
  apply (X5_derivation_result [112; 119; 0] KeyHash.startup).
  - bytes_by_evaluation.
  - reflexivity.
  - bytes_by_evaluation.
Defined.

(** X6: [end_gost_keyhash] calls [hashing(h2, sizeof(h2))], which reads
    its input from the very array it updates.  With the window empty, as
    it is at that call, every byte is read before it is overwritten, and
    the call leaves the globals as hashing a copy of [h2] taken beforehand
    would. *)
Theorem X6_hashing_its_own_checksum (st : KeyHash.state) :
  KeyHash.x2 st = 0 -> Z.of_nat (length (KeyHash.h2 st)) = KeyHash.n1 ->
  KeyHash.hashing KeyHash.GlobalH2 (Z.to_nat KeyHash.n1) st
  = KeyHash.hashing (KeyHash.Buffer (KeyHash.h2 st)) (length (KeyHash.h2 st)) st.
Proof.
  intros Hx Hl.
  rewrite (hashing_global_h2 st Hx Hl).
  rewrite hashing_buffer by (rewrite Hx; unfold KeyHash.n1; lia).
  reflexivity.
Qed.

Lemma X6_hashing_its_own_checksum_witness :
  KeyHash.hashing KeyHash.GlobalH2 (Z.to_nat KeyHash.n1)
    {| KeyHash.x1 := 5; KeyHash.x2 := 0;
       KeyHash.h2 := replicate 512 9; KeyHash.h1 := replicate 1536 0 |}
  = KeyHash.hashing (KeyHash.Buffer (replicate 512 9)) (length (replicate 512 9))
      {| KeyHash.x1 := 5; KeyHash.x2 := 0;
         KeyHash.h2 := replicate 512 9; KeyHash.h1 := replicate 1536 0 |}.
Proof.
  apply (X6_hashing_its_own_checksum
           {| KeyHash.x1 := 5; KeyHash.x2 := 0;
              KeyHash.h2 := replicate 512 9; KeyHash.h1 := replicate 1536 0 |}).
  - reflexivity.
  - reflexivity.
Defined.

(** ** More on the block cipher *)

Section CipherInverse.
Import Gost Spec Codec.

Lemma crypt_rounds_app n m k key a b :
  crypt_rounds (n + m) k key a b
  = (let '(a1, b1) := crypt_rounds n k key a b in
     crypt_rounds m (k + 2 * Z.of_nat n) key a1 b1).
Proof.
  revert k a b. induction n as [|n IH]; intros k a b.
  - cbn [Nat.add crypt_rounds]. f_equal. lia.
  - cbn [Nat.add crypt_rounds]. rewrite IH.
    destruct (crypt_rounds n (k + 2) key _ _) as [a1 b1].
    f_equal. lia.
Qed.

(** The upward loop started at the last key index the downward loop
    used, on the swapped halves, undoes the downward loop. *)
Lemma crypt_rounds_decrypt_rounds n k key a b :
  (let '(a1, b1) := decrypt_rounds n k key a b in
   crypt_rounds n (k - 2 * Z.of_nat n + 1) key b1 a1) = (b, a).
Proof.
  revert k a b. induction n as [|n IH]; intros k a b; [reflexivity|].
  cbn [decrypt_rounds].
  set (b' := Z.lxor b (f (add64 a (idx key k)))).
  set (a' := Z.lxor a (f (add64 b' (idx key (k - 1))))).
  specialize (IH (k - 2) a' b').
  destruct (decrypt_rounds n (k - 2) key a' b') as [a1 b1].
  replace (S n) with (n + 1)%nat by lia.
  rewrite crypt_rounds_app.
  replace (k - 2 * Z.of_nat (n + 1) + 1) with (k - 2 - 2 * Z.of_nat n + 1) by lia.
  rewrite IH. cbn [crypt_rounds].
  replace (k - 2 - 2 * Z.of_nat n + 1 + 2 * Z.of_nat n) with (k - 1) by lia.
  replace (k - 1 + 1) with k by lia.
  assert (Ha : Z.lxor a' (f (add64 b' (idx key (k - 1)))) = a)
    by (unfold a'; apply lxor_cancel_r).
  assert (Hb : Z.lxor b' (f (add64 a (idx key k))) = b)
    by (unfold b'; apply lxor_cancel_r).
  rewrite Ha, Hb. reflexivity.
Qed.

Lemma gostcrypt_gostdecrypt (w : Z * Z) (key : list Z) :
  gostcrypt (gostdecrypt w key) key = w.
Proof.
  destruct w as [a b]. unfold gostcrypt, gostdecrypt. cbn [fst snd].
  pose proof (crypt_rounds_decrypt_rounds 32 63 key a b) as H.
  destruct (decrypt_rounds 32 63 key a b) as [a1 b1]. cbn [fst snd].
  change (63 - 2 * Z.of_nat 32 + 1) with 0 in H. rewrite H. reflexivity.
Qed.

Lemma decrypt_rounds_word key n : forall k a b,
    word64_ok a -> word64_ok b ->
    word64_ok (fst (decrypt_rounds n k key a b)) /\
    word64_ok (snd (decrypt_rounds n k key a b)).
Proof.
  induction n as [|n IH]; intros k a b Ha Hb; [split; assumption|].
  cbn [decrypt_rounds]. apply IH.
  - apply lxor_range; [lia | exact Ha | apply f_word].
  - apply lxor_range; [lia | exact Hb | apply f_word].
Qed.

Lemma gostdecrypt_word key (w : Z * Z) :
  word64_ok (fst w) -> word64_ok (snd w) ->
  word64_ok (fst (gostdecrypt w key)) /\ word64_ok (snd (gostdecrypt w key)).
Proof.
  intros Ha Hb. unfold gostdecrypt.
  pose proof (decrypt_rounds_word key 32 63 (fst w) (snd w) Ha Hb) as [H1 H2].
  destruct (decrypt_rounds 32 63 key (fst w) (snd w)) as [a1 b1].
  cbn [fst snd] in *. split; assumption.
Qed.

Lemma crypt_rounds_key key key' n : forall k a b,
    (forall i, k <= i < k + 2 * Z.of_nat n -> idx key i = idx key' i) ->
    crypt_rounds n k key a b = crypt_rounds n k key' a b.
Proof.
  induction n as [|n IH]; intros k a b H; [reflexivity|].
  cbn [crypt_rounds].
  rewrite (H k) by lia. rewrite (H (k + 1)) by lia.
  apply IH. intros i Hi. apply H. lia.
Qed.

Lemma decrypt_rounds_key key key' n : forall k a b,
    (forall i, k - 2 * Z.of_nat n < i <= k -> idx key i = idx key' i) ->
    decrypt_rounds n k key a b = decrypt_rounds n k key' a b.
Proof.
  induction n as [|n IH]; intros k a b H; [reflexivity|].
  cbn [decrypt_rounds].
  rewrite (H k) by lia. rewrite (H (k - 1)) by lia.
  apply IH. intros i Hi. apply H. lia.
Qed.

End CipherInverse.

(** X7: [gostcrypt] undoes [gostdecrypt] under the same subkeys: with the
    converse, each of the two is a bijection on pairs of words, whatever
    the key array holds. *)
Theorem X7_gostcrypt_inverts_gostdecrypt (a b : Z) (key : list Z) :
  Gost.gostcrypt (Gost.gostdecrypt (a, b) key) key = (a, b).
Proof. apply gostcrypt_gostdecrypt. Qed.

(** X8: [gostcrypt] and [gostdecrypt] read [key[0]] to [key[63]] and no
    other entry: two key arrays that agree there give the same result. *)
Theorem X8_cipher_reads_64_subkeys (a b : Z) (key key' : list Z) :
  (forall i, 0 <= i < 64 -> idx key i = idx key' i) ->
  Gost.gostcrypt (a, b) key = Gost.gostcrypt (a, b) key'
  /\ Gost.gostdecrypt (a, b) key = Gost.gostdecrypt (a, b) key'.
Proof.
  intros H. unfold Gost.gostcrypt, Gost.gostdecrypt. cbn [fst snd].
  rewrite (crypt_rounds_key key key' 32 0 a b) by (intros i Hi; apply H; lia).
  rewrite (decrypt_rounds_key key key' 32 63 a b) by (intros i Hi; apply H; lia).
  split; reflexivity.
Qed.

Lemma X8_cipher_reads_64_subkeys_witness :
  Gost.gostcrypt (1, 2) (replicate 64 5) = Gost.gostcrypt (1, 2) (replicate 64 5 ++ [9])
  /\ Gost.gostdecrypt (1, 2) (replicate 64 5)
     = Gost.gostdecrypt (1, 2) (replicate 64 5 ++ [9]).
Proof.
  apply (X8_cipher_reads_64_subkeys 1 2 (replicate 64 5) (replicate 64 5 ++ [9])).
  intros i Hi. symmetry. apply idx_app_l. rewrite length_replicate. lia.
Defined.

(** X9: on 16-byte blocks, through the big-endian conversions of the stream
    functions, enciphering and deciphering give 16-byte blocks again and
    each undoes the other. *)
Theorem X9_block_bytes_round_trip (blk key : list Z) :
  bytes_ok blk -> length blk = 16%nat ->
  let E b := Codec.be_words_to_bytes (Gost.gostcrypt (Codec.be_bytes_to_words b) key) in
  let D b := Codec.be_words_to_bytes (Gost.gostdecrypt (Codec.be_bytes_to_words b) key) in
  length (E blk) = 16%nat /\ bytes_ok (E blk) /\
  length (D blk) = 16%nat /\ bytes_ok (D blk) /\
  D (E blk) = blk /\ E (D blk) = blk.
Proof.
  intros Hb Hl E D. unfold E, D.
  destruct (be_bytes_to_words_word blk Hb Hl) as [W1 W2].
  destruct (gostcrypt_word key _ W1 W2) as [E1 E2].
  destruct (gostdecrypt_word key _ W1 W2) as [D1 D2].
  split; [apply be_words_to_bytes_length|].
  split; [apply be_words_to_bytes_bytes|].
  split; [apply be_words_to_bytes_length|].
  split; [apply be_words_to_bytes_bytes|].
  split.
  - rewrite (be_bytes_to_words_of_bytes _ E1 E2).
    rewrite gostdecrypt_gostcrypt. apply be_words_to_bytes_of_block; assumption.
  - rewrite (be_bytes_to_words_of_bytes _ D1 D2).
    rewrite gostcrypt_gostdecrypt. apply be_words_to_bytes_of_block; assumption.
Qed.

Lemma X9_block_bytes_round_trip_witness :
  let blk := [1; 2; 3; 4; 5; 6; 7; 8; 9; 10; 11; 12; 13; 14; 15; 16] in
  let E b := Codec.be_words_to_bytes (Gost.gostcrypt (Codec.be_bytes_to_words b) []) in
  let D b := Codec.be_words_to_bytes (Gost.gostdecrypt (Codec.be_bytes_to_words b) []) in
  length (E blk) = 16%nat /\ bytes_ok (E blk) /\
  length (D blk) = 16%nat /\ bytes_ok (D blk) /\
  D (E blk) = blk /\ E (D blk) = blk.
Proof.
  apply (X9_block_bytes_round_trip [1; 2; 3; 4; 5; 6; 7; 8; 9; 10; 11; 12; 13; 14; 15; 16] []).
  - bytes_by_evaluation.
  - reflexivity.
Defined.

Section RoundFunction.
Import Gost Spec Codec.

Lemma K_tables_NoDup :
  Forall (fun t : list Z => NoDup t)
    [k87 K; k65 K; k43 K; k21 K; k175 K; k153 K; k131 K; k109 K].
Proof.
  repeat (constructor; [apply (bool_decide_unpack _); vm_compute; exact I|]).
  constructor.
Qed.

(** A table of 256 distinct entries sends distinct bytes to distinct
    entries. *)
Lemma table_injective (t : list Z) b b' :
  NoDup t -> length t = 256%nat ->
  0 <= b < 256 -> 0 <= b' < 256 -> idx t b = idx t b' -> b = b'.
Proof.
  intros Hnd Hlen Hb Hb' E.
  assert (H1 : t !! Z.to_nat b = Some (idx t b)) by (apply idx_lookup; lia).
  assert (H2 : t !! Z.to_nat b' = Some (idx t b')) by (apply idx_lookup; lia).
  rewrite E in H1.
  pose proof (NoDup_lookup t _ _ _ Hnd H1 H2). lia.
Qed.

Lemma rotl64_11_injective a b :
  0 <= a < 2 ^ 64 -> 0 <= b < 2 ^ 64 -> rotl64 a 11 = rotl64 b 11 -> a = b.
Proof.
  assert (Hrot : forall v, 0 <= v < 2 ^ 64 ->
            rotl64 v 11 = v mod 2 ^ 53 * 2 ^ 11 + v / 2 ^ 53).
  { intros v Hv. unfold rotl64. f_equal.
    pose proof (Z.div_mod v (2 ^ 53) ltac:(lia)) as Hdm.
    pose proof (Z.mod_pos_bound v (2 ^ 53) ltac:(lia)) as Hm.
    symmetry. apply (Z.mod_unique_pos _ _ (v / 2 ^ 53)); lia. }
  intros Ha Hb E. rewrite (Hrot a Ha), (Hrot b Hb) in E.
  pose proof (Z.div_mod a (2 ^ 53) ltac:(lia)).
  pose proof (Z.div_mod b (2 ^ 53) ltac:(lia)).
  pose proof (Z.mod_pos_bound a (2 ^ 53) ltac:(lia)).
  pose proof (Z.mod_pos_bound b (2 ^ 53) ltac:(lia)).
  assert (0 <= a / 2 ^ 53 < 2 ^ 11)
    by (split; [apply Z.div_pos; lia | apply Z.div_lt_upper_bound; lia]).
  assert (0 <= b / 2 ^ 53 < 2 ^ 11)
    by (split; [apply Z.div_pos; lia | apply Z.div_lt_upper_bound; lia]).
  lia.
Qed.

(** A 32-bit value is made of its four bytes. *)
Lemma bytes32_value y :
  0 <= y < 2 ^ 32 ->
  y = (y / 2 ^ 24 mod 256) * 2 ^ 24 + (y / 2 ^ 16 mod 256) * 2 ^ 16
      + (y / 2 ^ 8 mod 256) * 2 ^ 8 + y mod 256.
Proof.
  intros Hy.
  pose proof (Z.div_mod y 256 ltac:(lia)) as H0.
  pose proof (Z.div_mod (y / 2 ^ 8) 256 ltac:(lia)) as H1.
  pose proof (Z.div_mod (y / 2 ^ 16) 256 ltac:(lia)) as H2.
  assert (E1 : y / 2 ^ 8 / 256 = y / 2 ^ 16)
    by (rewrite Z.div_div by lia; reflexivity).
  assert (E2 : y / 2 ^ 16 / 256 = y / 2 ^ 24)
    by (rewrite Z.div_div by lia; reflexivity).
  assert (H3 : 0 <= y / 2 ^ 24 < 256)
    by (split; [apply Z.div_pos; lia | apply Z.div_lt_upper_bound; lia]).
  rewrite (Z.mod_small (y / 2 ^ 24) 256) by lia.
  change (2 ^ 8) with 256 in *. lia.
Qed.

(** Four tables applied to the four bytes of a 32-bit value: the value
    can be read off the result. *)
Lemma substitution_injective (t1 t2 t3 t4 : list Z) y y' :
  NoDup t1 -> NoDup t2 -> NoDup t3 -> NoDup t4 ->
  length t1 = 256%nat -> length t2 = 256%nat ->
  length t3 = 256%nat -> length t4 = 256%nat ->
  0 <= y < 2 ^ 32 -> 0 <= y' < 2 ^ 32 ->
  idx t1 (y / 2 ^ 24 mod 256) = idx t1 (y' / 2 ^ 24 mod 256) ->
  idx t2 (y / 2 ^ 16 mod 256) = idx t2 (y' / 2 ^ 16 mod 256) ->
  idx t3 (y / 2 ^ 8 mod 256) = idx t3 (y' / 2 ^ 8 mod 256) ->
  idx t4 (y mod 256) = idx t4 (y' mod 256) ->
  y = y'.
Proof.
  intros N1 N2 N3 N4 L1 L2 L3 L4 Hy Hy' E1 E2 E3 E4.
  assert (B : forall v, 0 <= v mod 256 < 256)
    by (intros v; apply Z.mod_pos_bound; lia).
  apply (table_injective t1) in E1; [|assumption|assumption|apply B|apply B].
  apply (table_injective t2) in E2; [|assumption|assumption|apply B|apply B].
  apply (table_injective t3) in E3; [|assumption|assumption|apply B|apply B].
  apply (table_injective t4) in E4; [|assumption|assumption|apply B|apply B].
  rewrite (bytes32_value y Hy), (bytes32_value y' Hy'), E1, E2, E3, E4.
  reflexivity.
Qed.

(** Eight bytes can be read off their big-endian value. *)
Lemma join8_injective (a1 a2 a3 a4 a5 a6 a7 a8 b1 b2 b3 b4 b5 b6 b7 b8 : Z) :
  0 <= a1 < 256 -> 0 <= a2 < 256 -> 0 <= a3 < 256 -> 0 <= a4 < 256 ->
  0 <= a5 < 256 -> 0 <= a6 < 256 -> 0 <= a7 < 256 -> 0 <= a8 < 256 ->
  0 <= b1 < 256 -> 0 <= b2 < 256 -> 0 <= b3 < 256 -> 0 <= b4 < 256 ->
  0 <= b5 < 256 -> 0 <= b6 < 256 -> 0 <= b7 < 256 -> 0 <= b8 < 256 ->
  join_bytes [a1; a2; a3; a4; a5; a6; a7; a8]
  = join_bytes [b1; b2; b3; b4; b5; b6; b7; b8] ->
  a1 = b1 /\ a2 = b2 /\ a3 = b3 /\ a4 = b4 /\
  a5 = b5 /\ a6 = b6 /\ a7 = b7 /\ a8 = b8.
Proof.
  intros A1 A2 A3 A4 A5 A6 A7 A8 B1 B2 B3 B4 B5 B6 B7 B8 E.
  unfold join_bytes in E. cbn [fold_left] in E.
  assert (S : forall u v a b, 0 <= a < 256 -> 0 <= b < 256 ->
                u * 256 + a = v * 256 + b -> u = v /\ a = b)
    by (intros; lia).
  apply S in E; [|assumption|assumption]. destruct E as [E E8].
  apply S in E; [|assumption|assumption]. destruct E as [E E7].
  apply S in E; [|assumption|assumption]. destruct E as [E E6].
  apply S in E; [|assumption|assumption]. destruct E as [E E5].
  apply S in E; [|assumption|assumption]. destruct E as [E E4].
  apply S in E; [|assumption|assumption]. destruct E as [E E3].
  apply S in E; [|assumption|assumption]. destruct E as [E E2].
  apply S in E; [|assumption|assumption]. destruct E as [_ E1].
  repeat split; assumption.
Qed.

Lemma join8_range (a1 a2 a3 a4 a5 a6 a7 a8 : Z) :
  0 <= a1 < 256 -> 0 <= a2 < 256 -> 0 <= a3 < 256 -> 0 <= a4 < 256 ->
  0 <= a5 < 256 -> 0 <= a6 < 256 -> 0 <= a7 < 256 -> 0 <= a8 < 256 ->
  0 <= join_bytes [a1; a2; a3; a4; a5; a6; a7; a8] < 2 ^ 64.
Proof.
  intros. unfold join_bytes. cbn [fold_left]. lia.
Qed.

Lemma round_function_bytes x :
  round_function x
  = rotl64 (join_bytes
              [ idx (k87 K) (x / 2 ^ 32 / 2 ^ 24 mod 256);
                idx (k65 K) (x / 2 ^ 32 / 2 ^ 16 mod 256);
                idx (k43 K) (x / 2 ^ 32 / 2 ^ 8 mod 256);
                idx (k21 K) (x / 2 ^ 32 mod 256);
                idx (k175 K) (x mod 2 ^ 32 / 2 ^ 24 mod 256);
                idx (k153 K) (x mod 2 ^ 32 / 2 ^ 16 mod 256);
                idx (k131 K) (x mod 2 ^ 32 / 2 ^ 8 mod 256);
                idx (k109 K) (x mod 2 ^ 32 mod 256) ]) 11.
Proof. reflexivity. Qed.

Lemma round_function_injective x x' :
  word64_ok x -> word64_ok x' -> round_function x = round_function x' -> x = x'.
Proof.
  unfold word64_ok. intros Hx Hx' E.
  destruct K_tables as (T175 & T153 & T131 & T109 & T87 & T65 & T43 & T21).
  pose proof K_tables_NoDup as Hnd.
  repeat match type of Hnd with
         | Forall _ (_ :: _) => apply Forall_cons_1 in Hnd; destruct Hnd as [? Hnd]
         end.
  rewrite !round_function_bytes in E.
  remember (x / 2 ^ 32) as y eqn:Ey. remember (x mod 2 ^ 32) as z eqn:Ez.
  remember (x' / 2 ^ 32) as y' eqn:Ey'. remember (x' mod 2 ^ 32) as z' eqn:Ez'.
  assert (Hy : 0 <= y < 2 ^ 32)
    by (rewrite Ey; split; [apply Z.div_pos; lia | apply Z.div_lt_upper_bound; lia]).
  assert (Hy' : 0 <= y' < 2 ^ 32)
    by (rewrite Ey'; split; [apply Z.div_pos; lia | apply Z.div_lt_upper_bound; lia]).
  assert (Hz : 0 <= z < 2 ^ 32) by (rewrite Ez; apply Z.mod_pos_bound; lia).
  assert (Hz' : 0 <= z' < 2 ^ 32) by (rewrite Ez'; apply Z.mod_pos_bound; lia).
  apply rotl64_11_injective in E;
    [|apply join8_range; apply table_byte; assumption
     |apply join8_range; apply table_byte; assumption].
  apply join8_injective in E; try (apply table_byte; assumption).
  destruct E as (E1 & E2 & E3 & E4 & E5 & E6 & E7 & E8).
  assert (Eyy : y = y').
  { apply (substitution_injective (k87 K) (k65 K) (k43 K) (k21 K));
      first [assumption | apply T87 | apply T65 | apply T43 | apply T21]. }
  assert (Ezz : z = z').
  { apply (substitution_injective (k175 K) (k153 K) (k131 K) (k109 K));
      first [assumption | apply T175 | apply T153 | apply T131 | apply T109]. }
  rewrite (Z.div_mod x (2 ^ 32)), (Z.div_mod x' (2 ^ 32)) by lia.
  rewrite <- Ey, <- Ey', <- Ez, <- Ez', Eyy, Ezz. reflexivity.
Qed.

End RoundFunction.

(** X10: each of the eight tables [kboxinit] builds holds 256 distinct
    bytes, so it is a permutation of the bytes, and [f] is one-to-one on
    64-bit words and keeps them 64-bit words: a permutation of them. *)
Theorem X10_f_is_one_to_one (x x' : Z) :
  word64_ok x -> word64_ok x' ->
  Forall (fun t : list Z => NoDup t /\ Spec.byte_table t)
    [Gost.k87 Gost.kboxinit; Gost.k65 Gost.kboxinit; Gost.k43 Gost.kboxinit;
     Gost.k21 Gost.kboxinit; Gost.k175 Gost.kboxinit; Gost.k153 Gost.kboxinit;
     Gost.k131 Gost.kboxinit; Gost.k109 Gost.kboxinit]
  /\ word64_ok (Gost.f x)
  /\ (Gost.f x = Gost.f x' -> x = x').
Proof.
  intros Hx Hx'.
  split; [|split].
  - rewrite <- K_is_kboxinit.
    destruct K_tables as (T175 & T153 & T131 & T109 & T87 & T65 & T43 & T21).
    pose proof K_tables_NoDup as Hnd.
    repeat match type of Hnd with
           | Forall _ (_ :: _) => apply Forall_cons_1 in Hnd; destruct Hnd as [? Hnd]
           end.
    repeat (constructor; [split; assumption|]). constructor.
  - apply f_word.
  - rewrite (f_round_function x Hx), (f_round_function x' Hx').
    apply round_function_injective; assumption.
Qed.

Lemma X10_f_is_one_to_one_witness :
  Forall (fun t : list Z => NoDup t /\ Spec.byte_table t)
    [Gost.k87 Gost.kboxinit; Gost.k65 Gost.kboxinit; Gost.k43 Gost.kboxinit;
     Gost.k21 Gost.kboxinit; Gost.k175 Gost.kboxinit; Gost.k153 Gost.kboxinit;
     Gost.k131 Gost.kboxinit; Gost.k109 Gost.kboxinit]
  /\ word64_ok (Gost.f 1)
  /\ (Gost.f 1 = Gost.f 2 -> 1 = 2).
Proof.
  apply (X10_f_is_one_to_one 1 2); unfold word64_ok; lia.
Defined.

(** ** SHA-256: the streaming functions against the padded message *)

Section Sha256Laws.
Import Sha256 Codec Spec Laws.

Lemma sha256_transform_length st dat : length (sha256_transform st dat) = 8%nat.
Proof.
  unfold sha256_transform.
  destruct (rounds 64 0 _ _) as [[[[[[[a b] c] d] e] f] g] h]. reflexivity.
Qed.

Local Opaque sha256_transform.

Lemma update_byte_partial ctx b :
  datalen ctx + 1 <> 64 ->
  update_byte ctx b
  = {| state := state ctx; bitlen := bitlen ctx;
       data := <[Z.to_nat (datalen ctx) := b]> (data ctx);
       datalen := datalen ctx + 1 |}.
Proof.
  intros H. unfold update_byte.
  destruct (Z.eqb_spec (datalen ctx + 1) 64) as [E|_]; [lia | reflexivity].
Qed.

Lemma update_byte_full ctx b :
  datalen ctx + 1 = 64 ->
  update_byte ctx b
  = {| state := sha256_transform (state ctx) (<[Z.to_nat (datalen ctx) := b]> (data ctx));
       bitlen := add64 (bitlen ctx) 512;
       data := <[Z.to_nat (datalen ctx) := b]> (data ctx);
       datalen := 0 |}.
Proof.
  intros H. unfold update_byte.
  destruct (Z.eqb_spec (datalen ctx + 1) 64) as [_|N]; [reflexivity | lia].
Qed.

Lemma insert_at_lenZ (pre rest : list Z) b :
  rest <> [] ->
  <[Z.to_nat (lenZ pre) := b]> (pre ++ rest) = pre ++ b :: drop 1 rest.
Proof.
  intros Hr. destruct rest as [|x rest]; [congruence|].
  rewrite Nat2Z.id. cbn [drop]. apply insert_app_r_0.
Qed.

(** Bytes that do not fill the block are stored behind those already
    there. *)
Lemma sha256_update_tail (bytes : list Z) : forall ctx pre rest,
    data ctx = pre ++ rest -> lenZ pre = datalen ctx ->
    lenZ (data ctx) = 64 -> datalen ctx + lenZ bytes < 64 ->
    sha256_update ctx bytes
    = {| state := state ctx; bitlen := bitlen ctx;
         data := pre ++ bytes ++ drop (length bytes) rest;
         datalen := datalen ctx + lenZ bytes |}.
Proof.
  induction bytes as [|b bytes IH]; intros ctx pre rest Hd Hp Hl Hlt.
  - cbn [sha256_update fold_left length app]. rewrite drop_0.
    rewrite <- Hd. change (Z.of_nat 0) with 0. rewrite Z.add_0_r.
    destruct ctx; reflexivity.
  - change (sha256_update ctx (b :: bytes))
      with (sha256_update (update_byte ctx b) bytes).
    rewrite length_cons, Nat2Z.inj_succ in Hlt.
    rewrite update_byte_partial by lia.
    assert (Hrest : rest <> []).
    { intros ->. rewrite Hd, app_nil_r in Hl. lia. }
    rewrite Hd, <- Hp, (insert_at_lenZ pre rest b Hrest).
    rewrite (IH _ (pre ++ [b]) (drop 1 rest)); cbn [state bitlen data datalen].
    + rewrite length_cons, Nat2Z.inj_succ. rewrite <- app_assoc. cbn [app].
      rewrite drop_drop. f_equal. lia.
    + rewrite <- app_assoc. reflexivity.
    + rewrite length_app. cbn [length]. lia.
    + rewrite length_app. cbn [length]. rewrite length_drop.
      rewrite Hd, length_app in Hl. destruct rest; [congruence|]. cbn [length] in *. lia.
    + lia.
Qed.

(** Bytes that fill the block exactly send it through the compression
    function. *)
Lemma sha256_update_block (chunk : list Z) ctx pre rest :
  data ctx = pre ++ rest -> lenZ pre = datalen ctx ->
  lenZ (data ctx) = 64 -> datalen ctx + lenZ chunk = 64 -> chunk <> [] ->
  sha256_update ctx chunk
  = {| state := sha256_transform (state ctx) (pre ++ chunk);
       bitlen := add64 (bitlen ctx) 512;
       data := pre ++ chunk; datalen := 0 |}.
Proof.
  intros Hd Hp Hl Hfull Hne.
  destruct (exists_last Hne) as (init & b & ->).
  rewrite length_app in Hfull. cbn [length] in Hfull.
  rewrite sha256_update_app.
  rewrite (sha256_update_tail init ctx pre rest Hd Hp Hl) by lia.
  cbn [sha256_update fold_left].
  rewrite update_byte_full by (cbn [datalen]; lia).
  cbn [state bitlen data datalen].
  assert (Hrl : lenZ rest = lenZ init + 1).
  { rewrite Hd, length_app in Hl. lia. }
  assert (Hins : <[Z.to_nat (datalen ctx + lenZ init) := b]>
                   (pre ++ init ++ drop (length init) rest)
                 = pre ++ init ++ [b]).
  { rewrite app_assoc.
    replace (datalen ctx + lenZ init) with (lenZ (pre ++ init))
      by (rewrite length_app; lia).
    rewrite insert_at_lenZ.
    - rewrite drop_drop. rewrite (drop_ge rest) by lia.
      rewrite <- app_assoc. reflexivity.
    - intros E. apply (f_equal length) in E. rewrite length_drop in E.
      cbn [length] in E. lia. }
  rewrite Hins. reflexivity.
Qed.

Lemma sha_blocks_app n : forall m st (a b : list Z),
    lenZ a = 64 * Z.of_nat n ->
    sha_blocks (n + m) st (a ++ b) = sha_blocks m (sha_blocks n st a) b.
Proof.
  induction n as [|n IH]; intros m st a b Hlen.
  - destruct a; [reflexivity | cbn [length] in Hlen; lia].
  - cbn [Nat.add sha_blocks].
    rewrite take_app_le by lia. rewrite drop_app_le by lia.
    apply IH. rewrite length_drop. lia.
Qed.

(** Whole blocks: the chaining value after them, the bit count, and an
    empty buffer. *)
Lemma sha256_update_blocks n : forall (msg : list Z) ctx,
    datalen ctx = 0 -> lenZ (data ctx) = 64 -> 0 <= bitlen ctx < 2 ^ 64 ->
    lenZ msg = 64 * Z.of_nat n ->
    state (sha256_update ctx msg) = sha_blocks n (state ctx) msg /\
    bitlen (sha256_update ctx msg) = (bitlen ctx + 512 * Z.of_nat n) mod 2 ^ 64 /\
    datalen (sha256_update ctx msg) = 0 /\
    lenZ (data (sha256_update ctx msg)) = 64.
Proof.
  induction n as [|n IH]; intros msg ctx Hdl Hl Hbl Hlen.
  - destruct msg; [|cbn [length] in Hlen; lia].
    cbn [sha256_update fold_left sha_blocks].
    split; [reflexivity|]. split; [|split; assumption].
    rewrite Z.mul_0_r, Z.add_0_r. symmetry. apply Z.mod_small. exact Hbl.
  - assert (Hsplit : sha256_update ctx msg
                     = sha256_update (sha256_update ctx (take 64 msg)) (drop 64 msg))
      by (rewrite <- sha256_update_app, take_drop; reflexivity).
    rewrite Hsplit. clear Hsplit.
    assert (H64 : lenZ (take 64 msg) = 64) by (rewrite length_take; lia).
    assert (Hne : take 64 msg <> []).
    { intros E. rewrite E in H64. cbn in H64. lia. }
    rewrite (sha256_update_block (take 64 msg) ctx [] (data ctx))
      by (try reflexivity; try assumption; cbn [length]; lia).
    cbn [app].
    destruct (IH (drop 64 msg)
                {| state := sha256_transform (state ctx) (take 64 msg);
                   bitlen := add64 (bitlen ctx) 512;
                   data := take 64 msg; datalen := 0 |})
      as (I1 & I2 & I3 & I4); cbn [state bitlen data datalen].
    + reflexivity.
    + exact H64.
    + unfold add64. apply Z.mod_pos_bound. lia.
    + rewrite length_drop. lia.
    + cbn [state bitlen data datalen] in I1, I2.
      split; [rewrite I1; reflexivity|].
      split; [|split; assumption].
      rewrite I2. unfold add64. rewrite Zplus_mod_idemp_l. f_equal. lia.
Qed.

Lemma zero_fill_app cnt : forall (A X B : list Z) i,
    length X = cnt -> i = lenZ A ->
    zero_fill cnt i (A ++ X ++ B) = A ++ replicate cnt 0 ++ B.
Proof.
  induction cnt as [|cnt IH]; intros A X B i HX Hi.
  - destruct X; [reflexivity | discriminate HX].
  - destruct X as [|x X]; [discriminate HX|]. injection HX as HX.
    cbn [zero_fill replicate app]. subst i.
    rewrite Nat2Z.id, insert_app_r_0.
    change (A ++ 0 :: X ++ B) with (A ++ [0] ++ X ++ B).
    rewrite app_assoc.
    rewrite (IH (A ++ [0]) X B _ HX)
      by (rewrite length_app; cbn [length]; lia).
    rewrite <- app_assoc. reflexivity.
Qed.

Lemma store_len_app bl cnt : forall (A X B : list Z) i,
    length X = cnt -> i = lenZ A ->
    store_len cnt i bl (A ++ X ++ B)
    = A ++ map (fun j : nat => bl / 256 ^ Z.of_nat j mod 256) (rev (seq 0 cnt)) ++ B.
Proof.
  induction cnt as [|cnt IH]; intros A X B i HX Hi.
  - destruct X; [reflexivity | discriminate HX].
  - destruct X as [|x X]; [discriminate HX|]. injection HX as HX.
    cbn [store_len app]. subst i.
    rewrite Nat2Z.id, insert_app_r_0.
    rewrite seq_S, rev_app_distr. cbn [rev app map Nat.add].
    rewrite land_255, Z.shiftr_div_pow2 by lia.
    replace (2 ^ (Z.of_nat cnt * 8)) with (256 ^ Z.of_nat cnt)
      by (change 256 with (2 ^ 8); rewrite <- Z.pow_mul_r by lia; f_equal; lia).
    set (v := bl / 256 ^ Z.of_nat cnt mod 256).
    change (A ++ v :: X ++ B) with (A ++ [v] ++ X ++ B).
    rewrite app_assoc.
    rewrite (IH (A ++ [v]) X B _ HX)
      by (rewrite length_app; cbn [length]; lia).
    rewrite <- app_assoc. reflexivity.
Qed.

Lemma digest_flat_map (st : list Z) :
  length st = 8%nat ->
  hash_bytes (idx st 0) ++ hash_bytes (idx st 1) ++ hash_bytes (idx st 2) ++
  hash_bytes (idx st 3) ++ hash_bytes (idx st 4) ++ hash_bytes (idx st 5) ++
  hash_bytes (idx st 6) ++ hash_bytes (idx st 7)
  = flat_map hash_bytes st.
Proof.
  intros H.
  destruct st as [|s0 [|s1 [|s2 [|s3 [|s4 [|s5 [|s6 [|s7 [|s8 st]]]]]]]]];
    try discriminate H.
  cbn [flat_map]. rewrite app_nil_r. reflexivity.
Qed.

Lemma split_at (l : list Z) k :
  0 <= k <= lenZ l ->
  exists a b, l = a ++ b /\ lenZ a = k /\ lenZ b = lenZ l - k.
Proof.
  intros H. exists (take (Z.to_nat k) l), (drop (Z.to_nat k) l).
  split; [symmetry; apply take_drop|].
  rewrite length_take, length_drop. lia.
Qed.

Lemma pad_zeros_short r q : 0 <= r <= 55 -> (55 - (64 * q + r)) mod 64 = 55 - r.
Proof.
  intros H. symmetry. apply (Z.mod_unique_pos _ _ (- q)); lia.
Qed.

Lemma pad_zeros_long r q : 56 <= r < 64 -> (55 - (64 * q + r)) mod 64 = 119 - r.
Proof.
  intros H. symmetry. apply (Z.mod_unique_pos _ _ (- q - 1)); lia.
Qed.

(** The last block when the padding fits behind [T]. *)
Lemma final_block_short (T rest : list Z) r bl :
  lenZ T = r -> lenZ rest = 64 - r -> 0 <= r < 56 ->
  store_len 8 56 bl
    (zero_fill (Z.to_nat (56 - (r + 1))) (r + 1) (T ++ 128 :: drop 1 rest))
  = T ++ [128] ++ replicate (Z.to_nat (55 - r)) 0 ++ be64 bl.
Proof.
  intros HT Hrest Hr.
  destruct (split_at (drop 1 rest) (55 - r) ltac:(rewrite length_drop; lia))
    as (X & B & Hsplit & HXl & HBl).
  rewrite length_drop in HBl. rewrite Hsplit.
  change (T ++ 128 :: X ++ B) with (T ++ [128] ++ X ++ B).
  rewrite (app_assoc T [128] (X ++ B)).
  rewrite (zero_fill_app (Z.to_nat (56 - (r + 1))) (T ++ [128]) X B)
    by (rewrite ?length_app; cbn [length]; lia).
  rewrite <- (app_nil_r B).
  rewrite (app_assoc (T ++ [128]) (replicate _ 0) (B ++ [])).
  rewrite (store_len_app bl 8 _ B [] 56)
    by (rewrite ?length_app, ?length_replicate; cbn [length]; lia).
  rewrite app_nil_r. unfold be64.
  replace (Z.to_nat (56 - (r + 1))) with (Z.to_nat (55 - r)) by lia.
  rewrite <- !app_assoc. reflexivity.
Qed.

(** The last two blocks when it does not. *)
Lemma final_block_long (T rest : list Z) r bl :
  lenZ T = r -> lenZ rest = 64 - r -> 56 <= r < 64 ->
  let blk1 := T ++ [128] ++ replicate (Z.to_nat (63 - r)) 0 in
  zero_fill (Z.to_nat (64 - (r + 1))) (r + 1) (T ++ 128 :: drop 1 rest) = blk1 /\
  store_len 8 56 bl (zero_fill (Z.to_nat (56 - 0)) 0 blk1)
  = replicate 56 0 ++ be64 bl /\
  lenZ blk1 = 64.
Proof.
  intros HT Hrest Hr blk1.
  assert (Hblk1 : lenZ blk1 = 64).
  { unfold blk1. rewrite !length_app, length_replicate. cbn [length]. lia. }
  split; [|split; [|exact Hblk1]].
  - change (T ++ 128 :: drop 1 rest) with (T ++ [128] ++ drop 1 rest).
    rewrite (app_assoc T [128] (drop 1 rest)).
    rewrite <- (app_nil_r (drop 1 rest)).
    rewrite (zero_fill_app _ (T ++ [128]) (drop 1 rest) [])
      by (rewrite ?length_app, ?length_drop; cbn [length]; lia).
    rewrite app_nil_r. unfold blk1.
    replace (Z.to_nat (64 - (r + 1))) with (Z.to_nat (63 - r)) by lia.
    rewrite <- app_assoc. reflexivity.
  - destruct (split_at blk1 56 ltac:(lia)) as (X & B & Hsplit & HXl & HBl).
    rewrite Hsplit.
    rewrite <- (app_nil_l (X ++ B)).
    rewrite (zero_fill_app (Z.to_nat (56 - 0)) [] X B 0) by (try reflexivity; lia).
    cbn [app].
    rewrite <- (app_nil_r B).
    rewrite (store_len_app bl 8 _ B [] 56)
      by (rewrite ?length_replicate; lia).
    rewrite app_nil_r. reflexivity.
Qed.

(** [sha256_final] on a buffer that holds [T]: one more block, or two
    when the padding does not fit behind [T]. *)
Lemma sha256_final_pad ctx (T rest : list Z) :
  data ctx = T ++ rest -> lenZ T = datalen ctx -> lenZ (data ctx) = 64 ->
  datalen ctx < 64 ->
  sha256_final ctx
  = flat_map hash_bytes
      (sha_blocks (if datalen ctx <? 56 then 1 else 2) (state ctx)
         (T ++ [0x80] ++ replicate (Z.to_nat ((55 - datalen ctx) mod 64)) 0
            ++ be64 (add64 (bitlen ctx) ((datalen ctx * 8) mod 2 ^ 64)))).
Proof.
  intros Hd HT Hl Hr.
  assert (Hr0 : 0 <= datalen ctx) by lia.
  assert (Hrest : lenZ rest = 64 - datalen ctx)
    by (rewrite Hd, length_app in Hl; lia).
  assert (Hne : rest <> []) by (intros ->; cbn [length] in Hrest; lia).
  assert (Hins : <[Z.to_nat (datalen ctx) := 128]> (data ctx) = T ++ 128 :: drop 1 rest).
  { rewrite Hd, <- HT. apply insert_at_lenZ. exact Hne. }
  unfold sha256_final. cbv zeta.
  set (bl := add64 (bitlen ctx) ((datalen ctx * 8) mod 2 ^ 64)).
  rewrite Hins.
  replace (55 - datalen ctx) with (55 - (64 * 0 + datalen ctx)) by lia.
  destruct (Z.ltb_spec 56 (datalen ctx + 1)) as [Hlong|Hshort].
  - cbv beta iota zeta.
    destruct (Z.ltb_spec (datalen ctx) 56) as [C|_]; [lia|].
    rewrite pad_zeros_long by lia.
    destruct (final_block_long T rest (datalen ctx) bl HT Hrest ltac:(lia))
      as (Hz1 & Hz2 & Hlen1).
    cbv zeta in Hz1, Hz2, Hlen1.
    rewrite Hz1, Hz2.
    rewrite digest_flat_map by apply sha256_transform_length.
    f_equal. cbn [sha_blocks].
    replace (Z.to_nat (119 - datalen ctx))
      with (Z.to_nat (63 - datalen ctx) + 56)%nat by lia.
    rewrite replicate_add.
    set (blk1 := T ++ [128] ++ replicate (Z.to_nat (63 - datalen ctx)) 0) in *.
    set (blk2 := replicate 56 0 ++ be64 bl).
    assert (E : T ++ [128] ++ (replicate (Z.to_nat (63 - datalen ctx)) 0
                               ++ replicate 56 0) ++ be64 bl
                = blk1 ++ blk2).
    { unfold blk1, blk2. rewrite <- !app_assoc. reflexivity. }
    rewrite E.
    rewrite take_app_length' by lia. rewrite drop_app_length' by lia.
    rewrite take_ge by (unfold blk2; rewrite length_app, length_replicate; cbn; lia).
    reflexivity.
  - cbv beta iota zeta.
    destruct (Z.ltb_spec (datalen ctx) 56) as [_|C]; [|lia].
    rewrite pad_zeros_short by lia.
    rewrite (final_block_short T rest (datalen ctx) bl HT Hrest) by lia.
    rewrite digest_flat_map by apply sha256_transform_length.
    f_equal. cbn [sha_blocks].
    rewrite take_ge; [reflexivity|].
    rewrite !length_app, length_replicate. cbn [length]. unfold be64.
    rewrite length_map, length_rev, length_seq. lia.
Qed.

(** The buffer index stays below 64 and counts the bytes modulo 64;
    the bit count grows by 512 for every block that was completed. *)
Lemma sha256_update_context (bytes : list Z) : forall ctx,
    0 <= datalen ctx < 64 -> length (data ctx) = 64%nat ->
    0 <= bitlen ctx < 2 ^ 64 ->
    0 <= datalen (sha256_update ctx bytes) < 64 /\
    datalen (sha256_update ctx bytes) = (datalen ctx + lenZ bytes) mod 64 /\
    length (data (sha256_update ctx bytes)) = 64%nat /\
    bitlen (sha256_update ctx bytes)
    = (bitlen ctx + 512 * ((datalen ctx + lenZ bytes) / 64)) mod 2 ^ 64.
Proof.
  induction bytes as [|b bytes IH]; intros ctx Hd Hl Hbl.
  - cbn [sha256_update fold_left length]. change (Z.of_nat 0) with 0.
    rewrite Z.add_0_r, Z.mod_small, Z.div_small, Z.mul_0_r, Z.add_0_r by lia.
    rewrite Z.mod_small by lia. repeat split; try assumption; lia.
  - change (sha256_update ctx (b :: bytes))
      with (sha256_update (update_byte ctx b) bytes).
    rewrite length_cons, Nat2Z.inj_succ.
    destruct (Z.eq_dec (datalen ctx + 1) 64) as [E|N].
    + rewrite (update_byte_full ctx b E).
      destruct (IH {| state := sha256_transform (state ctx)
                                 (<[Z.to_nat (datalen ctx) := b]> (data ctx));
                      bitlen := add64 (bitlen ctx) 512;
                      data := <[Z.to_nat (datalen ctx) := b]> (data ctx);
                      datalen := 0 |})
        as (I1 & I2 & I3 & I4); cbn [state bitlen data datalen].
      * lia.
      * rewrite length_insert. exact Hl.
      * unfold add64. apply Z.mod_pos_bound. lia.
      * cbn [state bitlen data datalen] in I2, I4.
        replace (datalen ctx + Z.succ (lenZ bytes)) with (lenZ bytes + 1 * 64) by lia.
        rewrite Z.mod_add, Z.div_add by lia.
        split; [exact I1|]. split; [rewrite I2; f_equal; lia|].
        split; [exact I3|].
        rewrite I4. unfold add64. rewrite Zplus_mod_idemp_l.
        f_equal. rewrite Z.add_0_l. lia.
    + rewrite (update_byte_partial ctx b N).
      destruct (IH {| state := state ctx; bitlen := bitlen ctx;
                      data := <[Z.to_nat (datalen ctx) := b]> (data ctx);
                      datalen := datalen ctx + 1 |})
        as (I1 & I2 & I3 & I4); cbn [state bitlen data datalen].
      * lia.
      * rewrite length_insert. exact Hl.
      * exact Hbl.
      * cbn [state bitlen data datalen] in I2, I4.
        replace (datalen ctx + Z.succ (lenZ bytes)) with (datalen ctx + 1 + lenZ bytes) by lia.
        split; [exact I1|]. split; [exact I2|]. split; [exact I3 | exact I4].
Qed.

Lemma sha256_init_fields :
  datalen sha256_init = 0 /\ lenZ (data sha256_init) = 64 /\ bitlen sha256_init = 0.
Proof. repeat split. Qed.

End Sha256Laws.

(** X11: [sha256_init], [sha256_update] and [sha256_final] together compute
    SHA-256 of the message as the standard defines it: the compression
    function run over the blocks of the message followed by 0x80, zero
    bytes up to 56 modulo 64 and the bit length in eight big-endian bytes
    (taken modulo 2^64, as the 64-bit counter of the code wraps). *)
Theorem X11_sha256_is_padded_hash (msg : list Z) :
  Spec.sha256 msg = Laws.sha256_padded msg.
Proof.
  set (n := Z.to_nat (Z.of_nat (length msg) / 64)).
  set (r := Z.of_nat (length msg) mod 64).
  assert (Hdm : Z.of_nat (length msg) = 64 * Z.of_nat n + r).
  { unfold n, r. rewrite Z2Nat.id by (apply Z.div_pos; lia).
    apply Z.div_mod. lia. }
  assert (Hr : 0 <= r < 64) by (unfold r; apply Z.mod_pos_bound; lia).
  destruct (split_at msg (64 * Z.of_nat n) ltac:(lia)) as (A & T & Hmsg & HA & HT).
  assert (HTr : Z.of_nat (length T) = r) by lia.
  destruct sha256_init_fields as (I1 & I2 & I3).
  destruct (sha256_update_blocks n A Sha256.sha256_init I1 I2 ltac:(rewrite I3; lia) HA)
    as (B1 & B2 & B3 & B4).
  unfold Spec.sha256. rewrite Hmsg, sha256_update_app.
  remember (Sha256.sha256_update Sha256.sha256_init A) as ctx1 eqn:E1. clear E1.
  rewrite (sha256_update_tail T ctx1 [] (Sha256.data ctx1))
    by (try reflexivity; cbn [length]; lia).
  cbn [app].
  rewrite (sha256_final_pad _ T (drop (length T) (Sha256.data ctx1)));
    cbn [Sha256.state Sha256.bitlen Sha256.data Sha256.datalen];
    [|reflexivity|lia|rewrite length_app, length_drop; lia|lia].
  rewrite B3, Z.add_0_l, HTr, B1, B2, I3.
  unfold Laws.sha256_padded, Laws.sha_pad. f_equal.
  rewrite <- Hmsg, Hdm.
  assert (Hbl : add64 ((0 + 512 * Z.of_nat n) mod 2 ^ 64) ((r * 8) mod 2 ^ 64)
                = (8 * (64 * Z.of_nat n + r)) mod 2 ^ 64).
  { unfold add64. rewrite <- Zplus_mod. f_equal. lia. }
  rewrite Hbl.
  set (L := Laws.be64 ((8 * (64 * Z.of_nat n + r)) mod 2 ^ 64)).
  assert (HL : length L = 8%nat) by reflexivity.
  destruct (Z.ltb_spec r 56) as [Hshort|Hlong].
  - rewrite pad_zeros_short by lia.
    replace (55 - r) with (55 - (64 * 0 + r)) at 1 by lia.
    rewrite pad_zeros_short by lia.
    rewrite Hmsg, <- app_assoc.
    assert (Hcnt : Z.to_nat
                     (Z.of_nat (length (A ++ T ++ [128] ++ replicate (Z.to_nat (55 - r)) 0 ++ L))
                      / 64) = (n + 1)%nat).
    { rewrite !length_app, length_replicate, HL. cbn [length].
      replace (Z.of_nat (length A + (length T + (1 + (Z.to_nat (55 - r) + 8)))))
        with ((Z.of_nat n + 1) * 64) by lia.
      rewrite Z.div_mul by lia. lia. }
    rewrite Hcnt.
    rewrite (sha_blocks_app n 1 _ A _ HA). reflexivity.
  - rewrite pad_zeros_long by lia.
    replace (55 - r) with (55 - (64 * 0 + r)) at 1 by lia.
    rewrite pad_zeros_long by lia.
    rewrite Hmsg, <- app_assoc.
    assert (Hcnt : Z.to_nat
                     (Z.of_nat (length (A ++ T ++ [128] ++ replicate (Z.to_nat (119 - r)) 0 ++ L))
                      / 64) = (n + 2)%nat).
    { rewrite !length_app, length_replicate, HL. cbn [length].
      replace (Z.of_nat (length A + (length T + (1 + (Z.to_nat (119 - r) + 8)))))
        with ((Z.of_nat n + 2) * 64) by lia.
      rewrite Z.div_mul by lia. lia. }
    rewrite Hcnt.
    rewrite (sha_blocks_app n 2 _ A _ HA). reflexivity.
Qed.

(** X12: [sha256_update] keeps the context in shape whatever it is fed:
    the index into the 64-byte buffer stays below 64 and counts the bytes
    modulo 64, the buffer keeps its size, and the bit counter grows by 512
    for every block completed, modulo 2^64. *)
Theorem X12_sha256_update_keeps_context (ctx : Sha256.sha256_ctx) (bytes : list Z) :
  0 <= Sha256.datalen ctx < 64 -> length (Sha256.data ctx) = 64%nat ->
  0 <= Sha256.bitlen ctx < 2 ^ 64 ->
  0 <= Sha256.datalen (Sha256.sha256_update ctx bytes) < 64 /\
  Sha256.datalen (Sha256.sha256_update ctx bytes)
  = (Sha256.datalen ctx + Z.of_nat (length bytes)) mod 64 /\
  length (Sha256.data (Sha256.sha256_update ctx bytes)) = 64%nat /\
  Sha256.bitlen (Sha256.sha256_update ctx bytes)
  = (Sha256.bitlen ctx
     + 512 * ((Sha256.datalen ctx + Z.of_nat (length bytes)) / 64)) mod 2 ^ 64.
Proof. apply sha256_update_context. Qed.

Lemma X12_sha256_update_keeps_context_witness :
  0 <= Sha256.datalen (Sha256.sha256_update Sha256.sha256_init [1; 2; 3]) < 64 /\
  Sha256.datalen (Sha256.sha256_update Sha256.sha256_init [1; 2; 3])
  = (Sha256.datalen Sha256.sha256_init + Z.of_nat (length [1; 2; 3])) mod 64 /\
  length (Sha256.data (Sha256.sha256_update Sha256.sha256_init [1; 2; 3])) = 64%nat /\
  Sha256.bitlen (Sha256.sha256_update Sha256.sha256_init [1; 2; 3])
  = (Sha256.bitlen Sha256.sha256_init
     + 512 * ((Sha256.datalen Sha256.sha256_init + Z.of_nat (length [1; 2; 3])) / 64))
    mod 2 ^ 64.
Proof.
  apply (X12_sha256_update_keeps_context Sha256.sha256_init [1; 2; 3]).
  - cbn. lia.
  - reflexivity.
  - cbn. lia.
Defined.

(** ** More on the conversions and the padding helpers *)

Section PaddingHelpers.
Import Spec Codec.

Lemma pad_scan_false cnt : forall i (buf : list Z) len pad,
    pad_scan cnt i buf len pad = false
    <-> ~ (forall j, i <= j < i + Z.of_nat cnt -> idx buf (len - 1 - j) = pad).
Proof.
  intros i buf len pad. rewrite <- pad_scan_true.
  destruct (pad_scan cnt i buf len pad); split; intros H; congruence.
Qed.

Lemma replicate_lenZ n (x : Z) : 0 <= n -> lenZ (replicate (Z.to_nat n) x) = n.
Proof. intros H. rewrite length_replicate. lia. Qed.

(** The buffer [pkcs7_pad] leaves behind, cut into the part before
    [used], the padding and the rest. *)
Lemma pkcs7_pad_fits (buf : list Z) used cap :
  0 <= used -> cap <= lenZ buf -> used + pad_length used <= cap ->
  pkcs7_pad buf used cap
  = (takeZ used buf
     ++ replicate (Z.to_nat (pad_length used)) (pad_length used)
     ++ dropZ (used + pad_length used) buf,
     used + pad_length used).
Proof.
  intros Hu Hc Hfit. unfold pkcs7_pad. fold (pad_length used).
  change (BLOCK_SIZE - used mod BLOCK_SIZE) with (pad_length used).
  pose proof (pad_length_range used) as Hp.
  destruct (Z.ltb_spec cap (used + pad_length used)) as [Hlt|_]; [lia|].
  unfold write_at. rewrite replicate_lenZ by lia.
  unfold to_uchar. rewrite (Z.mod_small (pad_length used) 256) by lia.
  reflexivity.
Qed.

Lemma pad_scan_window (buf : list Z) len v :
  0 <= v ->
  pad_scan (Z.to_nat v) 0 buf len v = true
  <-> (forall j, len - v <= j < len -> idx buf j = v).
Proof.
  intros Hv. rewrite pad_scan_true. rewrite Z2Nat.id by lia. split.
  - intros H j Hj. replace j with (len - 1 - (len - 1 - j)) by lia.
    apply H. lia.
  - intros H j Hj. apply H. lia.
Qed.

(** [pkcs7_unpad] on any length: what it accepts and what it returns. *)
Lemma pkcs7_unpad_cases (buf : list Z) len :
  bytes_ok buf -> 0 <= len ->
  let v := idx buf (len - 1) in
  (0 < len /\ len mod 16 = 0 /\ 1 <= v <= 16 /\
   (forall j, len - v <= j < len -> idx buf j = v) /\
   pkcs7_unpad buf len = (true, len - v))
  \/
  (~ (0 < len /\ len mod 16 = 0 /\ 1 <= v <= 16 /\
      (forall j, len - v <= j < len -> idx buf j = v)) /\
   pkcs7_unpad buf len = (false, len)).
Proof.
  intros Hb Hlen v.
  assert (Hv : 0 <= v < 256) by (apply (idx_range buf 0 256); [lia | exact Hb]).
  unfold pkcs7_unpad. fold v. change BLOCK_SIZE with 16.
  destruct (Z.eqb_spec len 0) as [H0|H0]; cbn [orb].
  { right. split; [lia | reflexivity]. }
  destruct (Z.eqb_spec (len mod 16) 0) as [Hm|Hm]; cbn [negb].
  2:{ right. split; [lia | reflexivity]. }
  destruct (Z.eqb_spec v 0) as [Hv0|Hv0]; cbn [orb].
  { right. split; [lia | reflexivity]. }
  destruct (Z.ltb_spec 16 v) as [Hv16|Hv16].
  { right. split; [lia | reflexivity]. }
  destruct (pad_scan (Z.to_nat v) 0 buf len v) eqn:Hscan.
  - left. assert (Hv' : 0 <= v) by lia.
    pose proof (proj1 (pad_scan_window buf len v Hv') Hscan) as Hall.
    split; [lia|]. split; [exact Hm|]. split; [lia|]. split; [exact Hall | reflexivity].
  - right. split; [|reflexivity].
    intros (_ & _ & _ & Hall). assert (Hv' : 0 <= v) by lia.
    pose proof (proj2 (pad_scan_window buf len v Hv') Hall) as Ht. congruence.
Qed.

End PaddingHelpers.

(** X13: the two conversions between 16 bytes and two 64-bit words are
    big-endian and undo each other in both directions. *)
Theorem X13_be_conversions (blk : list Z) (a b : Z) :
  bytes_ok blk -> length blk = 16%nat -> word64_ok a -> word64_ok b ->
  Codec.be_bytes_to_words blk
  = (Spec.join_bytes (take 8 blk), Spec.join_bytes (drop 8 blk))
  /\ Codec.be_words_to_bytes (Codec.be_bytes_to_words blk) = blk
  /\ Codec.be_bytes_to_words (Codec.be_words_to_bytes (a, b)) = (a, b)
  /\ length (Codec.be_words_to_bytes (a, b)) = 16%nat
  /\ bytes_ok (Codec.be_words_to_bytes (a, b)).
Proof.
  intros Hb Hl Ha Hw.
  split; [|split; [|split; [|split]]].
  - destruct (block_halves blk Hl) as (Hsplit & H8a & H8b).
    rewrite Hsplit at 1.
    apply be_bytes_to_words_join; try assumption.
    + apply Forall_take. exact Hb.
    + apply Forall_drop. exact Hb.
  - apply be_words_to_bytes_of_block; assumption.
  - apply (be_bytes_to_words_of_bytes (a, b)); assumption.
  - apply be_words_to_bytes_length.
  - apply be_words_to_bytes_bytes.
Qed.

Lemma X13_be_conversions_witness :
  let blk := [0; 0; 0; 0; 0; 0; 1; 2; 255; 0; 0; 0; 0; 0; 0; 3] in
  Codec.be_bytes_to_words blk
  = (Spec.join_bytes (take 8 blk), Spec.join_bytes (drop 8 blk))
  /\ Codec.be_words_to_bytes (Codec.be_bytes_to_words blk) = blk
  /\ Codec.be_bytes_to_words (Codec.be_words_to_bytes (258, 2 ^ 64 - 1)) = (258, 2 ^ 64 - 1)
  /\ length (Codec.be_words_to_bytes (258, 2 ^ 64 - 1)) = 16%nat
  /\ bytes_ok (Codec.be_words_to_bytes (258, 2 ^ 64 - 1)).
Proof.
  apply (X13_be_conversions [0; 0; 0; 0; 0; 0; 1; 2; 255; 0; 0; 0; 0; 0; 0; 3] 258 (2 ^ 64 - 1)).
  - bytes_by_evaluation.
  - reflexivity.
  - unfold word64_ok. lia.
  - unfold word64_ok. lia.
Defined.

(** X14: [pkcs7_pad] returns 0 and leaves the buffer alone when the padded
    size would exceed [cap]; otherwise it returns the next multiple of 16
    above [used], writes that many minus [used] bytes of that value (1 to
    16) after the first [used] bytes, and changes nothing else. *)
Theorem X14_pkcs7_pad (buf : list Z) (used cap : Z) :
  0 <= used -> cap <= Z.of_nat (length buf) ->
  let pad := 16 - used mod 16 in
  let res := Codec.pkcs7_pad buf used cap in
  (cap < used + pad -> res = (buf, 0))
  /\ (used + pad <= cap ->
      snd res = used + pad /\ snd res = (used / 16 + 1) * 16 /\
      snd res mod 16 = 0 /\ used < snd res <= used + 16 /\
      length (fst res) = length buf /\
      Codec.takeZ used (fst res) = Codec.takeZ used buf /\
      Codec.takeZ pad (Codec.dropZ used (fst res)) = replicate (Z.to_nat pad) pad /\
      Codec.dropZ (used + pad) (fst res) = Codec.dropZ (used + pad) buf /\
      Codec.takeZ (snd res) (fst res) = Spec.pkcs7 (Codec.takeZ used buf)).
Proof.
  intros Hu Hc pad res.
  assert (Hp : 1 <= pad <= 16) by (unfold pad; pose proof (Z.mod_pos_bound used 16); lia).
  split.
  - intros Hlt. unfold res, Codec.pkcs7_pad.
    change (Codec.BLOCK_SIZE - used mod Codec.BLOCK_SIZE) with pad.
    destruct (Z.ltb_spec cap (used + pad)) as [_|Hge]; [reflexivity | lia].
  - intros Hfit. unfold res.
    rewrite (pkcs7_pad_fits buf used cap Hu Hc Hfit).
    change (Spec.pad_length used) with pad. cbn [fst snd].
    assert (Hlen1 : Z.of_nat (length (Codec.takeZ used buf)) = used)
      by (apply takeZ_length; lia).
    assert (Hlenp : Z.of_nat (length (replicate (Z.to_nat pad) pad)) = pad)
      by (apply replicate_lenZ; lia).
    split; [reflexivity|].
    split; [unfold pad; pose proof (Z.div_mod used 16); lia|].
    split.
    { unfold pad. rewrite (Z.div_mod used 16) at 1 by lia.
      replace (16 * (used / 16) + used mod 16 + (16 - used mod 16))
        with ((used / 16 + 1) * 16) by lia.
      apply Z.mod_mul. lia. }
    split; [lia|].
    split.
    { apply Nat2Z.inj. rewrite !lenZ_app, Hlen1, Hlenp.
      rewrite dropZ_length by lia. lia. }
    split; [apply takeZ_app_length'; symmetry; exact Hlen1|].
    split.
    { rewrite (dropZ_app_length' used) by (symmetry; exact Hlen1).
      apply takeZ_app_length'. symmetry. exact Hlenp. }
    split.
    { rewrite app_assoc. apply dropZ_app_length'.
      rewrite lenZ_app, Hlen1, Hlenp. reflexivity. }
    rewrite app_assoc. unfold Spec.pkcs7. rewrite Hlen1.
    change (Spec.pad_length used) with pad.
    apply takeZ_app_length'. rewrite lenZ_app, Hlen1, Hlenp. reflexivity.
Qed.

Lemma X14_pkcs7_pad_witness :
  let buf := [7; 7; 7; 9; 9; 9; 9; 9; 9; 9; 9; 9; 9; 9; 9; 9; 9; 9] in
  let pad := 16 - 3 mod 16 in
  let res := Codec.pkcs7_pad buf 3 18 in
  (18 < 3 + pad -> res = (buf, 0))
  /\ (3 + pad <= 18 ->
      snd res = 3 + pad /\ snd res = (3 / 16 + 1) * 16 /\
      snd res mod 16 = 0 /\ 3 < snd res <= 3 + 16 /\
      length (fst res) = length buf /\
      Codec.takeZ 3 (fst res) = Codec.takeZ 3 buf /\
      Codec.takeZ pad (Codec.dropZ 3 (fst res)) = replicate (Z.to_nat pad) pad /\
      Codec.dropZ (3 + pad) (fst res) = Codec.dropZ (3 + pad) buf /\
      Codec.takeZ (snd res) (fst res) = Spec.pkcs7 (Codec.takeZ 3 buf)).
Proof.
  apply (X14_pkcs7_pad [7; 7; 7; 9; 9; 9; 9; 9; 9; 9; 9; 9; 9; 9; 9; 9; 9; 9] 3 18).
  - lia.
  - cbn. lia.
Defined.

(** X15: [pkcs7_unpad] accepts whatever [pkcs7_pad] produced and gives
    back the size the buffer had before the padding. *)
Theorem X15_pkcs7_unpad_after_pad (buf : list Z) (used cap : Z) :
  0 <= used -> cap <= Z.of_nat (length buf) -> used + (16 - used mod 16) <= cap ->
  Codec.pkcs7_unpad (fst (Codec.pkcs7_pad buf used cap)) (snd (Codec.pkcs7_pad buf used cap))
  = (true, used).
Proof.
  intros Hu Hc Hfit.
  rewrite (pkcs7_pad_fits buf used cap Hu Hc Hfit). cbn [fst snd].
  unfold Spec.pad_length. set (pad := 16 - used mod 16) in *.
  assert (Hp : 1 <= pad <= 16) by (unfold pad; pose proof (Z.mod_pos_bound used 16); lia).
  set (A := Codec.takeZ used buf).
  set (B := Codec.dropZ (used + pad) buf).
  assert (HA : Z.of_nat (length A) = used) by (apply takeZ_length; lia).
  assert (HR : Z.of_nat (length (replicate (Z.to_nat pad) pad)) = pad)
    by (apply replicate_lenZ; lia).
  assert (Hidx : forall j, used <= j < used + pad ->
                   idx (A ++ replicate (Z.to_nat pad) pad ++ B) j = pad).
  { intros j Hj. rewrite idx_app_ge by lia. rewrite idx_app_l by lia.
    apply idx_replicate. lia. }
  assert (Hmod : (used + pad) mod 16 = 0).
  { unfold pad. rewrite (Z.div_mod used 16) at 1 by lia.
    replace (16 * (used / 16) + used mod 16 + (16 - used mod 16))
      with ((used / 16 + 1) * 16) by lia.
    apply Z.mod_mul. lia. }
  unfold Codec.pkcs7_unpad. change Codec.BLOCK_SIZE with 16.
  rewrite (Hidx (used + pad - 1)) by lia.
  destruct (Z.eqb_spec (used + pad) 0) as [H0|_]; [lia|].
  rewrite Hmod. cbn [Z.eqb negb orb].
  destruct (Z.eqb_spec pad 0) as [H0|_]; [lia|].
  destruct (Z.ltb_spec 16 pad) as [H16|_]; [lia|]. cbn [orb].
  assert (Hscan : Codec.pad_scan (Z.to_nat pad) 0
                    (A ++ replicate (Z.to_nat pad) pad ++ B) (used + pad) pad = true).
  { apply pad_scan_window; [lia|]. intros j Hj. apply Hidx. lia. }
  rewrite Hscan. f_equal. lia.
Qed.

Lemma X15_pkcs7_unpad_after_pad_witness :
  Codec.pkcs7_unpad (fst (Codec.pkcs7_pad (replicate 40 9) 21 40))
                    (snd (Codec.pkcs7_pad (replicate 40 9) 21 40))
  = (true, 21).
Proof.
  apply (X15_pkcs7_unpad_after_pad (replicate 40 9) 21 40).
  - lia.
  - rewrite length_replicate. lia.
  - change (21 mod 16) with 5. lia.
Defined.

(** X16: [pkcs7_unpad] returns 1 exactly when the length is a positive
    multiple of 16, the last byte [v] is between 1 and 16 and the last [v]
    bytes all equal [v]; it then lowers the length by [v], and in every
    other case it leaves the length as it was. *)
Theorem X16_pkcs7_unpad (buf : list Z) (len : Z) :
  bytes_ok buf -> 0 <= len ->
  let v := idx buf (len - 1) in
  let res := Codec.pkcs7_unpad buf len in
  (fst res = true <->
   0 < len /\ len mod 16 = 0 /\ 1 <= v <= 16 /\
   (forall j, len - v <= j < len -> idx buf j = v))
  /\ (fst res = true -> snd res = len - v /\ len - 16 <= snd res < len)
  /\ (fst res = false -> snd res = len).
Proof.
  intros Hb Hlen v res. unfold res.
  destruct (pkcs7_unpad_cases buf len Hb Hlen) as [(H1 & H2 & H3 & H4 & Heq) | (Hn & Heq)];
    fold v in Heq; rewrite Heq; cbn [fst snd].
  - fold v in H3, H4. split; [|split].
    + split; [intros _; split; [exact H1|]; split; [exact H2|]; split; [exact H3 | exact H4]
             | reflexivity].
    + intros _. lia.
    + discriminate.
  - fold v in Hn. split; [|split].
    + split; [discriminate | intros H; destruct (Hn H)].
    + discriminate.
    + reflexivity.
Qed.

Lemma X16_pkcs7_unpad_witness :
  let buf := replicate 13 65 ++ [3; 3; 3] in
  let v := idx buf (16 - 1) in
  let res := Codec.pkcs7_unpad buf 16 in
  (fst res = true <->
   0 < 16 /\ 16 mod 16 = 0 /\ 1 <= v <= 16 /\
   (forall j, 16 - v <= j < 16 -> idx buf j = v))
  /\ (fst res = true -> snd res = 16 - v /\ 16 - 16 <= snd res < 16)
  /\ (fst res = false -> snd res = 16).
Proof.
  apply (X16_pkcs7_unpad (replicate 13 65 ++ [3; 3; 3]) 16).
  - bytes_by_evaluation.
  - lia.
Defined.

(** ** The prompt and the file names *)

Section CliLaws.
Import KeyHash Spec Codec Cli.

Lemma c_string_app_nul (a rest : list Z) : c_string (a ++ 0 :: rest) = c_string a.
Proof.
  induction a as [|x a IH]; [reflexivity|].
  cbn [app c_string]. destruct (x =? 0); [reflexivity|]. rewrite IH. reflexivity.
Qed.

Lemma c_string_nonzero (l : list Z) : Forall (fun c => c <> 0) l -> c_string l = l.
Proof.
  induction 1 as [|x l Hx Hl IH]; [reflexivity|].
  cbn [c_string]. destruct (Z.eqb_spec x 0) as [E|_]; [congruence|].
  rewrite IH. reflexivity.
Qed.

Lemma c_string_no_nul (l : list Z) : Forall (fun c => c <> 0) (c_string l).
Proof.
  induction l as [|x l IH]; [constructor|].
  cbn [c_string]. destruct (Z.eqb_spec x 0) as [E|N]; constructor; assumption.
Qed.

Lemma c_string_idem (l : list Z) : c_string (c_string l) = c_string l.
Proof. apply c_string_nonzero, c_string_no_nul. Qed.

Lemma c_string_prefix (a rest : list Z) :
  exists Y, a ++ 0 :: rest = c_string a ++ 0 :: Y.
Proof.
  induction a as [|x a [Y IH]]; [exists rest; reflexivity|].
  cbn [app c_string]. destruct (Z.eqb_spec x 0) as [->|N].
  - exists (a ++ 0 :: rest). reflexivity.
  - exists Y. cbn [app]. rewrite IH. reflexivity.
Qed.

Lemma c_string_length (l : list Z) : (length (c_string l) <= length l)%nat.
Proof.
  induction l as [|x l IH]; [reflexivity|].
  cbn [c_string]. destruct (x =? 0); cbn [length]; lia.
Qed.

Lemma write_at_0 (bs buf : list Z) : write_at 0 bs buf = bs ++ drop (length bs) buf.
Proof.
  unfold write_at, takeZ, dropZ. cbn [Z.to_nat take app].
  rewrite Z.add_0_l, Nat2Z.id. reflexivity.
Qed.

(** *** [fgets] *)

Lemma fgets_chars_length cnt : forall stdin : list Z,
    (length (fgets_chars cnt stdin) <= cnt)%nat.
Proof.
  induction cnt as [|cnt IH]; intros [|ch rest]; cbn [fgets_chars length]; try lia.
  destruct (ch =? 10); cbn [length]; [lia|]. specialize (IH rest). lia.
Qed.

Lemma fgets_chars_bytes cnt : forall stdin : list Z,
    bytes_ok stdin -> bytes_ok (fgets_chars cnt stdin).
Proof.
  induction cnt as [|cnt IH]; intros stdin Hb.
  - destruct stdin; constructor.
  - destruct stdin as [|ch rest]; [constructor|].
    inversion Hb as [|? ? Hc Hr]; subst.
    cbn [fgets_chars]. destruct (ch =? 10).
    + constructor; [exact Hc | constructor].
    + constructor; [exact Hc | apply IH; exact Hr].
Qed.

(** A line that fits: everything up to the newline, newline included. *)
Lemma fgets_chars_line (line : list Z) : forall cnt (rest : list Z),
    Forall (fun c => c <> 10) line -> (length line < cnt)%nat ->
    fgets_chars cnt (line ++ 10 :: rest) = line ++ [10].
Proof.
  induction line as [|x line IH]; intros cnt rest Hl Hc.
  - destruct cnt; [cbn [length] in Hc; lia | reflexivity].
  - destruct cnt; [cbn [length] in Hc; lia|].
    inversion Hl as [|? ? Hx Hr]; subst.
    cbn [app fgets_chars]. destruct (Z.eqb_spec x 10) as [E|_]; [congruence|].
    rewrite IH; [reflexivity | exact Hr | cbn [length] in Hc; lia].
Qed.

(** A line that does not fit: its first [cnt] characters. *)
Lemma fgets_chars_long (line : list Z) : forall (rest : list Z),
    Forall (fun c => c <> 10) line ->
    fgets_chars (length line) (line ++ rest) = line.
Proof.
  induction line as [|x line IH]; intros rest Hl; [reflexivity|].
  inversion Hl as [|? ? Hx Hr]; subst.
  cbn [app length fgets_chars]. destruct (Z.eqb_spec x 10) as [E|_]; [congruence|].
  rewrite IH by exact Hr. reflexivity.
Qed.

(** *** [prompt_password] *)

(** The string in the buffer after the prompt: what [fgets] stored, up
    to its first NUL, without one trailing newline or carriage return. *)
Lemma prompt_password_string (buf : list Z) buflen (stdin : list Z) :
  let S := c_string (fgets_chars (Z.to_nat (buflen - 1)) stdin) in
  c_string (prompt_password buf buflen stdin)
  = if (0 <? lenZ S) && ((idx S (lenZ S - 1) =? 10) || (idx S (lenZ S - 1) =? 13))
    then take (length S - 1) S else S.
Proof.
  intros S. unfold prompt_password.
  set (got := fgets_chars (Z.to_nat (buflen - 1)) stdin) in *.
  rewrite write_at_0, <- app_assoc. cbn [app].
  destruct (c_string_prefix got (drop (length (got ++ [0])) buf)) as [Y HY].
  rewrite HY. fold S.
  assert (HS : c_string (S ++ 0 :: Y) = S)
    by (rewrite c_string_app_nul; apply c_string_idem).
  rewrite HS.
  destruct (Z.ltb_spec 0 (lenZ S)) as [Hpos|Hzero]; cbn [andb]; [|exact HS].
  rewrite idx_app_l by lia.
  destruct ((idx S (lenZ S - 1) =? 10) || (idx S (lenZ S - 1) =? 13)); [|exact HS].
  assert (Hne : S <> []) by (intros E; rewrite E in Hpos; cbn in Hpos; lia).
  destruct (exists_last Hne) as (S0 & x & HS0).
  assert (Hnz : Forall (fun c => c <> 0) S0).
  { pose proof (c_string_no_nul got) as H. fold S in H. rewrite HS0 in H.
    apply Forall_app in H. apply H. }
  rewrite HS0. rewrite length_app. cbn [length].
  replace (Z.to_nat (Z.of_nat (length S0 + 1) - 1)) with (length S0) by lia.
  rewrite <- app_assoc. cbn [app].
  rewrite insert_app_r_0.
  rewrite c_string_app_nul, (c_string_nonzero S0 Hnz).
  replace (length S0 + 1 - 1)%nat with (length S0) by lia.
  rewrite take_app_length. reflexivity.
Qed.

Lemma prompt_password_length (buf : list Z) buflen (stdin : list Z) :
  1 <= buflen <= lenZ buf ->
  length (prompt_password buf buflen stdin) = length buf /\
  dropZ buflen (prompt_password buf buflen stdin) = dropZ buflen buf.
Proof.
  intros Hb. unfold prompt_password.
  set (got := fgets_chars (Z.to_nat (buflen - 1)) stdin).
  pose proof (fgets_chars_length (Z.to_nat (buflen - 1)) stdin) as Hg. fold got in Hg.
  set (buf1 := write_at 0 (got ++ [0]) buf).
  assert (Hw : buf1 = (got ++ [0]) ++ drop (length (got ++ [0])) buf)
    by apply write_at_0.
  assert (Hgl : length (got ++ [0]) = (length got + 1)%nat)
    by (rewrite length_app; reflexivity).
  assert (Hl1 : length buf1 = length buf).
  { rewrite Hw, length_app, length_drop. lia. }
  assert (Hd1 : dropZ buflen buf1 = dropZ buflen buf).
  { rewrite Hw. unfold dropZ. rewrite drop_app_ge by lia.
    rewrite drop_drop. f_equal. lia. }
  assert (HS : lenZ (c_string buf1) <= lenZ got).
  { rewrite Hw, <- app_assoc. cbn [app]. rewrite c_string_app_nul.
    pose proof (c_string_length got). lia. }
  destruct ((0 <? lenZ (c_string buf1)) && _) eqn:Hcond.
  - apply andb_true_iff in Hcond. destruct Hcond as [Hpos _].
    apply Z.ltb_lt in Hpos.
    split; [rewrite length_insert; exact Hl1|].
    rewrite <- Hd1. unfold dropZ.
    apply list_eq. intros i. rewrite !lookup_drop.
    apply list_lookup_insert_ne. lia.
  - split; assumption.
Qed.

Lemma prompt_password_bytes (buf : list Z) buflen (stdin : list Z) :
  bytes_ok buf -> bytes_ok stdin -> bytes_ok (prompt_password buf buflen stdin).
Proof.
  intros Hb Hs. unfold prompt_password.
  set (got := fgets_chars (Z.to_nat (buflen - 1)) stdin).
  assert (H1 : bytes_ok (write_at 0 (got ++ [0]) buf)).
  { rewrite write_at_0. apply Forall_app. split.
    - apply Forall_app. split; [apply fgets_chars_bytes; exact Hs|].
      constructor; [unfold byte_ok; lia | constructor].
    - apply Forall_drop. exact Hb. }
  destruct (_ && _); [|exact H1].
  apply Forall_insert; [exact H1 | unfold byte_ok; lia].
Qed.

(** *** File names *)

Lemma c_string_snprintf (out : list Z) outsz (a b : list Z) :
  0 < outsz ->
  c_string (snprintf out outsz a b) = takeZ (outsz - 1) (c_string a ++ c_string b).
Proof.
  intros H. unfold snprintf.
  destruct (Z.eqb_spec outsz 0) as [E|_]; [lia|].
  rewrite write_at_0, <- app_assoc. cbn [app].
  rewrite c_string_app_nul. apply c_string_nonzero.
  apply Forall_take. apply Forall_app. split; apply c_string_no_nul.
Qed.

Lemma has_suffix_cases (name suffix : list Z) :
  (has_suffix name suffix = 1 /\ exists pre, c_string name = pre ++ c_string suffix)
  \/ (has_suffix name suffix = 0 /\ ~ exists pre, c_string name = pre ++ c_string suffix).
Proof.
  unfold has_suffix.
  set (N := c_string name). set (S := c_string suffix).
  destruct (Z.ltb_spec (lenZ N) (lenZ S)) as [Hlt|Hge].
  - right. split; [reflexivity|]. intros [pre E].
    apply (f_equal length) in E. rewrite length_app in E. lia.
  - destruct (bool_decide_reflect (dropZ (lenZ N - lenZ S) N = S)) as [E|NE].
    + left. split; [reflexivity|].
      exists (takeZ (lenZ N - lenZ S) N). rewrite <- E at 2.
      symmetry. apply takeZ_dropZ.
    + right. split; [reflexivity|]. intros [pre E]. apply NE.
      rewrite E. apply dropZ_app_length'. rewrite length_app. lia.
Qed.

Lemma take_eq_self (k : Z) (N G : list Z) :
  G <> [] -> 0 <= k -> (takeZ k (N ++ G) = N <-> lenZ N = k).
Proof.
  intros HG Hk. unfold takeZ. split.
  - intros E. apply (f_equal length) in E.
    rewrite length_take, length_app in E.
    destruct G; [congruence|]. cbn [length] in E. lia.
  - intros E. apply take_app_length'. lia.
Qed.

(** *** [generate_iv] *)

Lemma rand_fill_app e cnt : forall (A X B : list Z),
    length X = cnt ->
    rand_fill cnt (length A) e (A ++ X ++ B)
    = A ++ map (fun i => rand e i mod 256) (seq (length A) cnt) ++ B.
Proof.
  induction cnt as [|cnt IH]; intros A X B HX.
  - destruct X; [reflexivity | discriminate HX].
  - destruct X as [|x X]; [discriminate HX|]. injection HX as HX.
    cbn [rand_fill seq map app].
    rewrite insert_app_r_0.
    unfold to_uchar. rewrite land_255, Z.mod_mod by lia.
    set (v := rand e (length A) mod 256).
    change (A ++ v :: X ++ B) with (A ++ [v] ++ X ++ B).
    rewrite (app_assoc A [v]).
    replace (S (length A)) with (length (A ++ [v]))
      by (rewrite length_app; cbn [length]; lia).
    rewrite (IH (A ++ [v]) X B HX).
    rewrite <- app_assoc. reflexivity.
Qed.

Lemma rand_fill_16 e (iv : list Z) :
  length iv = 16%nat ->
  rand_fill 16 0 e iv = map (fun i => rand e i mod 256) (seq 0 16).
Proof.
  intros H.
  pose proof (rand_fill_app e 16 [] iv [] H) as E.
  cbn [app length] in E. rewrite !app_nil_r in E. exact E.
Qed.

(** *** [prompt_password] where [_WIN32] is defined *)

Lemma getch_loop_plain (line : list Z) : forall (written tail tl : list Z) buflen,
    Forall Laws.plain_key line ->
    lenZ written < buflen <= lenZ written + lenZ tail ->
    let s := map to_uchar (takeZ (buflen - 1 - lenZ written) line) in
    getch_loop (line ++ tl) buflen (lenZ written) (written ++ tail)
    = getch_loop tl buflen (lenZ written + lenZ s)
        (written ++ s ++ dropZ (lenZ s) tail).
Proof.
  induction line as [|x line IH]; intros written tail tl buflen Hl Hb; cbv zeta.
  - unfold takeZ, dropZ. rewrite take_nil. cbn [map app length].
    change (Z.of_nat 0) with 0. rewrite Z.add_0_r. reflexivity.
  - inversion Hl as [|? ? Hx Hr]; subst. destruct Hx as ((H13 & H10 & He & H3) & H8).
    cbn [app getch_loop].
    destruct (Z.eqb_spec x 13) as [E|_]; [congruence|].
    destruct (Z.eqb_spec x 10) as [E|_]; [congruence|].
    destruct (Z.eqb_spec x (-1)) as [E|_]; [congruence|].
    cbn [orb].
    destruct (Z.eqb_spec x 3) as [E|_]; [congruence|].
    destruct (Z.eqb_spec x 8) as [E|_]; [congruence|].
    destruct (Z.ltb_spec (lenZ written + 1) buflen) as [Hroom|Hfull].
    + destruct tail as [|t tail]; [cbn [length] in Hb; lia|].
      replace (Z.to_nat (lenZ written)) with (length written + 0)%nat by lia.
      rewrite insert_app_r. cbn [insert list_insert].
      specialize (IH (written ++ [to_uchar x]) tail tl buflen Hr).
      cbv zeta in IH. rewrite length_app in IH. cbn [length] in IH.
      replace (Z.of_nat (length written + 1)) with (lenZ written + 1) in IH by lia.
      rewrite <- app_assoc in IH. cbn [app] in IH.
      rewrite IH by (cbn [length] in Hb; lia).
      unfold takeZ, dropZ.
      replace (Z.to_nat (buflen - 1 - lenZ written))
        with (S (Z.to_nat (buflen - 1 - (lenZ written + 1)))) by lia.
      cbn [take map length].
      set (s := map to_uchar (take (Z.to_nat (buflen - 1 - (lenZ written + 1))) line)).
      replace (Z.to_nat (Z.of_nat (S (length s)))) with (S (length s)) by lia.
      rewrite Nat2Z.id. cbn [drop].
      rewrite <- app_assoc. cbn [app].
      replace (lenZ written + 1 + Z.of_nat (length s))
        with (lenZ written + Z.of_nat (S (length s))) by lia.
      reflexivity.
    + specialize (IH written tail tl buflen Hr Hb). cbv zeta in IH.
      rewrite IH.
      replace (buflen - 1 - lenZ written) with 0 by lia.
      rewrite !takeZ_0. reflexivity.
Qed.

Lemma stored_length (line : list Z) buflen :
  1 <= buflen ->
  lenZ (map to_uchar (takeZ (buflen - 1) line)) <= buflen - 1.
Proof.
  intros Hb. rewrite length_map. unfold takeZ. rewrite length_take. lia.
Qed.

(** The buffer when the loop is left after a line of plain keys. *)
Lemma prompt_win32_plain (buf line tl : list Z) buflen :
  Forall Laws.plain_key line -> 1 <= buflen <= lenZ buf ->
  let s := map to_uchar (takeZ (buflen - 1) line) in
  prompt_password_win32 buf buflen (line ++ tl)
  = getch_loop tl buflen (lenZ s) (write_at 0 s buf).
Proof.
  intros Hl Hb s. unfold prompt_password_win32.
  pose proof (getch_loop_plain line [] buf tl buflen Hl) as H.
  cbn [length app] in H. change (Z.of_nat 0) with 0 in H.
  rewrite Z.sub_0_r, Z.add_0_l in H. cbv zeta in H. fold s in H.
  rewrite H by lia. rewrite write_at_0. unfold dropZ. rewrite Nat2Z.id.
  reflexivity.
Qed.

Lemma write_at_0_nul (s buf : list Z) :
  lenZ s < lenZ buf ->
  <[Z.to_nat (lenZ s) := 0]> (write_at 0 s buf) = write_at 0 (s ++ [0]) buf.
Proof.
  intros Hs. rewrite !write_at_0. rewrite Nat2Z.id.
  replace (length s) with (length s + 0)%nat at 1 by lia.
  rewrite insert_app_r.
  destruct (drop (length s) buf) as [|t tail] eqn:E.
  { apply (f_equal length) in E. rewrite length_drop in E. cbn [length] in E. lia. }
  cbn [insert list_insert]. rewrite <- app_assoc. cbn [app].
  rewrite length_app. cbn [length].
  replace (length s + 1)%nat with (S (length s)) by lia.
  f_equal. f_equal.
  change (S (length s)) with (1 + length s)%nat.
  rewrite Nat.add_comm, <- drop_drop, E. reflexivity.
Qed.

(** The loop never writes at [buflen] or beyond, and it keeps the size of
    the buffer. *)
Lemma getch_loop_bounds (keys : list Z) buflen : forall i (buf : list Z),
    0 <= i < buflen ->
    match getch_loop keys buflen i buf with
    | PromptReturns b =>
        length b = length buf /\ dropZ buflen b = dropZ buflen buf /\
        exists j, 0 <= j < buflen /\ (j < lenZ buf -> idx b j = 0)
    | PromptExits st b =>
        st = 1 /\ length b = length buf /\ dropZ buflen b = dropZ buflen buf
    end.
Proof.
  assert (Hret : forall i (buf : list Z), 0 <= i < buflen ->
             length (<[Z.to_nat i := 0]> buf) = length buf /\
             dropZ buflen (<[Z.to_nat i := 0]> buf) = dropZ buflen buf /\
             exists j, 0 <= j < buflen /\
                       (j < lenZ buf -> idx (<[Z.to_nat i := 0]> buf) j = 0)).
  { intros i buf Hi. split; [apply length_insert|]. split.
    - unfold dropZ. apply drop_insert_lt. lia.
    - exists i. split; [exact Hi|]. intros Hj. unfold idx.
      apply nth_lookup_Some with (d := 0). apply list_lookup_insert_eq. lia. }
  induction keys as [|ch keys IH]; intros i buf Hi; cbn [getch_loop].
  - apply Hret. exact Hi.
  - destruct ((ch =? 13) || (ch =? 10) || (ch =? -1)); [apply Hret; exact Hi|].
    destruct (ch =? 3); [repeat split; reflexivity|].
    destruct (ch =? 8).
    + apply IH. destruct (Z.ltb_spec 0 i); lia.
    + destruct (Z.ltb_spec (i + 1) buflen) as [Hroom|Hfull]; [|apply IH; exact Hi].
      specialize (IH (i + 1) (<[Z.to_nat i := to_uchar ch]> buf)).
      destruct (getch_loop keys buflen (i + 1) (<[Z.to_nat i := to_uchar ch]> buf))
        as [b | st b].
      * destruct IH as (H1 & H2 & j & Hj & H3); [lia|].
        rewrite length_insert in H1, H3.
        split; [exact H1|]. split.
        -- rewrite H2. unfold dropZ. apply drop_insert_lt. lia.
        -- exists j. split; [exact Hj | exact H3].
      * destruct IH as (H1 & H2 & H3); [lia|].
        rewrite length_insert in H2.
        split; [exact H1|]. split; [exact H2|].
        rewrite H3. unfold dropZ. apply drop_insert_lt. lia.
Qed.

Lemma c_string_stops (b : list Z) : forall j,
    0 <= j < lenZ b -> idx b j = 0 -> lenZ (c_string b) <= j.
Proof.
  induction b as [|x b IH]; intros j Hj H0; [cbn [length] in Hj; lia|].
  cbn [c_string]. destruct (Z.eqb_spec x 0) as [E|N]; [cbn [length]; lia|].
  destruct (Z.eq_dec j 0) as [->|Hne];
    [change (x = 0) in H0; congruence|].
  specialize (IH (j - 1)).
  unfold idx in H0, IH.
  replace (Z.to_nat j) with (S (Z.to_nat (j - 1))) in H0 by lia.
  cbn [nth] in H0. cbn [length] in Hj |- *.
  assert (lenZ (c_string b) <= j - 1) by (apply IH; [lia | exact H0]).
  lia.
Qed.

(** The loop calls [exit] exactly when Ctrl+C comes before the line ends. *)
Lemma getch_loop_exits (keys : list Z) buflen : forall i (buf : list Z),
    (exists st b, getch_loop keys buflen i buf = PromptExits st b) <->
    (exists pre rest, keys = pre ++ 3 :: rest /\ Forall Laws.goes_on pre).
Proof.
  induction keys as [|ch keys IH]; intros i buf; cbn [getch_loop].
  - split.
    + intros (st & b & H). discriminate H.
    + intros (pre & rest & H & _). destruct pre; discriminate H.
  - destruct (Z.eqb_spec ch 13) as [E13|N13]; cbn [orb].
    { split; [intros (st & b & H); discriminate H|].
      intros (pre & rest & H & Hp). destruct pre as [|y pre].
      - cbn [app] in H. injection H as H _. lia.
      - cbn [app] in H. injection H as H _. inversion Hp as [|? ? Hy _]; subst.
        destruct Hy as (Hy & _). congruence. }
    destruct (Z.eqb_spec ch 10) as [E10|N10]; cbn [orb].
    { split; [intros (st & b & H); discriminate H|].
      intros (pre & rest & H & Hp). destruct pre as [|y pre].
      - cbn [app] in H. injection H as H _. lia.
      - cbn [app] in H. injection H as H _. inversion Hp as [|? ? Hy _]; subst.
        destruct Hy as (_ & Hy & _). congruence. }
    destruct (Z.eqb_spec ch (-1)) as [Ee|Ne].
    { split; [intros (st & b & H); discriminate H|].
      intros (pre & rest & H & Hp). destruct pre as [|y pre].
      - cbn [app] in H. injection H as H _. lia.
      - cbn [app] in H. injection H as H _. inversion Hp as [|? ? Hy _]; subst.
        destruct Hy as (_ & _ & Hy & _). congruence. }
    destruct (Z.eqb_spec ch 3) as [E3|N3].
    { split; [|intros _; eexists; eexists; reflexivity].
      intros _. exists [], keys. split; [rewrite E3; reflexivity | constructor]. }
    assert (Hstep : forall i' (buf' : list Z),
               (exists st b, getch_loop keys buflen i' buf' = PromptExits st b) <->
               (exists pre rest, ch :: keys = pre ++ 3 :: rest /\ Forall Laws.goes_on pre)).
    { intros i' buf'. rewrite (IH i' buf'). split.
      - intros (pre & rest & H & Hp). exists (ch :: pre), rest.
        split; [rewrite H; reflexivity|]. constructor; [|exact Hp].
        repeat split; assumption.
      - intros (pre & rest & H & Hp). destruct pre as [|y pre].
        + cbn [app] in H. injection H as H _. congruence.
        + cbn [app] in H. injection H as _ H. inversion Hp; subst.
          exists pre, rest. split; [reflexivity | assumption]. }
    destruct (ch =? 8); [apply Hstep|].
    destruct (i + 1 <? buflen); apply Hstep.
Qed.

End CliLaws.

(** X17: the password taken from a typed line.  For a line without NUL of
    at most [buflen - 2] characters, ended by a newline, the password is
    the line without the newline, whatever the buffer held before and
    whatever follows on standard input; a carriage return before the
    newline stays in the password. *)
Theorem X17_prompt_typed_line (buf line rest : list Z) (buflen : Z) :
  Forall (fun c => c <> 0 /\ c <> 10) line ->
  Z.of_nat (length line) + 2 <= buflen ->
  KeyHash.c_string (Cli.prompt_password buf buflen (line ++ 10 :: rest)) = line
  /\ Spec.subkeys_for (Cli.prompt_password buf buflen (line ++ 10 :: rest))
     = fst (Spec.derive_subkeys line).
Proof.
  intros Hl Hlen.
  assert (Hn10 : Forall (fun c => c <> 10) line)
    by (eapply Forall_impl; [exact Hl | intros c [_ H]; exact H]).
  assert (Hn0 : Forall (fun c => c <> 0) (line ++ [10])).
  { apply Forall_app. split.
    - eapply Forall_impl; [exact Hl | intros c [H _]; exact H].
    - constructor; [lia | constructor]. }
  assert (Hstr : KeyHash.c_string (Cli.prompt_password buf buflen (line ++ 10 :: rest))
                 = line).
  { rewrite prompt_password_string. cbv zeta.
    rewrite (fgets_chars_line line _ rest Hn10) by lia.
    rewrite (c_string_nonzero _ Hn0).
    rewrite length_app. cbn [length].
    destruct (Z.ltb_spec 0 (Z.of_nat (length line + 1))) as [_|H]; [|lia].
    replace (Z.of_nat (length line + 1) - 1) with (Z.of_nat (length line)) by lia.
    rewrite idx_app_r. cbn [andb orb].
    change (idx [10] 0 =? 10) with true. cbn [orb].
    replace (length line + 1 - 1)%nat with (length line) by lia.
    apply take_app_length. }
  split; [exact Hstr|].
  unfold Spec.subkeys_for. rewrite Hstr. reflexivity.
Qed.

Lemma X17_prompt_typed_line_witness :
  KeyHash.c_string
    (Cli.prompt_password (replicate 256 255) 256 ([112; 119; 13] ++ 10 :: [120; 10]))
  = [112; 119; 13]
  /\ Spec.subkeys_for
       (Cli.prompt_password (replicate 256 255) 256 ([112; 119; 13] ++ 10 :: [120; 10]))
     = fst (Spec.derive_subkeys [112; 119; 13]).
Proof.
  apply (X17_prompt_typed_line (replicate 256 255) [112; 119; 13] [120; 10] 256).
  - repeat constructor; lia.
  - cbn. lia.
Defined.

(** X18: a line longer than the buffer is cut without notice.  When the
    first [buflen - 1] characters of standard input hold neither NUL nor
    newline and the last of them is not a carriage return, these
    characters are the password and whatever follows them is ignored, so
    that two such inputs give the same subkeys. *)
Theorem X18_prompt_cuts_long_line (buf buf' line rest rest' : list Z) (buflen : Z) :
  Forall (fun c => c <> 0 /\ c <> 10) line ->
  Z.of_nat (length line) = buflen - 1 -> 1 <= Z.of_nat (length line) ->
  idx line (Z.of_nat (length line) - 1) <> 13 ->
  KeyHash.c_string (Cli.prompt_password buf buflen (line ++ rest)) = line
  /\ Spec.subkeys_for (Cli.prompt_password buf buflen (line ++ rest))
     = Spec.subkeys_for (Cli.prompt_password buf' buflen (line ++ rest')).
Proof.
  intros Hl Hlen Hpos Hcr.
  assert (Hn10 : Forall (fun c => c <> 10) line)
    by (eapply Forall_impl; [exact Hl | intros c [_ H]; exact H]).
  assert (Hn0 : Forall (fun c => c <> 0) line)
    by (eapply Forall_impl; [exact Hl | intros c [H _]; exact H]).
  assert (Hlast : idx line (Z.of_nat (length line) - 1) <> 10).
  { unfold idx. rewrite nth_lookup.
    destruct (lookup_lt_is_Some_2 line (Z.to_nat (Z.of_nat (length line) - 1))
                ltac:(lia)) as [x Hx].
    rewrite Hx. cbn [default].
    apply (proj1 (Forall_lookup _ _) Hn10 _ _ Hx). }
  assert (Hstr : forall b r,
            KeyHash.c_string (Cli.prompt_password b buflen (line ++ r)) = line).
  { intros b r. rewrite prompt_password_string. cbv zeta.
    replace (Z.to_nat (buflen - 1)) with (length line) by lia.
    rewrite (fgets_chars_long line r Hn10).
    rewrite (c_string_nonzero _ Hn0).
    destruct (Z.eqb_spec (idx line (Z.of_nat (length line) - 1)) 10) as [E|_];
      [congruence|].
    destruct (Z.eqb_spec (idx line (Z.of_nat (length line) - 1)) 13) as [E|_];
      [congruence|].
    rewrite andb_false_r. reflexivity. }
  split; [apply Hstr|].
  unfold Spec.subkeys_for. rewrite !Hstr. reflexivity.
Qed.

Lemma X18_prompt_cuts_long_line_witness :
  KeyHash.c_string (Cli.prompt_password (replicate 4 0) 4 ([97; 98; 99] ++ [100; 10]))
  = [97; 98; 99]
  /\ Spec.subkeys_for (Cli.prompt_password (replicate 4 0) 4 ([97; 98; 99] ++ [100; 10]))
     = Spec.subkeys_for (Cli.prompt_password (replicate 4 1) 4 ([97; 98; 99] ++ [101; 102; 10])).
Proof.
  apply (X18_prompt_cuts_long_line (replicate 4 0) (replicate 4 1) [97; 98; 99]
           [100; 10] [101; 102; 10] 4).
  - repeat constructor; lia.
  - reflexivity.
  - cbn. lia.
  - vm_compute. intros H. discriminate H.
Defined.

(** X19: [prompt_password] writes inside [buf[0 .. buflen)] only and leaves
    a string of at most [buflen - 1] characters there, bytes if the input
    and the buffer were; at end-of-file the string is empty, and the
    program goes on with the empty password. *)
Theorem X19_prompt_stays_in_buffer (buf stdin : list Z) (buflen : Z) :
  1 <= buflen <= Z.of_nat (length buf) ->
  length (Cli.prompt_password buf buflen stdin) = length buf
  /\ Codec.dropZ buflen (Cli.prompt_password buf buflen stdin) = Codec.dropZ buflen buf
  /\ Z.of_nat (length (KeyHash.c_string (Cli.prompt_password buf buflen stdin)))
     <= buflen - 1
  /\ (bytes_ok buf -> bytes_ok stdin -> bytes_ok (Cli.prompt_password buf buflen stdin))
  /\ (stdin = [] -> KeyHash.c_string (Cli.prompt_password buf buflen stdin) = []).
Proof.
  intros Hb.
  destruct (prompt_password_length buf buflen stdin Hb) as [H1 H2].
  split; [exact H1|]. split; [exact H2|].
  pose proof (prompt_password_string buf buflen stdin) as Hs. cbv zeta in Hs.
  pose proof (fgets_chars_length (Z.to_nat (buflen - 1)) stdin) as Hg.
  pose proof (c_string_length (Cli.fgets_chars (Z.to_nat (buflen - 1)) stdin)) as Hc.
  split; [|split].
  - rewrite Hs. destruct (_ && _); [rewrite length_take|]; lia.
  - apply prompt_password_bytes.
  - intros ->. rewrite Hs.
    assert (E : Cli.fgets_chars (Z.to_nat (buflen - 1)) [] = [])
      by (destruct (Z.to_nat (buflen - 1)); reflexivity).
    rewrite E. reflexivity.
Qed.

Lemma X19_prompt_stays_in_buffer_witness :
  length (Cli.prompt_password (replicate 8 7) 4 [97; 98; 99; 100; 10]) = length (replicate 8 7)
  /\ Codec.dropZ 4 (Cli.prompt_password (replicate 8 7) 4 [97; 98; 99; 100; 10])
     = Codec.dropZ 4 (replicate 8 7)
  /\ Z.of_nat (length (KeyHash.c_string
                         (Cli.prompt_password (replicate 8 7) 4 [97; 98; 99; 100; 10])))
     <= 4 - 1
  /\ (bytes_ok (replicate 8 7) -> bytes_ok [97; 98; 99; 100; 10] ->
      bytes_ok (Cli.prompt_password (replicate 8 7) 4 [97; 98; 99; 100; 10]))
  /\ ([97; 98; 99; 100; 10] = [] ->
      KeyHash.c_string (Cli.prompt_password (replicate 8 7) 4 [97; 98; 99; 100; 10]) = []).
Proof.
  apply (X19_prompt_stays_in_buffer (replicate 8 7) [97; 98; 99; 100; 10] 4).
  cbn. lia.
Defined.

(** X20: [has_suffix] returns 1 when the name ends with the suffix and 0
    when it does not, a name shorter than the suffix included. *)
Theorem X20_has_suffix (name suffix : list Z) :
  (Cli.has_suffix name suffix = 1 <->
   exists pre, KeyHash.c_string name = pre ++ KeyHash.c_string suffix)
  /\ (Cli.has_suffix name suffix <> 1 -> Cli.has_suffix name suffix = 0).
Proof.
  destruct (has_suffix_cases name suffix) as [[H1 H2] | [H1 H2]]; rewrite H1.
  - split; [split; [intros _; exact H2 | reflexivity] | congruence].
  - split; [split; [discriminate | intros H; destruct (H2 H)] | reflexivity].
Qed.

(** X21: the name made for decryption from the name made for encryption
    is the input name again, as long as the name and [".gost2"] fit in
    [outsz - 1] characters. *)
Theorem X21_output_names_round_trip (inp out out' : list Z) (outsz : Z) :
  Z.of_nat (length (KeyHash.c_string inp)) + 6 < outsz ->
  outsz <= Z.of_nat (length out') ->
  KeyHash.c_string (Cli.make_output_name_encrypt inp out outsz)
  = KeyHash.c_string inp ++ [46; 103; 111; 115; 116; 50]
  /\ exists r,
       Cli.make_output_name_decrypt (Cli.make_output_name_encrypt inp out outsz) out' outsz
       = Some r /\
       KeyHash.c_string r = KeyHash.c_string inp.
Proof.
  intros Hfit Hout.
  set (N := KeyHash.c_string inp) in *.
  set (G := [46; 103; 111; 115; 116; 50]).
  assert (HG : KeyHash.c_string Cli.dot_gost2 = G) by reflexivity.
  assert (HE : KeyHash.c_string (Cli.make_output_name_encrypt inp out outsz) = N ++ G).
  { unfold Cli.make_output_name_encrypt.
    rewrite c_string_snprintf by lia. rewrite HG. fold N.
    apply takeZ_all. rewrite length_app. cbn [length G]. lia. }
  split; [exact HE|].
  unfold Cli.make_output_name_decrypt.
  destruct (has_suffix_cases (Cli.make_output_name_encrypt inp out outsz) Cli.dot_gost2)
    as [[H1 _] | [_ H2]].
  2:{ exfalso. apply H2. exists N. rewrite HE, HG. reflexivity. }
  rewrite H1, HE. cbn [Z.eqb negb].
  assert (Hn : Z.of_nat (length (N ++ G)) - 6 = Z.of_nat (length N))
    by (rewrite length_app; cbn [length G]; lia).
  rewrite Hn.
  destruct (Z.ltb_spec (Z.of_nat (length out')) (Z.of_nat (length N) + 1)) as [C|_]; [lia|].
  eexists. split; [reflexivity|].
  rewrite write_at_0, <- app_assoc. cbn [app].
  rewrite c_string_app_nul.
  rewrite takeZ_app_length.
  apply c_string_idem.
Qed.

Lemma X21_output_names_round_trip_witness :
  KeyHash.c_string (Cli.make_output_name_encrypt [97; 46; 116; 0] (replicate 16 0) 16)
  = KeyHash.c_string [97; 46; 116; 0] ++ [46; 103; 111; 115; 116; 50]
  /\ exists r,
       Cli.make_output_name_decrypt
         (Cli.make_output_name_encrypt [97; 46; 116; 0] (replicate 16 0) 16)
         (replicate 16 0) 16
       = Some r /\
       KeyHash.c_string r = KeyHash.c_string [97; 46; 116; 0].
Proof.
  apply (X21_output_names_round_trip [97; 46; 116; 0] (replicate 16 0) (replicate 16 0) 16).
  - cbn. lia.
  - cbn. lia.
Defined.

(** X22: the output name is the input name itself exactly when the input
    name has [outsz - 1] characters and, for decryption, does not end in
    [".gost2"]: the appended extension is then cut off entirely.  The
    branch of [make_output_name_decrypt] that strips the suffix stays
    inside [out] exactly when the stripped name and its NUL fit there. *)
Theorem X22_output_name_clash (inp out : list Z) (outsz : Z) :
  0 < outsz ->
  let N := KeyHash.c_string inp in
  (KeyHash.c_string (Cli.make_output_name_encrypt inp out outsz) = N
   <-> Z.of_nat (length N) = outsz - 1)
  /\ (forall r, Cli.make_output_name_decrypt inp out outsz = Some r ->
       (KeyHash.c_string r = N
        <-> Cli.has_suffix inp Cli.dot_gost2 = 0 /\ Z.of_nat (length N) = outsz - 1))
  /\ (Cli.make_output_name_decrypt inp out outsz = None
      <-> Cli.has_suffix inp Cli.dot_gost2 = 1
          /\ Z.of_nat (length out) < Z.of_nat (length N) - 5).
Proof.
  intros Hsz N.
  assert (HG : KeyHash.c_string Cli.dot_gost2 = [46; 103; 111; 115; 116; 50])
    by reflexivity.
  assert (HD : KeyHash.c_string Cli.dot_dec = [46; 100; 101; 99]) by reflexivity.
  split; [|split].
  - unfold Cli.make_output_name_encrypt.
    rewrite c_string_snprintf by lia. fold N. rewrite HG.
    rewrite take_eq_self by (try discriminate; lia). reflexivity.
  - intros r Hr. unfold Cli.make_output_name_decrypt in Hr.
    destruct (has_suffix_cases inp Cli.dot_gost2) as [[H1 [pre Hpre]] | [H0 _]].
    + rewrite H1 in Hr. cbn [Z.eqb negb] in Hr. fold N in Hr, Hpre.
      destruct (Z.ltb_spec (Z.of_nat (length out)) (Z.of_nat (length N) - 6 + 1))
        as [_|_]; [discriminate Hr|].
      injection Hr as <-.
      rewrite write_at_0, <- app_assoc. cbn [app].
      rewrite c_string_app_nul.
      rewrite (c_string_nonzero (Codec.takeZ _ N))
        by (apply Forall_take; apply c_string_no_nul).
      rewrite H1. split.
      * intros E. apply (f_equal length) in E. unfold Codec.takeZ in E.
        rewrite length_take in E.
        rewrite Hpre, HG, !length_app in E. cbn [length] in E. lia.
      * intros [C _]. discriminate C.
    + rewrite H0 in Hr. cbn [Z.eqb negb] in Hr. injection Hr as <-.
      rewrite c_string_snprintf by lia. fold N. rewrite HD.
      rewrite take_eq_self by (try discriminate; lia).
      split; [intros E; split; [exact H0 | exact E] | intros [_ E]; exact E].
  - unfold Cli.make_output_name_decrypt. fold N.
    destruct (has_suffix_cases inp Cli.dot_gost2) as [[H1 _] | [H0 _]].
    + rewrite H1. cbn [Z.eqb negb].
      destruct (Z.ltb_spec (Z.of_nat (length out)) (Z.of_nat (length N) - 6 + 1))
        as [Hlt|Hge].
      * split; [intros _; split; [reflexivity | lia] | reflexivity].
      * split; [discriminate | intros [_ C]; lia].
    + rewrite H0. cbn [Z.eqb negb].
      split; [discriminate | intros [C _]; discriminate C].
Qed.

Lemma X22_output_name_clash_witness :
  let N := KeyHash.c_string [97; 98; 99; 0] in
  (KeyHash.c_string (Cli.make_output_name_encrypt [97; 98; 99; 0] (replicate 4 0) 4) = N
   <-> Z.of_nat (length N) = 4 - 1)
  /\ (forall r, Cli.make_output_name_decrypt [97; 98; 99; 0] (replicate 4 0) 4 = Some r ->
       (KeyHash.c_string r = N
        <-> Cli.has_suffix [97; 98; 99; 0] Cli.dot_gost2 = 0 /\ Z.of_nat (length N) = 4 - 1))
  /\ (Cli.make_output_name_decrypt [97; 98; 99; 0] (replicate 4 0) 4 = None
      <-> Cli.has_suffix [97; 98; 99; 0] Cli.dot_gost2 = 1
          /\ Z.of_nat (length (replicate 4 0)) < Z.of_nat (length N) - 5).
Proof.
  apply (X22_output_name_clash [97; 98; 99; 0] (replicate 4 0) 4). lia.
Defined.

(** X28: [generate_iv] always leaves 16 bytes in [iv], none of them the
    content the array had before: the 16 bytes read from [/dev/urandom]
    when it delivered that many, and otherwise (it did not open, or [read]
    failed or came short) [rand() & 0xFF] sixteen times over.  With such
    an IV an encryption run of [main] ends with exit code 0 and a file
    that starts with the IV. *)
Theorem X28_generate_iv_fills_the_block (iv p pw : list Z) (e : Cli.entropy) :
  length iv = 16%nat -> bytes_ok pw ->
  (forall got, Cli.urandom e = Some got -> bytes_ok got) ->
  let iv' := Cli.generate_iv iv e in
  length iv' = 16%nat /\ bytes_ok iv'
  /\ (forall got, Cli.urandom e = Some got -> length got = 16%nat -> iv' = got)
  /\ ((forall got, Cli.urandom e = Some got -> (length got < 16)%nat) ->
      iv' = map (fun i => Cli.rand e i mod 256) (seq 0 16))
  /\ exists out rest,
       Main.main (Spec.run Main.ModeEncrypt p pw iv') = Some out /\
       Main.exit_code out = 0 /\ Main.output_file out = Some (iv' ++ rest).
Proof.
  intros Hiv Hpw Hgot iv'.
  assert (Hrand : forall l : list Z, length l = 16%nat ->
            length (Cli.rand_fill 16 0 e l) = 16%nat /\
            bytes_ok (Cli.rand_fill 16 0 e l)).
  { intros l Hl. rewrite (rand_fill_16 e l Hl). split; [reflexivity|].
    apply Forall_map. apply Forall_forall. intros i _. cbn.
    unfold byte_ok. apply Z.mod_pos_bound. lia. }
  assert (Hshape : length iv' = 16%nat /\ bytes_ok iv'
            /\ (forall got, Cli.urandom e = Some got -> length got = 16%nat -> iv' = got)
            /\ ((forall got, Cli.urandom e = Some got -> (length got < 16)%nat) ->
                iv' = map (fun i => Cli.rand e i mod 256) (seq 0 16))).
  { unfold iv', Cli.generate_iv.
    destruct (Cli.urandom e) as [got|] eqn:Hu.
    - cbv zeta. change Codec.BLOCK_SIZE with 16.
      assert (Hw : length (Codec.write_at 0 (Codec.takeZ 16 got) iv) = 16%nat).
      { rewrite write_at_0, length_app, length_drop. unfold Codec.takeZ.
        rewrite length_take. lia. }
      destruct (Z.eqb_spec (Z.of_nat (length (Codec.takeZ 16 got))) 16) as [E|N].
      + assert (Hall : Codec.write_at 0 (Codec.takeZ 16 got) iv = Codec.takeZ 16 got).
        { rewrite write_at_0. rewrite drop_ge by lia. apply app_nil_r. }
        rewrite Hall.
        split; [lia|]. split; [apply Forall_take; apply (Hgot got); reflexivity|].
        split.
        * intros got' Hg Hl. injection Hg as <-. apply takeZ_all. lia.
        * intros Hshort. specialize (Hshort got eq_refl).
          unfold Codec.takeZ in E. rewrite length_take in E. lia.
      + destruct (Hrand _ Hw) as [R1 R2].
        split; [exact R1|]. split; [exact R2|]. split.
        * intros got' Hg Hl. injection Hg as <-. exfalso. apply N.
          unfold Codec.takeZ. rewrite length_take. lia.
        * intros _. apply rand_fill_16. exact Hw.
    - destruct (Hrand iv Hiv) as [R1 R2].
      split; [exact R1|]. split; [exact R2|]. split.
      + intros got Hg. discriminate Hg.
      + intros _. apply rand_fill_16. exact Hiv. }
  destruct Hshape as (H1 & H2 & H3 & H4).
  split; [exact H1|]. split; [exact H2|]. split; [exact H3|]. split; [exact H4|].
  eexists _, _. split; [apply (main_encrypt_run p pw iv' Hpw H1)|].
  split; reflexivity.
Qed.

Lemma X28_generate_iv_fills_the_block_witness :
  let e := {| Cli.urandom := Some [1; 2; 3]; Cli.rand := fun i => Z.of_nat i + 300 |} in
  let iv' := Cli.generate_iv (replicate 16 7) e in
  length iv' = 16%nat /\ bytes_ok iv'
  /\ (forall got, Cli.urandom e = Some got -> length got = 16%nat -> iv' = got)
  /\ ((forall got, Cli.urandom e = Some got -> (length got < 16)%nat) ->
      iv' = map (fun i => Cli.rand e i mod 256) (seq 0 16))
  /\ exists out rest,
       Main.main (Spec.run Main.ModeEncrypt [104; 105] Samples.password iv') = Some out /\
       Main.exit_code out = 0 /\ Main.output_file out = Some (iv' ++ rest).
Proof.
  apply (X28_generate_iv_fills_the_block (replicate 16 7) [104; 105] Samples.password
           {| Cli.urandom := Some [1; 2; 3]; Cli.rand := fun i => Z.of_nat i + 300 |}).
  - reflexivity.
  - exact sample_password_bytes.
  - intros got H. injection H as <-. bytes_by_evaluation.
Defined.

(** X29: the prompt of the Windows build, on a line of keys that are
    neither a backspace nor an end of line.  When Ctrl+C follows the line,
    the prompt ends the process with status 1; the buffer then holds the
    characters typed, at most [buflen - 1] of them, no NUL has been
    written after them and nothing is cleared.  When the line ends
    instead, with a carriage return, a newline, [EOF] or no further key,
    the prompt returns with the same characters and a NUL after them. *)
Theorem X29_win32_prompt_ctrl_c (buf line rest : list Z) (buflen : Z) :
  Forall Laws.plain_key line ->
  1 <= buflen <= Z.of_nat (length buf) ->
  let stored := map to_uchar (Codec.takeZ (buflen - 1) line) in
  Cli.prompt_password_win32 buf buflen (line ++ 3 :: rest)
  = Cli.PromptExits 1 (Codec.write_at 0 stored buf)
  /\ (forall ch, ch = 13 \/ ch = 10 \/ ch = -1 ->
      Cli.prompt_password_win32 buf buflen (line ++ ch :: rest)
      = Cli.PromptReturns (Codec.write_at 0 (stored ++ [0]) buf))
  /\ Cli.prompt_password_win32 buf buflen line
     = Cli.PromptReturns (Codec.write_at 0 (stored ++ [0]) buf).
Proof.
  intros Hl Hb stored.
  pose proof (stored_length line buflen (proj1 Hb)) as Hs. fold stored in Hs.
  assert (Hnul : <[Z.to_nat (Z.of_nat (length stored)) := 0]> (Codec.write_at 0 stored buf)
                 = Codec.write_at 0 (stored ++ [0]) buf)
    by (apply write_at_0_nul; lia).
  split; [|split].
  - rewrite (prompt_win32_plain buf line (3 :: rest) buflen Hl Hb). reflexivity.
  - intros ch Hch.
    rewrite (prompt_win32_plain buf line (ch :: rest) buflen Hl Hb). fold stored.
    cbn [Cli.getch_loop].
    assert (E : (ch =? 13) || (ch =? 10) || (ch =? -1) = true).
    { destruct Hch as [-> | [-> | ->]]; reflexivity. }
    rewrite E, Hnul. reflexivity.
  - rewrite <- (app_nil_r line) at 1.
    rewrite (prompt_win32_plain buf line [] buflen Hl Hb). fold stored.
    cbn [Cli.getch_loop]. rewrite Hnul. reflexivity.
Qed.

Lemma X29_win32_prompt_ctrl_c_witness :
  Cli.prompt_password_win32 (replicate 8 7) 4 ([112; 119; 49; 50] ++ 3 :: [97; 13])
  = Cli.PromptExits 1 [112; 119; 49; 7; 7; 7; 7; 7]
  /\ (forall ch, ch = 13 \/ ch = 10 \/ ch = -1 ->
      Cli.prompt_password_win32 (replicate 8 7) 4 ([112; 119; 49; 50] ++ ch :: [97; 13])
      = Cli.PromptReturns [112; 119; 49; 0; 7; 7; 7; 7])
  /\ Cli.prompt_password_win32 (replicate 8 7) 4 [112; 119; 49; 50]
     = Cli.PromptReturns [112; 119; 49; 0; 7; 7; 7; 7].
Proof.
  apply (X29_win32_prompt_ctrl_c (replicate 8 7) [112; 119; 49; 50] [97; 13] 4).
  - repeat constructor; lia.
  - cbn. lia.
Defined.

(** X30: for every sequence of keys, backspaces included, the prompt of
    the Windows build ends the process exactly when Ctrl+C comes before
    the end of the line, and with status 1; in every other case it returns
    and leaves a string of at most [buflen - 1] characters.  Either way
    the buffer keeps its size and nothing is written at [buflen] or
    beyond. *)
Theorem X30_win32_prompt_ends (buf keys : list Z) (buflen : Z) :
  1 <= buflen <= Z.of_nat (length buf) ->
  ((exists pre rest, keys = pre ++ 3 :: rest /\ Forall Laws.goes_on pre) ->
   exists b, Cli.prompt_password_win32 buf buflen keys = Cli.PromptExits 1 b /\
             length b = length buf /\ Codec.dropZ buflen b = Codec.dropZ buflen buf)
  /\ (~ (exists pre rest, keys = pre ++ 3 :: rest /\ Forall Laws.goes_on pre) ->
      exists b, Cli.prompt_password_win32 buf buflen keys = Cli.PromptReturns b /\
                length b = length buf /\ Codec.dropZ buflen b = Codec.dropZ buflen buf /\
                Z.of_nat (length (KeyHash.c_string b)) <= buflen - 1).
Proof.
  intros Hb. unfold Cli.prompt_password_win32.
  pose proof (getch_loop_bounds keys buflen 0 buf) as HB.
  pose proof (getch_loop_exits keys buflen 0 buf) as HE.
  destruct (Cli.getch_loop keys buflen 0 buf) as [b | st b].
  - destruct HB as (H1 & H2 & j & Hj & H3); [lia|].
    split.
    + intros HP. apply HE in HP. destruct HP as (st & b' & H). discriminate H.
    + intros _. exists b. split; [reflexivity|]. split; [exact H1|].
      split; [exact H2|].
      assert (Z.of_nat (length (KeyHash.c_string b)) <= j); [|lia].
      apply c_string_stops; [rewrite H1; lia | apply H3; lia].
  - destruct HB as (-> & H1 & H2); [lia|].
    split.
    + intros _. exists b. split; [reflexivity|]. split; [exact H1 | exact H2].
    + intros HN. destruct HN. apply HE. exists 1, b. reflexivity.
Qed.

Lemma X30_win32_prompt_ends_witness :
  ((exists pre rest, [97; 8; 98; 99; 100; 101; 3; 10] = pre ++ 3 :: rest /\
                     Forall Laws.goes_on pre) ->
   exists b, Cli.prompt_password_win32 (replicate 8 7) 4 [97; 8; 98; 99; 100; 101; 3; 10]
             = Cli.PromptExits 1 b /\
             length b = length (replicate 8 7) /\
             Codec.dropZ 4 b = Codec.dropZ 4 (replicate 8 7))
  /\ (~ (exists pre rest, [97; 8; 98; 99; 100; 101; 3; 10] = pre ++ 3 :: rest /\
                          Forall Laws.goes_on pre) ->
      exists b, Cli.prompt_password_win32 (replicate 8 7) 4 [97; 8; 98; 99; 100; 101; 3; 10]
                = Cli.PromptReturns b /\
                length b = length (replicate 8 7) /\
                Codec.dropZ 4 b = Codec.dropZ 4 (replicate 8 7) /\
                Z.of_nat (length (KeyHash.c_string b)) <= 4 - 1).
Proof.
  apply (X30_win32_prompt_ends (replicate 8 7) [97; 8; 98; 99; 100; 101; 3; 10] 4).
  cbn. lia.
Defined.
(** ** More on the stream functions and [main] *)

Section StreamLaws.
Import Gost Sha256 Spec Codec Main Laws.

Variable key : list Z.

Lemma block_0_app (a l : list Z) : length a = 16%nat -> block 0 (a ++ l) = a.
Proof.
  intros Ha. unfold block. change (16 * 0) with 0. rewrite dropZ_0.
  apply takeZ_app_length'. lia.
Qed.

Lemma block_S_app (a l : list Z) j :
  length a = 16%nat -> 0 < j -> block j (a ++ l) = block (j - 1) l.
Proof.
  intros Ha Hj. unfold block. rewrite dropZ_app_r by lia.
  f_equal. f_equal. lia.
Qed.

Lemma block_0 (l : list Z) : block 0 l = take 16 l.
Proof. unfold block. change (16 * 0) with 0. rewrite dropZ_0. reflexivity. Qed.

Lemma block_S (l : list Z) j : 0 < j -> block j l = block (j - 1) (drop 16 l).
Proof.
  intros Hj. unfold block. f_equal. unfold dropZ. rewrite drop_drop.
  f_equal. lia.
Qed.

(** The equation of CBC encryption, block by block. *)
Lemma cbc_enc_blocks n : forall (prev data : list Z) j,
    length prev = 16%nat -> 0 <= j < Z.of_nat n ->
    block j (cbc_enc n key prev data)
    = encipher key (xor_bytes (block j data)
                      (block j (prev ++ cbc_enc n key prev data))).
Proof.
  induction n as [|n IH]; intros prev data j Hp Hj; [lia|].
  cbn [cbc_enc].
  set (c0 := cbc_enc_block key prev (take 16 data)).
  assert (Hc0 : length c0 = 16%nat) by apply cbc_enc_block_length.
  destruct (Z.eq_dec j 0) as [->|Hne].
  - rewrite !block_0_app by assumption. rewrite block_0. reflexivity.
  - rewrite !block_S_app by (try assumption; lia).
    rewrite (block_S data) by lia.
    apply IH; [exact Hc0 | lia].
Qed.

(** The equation of CBC decryption, block by block. *)
Lemma cbc_dec_blocks n : forall (prev data : list Z) j,
    length prev = 16%nat -> lenZ data = 16 * Z.of_nat n -> 0 <= j < Z.of_nat n ->
    block j (cbc_dec n key prev data)
    = xor_bytes (decipher key (block j data)) (block j (prev ++ data)).
Proof.
  induction n as [|n IH]; intros prev data j Hp Hd Hj; [lia|].
  cbn [cbc_dec].
  destruct (split_block data n Hd) as (Hsplit & H16 & Hrest).
  assert (Hb0 : length (cbc_dec_block key prev (take 16 data)) = 16%nat)
    by (apply cbc_dec_block_length; exact Hp).
  destruct (Z.eq_dec j 0) as [->|Hne].
  - rewrite !block_0_app by assumption. rewrite block_0. reflexivity.
  - rewrite block_S_app by (try assumption; lia).
    rewrite (block_S_app prev data) by (try assumption; lia).
    rewrite (block_S data) by lia.
    rewrite IH by (try assumption; lia).
    rewrite take_drop. reflexivity.
Qed.

Lemma block_app_l (a b : list Z) j :
  0 <= j -> 16 * (j + 1) <= lenZ a -> block j (a ++ b) = block j a.
Proof.
  intros Hj Hlen. unfold block, takeZ, dropZ.
  rewrite drop_app_le by lia.
  rewrite take_app_le by (rewrite length_drop; lia).
  reflexivity.
Qed.

Lemma block_takeZ k (l : list Z) j :
  0 <= j -> 16 * (j + 1) <= k -> block j (takeZ k l) = block j l.
Proof.
  intros Hj Hk. unfold block, takeZ, dropZ.
  replace (Z.to_nat k)
    with (Z.to_nat (16 * j) + (Z.to_nat k - Z.to_nat (16 * j)))%nat by lia.
  rewrite <- take_drop_commute.
  rewrite take_take. f_equal. lia.
Qed.

Lemma file_regions (file : list Z) :
  48 <= lenZ file ->
  file = iv_of file ++ ciphertext_of file ++ trailer_of file.
Proof.
  intros H. unfold iv_of, ciphertext_of, trailer_of, takeZ, dropZ.
  rewrite <- (take_drop 16 file) at 1. f_equal.
  rewrite <- (take_drop (Z.to_nat (lenZ file - 48)) (drop 16 file)) at 1. f_equal.
  rewrite drop_drop. f_equal. lia.
Qed.

(** The regions of a file put together from an IV, a ciphertext of
    whole blocks and a trailer. *)
Lemma regions_of (iv c h : list Z) :
  length iv = 16%nat -> 0 < lenZ c -> lenZ c mod 16 = 0 -> length h = 32%nat ->
  well_formed (iv ++ c ++ h) /\
  iv_of (iv ++ c ++ h) = iv /\
  ciphertext_of (iv ++ c ++ h) = c /\
  trailer_of (iv ++ c ++ h) = h.
Proof.
  intros Hiv Hc Hm Hh.
  assert (Hfile : lenZ (iv ++ c ++ h) = 16 + lenZ c + 32)
    by (rewrite !lenZ_app; lia).
  unfold well_formed, iv_of, ciphertext_of, trailer_of. rewrite Hfile.
  split; [|split; [|split]].
  - split; [lia|]. split; [lia|].
    replace (16 + lenZ c + 32 - 48) with (lenZ c) by lia. exact Hm.
  - apply takeZ_app_length'. lia.
  - rewrite dropZ_app_length' by lia.
    apply takeZ_app_length'. lia.
  - rewrite app_assoc. apply dropZ_app_length'. rewrite lenZ_app. lia.
Qed.

Lemma well_formed_size (file : list Z) :
  well_formed file <-> 64 <= lenZ file /\ lenZ file mod 16 = 0.
Proof.
  unfold well_formed.
  assert (Hmod : (lenZ file - 48) mod 16 = lenZ file mod 16).
  { replace (lenZ file) with ((lenZ file - 48) + 3 * 16) at 2 by lia.
    symmetry. apply Z.mod_add. lia. }
  rewrite Hmod.
  pose proof (Z.div_mod (lenZ file) 16 ltac:(lia)) as Hdm.
  split.
  - intros (H1 & H2 & H3). split; [lia | exact H3].
  - intros (H1 & H2). split; [lia|]. split; [lia | exact H2].
Qed.

Lemma ciphertext_of_blocks (file : list Z) :
  well_formed file ->
  lenZ (ciphertext_of file) = 16 * Z.of_nat (blocks (ciphertext_of file)) /\
  Z.of_nat (blocks (ciphertext_of file)) = (lenZ file - 48) / 16 /\
  length (iv_of file) = 16%nat.
Proof.
  intros (H48 & Hpos & Hmod).
  destruct (region_lengths file H48) as (Hiv & Hct & _).
  unfold blocks. rewrite Hct.
  rewrite Z2Nat.id by (apply Z.div_pos; lia).
  pose proof (Z.div_mod (lenZ file - 48) 16 ltac:(lia)).
  split; [lia|]. split; [reflexivity | lia].
Qed.

(** A well-formed file whose ciphertext decrypts to a padded plaintext
    is decrypted to that plaintext. *)
Lemma decrypts_padded (file p : list Z) :
  well_formed file -> bytes_ok file -> decrypted key file = pkcs7 p ->
  cbc_decrypt_stream (fopen file) key
  = Some {| dec_err := None; dec_fout := p; dec_auth_ok := digest_flag file;
            dec_reads := read_sizes (lenZ file - 48) |}.
Proof.
  intros Hwf Hb Hd.
  destruct (pkcs7_unpadded p) as [Hrule Hrec].
  assert (Hw : withheld key file = dropZ (lenZ (pkcs7 p) - 16) (pkcs7 p))
    by (unfold withheld; rewrite Hd; reflexivity).
  assert (Hrecov : recovered key file = p).
  { unfold recovered. rewrite Hw. unfold emitted_early. rewrite Hd. exact Hrec. }
  destruct (decrypt_outcome key _ Hwf Hb) as [[_ Hrun] | [Hn _]].
  - rewrite Hrun, Hrecov. reflexivity.
  - exfalso. apply Hn. rewrite Hw. exact Hrule.
Qed.

Lemma xor_bytes_assoc (a b c : list Z) :
  xor_bytes (xor_bytes a b) c = xor_bytes a (xor_bytes b c).
Proof.
  unfold xor_bytes. revert b c.
  induction a as [|x a IH]; intros [|y b] [|z c]; cbn [zip_with]; try reflexivity.
  rewrite IH, Z.lxor_assoc. reflexivity.
Qed.

Lemma pkcs7_same_length (p q : list Z) :
  length p = length q -> pkcs7 q = q ++ drop (length p) (pkcs7 p).
Proof.
  intros H. unfold pkcs7. rewrite drop_app_length. rewrite H. reflexivity.
Qed.

End StreamLaws.

(** X23: an encryption run of [main] ends with exit code 0 and leaves the
    IV in clear, then the ciphertext, then SHA-256 of the ciphertext alone;
    block [j] of the ciphertext is the cipher applied to the XOR of block
    [j] of the padded plaintext with the block before it in the file (the
    IV for [j = 0]). *)
Theorem X23_encrypted_file_blocks (p pw iv : list Z) :
  bytes_ok pw -> length iv = 16%nat ->
  exists out c,
    Main.main (Spec.run Main.ModeEncrypt p pw iv) = Some out /\
    Main.exit_code out = 0 /\
    Main.output_file out = Some (iv ++ c ++ Spec.sha256 c) /\
    Z.of_nat (length c) = (Z.of_nat (length p) / 16 + 1) * 16 /\
    forall j, 0 <= j < Z.of_nat (length c) / 16 ->
      Laws.block j c
      = Laws.encipher (Spec.subkeys_for pw)
          (Spec.xor_bytes (Laws.block j (Spec.pkcs7 p)) (Laws.block j (iv ++ c))).
Proof.
  intros Hpw Hiv.
  exists {| Main.exit_code := 0;
            Main.output_file := Some (Spec.container (Spec.subkeys_for pw) iv p);
            Main.auth_report := None;
            Main.password_mem := Some (replicate 256 0);
            Main.subkeys_mem := Some (Spec.subkeys_for pw) |},
         (Spec.ciphertext (Spec.subkeys_for pw) iv p).
  split; [apply main_encrypt_run; assumption|].
  split; [reflexivity|]. split; [reflexivity|].
  destruct (pkcs7_length p) as (_ & Hm & Hl).
  assert (Hn : Z.of_nat (length (Spec.pkcs7 p))
               = 16 * Z.of_nat (Spec.blocks (Spec.pkcs7 p))).
  { unfold Spec.blocks.
    pose proof (Z.div_mod (Z.of_nat (length (Spec.pkcs7 p))) 16 ltac:(lia)).
    rewrite Z2Nat.id by (apply Z.div_pos; lia). lia. }
  assert (Hc : Z.of_nat (length (Spec.ciphertext (Spec.subkeys_for pw) iv p))
               = 16 * Z.of_nat (Spec.blocks (Spec.pkcs7 p)))
    by (unfold Spec.ciphertext; apply cbc_enc_length).
  split; [lia|].
  intros j Hj. rewrite Hc in Hj. unfold Spec.ciphertext.
  apply cbc_enc_blocks; [exact Hiv|]. rewrite Z.mul_comm, Z.div_mul in Hj by lia. exact Hj.
Qed.

Lemma X23_encrypted_file_blocks_witness :
  exists out c,
    Main.main (Spec.run Main.ModeEncrypt [104; 105] Samples.password Samples.iv) = Some out /\
    Main.exit_code out = 0 /\
    Main.output_file out = Some (Samples.iv ++ c ++ Spec.sha256 c) /\
    Z.of_nat (length c) = (Z.of_nat (length [104; 105]) / 16 + 1) * 16 /\
    forall j, 0 <= j < Z.of_nat (length c) / 16 ->
      Laws.block j c
      = Laws.encipher (Spec.subkeys_for Samples.password)
          (Spec.xor_bytes (Laws.block j (Spec.pkcs7 [104; 105]))
             (Laws.block j (Samples.iv ++ c))).
Proof.
  apply (X23_encrypted_file_blocks [104; 105] Samples.password Samples.iv).
  - exact sample_password_bytes.
  - reflexivity.
Defined.

(** X24: in a decryption run over a well-formed file, every 16-byte block
    written before the withheld last one is the inverse cipher of the
    file's block [j + 1] XORed with the file's block [j]: a plaintext block
    depends on two neighbouring blocks of the file and on nothing else in
    it. *)
Theorem X24_decrypted_blocks (file key : list Z) :
  Spec.well_formed file -> bytes_ok file ->
  exists r,
    Codec.cbc_decrypt_stream (Codec.fopen file) key = Some r /\
    forall j, 0 <= j < (Z.of_nat (length file) - 48) / 16 - 1 ->
      Laws.block j (Codec.dec_fout r)
      = Spec.xor_bytes (Laws.decipher key (Laws.block (j + 1) file)) (Laws.block j file).
Proof.
  intros Hwf Hb.
  destruct (ciphertext_of_blocks file Hwf) as (Hc & Hn & Hiv).
  destruct (decrypted_facts key file Hwf Hb) as (Hd & _ & _).
  pose proof Hwf as (H48 & _ & _).
  destruct (region_lengths file H48) as (_ & Hct & Htr).
  assert (Hblk : forall j, 0 <= j < (Z.of_nat (length file) - 48) / 16 - 1 ->
            Laws.block j (Spec.emitted_early key file)
            = Spec.xor_bytes (Laws.decipher key (Laws.block (j + 1) file))
                (Laws.block j file)).
  { intros j Hj. unfold Spec.emitted_early.
    rewrite block_takeZ by lia.
    unfold Spec.decrypted.
    rewrite (cbc_dec_blocks key _ _ _ j Hiv Hc) by lia.
    assert (E1 : Laws.block (j + 1) file = Laws.block j (Spec.ciphertext_of file)).
    { rewrite (file_regions file H48) at 1.
      rewrite (block_S_app (Spec.iv_of file) _ (j + 1) Hiv) by lia.
      replace (j + 1 - 1) with j by lia.
      apply block_app_l; lia. }
    assert (E2 : Laws.block j file
                 = Laws.block j (Spec.iv_of file ++ Spec.ciphertext_of file)).
    { rewrite (file_regions file H48) at 1.
      rewrite (app_assoc (Spec.iv_of file)).
      apply block_app_l; [lia|]. rewrite length_app. lia. }
    rewrite E1, E2. reflexivity. }
  destruct (decrypt_outcome key file Hwf Hb) as [[_ Hrun] | [_ Hrun]];
    rewrite Hrun; eexists; (split; [reflexivity|]); cbn [Codec.dec_fout];
    intros j Hj.
  - unfold Spec.recovered. rewrite block_app_l; [apply Hblk; exact Hj | lia |].
    unfold Spec.emitted_early. rewrite takeZ_length by lia. lia.
  - apply Hblk. exact Hj.
Qed.

Lemma X24_decrypted_blocks_witness :
  exists r,
    Codec.cbc_decrypt_stream (Codec.fopen (replicate 80 0)) [] = Some r /\
    forall j, 0 <= j < (Z.of_nat (length (replicate 80 0)) - 48) / 16 - 1 ->
      Laws.block j (Codec.dec_fout r)
      = Spec.xor_bytes (Laws.decipher [] (Laws.block (j + 1) (replicate 80 0)))
          (Laws.block j (replicate 80 0)).
Proof.
  apply (X24_decrypted_blocks (replicate 80 0) []).
  - unfold Spec.well_formed. change (Z.of_nat (length (replicate 80 0))) with 80.
    split; [lia|]. split; [lia | reflexivity].
  - bytes_by_evaluation.
Defined.

(** X25: the trailer covers the ciphertext only, so a change of the IV in
    a file goes unnoticed: when the first 16 bytes of an encrypted file are
    XORed with [d], decryption still ends with exit code 0 and reports the
    digest as matching, and the plaintext it writes is the original with
    its first 16 bytes XORed with [d]. *)
Theorem X25_iv_change_goes_unnoticed (p pw iv d iv' : list Z) :
  bytes_ok p -> bytes_ok pw -> bytes_ok iv -> bytes_ok d ->
  length iv = 16%nat -> length d = 16%nat -> 16 <= Z.of_nat (length p) ->
  let c := Spec.ciphertext (Spec.subkeys_for pw) iv p in
  Main.main (Spec.run Main.ModeEncrypt p pw iv)
  = Some {| Main.exit_code := 0;
            Main.output_file := Some (iv ++ c ++ Spec.sha256 c);
            Main.auth_report := None;
            Main.password_mem := Some (replicate 256 0);
            Main.subkeys_mem := Some (Spec.subkeys_for pw) |}
  /\ Main.main (Spec.run Main.ModeDecrypt (Spec.xor_bytes iv d ++ c ++ Spec.sha256 c) pw iv')
     = Some {| Main.exit_code := 0;
               Main.output_file := Some (Spec.xor_bytes (take 16 p) d ++ drop 16 p);
               Main.auth_report := Some 1;
               Main.password_mem := Some (replicate 256 0);
               Main.subkeys_mem := Some (Spec.subkeys_for pw) |}.
Proof.
  intros Hp Hpw Hiv Hd Liv Ld Lp c.
  split; [apply main_encrypt_run; assumption|].
  set (key := Spec.subkeys_for pw) in *.
  remember (Spec.blocks (Spec.pkcs7 p)) as n eqn:En.
  assert (Hcdef : c = Spec.cbc_enc n key iv (Spec.pkcs7 p))
    by (rewrite En; reflexivity).
  clearbody c.
  destruct (pkcs7_length p) as (Hpl & Hm & Hl).
  pose proof (pad_length_range (Z.of_nat (length p))) as Hpad.
  assert (Hn : Z.of_nat (length (Spec.pkcs7 p)) = 16 * Z.of_nat n).
  { rewrite En. unfold Spec.blocks.
    pose proof (Z.div_mod (Z.of_nat (length (Spec.pkcs7 p))) 16 ltac:(lia)).
    rewrite Z2Nat.id by (apply Z.div_pos; lia). lia. }
  assert (Hc : Z.of_nat (length c) = 16 * Z.of_nat n)
    by (rewrite Hcdef; apply cbc_enc_length).
  assert (Hn2 : (2 <= n)%nat) by lia.
  assert (Lx : length (Spec.xor_bytes iv d) = 16%nat)
    by (rewrite xor_bytes_length; lia).
  assert (Lh : length (Spec.sha256 c) = 32%nat)
    by (unfold Spec.sha256; apply sha256_final_length).
  destruct (regions_of (Spec.xor_bytes iv d) c (Spec.sha256 c) Lx ltac:(lia)
              ltac:(rewrite Hc, Z.mul_comm; apply Z.mod_mul; lia) Lh)
    as (Hwf & Eiv & Ect & Etr).
  set (file := Spec.xor_bytes iv d ++ c ++ Spec.sha256 c) in *.
  assert (Hfb : bytes_ok file).
  { unfold file. apply Forall_app. split; [apply xor_bytes_bytes; assumption|].
    apply Forall_app. split; [rewrite Hcdef; apply cbc_enc_bytes | apply sha256_final_bytes]. }
  (* the plaintext the changed file decrypts to *)
  set (p' := Spec.xor_bytes (take 16 p) d ++ drop 16 p).
  assert (Lt : length (take 16 p) = 16%nat) by (rewrite length_take; lia).
  assert (Lp' : length p = length p').
  { unfold p'. rewrite length_app, xor_bytes_length, Lt, length_drop by lia. lia. }
  assert (Hdec : Spec.decrypted key file = Spec.pkcs7 p').
  { unfold Spec.decrypted. rewrite Eiv, Ect.
    rewrite (blocks_exact c n Hc).
    pose proof (cbc_dec_cbc_enc key n iv (Spec.pkcs7 p) Hiv
                  (pkcs7_bytes p Hp) Liv Hn) as Hrt.
    rewrite <- Hcdef in Hrt. clear Hcdef En.
    destruct n as [|n']; [lia|].
    cbn [Spec.cbc_dec] in Hrt |- *.
    unfold Spec.cbc_dec_block in Hrt |- *.
    set (Dc := Codec.be_words_to_bytes
                 (Gost.gostdecrypt (Codec.be_bytes_to_words (take 16 c)) key)) in *.
    set (R := Spec.cbc_dec n' key (take 16 c) (drop 16 c)) in *.
    assert (LD : length (Spec.xor_bytes Dc iv) = 16%nat).
    { rewrite xor_bytes_length; unfold Dc; rewrite be_words_to_bytes_length; lia. }
    assert (Ht : take 16 (Spec.pkcs7 p) = Spec.xor_bytes Dc iv)
      by (rewrite <- Hrt; apply take_app_length'; symmetry; exact LD).
    assert (Hr : drop 16 (Spec.pkcs7 p) = R)
      by (rewrite <- Hrt; apply drop_app_length'; symmetry; exact LD).
    rewrite <- xor_bytes_assoc, <- Ht, <- Hr.
    rewrite (pkcs7_same_length p p' Lp'). unfold p'.
    unfold Spec.pkcs7.
    rewrite take_app_le by lia. rewrite drop_app_le by lia.
    rewrite drop_app_length. rewrite <- app_assoc. reflexivity. }
  assert (Hflag : Spec.digest_flag file = 1).
  { unfold Spec.digest_flag. rewrite Ect, Etr.
    rewrite bool_decide_eq_true_2 by reflexivity. reflexivity. }
  pose proof (decrypts_padded key file p' Hwf Hfb Hdec) as Hrun.
  rewrite (main_decrypt_run file pw iv' _ Hpw Hrun).
  cbn [Codec.dec_err Codec.err_flag Z.eqb Codec.dec_fout Codec.dec_auth_ok].
  rewrite Hflag. reflexivity.
Qed.

Lemma X25_iv_change_goes_unnoticed_witness :
  let p := replicate 16 65 in
  let d := 1 :: replicate 15 0 in
  let c := Spec.ciphertext (Spec.subkeys_for Samples.password) Samples.iv p in
  Main.main (Spec.run Main.ModeEncrypt p Samples.password Samples.iv)
  = Some {| Main.exit_code := 0;
            Main.output_file := Some (Samples.iv ++ c ++ Spec.sha256 c);
            Main.auth_report := None;
            Main.password_mem := Some (replicate 256 0);
            Main.subkeys_mem := Some (Spec.subkeys_for Samples.password) |}
  /\ Main.main (Spec.run Main.ModeDecrypt
                  (Spec.xor_bytes Samples.iv d ++ c ++ Spec.sha256 c)
                  Samples.password Samples.iv)
     = Some {| Main.exit_code := 0;
               Main.output_file := Some (Spec.xor_bytes (take 16 p) d ++ drop 16 p);
               Main.auth_report := Some 1;
               Main.password_mem := Some (replicate 256 0);
               Main.subkeys_mem := Some (Spec.subkeys_for Samples.password) |}.
Proof.
  apply (X25_iv_change_goes_unnoticed (replicate 16 65) Samples.password Samples.iv
           (1 :: replicate 15 0) Samples.iv).
  - bytes_by_evaluation.
  - exact sample_password_bytes.
  - bytes_by_evaluation.
  - bytes_by_evaluation.
  - reflexivity.
  - reflexivity.
  - change (Z.of_nat (length (replicate 16 65))) with 16. lia.
Defined.

(** X26: a decryption run of [main] ends with exit code 2 and no output
    file exactly when the input has fewer than 64 bytes, or a length that
    is not a multiple of 16, or a last block that breaks the padding rule;
    in every other case it ends with exit code 0, the recovered plaintext
    as output and a digest flag of 0 or 1. *)
Theorem X26_decrypt_exit_code (file pw iv : list Z) :
  bytes_ok pw -> bytes_ok file ->
  exists out,
    Main.main (Spec.run Main.ModeDecrypt file pw iv) = Some out /\
    (Main.exit_code out = 2 <->
     Z.of_nat (length file) < 64 \/ Z.of_nat (length file) mod 16 <> 0 \/
     ~ Spec.padding_rule (Spec.withheld (Spec.subkeys_for pw) file)) /\
    (Main.exit_code out = 2 ->
     Main.output_file out = None /\ Main.auth_report out = None) /\
    (Main.exit_code out <> 2 ->
     Main.exit_code out = 0 /\
     Main.output_file out = Some (Spec.recovered (Spec.subkeys_for pw) file) /\
     (Main.auth_report out = Some 0 \/ Main.auth_report out = Some 1)).
Proof.
  intros Hpw Hb. set (key := Spec.subkeys_for pw).
  pose proof (well_formed_size file) as Hsize.
  assert (Hbad : ~ Spec.well_formed file ->
            forall e, Codec.cbc_decrypt_stream (Codec.fopen file) key
                      = Some (Codec.dec_fail e [] []) ->
            exists out,
              Main.main (Spec.run Main.ModeDecrypt file pw iv) = Some out /\
              (Main.exit_code out = 2 <->
               Z.of_nat (length file) < 64 \/ Z.of_nat (length file) mod 16 <> 0 \/
               ~ Spec.padding_rule (Spec.withheld key file)) /\
              (Main.exit_code out = 2 ->
               Main.output_file out = None /\ Main.auth_report out = None) /\
              (Main.exit_code out <> 2 ->
               Main.exit_code out = 0 /\
               Main.output_file out = Some (Spec.recovered key file) /\
               (Main.auth_report out = Some 0 \/ Main.auth_report out = Some 1))).
  { intros Hnwf e Hrun.
    rewrite (main_decrypt_run file pw iv _ Hpw Hrun).
    cbn [Codec.dec_fail Codec.dec_err Codec.err_flag Z.eqb].
    eexists. split; [reflexivity|]. cbn [Main.exit_code Main.output_file Main.auth_report].
    split; [|split].
    - split; [|reflexivity]. intros _.
      destruct (Z_lt_dec (Z.of_nat (length file)) 64) as [H|H]; [left; exact H|].
      right. left. intros Hm. apply Hnwf. apply Hsize. lia.
    - intros _. split; reflexivity.
    - intros H. exfalso. apply H. reflexivity. }
  destruct (Z_lt_dec (Z.of_nat (length file)) 48) as [Hs|Hs].
  { apply (Hbad ltac:(unfold Spec.well_formed; lia) Codec.TooSmall).
    apply cbc_decrypt_stream_too_small. exact Hs. }
  destruct (Z_lt_dec 0 (Z.of_nat (length file) - 48)) as [Hp|Hp].
  2:{ assert (Hn : ~ Spec.well_formed file) by (unfold Spec.well_formed; lia).
      apply (Hbad Hn Codec.BadSize).
      apply cbc_decrypt_stream_bad_size; [lia | exact Hn]. }
  destruct (Z.eq_dec ((Z.of_nat (length file) - 48) mod 16) 0) as [Hm|Hm].
  2:{ assert (Hn : ~ Spec.well_formed file) by (unfold Spec.well_formed; lia).
      apply (Hbad Hn Codec.BadSize).
      apply cbc_decrypt_stream_bad_size; [lia | exact Hn]. }
  assert (Hwf : Spec.well_formed file) by (unfold Spec.well_formed; lia).
  destruct (proj1 Hsize Hwf) as [H64 Hm16].
  destruct (decrypt_outcome key file Hwf Hb) as [[Hrule Hrun] | [Hrule Hrun]];
    rewrite (main_decrypt_run file pw iv _ Hpw Hrun);
    cbn [Codec.dec_err Codec.err_flag Z.eqb Codec.dec_fout Codec.dec_auth_ok];
    (eexists; split; [reflexivity|]);
    cbn [Main.exit_code Main.output_file Main.auth_report].
  - split; [|split].
    + split; [discriminate|]. intros [H|[H|H]]; [lia | congruence | destruct (H Hrule)].
    + discriminate.
    + intros _. split; [reflexivity|]. split; [reflexivity|].
      unfold Spec.digest_flag.
      destruct (bool_decide _); [right | left]; reflexivity.
  - split; [|split].
    + split; [|reflexivity]. intros _. right. right. exact Hrule.
    + intros _. split; reflexivity.
    + intros H. exfalso. apply H. reflexivity.
Qed.

Lemma X26_decrypt_exit_code_witness :
  exists out,
    Main.main (Spec.run Main.ModeDecrypt [1; 2; 3] Samples.password Samples.iv) = Some out /\
    (Main.exit_code out = 2 <->
     Z.of_nat (length [1; 2; 3]) < 64 \/ Z.of_nat (length [1; 2; 3]) mod 16 <> 0 \/
     ~ Spec.padding_rule (Spec.withheld (Spec.subkeys_for Samples.password) [1; 2; 3])) /\
    (Main.exit_code out = 2 ->
     Main.output_file out = None /\ Main.auth_report out = None) /\
    (Main.exit_code out <> 2 ->
     Main.exit_code out = 0 /\
     Main.output_file out
     = Some (Spec.recovered (Spec.subkeys_for Samples.password) [1; 2; 3]) /\
     (Main.auth_report out = Some 0 \/ Main.auth_report out = Some 1)).
Proof.
  apply (X26_decrypt_exit_code [1; 2; 3] Samples.password Samples.iv).
  - exact sample_password_bytes.
  - bytes_by_evaluation.
Defined.

(** ** From a decrypted file back to the file *)

Section Canonical.
Import Gost Sha256 Spec Codec Main Laws.

Variable key : list Z.

Lemma cbc_dec_block_bytes (prev c : list Z) :
  bytes_ok prev -> bytes_ok (cbc_dec_block key prev c).
Proof.
  intros Hp. unfold cbc_dec_block.
  apply xor_bytes_bytes; [apply be_words_to_bytes_bytes | exact Hp].
Qed.

Lemma cbc_enc_block_dec_block (prev c : list Z) :
  bytes_ok prev -> bytes_ok c ->
  length prev = 16%nat -> length c = 16%nat ->
  cbc_enc_block key prev (cbc_dec_block key prev c) = c.
Proof.
  intros Hp Hc Hlp Hlc. unfold cbc_dec_block, cbc_enc_block.
  rewrite xor_bytes_cancel by (rewrite be_words_to_bytes_length; lia).
  destruct (be_bytes_to_words_word c Hc Hlc) as [W1 W2].
  destruct (gostdecrypt_word key _ W1 W2) as [D1 D2].
  rewrite be_bytes_to_words_of_bytes by assumption.
  rewrite gostcrypt_gostdecrypt.
  apply be_words_to_bytes_of_block; assumption.
Qed.

Lemma cbc_enc_cbc_dec n : forall prev data,
    bytes_ok prev -> bytes_ok data ->
    length prev = 16%nat -> lenZ data = 16 * Z.of_nat n ->
    cbc_enc n key prev (cbc_dec n key prev data) = data.
Proof.
  induction n as [|n IH]; intros prev data Hp Hd Hlp Hld.
  - destruct data; [reflexivity | cbn in Hld; lia].
  - destruct (split_block data n Hld) as (Ed & Hb & Hd').
    cbn [cbc_enc cbc_dec].
    set (p0 := cbc_dec_block key prev (take 16 data)).
    assert (Hp0 : length p0 = 16%nat) by (apply cbc_dec_block_length; exact Hlp).
    rewrite take_app_length' by (symmetry; exact Hp0).
    rewrite drop_app_length' by (symmetry; exact Hp0).
    unfold p0.
    rewrite cbc_enc_block_dec_block;
      [|exact Hp | apply Forall_take; exact Hd | exact Hlp | exact Hb].
    rewrite IH; [apply take_drop | apply Forall_take; exact Hd
                 | apply Forall_drop; exact Hd | exact Hb | exact Hd'].
Qed.

Lemma Forall_eq_replicate (v : Z) (l : list Z) :
  Forall (fun b => b = v) l -> l = replicate (length l) v.
Proof.
  induction 1 as [|x l Hx Hl IH]; [reflexivity|].
  cbn [length replicate]. rewrite Hx, <- IH. reflexivity.
Qed.

(** Padding what the removal of a valid padding left gives the padded
    bytes back. *)
Lemma pkcs7_restores (d : list Z) :
  lenZ d mod 16 = 0 -> 16 <= lenZ d ->
  padding_rule (dropZ (lenZ d - 16) d) ->
  pkcs7 (takeZ (lenZ d - 16) d
         ++ takeZ (16 - pad_value (dropZ (lenZ d - 16) d)) (dropZ (lenZ d - 16) d))
  = d.
Proof.
  intros Hm H16 [Hv Hall].
  set (last := dropZ (lenZ d - 16) d) in *.
  set (body := takeZ (lenZ d - 16) d).
  set (v := pad_value last) in *.
  assert (Hll : lenZ last = 16) by (unfold last; rewrite dropZ_length; lia).
  assert (Hbl : lenZ body = lenZ d - 16) by (unfold body; apply takeZ_length; lia).
  rewrite Hll in Hall.
  assert (Hkeep : lenZ (takeZ (16 - v) last) = 16 - v) by (apply takeZ_length; lia).
  assert (Hpadv : dropZ (16 - v) last = replicate (Z.to_nat v) v).
  { rewrite (Forall_eq_replicate v _ Hall). f_equal.
    apply Nat2Z.inj. rewrite dropZ_length by lia. lia. }
  assert (Hlen : lenZ (body ++ takeZ (16 - v) last) = lenZ d - v)
    by (rewrite lenZ_app; lia).
  assert (Hpl : pad_length (lenZ d - v) = v).
  { unfold pad_length.
    pose proof (Z.div_mod (lenZ d) 16 ltac:(lia)) as Hdm. rewrite Hm in Hdm.
    rewrite <- (Z.mod_unique_pos (lenZ d - v) 16 (lenZ d / 16 - 1) (16 - v)); lia. }
  unfold pkcs7. rewrite Hlen, Hpl, <- Hpadv.
  rewrite <- app_assoc, (takeZ_dropZ (16 - v) last).
  unfold body, last. apply takeZ_dropZ.
Qed.

End Canonical.

(** X27: a file that decrypts without error and with the digest flag at 1
    is, byte for byte, what an encryption run of [main] writes for the
    recovered plaintext under the same password and the IV of the file:
    no other file is accepted with that flag. *)
Theorem X27_accepted_file_is_an_encryption (file pw : list Z) :
  bytes_ok pw -> Spec.well_formed file -> bytes_ok file ->
  Spec.padding_rule (Spec.withheld (Spec.subkeys_for pw) file) ->
  Spec.digest_flag file = 1 ->
  Main.main (Spec.run Main.ModeEncrypt
               (Spec.recovered (Spec.subkeys_for pw) file) pw (Spec.iv_of file))
  = Some {| Main.exit_code := 0;
            Main.output_file := Some file;
            Main.auth_report := None;
            Main.password_mem := Some (replicate 256 0);
            Main.subkeys_mem := Some (Spec.subkeys_for pw) |}.
Proof.
  intros Hpw Hwf Hb Hrule Hflag.
  set (key := Spec.subkeys_for pw) in *.
  destruct (ciphertext_of_blocks file Hwf) as (Hc & Hn & Hiv).
  destruct (decrypted_facts key file Hwf Hb) as (Hd & _ & _).
  pose proof Hwf as (H48 & Hpos & Hmod).
  destruct (region_lengths file H48) as (_ & Hct & _).
  assert (Hbiv : bytes_ok (Spec.iv_of file)) by (apply Forall_take; exact Hb).
  assert (Hbc : bytes_ok (Spec.ciphertext_of file))
    by (apply Forall_take, Forall_drop; exact Hb).
  rewrite (main_encrypt_run _ pw _ Hpw Hiv). fold key.
  f_equal. f_equal. f_equal.
  assert (Hpk : Spec.pkcs7 (Spec.recovered key file) = Spec.decrypted key file).
  { unfold Spec.recovered, Spec.emitted_early. unfold Spec.withheld in *.
    apply pkcs7_restores; [rewrite Hd; exact Hmod | lia | exact Hrule]. }
  assert (Hct' : Spec.ciphertext key (Spec.iv_of file) (Spec.recovered key file)
                 = Spec.ciphertext_of file).
  { unfold Spec.ciphertext. rewrite Hpk.
    rewrite (blocks_exact (Spec.decrypted key file) (Spec.blocks (Spec.ciphertext_of file)))
      by lia.
    unfold Spec.decrypted.
    apply cbc_enc_cbc_dec; assumption. }
  unfold Spec.container. rewrite Hct'.
  assert (Htr : Spec.sha256 (Spec.ciphertext_of file) = Spec.trailer_of file).
  { unfold Spec.digest_flag in Hflag.
    destruct (bool_decide_reflect
                (Spec.sha256 (Spec.ciphertext_of file) = Spec.trailer_of file))
      as [E|_]; [exact E | discriminate Hflag]. }
  rewrite Htr. symmetry. apply file_regions. exact H48.
Qed.

Lemma X27_accepted_file_is_an_encryption_witness :
  let file := Spec.container Samples.subkeys Samples.iv [104; 105] in
  Main.main (Spec.run Main.ModeEncrypt
               (Spec.recovered (Spec.subkeys_for Samples.password) file)
               Samples.password (Spec.iv_of file))
  = Some {| Main.exit_code := 0;
            Main.output_file := Some file;
            Main.auth_report := None;
            Main.password_mem := Some (replicate 256 0);
            Main.subkeys_mem := Some (Spec.subkeys_for Samples.password) |}.
Proof.
  apply (X27_accepted_file_is_an_encryption
           (Spec.container Samples.subkeys Samples.iv [104; 105]) Samples.password).
  - exact sample_password_bytes.
  - apply container_regions. reflexivity.
  - apply container_bytes. bytes_by_evaluation.
  - rewrite sample_subkeys. vm_compute. split; [split; discriminate|].
    repeat constructor.
  - vm_compute. reflexivity.
Defined.

